(** * ModAndroid: updater-script merge, smali patch rules and patch pipeline

    A shallow embedding of the text transformations and of the control flow of
    [Android_Tool/modules/ModAndroid/ModAndroid.pyw]:

    - the [re] patterns of the file are values of [regex], run by a
      backtracking matcher [m] that follows Python's priorities (leftmost
      alternative first, greedy and lazy repetition, numbered groups and
      back-references, multi-line anchors);
    - [re.sub] / [re.subn] are [subn];
    - files, the archive writer and the external tools are explicit state and
      oracles; where a function is modelled on the files themselves, a file
      holds its stored characters, and the text mode of [open] is [read_text]
      (universal newlines) and [write_text] (the line end of the host);
    - modes and owners belong to the nodes of the file system, and a path
      names the node that [os_realpath] gives for it.

    Texts are lists of characters with code points below 256; on that range
    Python's [\s] for [str] patterns and [str.strip] agree with [is_space], and
    [\d] with [is_digit].  Log and error messages are kept where a property
    refers to them, and are written in English; the other log lines of the
    source are left out. *)

From Stdlib Require Import Ascii String List Bool Arith Lia.
From Stdlib Require ZArith.
Import ListNotations.

Set Implicit Arguments.

(** ** Texts *)

Definition text := list ascii.

Definition str (s : string) : text := list_ascii_of_string s.
Arguments str : simpl never.

Definition nl : ascii := "010"%char.

(** [Py_UNICODE_ISSPACE] below U+0100: TAB..CR, FS..US, SPACE, NEL, NBSP. *)
Definition is_space (c : ascii) : bool :=
  let n := nat_of_ascii c in
  ((9 <=? n) && (n <=? 13)) || ((28 <=? n) && (n <=? 32))
  || (n =? 133) || (n =? 160).

Definition is_digit (c : ascii) : bool :=
  let n := nat_of_ascii c in (48 <=? n) && (n <=? 57).

Definition is_nl (c : ascii) : bool := Ascii.eqb c nl.

Fixpoint lstrip (t : text) : text :=
  match t with
  | c :: t' => if is_space c then lstrip t' else t
  | [] => []
  end.

Definition rstrip (t : text) : text := rev (lstrip (rev t)).

(** [str.strip()] *)
Definition strip (t : text) : text := rstrip (lstrip t).

Fixpoint starts_with (w t : text) : bool :=
  match w, t with
  | [], _ => true
  | a :: w', b :: t' => Ascii.eqb a b && starts_with w' t'
  | _ :: _, [] => false
  end.

(** [w in t] for strings *)
Fixpoint occurs (w t : text) : bool :=
  starts_with w t ||
  match t with
  | [] => false
  | _ :: t' => occurs w t'
  end.

(** [sep.join(parts)] *)
Fixpoint join (sep : text) (parts : list text) : text :=
  match parts with
  | [] => []
  | [p] => p
  | p :: ps => p ++ sep ++ join sep ps
  end.

(** ** Regular expressions, as [re] runs them *)

Inductive regex : Type :=
| Eps
| Lit (w : text)                  (* a literal run, also [re.escape(w)] *)
| Cls (f : ascii -> bool)         (* one character of a class *)
| Seq (a b : regex)
| Alt (a b : regex)               (* a|b, a tried first *)
| Star (greedy : bool) (a : regex)(* a* and a*? *)
| Group (i : nat) (a : regex)     (* numbered capture group *)
| Backref (i : nat)               (* \i *)
| Bol                             (* ^ under re.MULTILINE *)
| Eol (multiline : bool).         (* $ *)

Definition dot : regex := Cls (fun c => negb (is_nl c)).   (* . *)
Definition dot_all : regex := Cls (fun _ => true).         (* . under re.DOTALL *)
Definition ws : regex := Cls is_space.                     (* \s *)
Definition digit : regex := Cls is_digit.                  (* \d *)
Definition Plus (g : bool) (a : regex) : regex := Seq a (Star g a).
Definition Opt (a : regex) : regex := Alt a Eps.           (* (?:a)? *)
Definition L (s : string) : regex := Lit (str s).

Fixpoint seqs (rs : list regex) : regex :=
  match rs with
  | [] => Eps
  | [r] => r
  | r :: rs' => Seq r (seqs rs')
  end.

(** Matcher state: the character before the position, the text from the
    position on, and the groups closed so far (latest first). *)
Record st : Type := mkst {
  prev : option ascii;
  rest : text;
  caps : list (nat * text)
}.

Fixpoint get_cap (i : nat) (cs : list (nat * text)) : option text :=
  match cs with
  | [] => None
  | (j, w) :: cs' => if Nat.eqb i j then Some w else get_cap i cs'
  end.

(** Consume the literal [w]. *)
Fixpoint adv (w : text) (s : st) : option st :=
  match w with
  | [] => Some s
  | a :: w' =>
      match rest s with
      | b :: t => if Ascii.eqb a b then adv w' (mkst (Some b) t (caps s)) else None
      | [] => None
      end
  end.

Definition at_bol (s : st) : bool :=
  match prev s with
  | None => true
  | Some c => is_nl c
  end.

Definition at_eol (multiline : bool) (s : st) : bool :=
  match rest s with
  | [] => true
  | c :: t => is_nl c && (multiline || match t with [] => true | _ => false end)
  end.

(** The text consumed between two states of one run. *)
Definition consumed (s s' : st) : text :=
  firstn (length (rest s) - length (rest s')) (rest s).

Definition orelse {A} (x y : option A) : option A :=
  match x with
  | Some _ => x
  | None => y
  end.

(** Repetition of [body]; an iteration has to consume, and [n] bounds the
    number of iterations by the length of the remaining text. *)
Fixpoint star_loop (body : (st -> option st) -> st -> option st)
    (greedy : bool) (k : st -> option st) (n : nat) (s : st) : option st :=
  match n with
  | 0 => k s
  | S n' =>
      let again :=
        body (fun s' =>
                if length (rest s') <? length (rest s)
                then star_loop body greedy k n' s' else None) s in
      if greedy then orelse again (k s) else orelse (k s) again
  end.

(** Backtracking matcher in continuation-passing style: [m r k s] is the
    first success, in Python's priority order, of [r] from [s] followed by [k]. *)
Fixpoint m (r : regex) (k : st -> option st) (s : st) {struct r} : option st :=
  match r with
  | Eps => k s
  | Lit w => match adv w s with Some s' => k s' | None => None end
  | Cls f =>
      match rest s with
      | c :: t => if f c then k (mkst (Some c) t (caps s)) else None
      | [] => None
      end
  | Seq a b => m a (fun s' => m b k s') s
  | Alt a b => orelse (m a k s) (m b k s)
  | Star g a => star_loop (m a) g k (length (rest s)) s
  | Group i a =>
      m a (fun s' => k (mkst (prev s') (rest s') ((i, consumed s s') :: caps s'))) s
  | Backref i =>
      match get_cap i (caps s) with
      | Some w => match adv w s with Some s' => k s' | None => None end
      | None => None
      end
  | Bol => if at_bol s then k s else None
  | Eol ml => if at_eol ml s then k s else None
  end.

(** A match object: the matched text and its groups. *)
Record rmatch_obj : Type := mkmatch {
  whole : text;
  groups : list (nat * text)
}.

Definition group (i : nat) (mo : rmatch_obj) : text :=
  match get_cap i (groups mo) with
  | Some w => w
  | None => []
  end.

(** [pattern.match] at one position. *)
Definition match_at (r : regex) (p : option ascii) (t : text) : option rmatch_obj :=
  let s := mkst p t [] in
  match m r Some s with
  | Some s' => Some (mkmatch (consumed s s') (caps s'))
  | None => None
  end.

(** [pattern.subn(repl, t)]: scan left to right, replace each match, go on
    after it.  [skip] counts the characters of the current match still to be
    passed over.  No pattern of the program matches the empty string; an
    empty match is replaced and the scan moves on by one character. *)
Fixpoint subn_from (r : regex) (repl : rmatch_obj -> text)
    (skip : nat) (p : option ascii) (t : text) : text * nat :=
  match skip with
  | S skip' =>
      match t with
      | c :: t' => subn_from r repl skip' (Some c) t'
      | [] => ([], 0)
      end
  | 0 =>
      match match_at r p t with
      | Some mo =>
          match t with
          | c :: t' =>
              let '(out, n) := subn_from r repl (length (whole mo) - 1) (Some c) t' in
              (repl mo ++ (if length (whole mo) =? 0 then [c] else []) ++ out, S n)
          | [] => (repl mo, 1)
          end
      | None =>
          match t with
          | c :: t' =>
              let '(out, n) := subn_from r repl 0 (Some c) t' in (c :: out, n)
          | [] => ([], 0)
          end
      end
  end.

Definition subn (r : regex) (repl : rmatch_obj -> text) (t : text) : text * nat :=
  subn_from r repl 0 None t.

Definition sub (r : regex) (repl : rmatch_obj -> text) (t : text) : text :=
  fst (subn r repl t).

(** [pattern.search(t)]: the end offset of the leftmost match. *)
Fixpoint search_from (r : regex) (off : nat) (p : option ascii) (t : text)
  : option (nat * nat) :=
  match match_at r p t with
  | Some mo => Some (off, off + length (whole mo))
  | None =>
      match t with
      | c :: t' => search_from r (S off) (Some c) t'
      | [] => None
      end
  end.

Definition search (r : regex) (t : text) : option (nat * nat) :=
  search_from r 0 None t.

(** ** What a match is

    The matches of a regular expression, without the search order: [rmatch r
    s s'] holds when [r] can take the matcher from state [s] to state [s']. *)
Inductive rmatch : regex -> st -> st -> Prop :=
| RM_Eps s : rmatch Eps s s
| RM_Lit w s s' : adv w s = Some s' -> rmatch (Lit w) s s'
| RM_Cls f c t p cs :
    f c = true -> rmatch (Cls f) (mkst p (c :: t) cs) (mkst (Some c) t cs)
| RM_Seq a b s s1 s2 : rmatch a s s1 -> rmatch b s1 s2 -> rmatch (Seq a b) s s2
| RM_AltL a b s s' : rmatch a s s' -> rmatch (Alt a b) s s'
| RM_AltR a b s s' : rmatch b s s' -> rmatch (Alt a b) s s'
| RM_Star0 g a s : rmatch (Star g a) s s
| RM_StarS g a s s1 s2 :
    rmatch a s s1 -> length (rest s1) < length (rest s) ->
    rmatch (Star g a) s1 s2 -> rmatch (Star g a) s s2
| RM_Group i a s s' :
    rmatch a s s' ->
    rmatch (Group i a) s (mkst (prev s') (rest s') ((i, consumed s s') :: caps s'))
| RM_Backref i w s s' :
    get_cap i (caps s) = Some w -> adv w s = Some s' -> rmatch (Backref i) s s'
| RM_Bol s : at_bol s = true -> rmatch Bol s s
| RM_Eol ml s : at_eol ml s = true -> rmatch (Eol ml) s s.

(** The texts a regular expression can consume, anchors and the content of
    back-references left aside. *)
Fixpoint lang (r : regex) (w : text) : Prop :=
  match r with
  | Eps => w = []
  | Lit v => w = v
  | Cls f => exists c, w = [c] /\ f c = true
  | Seq a b => exists w1 w2, w = w1 ++ w2 /\ lang a w1 /\ lang b w2
  | Alt a b => lang a w \/ lang b w
  | Star _ a => exists ws, w = concat ws /\ Forall (lang a) ws
  | Group _ a => lang a w
  | Backref _ => True
  | Bol => w = []
  | Eol _ => w = []
  end.

Fixpoint has_group (r : regex) : bool :=
  match r with
  | Seq a b | Alt a b => has_group a || has_group b
  | Star _ a => has_group a
  | Group _ _ => true
  | _ => false
  end.

(** The character before the position after [w]. *)
Definition prev_after (p : option ascii) (w : text) : option ascii :=
  fold_left (fun _ c => Some c) w p.

(** A greedy and a lazy run over the characters of a class, as the matcher
    performs them for [\s*], [\n*], [.*?]: the continuation [k] is tried at
    the positions of the run, from the far end backwards (greedy) or from the
    start forwards (lazy). *)
Fixpoint greedy_cls (f : ascii -> bool) (k : st -> option st)
    (p : option ascii) (t : text) (cs : list (nat * text)) : option st :=
  match t with
  | c :: t' =>
      if f c then orelse (greedy_cls f k (Some c) t' cs) (k (mkst p t cs))
      else k (mkst p t cs)
  | [] => k (mkst p [] cs)
  end.

Fixpoint lazy_cls (f : ascii -> bool) (k : st -> option st)
    (p : option ascii) (t : text) (cs : list (nat * text)) : option st :=
  orelse (k (mkst p t cs))
    match t with
    | c :: t' => if f c then lazy_cls f k (Some c) t' cs else None
    | [] => None
    end.

(** One step of a class, as a matcher body. *)
Definition cls_step (f : ascii -> bool) (k : st -> option st) (s : st) : option st :=
  match rest s with
  | c :: t => if f c then k (mkst (Some c) t (caps s)) else None
  | [] => None
  end.

(** ** Updater-script merge *)

Definition dq : ascii := "034"%char.   (* the double quote *)

Definition q (t : text) : text := [dq] ++ t ++ [dq].

(** [build_edify_line(path_edify, is_dir, mode_expect)] *)
Definition build_edify_line (path_edify : text) (is_dir : bool) (mode_expect : text) : text :=
  let mode_str :=
    if length mode_expect =? 3 then str "0" ++ mode_expect else mode_expect in
  let head :=
    q path_edify ++ str ", " ++ q (str "uid") ++ str ", 0, " ++ q (str "gid")
    ++ str ", 0, " ++ q (str "mode") ++ str ", " ++ mode_str in
  if is_dir then str "set_metadata_recursive(" ++ head ++ str ");"
  else str "set_metadata(" ++ head ++ str ", " ++ q (str "context") ++ str ", "
       ++ q (str "u:object_r:system_file:s0") ++ str ");".

(** [r'^\s*set_metadata(?:_recursive)?\(\s*"' + re.escape(p) + r'"\s*,.*?\);\s*$'],
    compiled with [re.MULTILINE]. *)
Definition directive_pattern (edify_path : text) : regex :=
  seqs [Bol; Star true ws; L "set_metadata"; Opt (L "_recursive"); L "(";
        Star true ws; Lit [dq]; Lit edify_path; Lit [dq]; Star true ws; L ",";
        Star false dot; L ");"; Star true ws; Eol true].

(** [r'\n\s*\n'] *)
Definition blank_lines_pattern : regex :=
  seqs [Lit [nl]; Star true ws; Lit [nl]].

Definition start_marker : text := str "# === Tool: auto-permission ===".
Definition end_marker : text := str "# === End Tool Block ===".

(** [r'\n*# === Tool: auto-permission ===.*?# === End Tool Block ===\n*'],
    compiled with [re.DOTALL]. *)
Definition block_pattern : regex :=
  seqs [Star true (Lit [nl]); Lit start_marker; Star false dot_all;
        Lit end_marker; Star true (Lit [nl])].

Definition mount_points : list text :=
  [ str "mount(" ++ q (str "ext4") ++ str ", " ++ q (str "EMMC") ++ str ", "
    ++ q (str "/dev/block/bootdevice/by-name/system") ++ str ", "
    ++ q (str "/system") ++ str ");";
    str "run_program(" ++ q (str "/system/bin/mount") ++ str ", "
    ++ q (str "/system") ++ str ");" ].

Definition item : Type := text * bool * text.   (* (edify_path, is_dir, mode) *)

(** The first loop of [ensure_edify_stat_lines]: drop the lines of each
    requested path, count, and collect the fresh lines. *)
Fixpoint remove_existing (items : list item) (current_text : text)
    (added updated : nat) (lines_to_add : list text)
  : text * nat * nat * list text :=
  match items with
  | [] => (current_text, added, updated, lines_to_add)
  | (edify_path, is_dir, mode) :: items' =>
      let '(current_text', count) :=
        subn (directive_pattern edify_path) (fun _ => []) current_text in
      let line := build_edify_line edify_path is_dir mode in
      if 0 <? count
      then remove_existing items' current_text' added (S updated) (lines_to_add ++ [line])
      else remove_existing items' current_text' (S added) updated (lines_to_add ++ [line])
  end.

(** The first mount directive found, in the order of [mount_points]:
    [match.end()] of the first pattern that occurs. *)
Fixpoint insertion_point (points : list text) (current_text : text) : option nat :=
  match points with
  | [] => None
  | point :: points' =>
      match search (Lit point) current_text with
      | Some (_, e) => Some e
      | None => insertion_point points' current_text
      end
  end.

Definition block_open : text := [nl; nl] ++ start_marker ++ [nl].
Definition block_close : text := [nl] ++ end_marker.

(** The managed block as the last statement of the function appends it. *)
Definition managed_block (lines_to_add : list text) : text :=
  block_open ++ join [nl] lines_to_add ++ block_close.

(** [new_content] of the source: computed from the insertion point, and not
    used for the result. *)
Definition new_content (current_text : text) (lines_to_add : list text) : text :=
  match insertion_point mount_points current_text with
  | Some ip =>
      firstn ip current_text ++ block_open ++ join [nl] lines_to_add
      ++ block_close ++ [nl] ++ skipn ip current_text
  | None =>
      strip current_text ++ block_open ++ join [nl] lines_to_add ++ block_close ++ [nl]
  end.

(** [ensure_edify_stat_lines(script_text, items)] *)
Definition ensure_edify_stat_lines (script_text : text) (items : list item)
  : text * nat * nat :=
  let '(current_text, added, updated, lines_to_add) :=
    remove_existing items script_text 0 0 [] in
  let current_text := sub blank_lines_pattern (fun _ => [nl]) current_text in
  let _ := new_content current_text lines_to_add in
  let final_text := sub block_pattern (fun _ => []) (strip current_text) in
  let final_text := final_text ++ managed_block lines_to_add in
  (final_text, added, updated).

Definition merge_text (s : text) (items : list item) : text :=
  fst (fst (ensure_edify_stat_lines s items)).

(** ** Smali patch rules *)

(** [r"(\.method public noteOp(?:NoThrow)?\(.*?\)Z\s*\.registers \d+)(.*?)(\.end method)"],
    compiled with [re.DOTALL]. *)
Definition pattern_bool : regex :=
  seqs [Group 1 (seqs [L ".method public noteOp"; Opt (L "NoThrow"); L "(";
                       Star false dot_all; L ")Z"; Star true ws;
                       L ".registers "; Plus true digit]);
        Group 2 (Star false dot_all);
        Group 3 (L ".end method")].

(** [r"\1\n\n    const/4 v0, 0x1\n    return v0\n\n\3"] *)
Definition replacement_bool (mo : rmatch_obj) : text :=
  group 1 mo ++ [nl; nl] ++ str "    const/4 v0, 0x1" ++ [nl]
  ++ str "    return v0" ++ [nl; nl] ++ group 3 mo.

(** [r"(\.method public (?:note|check)(?:Proxy)?Op(?:NoThrow)?\(.*?\)I\s*\.registers \d+)(.*?)(\.end method)"],
    compiled with [re.DOTALL]. *)
Definition pattern_int : regex :=
  seqs [Group 1 (seqs [L ".method public "; Alt (L "note") (L "check");
                       Opt (L "Proxy"); L "Op"; Opt (L "NoThrow"); L "(";
                       Star false dot_all; L ")I"; Star true ws;
                       L ".registers "; Plus true digit]);
        Group 2 (Star false dot_all);
        Group 3 (L ".end method")].

(** [r"\1\n\n    .locals 1\n    const/4 v0, 0x0\n    return v0\n\n\3"] *)
Definition replacement_int (mo : rmatch_obj) : text :=
  group 1 mo ++ [nl; nl] ++ str "    .locals 1" ++ [nl]
  ++ str "    const/4 v0, 0x0" ++ [nl]
  ++ str "    return v0" ++ [nl; nl] ++ group 3 mo.

(** The text part of [patch_system_app_ops_helper]: both substitutions, in
    the order of the source, with their counts. *)
Definition app_ops_rewrite (content : text) : text * nat * nat :=
  let '(patched_content, count_bool) := subn pattern_bool replacement_bool content in
  let '(patched_content, count_int) := subn pattern_int replacement_int patched_content in
  (patched_content, count_bool, count_int).

Definition not_comma (c : ascii) : bool := negb (Ascii.eqb c ","%char).

Definition const_op : regex := Alt (L "const/4") (Alt (L "const/16") (L "const")).

Definition register_re : regex := Seq (Alt (L "p") (L "v")) (Plus true digit).

Definition line_annotation : regex :=
  seqs [Star true ws; L ".line"; Plus true ws; Plus true digit; Star true ws; Lit [nl]].

Definition set_mock_sig : text :=
  str "}, Landroid/location/Location;->setIsFromMockProvider(Z)V".

(** The pattern of [patch_mock_location_provider]:
    group 1 the constant load, group 2 its register, group 3 the [.line]
    annotations, group 4 the invocation that passes [\2]. *)
Definition mock_pattern : regex :=
  seqs [Group 1 (seqs [Star true ws; const_op; Plus true ws; Group 2 register_re;
                       L ","; Plus true ws; L "0x1"; Star true ws; Lit [nl]]);
        Group 3 (Star true line_annotation);
        Group 4 (seqs [Star true ws; L "invoke-virtual"; Plus true ws; L "{";
                       Plus true (Cls not_comma); L ","; Plus true ws; Backref 2;
                       Lit set_mock_sig])].

(** [r'0x1\s*$'] *)
Definition true_literal_at_end : regex := seqs [L "0x1"; Star true ws; Eol false].

Definition restore_instr (register : text) : text :=
  [nl] ++ str "    const/4 " ++ register ++ str ", 0x1".

(** [_replacer_mock_location(match)] *)
Definition _replacer_mock_location (mo : rmatch_obj) : text :=
  let const_line_full := group 1 mo in
  let register := group 2 mo in
  let lines := group 3 mo in
  let invoke := group 4 mo in
  let patched_const_line :=
    sub true_literal_at_end (fun _ => str "0x0") (rstrip const_line_full) ++ [nl] in
  let restore := if starts_with (str "p") register then restore_instr register else [] in
  patched_const_line ++ lines ++ invoke ++ restore.

(** The text part of [patch_mock_location_provider]. *)
Definition mock_rewrite (content : text) : text * nat :=
  subn mock_pattern _replacer_mock_location content.

(** [r"^\s*\.line\s+\d+\s*$"], used with [pattern.match(line)]. *)
Definition line_num_pattern : regex :=
  seqs [Bol; Star true ws; L ".line"; Plus true ws; Plus true digit; Star true ws; Eol false].

(** ** Text mode

    The files of the program are opened in text mode.  Reading translates the
    line ends of the stored characters (universal newlines: [\r\n] and a lone
    [\r] become [\n]); writing turns [\n] into [os.linesep], unless the file
    is opened with [newline='\n']. *)

Definition cr : ascii := "013"%char.

(** What [open(path, "r")] delivers of the stored characters. *)
Fixpoint read_text (stored : text) : text :=
  match stored with
  | [] => []
  | c :: rest =>
      if Ascii.eqb c cr then
        nl :: match rest with
              | d :: rest' => if is_nl d then read_text rest' else read_text rest
              | [] => []
              end
      else c :: read_text rest
  end.

(** [os.linesep] *)
Definition linesep (windows : bool) : text := if windows then [cr; nl] else [nl].

(** What [open(path, "w")] stores of a text. *)
Definition write_text (windows : bool) (t : text) : text :=
  flat_map (fun c => if is_nl c then linesep windows else [c]) t.

(** [f.readlines()] on the text that text mode delivers: its lines with
    their line ends. *)
Fixpoint readlines_acc (cur : text) (t : text) : list text :=
  match t with
  | [] => match cur with [] => [] | _ => [rev cur] end
  | c :: t' =>
      if is_nl c then rev (c :: cur) :: readlines_acc [] t'
      else readlines_acc (c :: cur) t'
  end.

Definition readlines (t : text) : list text := readlines_acc [] t.

(** The per-file rewrite of [remove_debug_lines], from the stored characters
    to the stored characters: the lines are read in text mode, and those the
    pattern does not match are written in text mode. *)
Definition strip_debug_lines (windows : bool) (stored : text) : text :=
  write_text windows
    (concat (filter (fun line =>
                       match match_at line_num_pattern None line with
                       | Some _ => false
                       | None => true
                       end) (readlines (read_text stored)))).

(** ** Files *)

Definition path := text.

Definition path_eqb (a b : path) : bool :=
  if list_eq_dec ascii_dec a b then true else false.

(** A file system: the content of each regular file. *)
Definition fs := path -> option text.

Definition fs_write (p : path) (c : option text) (f : fs) : fs :=
  fun p' => if path_eqb p' p then c else f p'.

(** What the operating system may do to the file operations of one call of
    [update_updater_script]: [copy_fails] and [write_fails] hold what the
    failed operation leaves at its target ([None]: no file, for a copy; for
    a write, the file as the failed [open]/[write] left it); the outer
    [None] is success. *)
Record io_oracle : Type := mkio {
  timestamp : text;
  copy_fails : option (option text);
  read_fails : bool;
  write_fails : option (option text)
}.

(** ** [update_updater_script] *)

Record entry : Type := mkentry {
  path_abs : path;
  type_ : text;
  mode_expect : text
}.

Record script_result : Type := mkresult {
  script_path : option path;
  added : nat;
  updated : nat;
  skipped : nat;
  notes : list text
}.

Definition sep : text := str "/".

(** [os.path.join] with the POSIX separator. *)
Definition path_join (parts : list text) : path := join sep parts.

Definition updater_script_path (rom_root : path) : path :=
  path_join [rom_root; str "META-INF"; str "com"; str "google"; str "android";
             str "updater-script"].

(** [find_updater_script(rom_root)] *)
Definition find_updater_script (f : fs) (rom_root : path) : option path :=
  let p := updater_script_path rom_root in
  match f p with
  | Some _ => Some p
  | None => None
  end.

Definition standard_partitions : list text :=
  [str "system"; str "vendor"; str "product"; str "system_ext"; str "odm"; str "oem"].

(** [rel_path.split('/')[0]] *)
Fixpoint first_part (t : text) : text :=
  match t with
  | [] => []
  | c :: t' => if Ascii.eqb c "/"%char then [] else c :: first_part t'
  end.

(** [t.replace(old, new)] for a non-empty [old]. *)
Definition replace (old new t : text) : text := sub (Lit old) (fun _ => new) t.

Section UpdaterScript.

(** Services of the operating system: [relpath a r] is
    [Path(os.path.relpath(Path(a).as_posix(), Path(r).as_posix())).as_posix()],
    [None] when it raises [ValueError]; [isdir] is [os.path.isdir]; [basename]
    is [os.path.basename]. *)
Variable relpath : path -> path -> option path.
Variable isdir : path -> bool.
Variable basename : path -> text.

(** [to_edify_path(abs_path, rom_root)] *)
Definition to_edify_path (abs_path rom_root : path) : option (text * bool) :=
  match relpath abs_path rom_root with
  | Some rel_path =>
      if existsb (path_eqb (first_part rel_path)) standard_partitions
      then Some (sep ++ rel_path, isdir abs_path)
      else None
  | None => None
  end.

(** The loop over [entries]: the items in scope, the skip count and notes. *)
Fixpoint collect_items (entries : list entry) (rom_root : path)
    (items : list item) (skipped : nat) (notes : list text)
  : list item * nat * list text :=
  match entries with
  | [] => (items, skipped, notes)
  | e :: entries' =>
      match to_edify_path (path_abs e) rom_root with
      | Some (edify_path, is_dir) =>
          collect_items entries' rom_root
            (items ++ [(edify_path, is_dir, replace (str "0o") [] (mode_expect e))]) skipped notes
      | None =>
          collect_items entries' rom_root items (S skipped)
            (notes ++ [str "Skipped (out of scope): " ++ basename (path_abs e)])
      end
  end.

Definition backup_path_of (script : path) (ts : text) : path :=
  script ++ str ".bak." ++ ts.

(** [update_updater_script(entries, rom_root)] on the file system [f].  The
    backup is a copy of the stored bytes; the script is read in text mode
    ([read_text]) and written with [newline='\n'], that is, as it stands. *)
Definition update_updater_script (io : io_oracle) (entries : list entry)
    (rom_root : path) (f : fs) : script_result * fs :=
  match find_updater_script f rom_root with
  | None =>
      (mkresult None 0 0 0
         [str "ROM A/B (payload) - no updater-script. Use fs_config/system.img"], f)
  | Some script =>
      let '(items_to_process, skipped, notes) :=
        collect_items entries rom_root [] 0 [] in
      match items_to_process with
      | [] => (mkresult (Some script) 0 0 skipped notes, f)
      | _ :: _ =>
          let backup_path := backup_path_of script (timestamp io) in
          match copy_fails io with
          | Some remains =>
              (mkresult (Some script) 0 0 skipped (notes ++ [str "ERROR: copy"]),
               fs_write backup_path remains f)
          | None =>
              let f1 := fs_write backup_path (f script) f in
              match (if read_fails io then None else f1 script) with
              | None =>
                  (mkresult (Some script) 0 0 skipped (notes ++ [str "ERROR: read"]), f1)
              | Some stored =>
                  let original_content := read_text stored in
                  let '(new_text, added, updated) :=
                    ensure_edify_stat_lines original_content items_to_process in
                  match write_fails io with
                  | Some remains =>
                      (mkresult (Some script) 0 0 skipped (notes ++ [str "ERROR: write"]),
                       fs_write script remains f1)
                  | None =>
                      (mkresult (Some script) added updated skipped
                         (notes ++ [str "Backup created at: " ++ basename backup_path]),
                       fs_write script (Some new_text) f1)
                  end
              end
          end
      end
  end.

End UpdaterScript.

(** ** [PermissionThread] *)

(** Mode, owner and group of a node of the file system, under the path that
    names it without symbolic links. *)
Definition meta := path -> option (nat * nat * nat).

Record world : Type := mkworld {
  files : fs;
  metas : meta
}.

Inductive pevent : Type :=
| PLog (msg : text)
| TaskFinished (success : bool)
| ScriptUpdateFinished (r : script_result).

Record perm_thread : Type := mkperm {
  action_type : text;
  target : path;            (* self.path *)
  recursive : bool;
  rom_root_opt : option path;
  update_script : bool;
  is_windows : bool         (* sys.platform == "win32" *)
}.

(** The operating system as [PermissionThread] sees it.  [cwd_relpath] is
    [os.path.relpath(p)], [None] when it raises; [walk_dirs] lists the
    directory paths [os.walk] yields below a path, in order, the symbolic
    links to directories among them.  [os.chmod] and [os.chown] follow
    symbolic links: [os_realpath p] is the path of the node that [p] names,
    and the modes and owners of a [world] are those of the nodes. *)
Record perm_os : Type := mkpos {
  cwd_relpath : path -> option text;
  chmod_ok : path -> bool;
  chown_ok : path -> bool;
  walk_dirs : path -> list path;
  os_relpath : path -> path -> option path;
  os_isdir : path -> bool;
  os_basename : path -> text;
  script_io : io_oracle;
  os_realpath : path -> path
}.

Definition set_mode (p : path) (mode : nat) (mt : meta) : meta :=
  fun p' => if path_eqb p' p
            then match mt p' with
                 | Some (_, u, g) => Some (mode, u, g)
                 | None => None
                 end
            else mt p'.

Definition set_owner (p : path) (uid gid : nat) (mt : meta) : meta :=
  fun p' => if path_eqb p' p
            then match mt p' with
                 | Some (md, _, _) => Some (md, uid, gid)
                 | None => None
                 end
            else mt p'.

(** [oct(0o755)] and [oct(0o644)] *)
Definition perm_str (is_dir : bool) : text :=
  if is_dir then str "0o755" else str "0o644".

(** 0o755 and 0o644 *)
Definition perm_octal (is_dir : bool) : nat := if is_dir then 493 else 420.

(** [_set_perms(target_path, is_dir)]: the log lines, the new world and the
    returned flag; [None] for the flag when [os.path.relpath] raises. *)
Definition _set_perms (os : perm_os) (th : perm_thread) (target_path : path)
    (is_dir : bool) (w : world) : list pevent * world * option bool :=
  match cwd_relpath os target_path with
  | None => ([], w, None)
  | Some rel_path =>
      if is_windows th then
        ([PLog (str "   (Windows) Log: chmod " ++ perm_str is_dir ++ str " " ++ q rel_path);
          PLog (str "   (Windows) Log: chown root:root " ++ q rel_path)],
         w, Some true)
      else if chmod_ok os target_path then
        let node := os_realpath os target_path in
        let w1 := mkworld (files w) (set_mode node (perm_octal is_dir) (metas w)) in
        if chown_ok os target_path then
          ([], mkworld (files w1) (set_owner node 0 0 (metas w1)), Some true)
        else ([PLog (str "   error on " ++ rel_path)], w1, Some false)
      else ([PLog (str "   error on " ++ rel_path)], w, Some false)
  end.

(** The recursive sweep: [success] turns false on a failed directory, and an
    exception ends the sweep with [success = False]. *)
Fixpoint sweep (os : perm_os) (th : perm_thread) (dirs : list path)
    (success : bool) (w : world) : list pevent * world * bool :=
  match dirs with
  | [] => ([], w, success)
  | dir_path :: dirs' =>
      match _set_perms os th dir_path true w with
      | (ev, w1, None) => (ev ++ [PLog (str "   error in recursive walk")], w1, false)
      | (ev, w1, Some ok) =>
          let '(ev', w2, s) := sweep os th dirs' (success && ok) w1 in
          (ev ++ ev', w2, s)
      end
  end.

(** [self.rom_root] as a condition: [None] and the empty string are false. *)
Definition truthy (r : option path) : option path :=
  match r with
  | Some ((_ :: _) as p) => Some p
  | _ => None
  end.

(** The tail of [run]: the completion log, [task_finished] and the
    updater-script hook. *)
Definition finish_run (os : perm_os) (th : perm_thread) (success : bool)
    (mode_expect_str : text) (w : world) : list pevent * world :=
  let done :=
    [PLog (if success then str "--- done ---" else str "--- done with errors ---");
     TaskFinished success] in
  match truthy (rom_root_opt th) with
  | Some rom_root =>
      if success && update_script th && negb (is_windows th) then
        let e := mkentry (target th)
                   (if path_eqb (action_type th) (str "dir") then str "dir" else str "file")
                   mode_expect_str in
        let '(result, f') :=
          update_updater_script (os_relpath os) (os_isdir os) (os_basename os)
            (script_io os) [e] rom_root (files w) in
        (done ++ [PLog (str "--- updating updater-script ---"); ScriptUpdateFinished result],
         mkworld f' (metas w))
      else (done, w)
  | None => (done, w)
  end.

(** [PermissionThread.run()] *)
Definition perm_run (os : perm_os) (th : perm_thread) (w : world)
  : list pevent * world :=
  let hello :=
    PLog (str "--- set permissions: " ++ os_basename os (target th))
    :: (if is_windows th then [PLog (str "Windows mode: log only")] else []) in
  if path_eqb (action_type th) (str "apk") then
    match _set_perms os th (target th) false w with
    | (ev, w1, None) => (hello ++ ev, w1)
    | (ev, w1, Some success) =>
        let '(ev', w2) := finish_run os th success (str "644") w1 in
        (hello ++ ev ++ ev', w2)
    end
  else if path_eqb (action_type th) (str "dir") then
    match _set_perms os th (target th) true w with
    | (ev, w1, None) => (hello ++ ev, w1)
    | (ev, w1, Some false) => (hello ++ ev ++ [TaskFinished false], w1)
    | (ev, w1, Some true) =>
        if recursive th then
          let '(ev1, w2, success) := sweep os th (walk_dirs os (target th)) true w1 in
          let '(ev2, w3) := finish_run os th success (str "755") w2 in
          (hello ++ ev ++ [PLog (str "   - recursive")] ++ ev1 ++ ev2, w3)
        else
          let '(ev2, w3) := finish_run os th true (str "755") w1 in
          (hello ++ ev ++ ev2, w3)
    end
  else
    let '(ev2, w3) := finish_run os th true [] w in
    (hello ++ ev2, w3).

(** ** [GpsPatcherThread] *)

(** A disassembled file of the working directory. *)
Record sfile : Type := mksfile {
  fname : text;
  fcontent : text;
  readable : bool;
  writable : bool
}.

(** A top-level entry of the working directory, with the files [os.walk]
    finds below it, in order. *)
Record sdir : Type := mksdir {
  dname : text;
  d_is_dir : bool;
  dfiles : list sfile
}.

Definition tree := list sdir.

Definition is_smali_dir (d : sdir) : bool :=
  d_is_dir d && starts_with (str "smali") (dname d).

Fixpoint find_file (primary_name : text) (fl : list sfile) : option sfile :=
  match fl with
  | [] => None
  | f :: fl' => if path_eqb primary_name (fname f) then Some f else find_file primary_name fl'
  end.

(** [find_smali_file]: the first file of that name below a [smali*] directory. *)
Fixpoint find_smali_file (t : tree) (primary_name : text) : option sfile :=
  match t with
  | [] => None
  | d :: t' =>
      match (if is_smali_dir d then find_file primary_name (dfiles d) else None) with
      | Some f => Some f
      | None => find_smali_file t' primary_name
      end
  end.

Fixpoint write_file (primary_name : text) (c : text) (fl : list sfile) : list sfile :=
  match fl with
  | [] => []
  | f :: fl' =>
      if path_eqb primary_name (fname f)
      then mksfile (fname f) c (readable f) (writable f) :: fl'
      else f :: write_file primary_name c fl'
  end.

(** Writing the file [find_smali_file] returned. *)
Fixpoint write_smali_file (t : tree) (primary_name : text) (c : text) : tree :=
  match t with
  | [] => []
  | d :: t' =>
      match (if is_smali_dir d then find_file primary_name (dfiles d) else None) with
      | Some _ => mksdir (dname d) (d_is_dir d) (write_file primary_name c (dfiles d)) :: t'
      | None => d :: write_smali_file t' primary_name c
      end
  end.

(** [patch_system_app_ops_helper(smali_root_dir)] on a host that is Windows
    or not: the file is read and written in text mode. *)
Definition patch_system_app_ops_helper (windows : bool) (t : tree) : bool * tree :=
  match find_smali_file t (str "SystemAppOpsHelper.smali") with
  | None => (false, t)
  | Some f =>
      if readable f then
        let '(patched_content, count_bool, count_int) :=
          app_ops_rewrite (read_text (fcontent f)) in
        if (count_bool =? 0) && (count_int =? 0) then (false, t)
        else if writable f
             then (true, write_smali_file t (str "SystemAppOpsHelper.smali")
                           (write_text windows patched_content))
             else (false, t)
      else (false, t)
  end.

(** [patch_mock_location_provider(smali_root_dir)] *)
Definition patch_mock_location_provider (windows : bool) (t : tree) : bool * tree :=
  match find_smali_file t (str "MockLocationProvider.smali") with
  | None => (false, t)
  | Some f =>
      if readable f then
        let '(patched_content, count) := mock_rewrite (read_text (fcontent f)) in
        if 0 <? count then
          if writable f
          then (true, write_smali_file t (str "MockLocationProvider.smali")
                        (write_text windows patched_content))
          else (false, t)
        else (false, t)
      else (false, t)
  end.

Definition ends_with (w t : text) : bool := starts_with (rev w) (rev t).

(** [remove_debug_lines(smali_root_dir)] *)
Definition remove_debug_lines (windows : bool) (t : tree) : tree :=
  map (fun d =>
         mksdir (dname d) (d_is_dir d)
           (map (fun f =>
                   if ends_with (str ".smali") (fname f) && readable f && writable f
                   then mksfile (fname f) (strip_debug_lines windows (fcontent f)) true true
                   else f) (dfiles d))) t.

(** Archives and the files of the host. *)
Definition member := (text * text)%type.

Inductive fcont : Type :=
| Archive (ms : list member)      (* a complete zip file *)
| Partial (ms : list member)      (* a zip file a failed writer left behind *)
| Other (c : text).

Record gworld : Type := mkgworld {
  gfiles : path -> option fcont;
  tmp_dirs : list path
}.

Definition gwrite (p : path) (c : option fcont) (w : gworld) : gworld :=
  mkgworld (fun p' => if path_eqb p' p then c else gfiles w p') (tmp_dirs w).

Inductive gevent : Type :=
| GLog (msg : text)
| Progress (n : nat)
| PatchFinished (ok : bool) (msg : text)
| CancelledSig.

(** Where the archive writer fails, if it does. *)
Inductive save_fault : Type :=
| OpenInput | OpenOutput | CopyMember (k : nat) | WriteDex (k : nat) | MoveIntoPlace.

(** What becomes of a dex member of the archive: [zin.extract] raises, or
    the member is extracted and its disassembler task fails or succeeds. *)
Inductive dex_result : Type := ExtractRaises | TaskFails | Disassembled.

(** The environment of one run.  [cancel_at i] is [_cancel_requested] as the
    [i]-th call of [_check_cancel] reads it; [dex_result_of] says what becomes
    of each dex member, [decompiled] is the working directory as the
    disassembler tasks leave it; [assemble api d] is the reassembler's output
    for directory [d]; [host_windows] says whether the host is Windows, where
    text mode writes [\r\n]. *)
Record genv : Type := mkgenv {
  baksmali_exists : bool;
  smali_exists : bool;
  cancel_at : nat -> bool;
  temp_dir : path;
  dex_result_of : text -> dex_result;
  decompiled : tree;
  assemble : bool -> text -> tree -> option text;
  fault : option save_fault;
  g_basename : path -> text;
  host_windows : bool
}.

(** [zin.extract(dex_file, smali_base_dir)] returns. *)
Definition extract_ok (e : genv) (dex_file : text) : bool :=
  match dex_result_of e dex_file with
  | ExtractRaises => false
  | _ => true
  end.

(** The disassembler task of a dex file returns [True]. *)
Definition decompile_ok (e : genv) (dex_file : text) : bool :=
  match dex_result_of e dex_file with
  | Disassembled => true
  | _ => false
  end.

Record gthread : Type := mkgthread {
  input_file : path;
  patched_dir : path;
  overwrite_original : bool
}.

(** Results of a step: a value, an early [return], or an exception that
    leaves [run]. *)
Inductive res (A : Type) : Type :=
| Ok (a : A)
| Return
| Raise.
Arguments Ok {A} a.
Arguments Return {A}.
Arguments Raise {A}.

Record gstate : Type := mkgstate {
  events : list gevent;
  gw : gworld
}.

Definition G (A : Type) : Type := gstate -> gstate * res A.

Definition ret {A} (a : A) : G A := fun s => (s, Ok a).

Definition bind {A B} (c : G A) (k : A -> G B) : G B :=
  fun s =>
    match c s with
    | (s', Ok a) => k a s'
    | (s', Return) => (s', Return)
    | (s', Raise) => (s', Raise)
    end.

Notation "x <- c ;; k" := (bind c (fun x => k))
  (at level 61, c at next level, right associativity).
Notation "c ;;; k" := (bind c (fun _ => k))
  (at level 61, right associativity).

Definition emit (e : gevent) : G unit :=
  fun s => (mkgstate (events s ++ [e]) (gw s), Ok tt).

Definition return_ {A} : G A := fun s => (s, Return).
Definition raise {A} : G A := fun s => (s, Raise).
Definition get_world : G gworld := fun s => (s, Ok (gw s)).
Definition put_world (w : gworld) : G unit := fun s => (mkgstate (events s) w, Ok tt).

(** [self.patch_finished.emit(False, msg); return] *)
Definition fail_with {A} (msg : text) : G A :=
  emit (PatchFinished false msg) ;;; return_.

(** [if self._check_cancel(): return] at checkpoint [i]. *)
Definition check_cancel (e : genv) (i : nat) : G unit :=
  if cancel_at e i
  then emit (GLog (str "cancelled by user")) ;;; emit CancelledSig ;;; return_
  else ret tt.

Fixpoint text_ltb (a b : text) : bool :=
  match a, b with
  | [], [] => false
  | [], _ :: _ => true
  | _ :: _, [] => false
  | x :: a', y :: b' =>
      (nat_of_ascii x <? nat_of_ascii y)
      || ((nat_of_ascii x =? nat_of_ascii y) && text_ltb a' b')
  end.

Fixpoint insert_sorted (x : text) (l : list text) : list text :=
  match l with
  | [] => [x]
  | y :: l' => if text_ltb y x then y :: insert_sorted x l' else x :: l
  end.

(** [sorted(names)] *)
Definition sorted (l : list text) : list text := fold_right insert_sorted [] l.

Definition is_dex_name (f : text) : bool :=
  starts_with (str "classes") f && ends_with (str ".dex") f.

(** [dict[k] = v] on an insertion-ordered dict. *)
Fixpoint dict_set (k v : text) (d : list member) : list member :=
  match d with
  | [] => [(k, v)]
  | (k', v') :: d' => if path_eqb k k' then (k, v) :: d' else (k', v') :: dict_set k v d'
  end.

Definition dex_name_of (smali_dir_name : text) : text :=
  if path_eqb smali_dir_name (str "smali") then str "classes.dex"
  else replace (str "smali_") [] smali_dir_name ++ str ".dex".

(** One reassembly task: API level 33 first, then the default. *)
Definition run_recompile_task (e : genv) (t : tree) (d : text) : option text :=
  match assemble e true d t with
  | Some bytes => Some bytes
  | None => assemble e false d t
  end.

(** All reassembly tasks: the dex files by name, or [None] when a task failed. *)
Fixpoint recompile_all (e : genv) (t : tree) (dirs : list text)
    (acc : list member) : option (list member) :=
  match dirs with
  | [] => Some acc
  | d :: dirs' =>
      match run_recompile_task e t d with
      | Some bytes => recompile_all e t dirs' (dict_set (dex_name_of d) bytes acc)
      | None => None
      end
  end.

Definition open_archive (w : gworld) (p : path) : option (list member) :=
  match gfiles w p with
  | Some (Archive ms) => Some ms
  | _ => None
  end.

(** What the writer has put into the output when the fault strikes; [None]
    when the fault does not strike during the copy. *)
Definition written_before_fault (e : genv) (others dexes : list member)
  : option (list member) :=
  match fault e with
  | Some (CopyMember k) => if k <? length others then Some (firstn k others) else None
  | Some (WriteDex k) => if k <? length dexes then Some (others ++ firstn k dexes) else None
  | _ => None
  end.

Definition is_fault (e : genv) (f : save_fault) : bool :=
  match fault e, f with
  | Some OpenInput, OpenInput => true
  | Some OpenOutput, OpenOutput => true
  | Some MoveIntoPlace, MoveIntoPlace => true
  | _, _ => false
  end.

(** The [except] branch of the overwrite mode: remove the temporary file if
    it exists, report, return. *)
Definition overwrite_handler {A} (temp_zip_path : path) : G A :=
  emit (GLog (str "error while overwriting services.jar")) ;;;
  w <- get_world ;;
  (match gfiles w temp_zip_path with
   | Some _ => put_world (gwrite temp_zip_path None w)
   | None => ret tt
   end) ;;;
  fail_with (str "write error").

(** Saving, mode 1: write [output_path + ".tmp"], then move it over the input. *)
Definition save_overwrite (e : genv) (th : gthread) (dexes : list member) : G text :=
  let output_path := input_file th in
  let temp_zip_path := output_path ++ str ".tmp" in
  w <- get_world ;;
  match (if is_fault e OpenInput then None else open_archive w (input_file th)) with
  | None => overwrite_handler temp_zip_path
  | Some ms =>
      if is_fault e OpenOutput then overwrite_handler temp_zip_path
      else
        let others := filter (fun mb => negb (is_dex_name (fst mb))) ms in
        match written_before_fault e others dexes with
        | Some part =>
            put_world (gwrite temp_zip_path (Some (Partial part)) w) ;;;
            overwrite_handler temp_zip_path
        | None =>
            let w1 := gwrite temp_zip_path (Some (Archive (others ++ dexes))) w in
            put_world w1 ;;;
            if is_fault e MoveIntoPlace then overwrite_handler temp_zip_path
            else
              put_world (gwrite output_path (Some (Archive (others ++ dexes)))
                           (gwrite temp_zip_path None w1)) ;;;
              ret (str "SUCCESS: services.jar overwritten")
        end
  end.

(** The [except] branch of the side-output mode: report, return. *)
Definition side_handler {A} : G A :=
  emit (GLog (str "error while saving")) ;;; fail_with (str "write error").

(** Saving, mode 2: write [patched_dir/basename(input_file)] directly. *)
Definition save_side (e : genv) (th : gthread) (dexes : list member) : G text :=
  let output_path := path_join [patched_dir th; g_basename e (input_file th)] in
  w <- get_world ;;
  match (if is_fault e OpenInput then None else open_archive w (input_file th)) with
  | None => side_handler
  | Some ms =>
      if is_fault e OpenOutput then side_handler
      else
        let others := filter (fun mb => negb (is_dex_name (fst mb))) ms in
        match written_before_fault e others dexes with
        | Some part =>
            put_world (gwrite output_path (Some (Partial part)) w) ;;;
            side_handler
        | None =>
            put_world (gwrite output_path (Some (Archive (others ++ dexes))) w) ;;;
            ret (str "SUCCESS: saved in the patched directory")
        end
  end.

Definition read_archive (p : path) : G (list member) :=
  w <- get_world ;;
  match open_archive w p with
  | Some ms => ret ms
  | None => raise
  end.

Definition rule_failure_msg : text := str "could not apply the patch".

(** The end of the [try] block: reassembly of every [smali*] directory, then
    the archive is written. *)
Definition reassemble_and_save (e : genv) (th : gthread) (t2 : tree) : G unit :=
  emit (GLog (str "preparing reassembly")) ;;;
  let smali_dirs := sorted (map dname (filter is_smali_dir t2)) in
  match recompile_all e t2 smali_dirs [] with
  | None => fail_with (str "one or more reassembly tasks failed")
  | Some recompiled_dex_files =>
      check_cancel e 5 ;;;
      emit (Progress 90) ;;;
      emit (GLog (str "writing the file")) ;;;
      success_message <-
        (if overwrite_original th then save_overwrite e th recompiled_dex_files
         else save_side e th recompiled_dex_files) ;;
      emit (Progress 100) ;;;
      emit (PatchFinished true success_message)
  end.

(** The [try] block of [run].  An exception of [zipfile.ZipFile] or of
    [zin.extract] is caught by no [except] clause: it leaves [run] through the
    [finally] clause. *)
Definition run_body (e : genv) (th : gthread) : G unit :=
  ms <- read_archive (input_file th) ;;
  let dex_files := sorted (filter is_dex_name (map fst ms)) in
  (match dex_files with
   | [] => fail_with (str "invalid .jar file")
   | _ :: _ => ret tt
   end) ;;;
  emit (GLog (str "found: " ++ join (str ", ") dex_files)) ;;;
  emit (Progress 10) ;;;
  check_cancel e 1 ;;;
  _ <- read_archive (input_file th) ;;
  (if forallb (extract_ok e) dex_files then ret tt else raise) ;;;
  (if forallb (decompile_ok e) dex_files then ret tt
   else fail_with (str "one or more disassembly tasks failed")) ;;;
  check_cancel e 2 ;;;
  emit (Progress 40) ;;;
  let t := remove_debug_lines (host_windows e) (decompiled e) in
  emit (Progress 50) ;;;
  check_cancel e 3 ;;;
  let '(patched1, t1) := patch_system_app_ops_helper (host_windows e) t in
  let '(patched2, t2) := patch_mock_location_provider (host_windows e) t1 in
  emit (Progress 60) ;;;
  check_cancel e 4 ;;;
  (if negb patched1 && negb patched2
   then fail_with rule_failure_msg
   else ret tt) ;;;
  reassemble_and_save e th t2.

(** [GpsPatcherThread.run()]: dependency check, first cancel check, then the
    [try] block, and in [finally] the removal of the working directory. *)
Definition run (e : genv) (th : gthread) (w : gworld) : gstate :=
  let s0 := mkgstate [] w in
  if negb (baksmali_exists e) || negb (smali_exists e) then
    fst ((emit (GLog (str "missing Java library")) ;;;
          emit (PatchFinished false (str "missing Java library"))) s0)
  else
    match check_cancel e 0 s0 with
    | (s1, Ok _) =>
        let s2 := mkgstate (events s1 ++ [Progress 5])
                    (mkgworld (gfiles (gw s1)) (temp_dir e :: tmp_dirs (gw s1))) in
        let '(s3, _) := run_body e th s2 in
        mkgstate (events s3 ++ [GLog (str "cleaning up")])
          (mkgworld (gfiles (gw s3))
             (filter (fun d => negb (path_eqb d (temp_dir e))) (tmp_dirs (gw s3))))
    | (s1, _) => s1
    end.

(** The lines of the fresh block: one per item, in the order of the items. *)
Definition fresh_lines (items : list item) : list text :=
  map (fun it : item => build_edify_line (fst (fst it)) (snd (fst it)) (snd it)) items.

(** [current_text] after the first loop and the blank-line clean-up. *)
Definition current_text_of (s : text) (items : list item) : text :=
  sub blank_lines_pattern (fun _ => [nl])
    (fst (fst (fst (remove_existing items s 0 0 [])))).

(** The text the last statements put before the fresh block. *)
Definition cleaned (s : text) (items : list item) : text :=
  sub block_pattern (fun _ => []) (strip (current_text_of s items)).

(** Fixtures. *)
Definition item_a : item := (str "/system/a", false, str "644").
Definition item_b : item := (str "/system/b", true, str "755").

Definition script_with_mount : text :=
  nth 1 mount_points [] ++ [nl] ++ str "ui_print(1);".


(** A ROM tree with an updater-script, and a request for one directory. *)
Definition rom : path := str "/rom".

Definition rom_fs : fs :=
  fun p => if path_eqb p (updater_script_path rom) then Some (str "ui_print(1);") else None.

Definition rom_relpath (a r : path) : option path := Some (skipn (S (length r)) a).

Definition rom_entry : entry := mkentry (str "/rom/system/app") (str "dir") (str "755").

Definition io_backup_fails : io_oracle := mkio (str "20250101-000000") (Some None) false None.
Definition io_fine : io_oracle := mkio (str "20250101-000000") None false None.

(** A Windows host, and a recursive request with the script update asked for. *)
Definition win_os : perm_os :=
  mkpos (fun p => Some p) (fun _ => true) (fun _ => true)
    (fun _ => [str "/rom/system/app/lib"]) rom_relpath (fun _ => true) (fun p => p) io_fine
    (fun p => p).

Definition win_thread : perm_thread :=
  mkperm (str "dir") (str "/rom/system/app") true (Some rom) true true.

Definition rom_world : world := mkworld rom_fs (fun _ => Some (448, 1000, 1000)).

Definition is_script_update (e : pevent) : bool :=
  match e with
  | ScriptUpdateFinished _ => true
  | _ => false
  end.

(** A services.jar with one dex file, and a run that is cancelled after the
    disassembly. *)
Definition jar_path : path := str "/work/services.jar".
Definition jar_members : list member :=
  [(str "META-INF/MANIFEST.MF", str "m"); (str "classes.dex", str "dex0")].

Definition jar_world : gworld :=
  mkgworld (fun p => if path_eqb p jar_path then Some (Archive jar_members) else None) [].

Definition jar_thread : gthread := mkgthread jar_path (str "/work/Patched") true.

Definition env_cancel_after_decompile : genv :=
  mkgenv true true (fun i => Nat.eqb i 2) (str "/tmp/gps_patcher_x") (fun _ => Disassembled)
    [] (fun _ _ _ => None) None (fun p => p) false.

Definition is_patch_finished (e : gevent) : bool :=
  match e with
  | PatchFinished _ _ => true
  | _ => false
  end.

(** The occurrences a rule applied: those it substituted and wrote back. *)
Definition appops_applied (t : tree) : nat :=
  match find_smali_file t (str "SystemAppOpsHelper.smali") with
  | Some f =>
      if readable f && writable f
      then snd (fst (app_ops_rewrite (read_text (fcontent f))))
           + snd (app_ops_rewrite (read_text (fcontent f)))
      else 0
  | None => 0
  end.

Definition mock_applied (t : tree) : nat :=
  match find_smali_file t (str "MockLocationProvider.smali") with
  | Some f =>
      if readable f && writable f then snd (mock_rewrite (read_text (fcontent f))) else 0
  | None => 0
  end.

(** The report of the rule-match criterion. *)
Definition is_rule_failure (ev : gevent) : bool :=
  match ev with
  | PatchFinished false msg => path_eqb msg rule_failure_msg
  | _ => false
  end.

Definition is_reassembly_start (ev : gevent) : bool :=
  match ev with
  | GLog msg => path_eqb msg (str "preparing reassembly")
  | _ => false
  end.

(** The events of a run up to the rule-match criterion. *)
Definition events_to_gate (dex_files : list text) : list gevent :=
  [GLog (str "found: " ++ join (str ", ") dex_files);
   Progress 10; Progress 40; Progress 50; Progress 60].

(** A disassembly in which only the mock-location rule finds its pattern. *)
Definition mock_fixture : text :=
  join [nl] [str ".method public setLocation()V";
             str "    const/4 p2, 0x1";
             str "    invoke-virtual {v0, p2}, Landroid/location/Location;->setIsFromMockProvider(Z)V";
             str "    array-length v1, p2";
             str ".end method"].

Definition appops_check_only : text :=
  join [nl] [str ".method public checkOpNoThrow(II)Z";
             str "    .registers 4";
             str "    const/4 v0, 0x0";
             str "    return v0";
             str ".end method"].

Definition tree_mock_only : tree :=
  [mksdir (str "smali") true
     [mksfile (str "SystemAppOpsHelper.smali") appops_check_only true true;
      mksfile (str "MockLocationProvider.smali") mock_fixture true true]].

(** A working directory with one file that has Windows line ends. *)
Definition crlf_tree : tree :=
  [mksdir (str "smali") true
     [mksfile (str "A.smali") (str ".method public run()V" ++ [cr; nl] ++ str ".end method")
        true true]].

Definition env_mock_only : genv :=
  mkgenv true true (fun _ => false) (str "/tmp/gps_patcher_x") (fun _ => Disassembled)
    tree_mock_only (fun _ _ _ => Some (str "dex1")) None (fun _ => str "services.jar") false.

(** The same run when the dex member of the archive cannot be extracted. *)
Definition env_corrupt_member : genv :=
  mkgenv true true (fun _ => false) (str "/tmp/gps_patcher_x") (fun _ => ExtractRaises)
    tree_mock_only (fun _ _ _ => Some (str "dex1")) None (fun _ => str "services.jar") false.

(** The same run with the side output asked for, an older output already in
    place, and a writer that fails on the first member. *)
Definition env_copy_fails : genv :=
  mkgenv true true (fun _ => false) (str "/tmp/gps_patcher_x") (fun _ => Disassembled)
    tree_mock_only (fun _ _ _ => Some (str "dex1")) (Some (CopyMember 0))
    (fun _ => str "services.jar") false.

Definition side_thread : gthread := mkgthread jar_path (str "/work/Patched") false.
Definition side_output : path := str "/work/Patched/services.jar".
Definition old_output : list member := [(str "classes.dex", str "older")].

Definition world_with_old_output : gworld :=
  mkgworld (fun p => if path_eqb p jar_path then Some (Archive jar_members)
                     else if path_eqb p side_output then Some (Archive old_output)
                     else None) [].

(** A site of the mock-location pattern with a parameter register. *)
Definition mock_site : text :=
  join [nl] [str "    const/4 p2, 0x1";
             str "    .line 33";
             str "    invoke-virtual {v0, p2}, Landroid/location/Location;->setIsFromMockProvider(Z)V";
             str "    array-length v1, p2"].

(** The same site with a local register. *)
Definition mock_site_local : text :=
  join [nl] [str "    const/4 v3, 0x1";
             str "    .line 33";
             str "    invoke-virtual {v0, v3}, Landroid/location/Location;->setIsFromMockProvider(Z)V";
             str "    array-length v1, v3"].

(** ** The mock-location rule, site by site

    The parts of a site of the rule, in the order of the text: the constant
    load of 0x1 into a register, the [.line] annotations, and the invocation
    of [setIsFromMockProvider] that passes that register. *)
Record site : Type := mksite {
  s_indent : text;     (* white space before the load *)
  s_op : text;         (* const/4, const/16 or const *)
  s_gap : text;        (* white space before the register *)
  s_reg : text;        (* the register R *)
  s_sep : text;        (* white space after the comma *)
  s_trail : text;      (* white space between 0x1 and the line end *)
  s_lines : text;      (* the .line annotations *)
  s_invoke : text      (* the invocation, up to the register it passes *)
}.

Definition site_load (s : site) : text :=
  s_indent s ++ s_op s ++ s_gap s ++ s_reg s ++ str "," ++ s_sep s.

Definition site_const_line (s : site) : text :=
  site_load s ++ str "0x1" ++ s_trail s ++ [nl].

Definition site_call (s : site) : text := s_invoke s ++ s_reg s ++ set_mock_sig.

(** The text of a site, and the text that is to stand in its place: the load
    of 0x0, the annotations and the invocation as they were, and the restore
    instruction after the invocation when the register is a p-register. *)
Definition site_text (s : site) : text := site_const_line s ++ s_lines s ++ site_call s.

Definition site_patched (s : site) : text :=
  site_load s ++ str "0x0" ++ [nl] ++ s_lines s ++ site_call s
  ++ (if starts_with (str "p") (s_reg s) then restore_instr (s_reg s) else []).

Definition site_wf (s : site) : Prop :=
  forallb is_space (s_indent s) = true /\ lang const_op (s_op s)
  /\ forallb is_space (s_gap s) = true /\ lang register_re (s_reg s)
  /\ forallb is_space (s_sep s) = true /\ forallb is_space (s_trail s) = true
  /\ lang (Star true line_annotation) (s_lines s).

(** The parts of a site are the groups of the match. *)
Definition site_of (mo : rmatch_obj) (s : site) : Prop :=
  whole mo = site_text s /\ group 1 mo = site_const_line s /\ group 2 mo = s_reg s
  /\ group 3 mo = s_lines s /\ group 4 mo = site_call s.

(** [mock_scan p t out n]: [out] is [t] with every match of the pattern, found
    from left to right and without overlap, replaced by the patched site, and
    [n] counts the sites; [p] is the character before [t]. *)
Inductive mock_scan : option ascii -> text -> text -> nat -> Prop :=
| scan_end p : mock_scan p [] [] 0
| scan_keep p c t out n :
    match_at mock_pattern p (c :: t) = None ->
    mock_scan (Some c) t out n ->
    mock_scan p (c :: t) (c :: out) n
| scan_site p s mo rst out n :
    match_at mock_pattern p (site_text s ++ rst) = Some mo ->
    site_of mo s -> site_wf s ->
    mock_scan (prev_after p (site_text s)) rst out n ->
    mock_scan p (site_text s ++ rst) (site_patched s ++ out) (S n).

(** The body the boolean replacement puts between header and end marker. *)
Definition bool_body : text :=
  [nl; nl] ++ str "    const/4 v0, 0x1" ++ [nl] ++ str "    return v0" ++ [nl; nl].

(** A helper class with an integer-returning [noteOp] in front of the boolean
    [checkOpNoThrow], and what the rule is to leave of the latter. *)
Definition appops_note_int : text :=
  join [nl] [str ".method public noteOp(II)I";
             str "    .registers 4";
             str "    const/4 v0, 0x1";
             str "    return v0";
             str ".end method"].

Definition appops_note_then_check : text :=
  appops_note_int ++ [nl; nl] ++ appops_check_only ++ [nl].

Definition appops_note_int_rewritten : text :=
  join [nl] [str ".method public noteOp(II)I";
             str "    .registers 4";
             str "";
             str "    .locals 1";
             str "    const/4 v0, 0x0";
             str "    return v0";
             str "";
             str ".end method"].

Definition appops_check_forced : text :=
  join [nl] [str ".method public checkOpNoThrow(II)Z";
             str "    .registers 4";
             str "";
             str "    const/4 v0, 0x1";
             str "    return v0";
             str "";
             str ".end method"].

Definition tree_note_then_check : tree :=
  [mksdir (str "smali") true
     [mksfile (str "SystemAppOpsHelper.smali") appops_note_then_check true true]].

(** A check-only method that returns an integer, and a note method. *)
Definition appops_check_int : text :=
  join [nl] [str ".method public checkOpNoThrow(II)I";
             str "    .registers 4";
             str "    invoke-static {p1, p2}, Lcom/android/Helper;->query(II)I";
             str "    move-result v0";
             str "    return v0";
             str ".end method"].

Definition appops_check_int_rewritten : text :=
  join [nl] [str ".method public checkOpNoThrow(II)I";
             str "    .registers 4";
             str "";
             str "    .locals 1";
             str "    const/4 v0, 0x0";
             str "    return v0";
             str "";
             str ".end method"].

Definition appops_note_bool : text :=
  join [nl] [str ".method public noteOpNoThrow(II)Z";
             str "    .registers 4";
             str "    const/4 v0, 0x0";
             str "    return v0";
             str ".end method"].

Definition appops_note_match : rmatch_obj :=
  Eval vm_compute in
    match match_at pattern_bool None appops_note_bool with
    | Some mo => mo
    | None => mkmatch [] []
    end.

(** The blank-line clean-up of [ensure_edify_stat_lines]. *)
Definition collapse (t : text) : text := sub blank_lines_pattern (fun _ => [nl]) t.

(** Within the run of white space at the head of [t]: the text after its last
    newline, if it has one. *)
Fixpoint after_last_nl (t : text) : option text :=
  match t with
  | c :: t' =>
      if is_space c then
        match after_last_nl t' with
        | Some r => Some r
        | None => if is_nl c then Some t' else None
        end
      else None
  | [] => None
  end.

(** Two newlines with only white space between them; [armed] tells that a
    newline and then only white space came before [t]. *)
Fixpoint gap_from (armed : bool) (t : text) : bool :=
  match t with
  | c :: t' =>
      if is_nl c then armed || gap_from true t'
      else if is_space c then gap_from armed t'
      else gap_from false t'
  | [] => false
  end.

Definition keyword : text := str "set_metadata".
Definition hash : ascii := "#"%char.

(** Entries whose path and mode hold no [#]. *)
Definition plain_item (it : item) : Prop :=
  ~ In hash (fst (fst it)) /\ ~ In hash (snd it).

(** A script text [P] followed by a managed block with the lines [J]. *)
Definition frame (P J : text) : text := P ++ block_open ++ J ++ block_close.

(** The end of the block pattern: the end marker and the newlines after it. *)
Definition block_tail : regex := Seq (Lit end_marker) (Star true (Lit [nl])).

(** [t.split("\n")] *)
Fixpoint split_lines_acc (cur : text) (t : text) : list text :=
  match t with
  | [] => [rev cur]
  | c :: t' =>
      if is_nl c then rev cur :: split_lines_acc [] t'
      else split_lines_acc (c :: cur) t'
  end.

(** The live directive lines of a script: its lines that start, after white
    space, with the directive keyword. *)
Definition live_directives (t : text) : list text :=
  filter (fun l => starts_with keyword (lstrip l)) (split_lines_acc [] t).

Definition non_space (t : text) : text := filter (fun c => negb (is_space c)) t.

(** A script in which an old block is glued to a directive. *)
Definition stale_directive : text :=
  str "set_metadata(" ++ q (str "/system/a") ++ str ", 0);".

Definition script_glued : text :=
  start_marker ++ str " " ++ end_marker ++ stale_directive.

(** A script in which a block was opened and never closed, in front of a
    directive of the script's own. *)
Definition own_directive : text :=
  str "set_metadata(" ++ q (str "/system/x") ++ str ", " ++ q (str "uid") ++ str ", 0, "
  ++ q (str "gid") ++ str ", 0, " ++ q (str "mode") ++ str ", 0644);".

Definition script_open_block : text :=
  join [nl] [str "ui_print(1);"; start_marker; own_directive; str ""].

(** A script with a comment, a directive for the path of [item_a], a
    directive for another path and an old block. *)
Definition script_commented : text :=
  join [nl] [str "# my rom"; str "ui_print(1);";
             str "set_metadata(" ++ q (str "/system/a") ++ str ", " ++ q (str "uid")
             ++ str ", 0);";
             own_directive; str "";
             start_marker; str "set_metadata(" ++ q (str "/system/old") ++ str ", 1);";
             end_marker; str ""].



(** A plain script. *)
Definition script_plain : text :=
  join [nl] [str "ui_print(1);"; str ""; str "   "; str "mount(x);  "; str ""].

(** Boolean forms of the side conditions. *)
Definition has_hash (t : text) : bool := existsb (Ascii.eqb hash) t.

Definition plain_itemb (it : item) : bool :=
  negb (has_hash (fst (fst it))) && negb (has_hash (snd it)).

(** The arguments of a directive line after the quoted path and its comma. *)
Definition directive_args (is_dir : bool) (mode_expect : text) : text :=
  str " " ++ q (str "uid") ++ str ", 0, " ++ q (str "gid") ++ str ", 0, "
  ++ q (str "mode") ++ str ", "
  ++ (if length mode_expect =? 3 then str "0" ++ mode_expect else mode_expect)
  ++ (if is_dir then []
      else str ", " ++ q (str "context") ++ str ", " ++ q (str "u:object_r:system_file:s0")).

(** A character [.] matches and that does not open the end of a directive. *)
Definition inner_char (c : ascii) : bool :=
  negb (is_nl c) && negb (Ascii.eqb c ")"%char).

(** [line_num_pattern.match(line)] as a truth value. *)
Definition is_debug_line (line : text) : bool :=
  match match_at line_num_pattern None line with
  | Some _ => true
  | None => false
  end.

(** The lines of a stored file, as [f.readlines()] yields them in text mode. *)
Definition lines_of (stored : text) : list text := readlines (read_text stored).

(** The lines [remove_debug_lines] keeps. *)
Definition kept_lines (stored : text) : list text :=
  filter (fun l => negb (is_debug_line l)) (lines_of stored).

(** The files [remove_debug_lines] rewrites: named [*.smali], and neither the
    reading nor the writing raises. *)
Definition is_rewritten (f : sfile) : bool :=
  ends_with (str ".smali") (fname f) && readable f && writable f.

(** The files of a working directory, in the order of the walk. *)
Definition all_files (t : tree) : list sfile := flat_map dfiles t.

(** Lines as [readlines] yields them: each ends with its line end and holds no
    other one; the last may come without line end, and is then not empty. *)
Fixpoint lines_wf (ls : list text) : Prop :=
  match ls with
  | [] => True
  | l :: ls' =>
      (exists body, l = body ++ [nl] /\ ~ In nl body /\ lines_wf ls')
      \/ (ls' = [] /\ l <> [] /\ ~ In nl l)
  end.

(** The signals that end a run for its listeners. *)
Definition is_outcome (ev : gevent) : bool :=
  match ev with
  | PatchFinished _ _ | CancelledSig => true
  | _ => false
  end.

Definition outcomes (evs : list gevent) : nat := length (filter is_outcome evs).

Definition is_success (ev : gevent) : bool :=
  match ev with
  | PatchFinished true _ => true
  | _ => false
  end.

(** [output_path] of the saving step, in either mode. *)
Definition output_path_of (e : genv) (th : gthread) : path :=
  if overwrite_original th then input_file th
  else path_join [patched_dir th; g_basename e (input_file th)].

(** The members the saving step copies: all but the [classes*.dex] ones. *)
Definition non_dex (ms : list member) : list member :=
  filter (fun mb => negb (is_dex_name (fst mb))) ms.

(** The working directory when the rules have run. *)
Definition patched_tree (e : genv) : tree :=
  snd (patch_mock_location_provider (host_windows e)
         (snd (patch_system_app_ops_helper (host_windows e)
                 (remove_debug_lines (host_windows e) (decompiled e))))).

(** What the steps from [s] to [s'] have saved: when they report success,
    the output file holds the members of the input that are no dex files,
    followed by the reassembled dex files of [t2]; when they do not, the
    overwrite mode has changed no file but the temporary one. *)
Definition save_post (e : genv) (th : gthread) (t2 : tree) (s s' : gstate) : Prop :=
  exists evs,
    events s' = events s ++ evs
    /\ ((existsb is_success evs = true
         /\ exists ms dexes,
              open_archive (gw s) (input_file th) = Some ms
              /\ recompile_all e t2 (sorted (map dname (filter is_smali_dir t2))) []
                 = Some dexes
              /\ gfiles (gw s') (output_path_of e th) = Some (Archive (non_dex ms ++ dexes)))
        \/ (existsb is_success evs = false
            /\ (overwrite_original th = true ->
                forall p, p <> input_file th ++ str ".tmp" ->
                          gfiles (gw s') p = gfiles (gw s) p))).

(** [output_dir_name] of the disassembly loop. *)
Definition smali_dir_name_of (dex_file : text) : text :=
  if path_eqb dex_file (str "classes.dex") then str "smali"
  else str "smali_" ++ replace (str ".dex") [] dex_file.

Definition is_task_finished (e : pevent) : bool :=
  match e with
  | TaskFinished _ => true
  | _ => false
  end.

Definition is_failed_task (e : pevent) : bool :=
  match e with
  | TaskFinished false => true
  | _ => false
  end.

Definition is_plog (e : pevent) : bool :=
  match e with
  | PLog _ => true
  | _ => false
  end.

(** What [os.chmod] and [os.chown] of one call of [_set_perms] leave of the
    modes and owners. *)
Definition apply_perm (os : perm_os) (is_dir : bool) (p : path) (mt : meta) : meta :=
  if chmod_ok os p then
    if chown_ok os p
    then set_owner (os_realpath os p) 0 0 (set_mode (os_realpath os p) (perm_octal is_dir) mt)
    else set_mode (os_realpath os p) (perm_octal is_dir) mt
  else mt.

(** A host that is not Windows, with one directory below the target. *)
Definition posix_os : perm_os :=
  mkpos (fun p => Some p) (fun _ => true) (fun _ => true)
    (fun _ => [str "/rom/system/app/lib"]) rom_relpath
    (fun p => negb (ends_with (str ".apk") p)) (fun p => p) io_fine (fun p => p).

(** The same host when [chmod] is refused. *)
Definition denied_os : perm_os :=
  mkpos (fun p => Some p) (fun _ => false) (fun _ => true)
    (fun _ => [str "/rom/system/app/lib"]) rom_relpath
    (fun p => negb (ends_with (str ".apk") p)) (fun p => p) io_fine (fun p => p).

(** The same host when the target holds a symbolic link, [link], to a
    directory of another partition. *)
Definition linked_os : perm_os :=
  mkpos (fun p => Some p) (fun _ => true) (fun _ => true)
    (fun _ => [str "/rom/system/app/lib"; str "/rom/system/app/link"]) rom_relpath
    (fun p => negb (ends_with (str ".apk") p)) (fun p => p) io_fine
    (fun p => if path_eqb p (str "/rom/system/app/link") then str "/rom/vendor/lib" else p).

(** The ROM tree when the stored updater-script has CRLF line ends. *)
Definition crlf_script : text :=
  str "ui_print(1);" ++ [cr; nl] ++ str "ui_print(2);" ++ [cr; nl].

Definition crlf_world : world :=
  mkworld (fun p => if path_eqb p (updater_script_path rom) then Some crlf_script else None)
          (fun _ => Some (448, 1000, 1000)).

Definition dir_thread : perm_thread :=
  mkperm (str "dir") (str "/rom/system/app") true (Some rom) true false.

Definition apk_thread : perm_thread :=
  mkperm (str "apk") (str "/rom/system/app/x.apk") false (Some rom) true false.

(** ** [FilePatcherLogic.patch_build_prop] *)

Definition props_to_patch : list (text * text) :=
  [(str "persist.sys.usb.config", str "mtp,adb");
   (str "persist.service.adb.enable", str "1");
   (str "persist.service.debuggable", str "1");
   (str "ro.adb.secure", str "0");
   (str "service.adb.tcp.port", str "5555");
   (str "ro.control_privapp_permissions", str "disable");
   (str "ro.setupwizard.mode", str "DISABLED");
   (str "setup.wizard.has.run", str "1");
   (str "persist.adb.notify", str "0")].

(** [d.get(k)] on an insertion-ordered dict. *)
Fixpoint dict_get {V : Type} (k : text) (d : list (text * V)) : option V :=
  match d with
  | [] => None
  | (k', v) :: d' => if path_eqb k k' then Some v else dict_get k d'
  end.

(** [d[k] = v] for a key the dict holds: the key keeps its place. *)
Fixpoint dict_put {V : Type} (k : text) (v : V) (d : list (text * V)) : list (text * V) :=
  match d with
  | [] => []
  | (k', v') :: d' => if path_eqb k k' then (k', v) :: d' else (k', v') :: dict_put k v d'
  end.

Inductive line_type : Type := Original | Modified | AddedHeader | Added.

(** An element of [result_lines]: its ['type'] and its ['content']. *)
Definition result_line : Type := (line_type * text)%type.

Definition eq_sign : ascii := "="%char.

(** [s.split('=', 1)] for an [s] that holds a [=]. *)
Fixpoint split_eq (s : text) : text * text :=
  match s with
  | [] => ([], [])
  | c :: s' =>
      if Ascii.eqb c eq_sign then ([], s')
      else let '(k, v) := split_eq s' in (c :: k, v)
  end.

Definition is_empty {A : Type} (t : list A) : bool :=
  match t with
  | [] => true
  | _ :: _ => false
  end.

(** [stripped_line and not stripped_line.startswith('#') and '=' in stripped_line] *)
Definition is_prop_line (stripped_line : text) : bool :=
  negb (is_empty stripped_line) && negb (starts_with (str "#") stripped_line)
  && existsb (Ascii.eqb eq_sign) stripped_line.

Definition patched_header : text := str "# Patched by tool" ++ [nl].

(** [f"{key}={value}\n"] *)
Definition prop_text (key value : text) : text := key ++ [eq_sign] ++ value ++ [nl].

(** The body of the loop over [lines]. *)
Definition patch_prop_line (line : text) (props_found : list (text * bool))
  : result_line * list (text * bool) :=
  let stripped_line := strip line in
  if is_prop_line stripped_line then
    let '(key, current_value) := split_eq stripped_line in
    let key := strip key in
    let current_value := strip current_value in
    match dict_get key props_to_patch with
    | Some expected_value =>
        let props_found := dict_put key true props_found in
        if path_eqb current_value expected_value
        then ((Original, line), props_found)
        else ((Modified, patched_header ++ prop_text key expected_value), props_found)
    | None => ((Original, line), props_found)
    end
  else ((Original, line), props_found).

Fixpoint patch_prop_lines (lines : list text) (props_found : list (text * bool))
  : list result_line * list (text * bool) :=
  match lines with
  | [] => ([], props_found)
  | line :: lines' =>
      let '(rl, props_found) := patch_prop_line line props_found in
      let '(rls, props_found) := patch_prop_lines lines' props_found in
      (rl :: rls, props_found)
  end.

(** The second loop: the lines of the keys that were not found.  The keys of
    [props_found] are those of [props_to_patch], so the look-up finds each. *)
Fixpoint props_to_add_content (props_found : list (text * bool)) : list text :=
  match props_found with
  | [] => []
  | (key, found) :: d' =>
      if found then props_to_add_content d'
      else match dict_get key props_to_patch with
           | Some value => prop_text key value :: props_to_add_content d'
           | None => props_to_add_content d'
           end
  end.

(** [patch_build_prop(file_path)] on the text [open(file_path, 'r')] yields:
    the final content and [result_lines]. *)
Definition patch_build_prop (content : text) : text * list result_line :=
  let lines := readlines content in
  let props_found := map (fun kv => (fst kv, false)) props_to_patch in
  let '(result_lines, props_found) := patch_prop_lines lines props_found in
  let to_add := props_to_add_content props_found in
  let result_lines :=
    match to_add with
    | [] => result_lines
    | _ :: _ =>
        result_lines
        ++ (if is_empty lines || negb (is_empty (strip (last lines [])))
            then [(Original, [nl])] else [])
        ++ [(AddedHeader, patched_header)]
        ++ map (fun new_prop_line => (Added, new_prop_line)) to_add
    end in
  (concat (map snd result_lines), result_lines).

(** The key and the value a line of a property file sets, as the loop reads
    them; [None] for the lines it passes over. *)
Definition prop_of (line : text) : option (text * text) :=
  let stripped_line := strip line in
  if is_prop_line stripped_line then
    let '(key, current_value) := split_eq stripped_line in
    Some (strip key, strip current_value)
  else None.

(** The target key a line sets, if it sets one. *)
Definition hit (line : text) : option text :=
  match prop_of line with
  | Some (k, _) => match dict_get k props_to_patch with
                   | Some _ => Some k
                   | None => None
                   end
  | None => None
  end.

(** What the loop puts into the result for a line. *)
Definition patched_chunk (line : text) : text :=
  match prop_of line with
  | Some (k, v) =>
      match dict_get k props_to_patch with
      | Some e => if path_eqb v e then line else patched_header ++ prop_text k e
      | None => line
      end
  | None => line
  end.

(** A line that sets no target key to a value other than the expected one. *)
Definition settled (line : text) : bool :=
  match prop_of line with
  | Some (k, v) =>
      match dict_get k props_to_patch with
      | Some e => path_eqb v e
      | None => true
      end
  | None => true
  end.

Definition sets_key (k : text) (line : text) : bool :=
  match hit line with
  | Some k' => path_eqb k' k
  | None => false
  end.

(** Whether some line sets the target key [k]. *)
Definition was_hit (k : text) (lines : list text) : bool := existsb (sets_key k) lines.

(** The dict [props_found] after the loop over [lines]. *)
Definition found_after (lines : list text) : list (text * bool) :=
  map (fun kv : text * text => (fst kv, was_hit (fst kv) lines)) props_to_patch.

(** A text that is empty or ends with a line end. *)
Definition closed (t : text) : Prop := t = [] \/ exists t', t = t' ++ [nl].

(** The lines appended for the target keys no line of the file sets. *)
Definition lines_to_add (lines : list text) : list text :=
  flat_map (fun kv : text * text =>
              if was_hit (fst kv) lines then [] else [prop_text (fst kv) (snd kv)])
    props_to_patch.

(** The text the last statements append to the patched lines. *)
Definition added_tail (lines : list text) : text :=
  match lines_to_add lines with
  | [] => []
  | _ :: _ =>
      (if is_empty lines || negb (is_empty (strip (last lines []))) then [nl] else [])
      ++ patched_header ++ concat (lines_to_add lines)
  end.

(** Checks on the entries of [props_to_patch]. *)
Definition entry_ok (kv : text * text) : bool :=
  match dict_get (fst kv) props_to_patch with
  | Some v => path_eqb v (snd kv)
  | None => false
  end
  && match prop_of (prop_text (fst kv) (snd kv)) with
     | Some (k, v) => path_eqb k (fst kv) && path_eqb v (snd kv)
     | None => false
     end
  && negb (existsb is_nl (fst kv ++ [eq_sign] ++ snd kv)).

(** A line with its line end, and no other. *)
Definition terminated (l : text) : Prop := exists body, l = body ++ [nl] /\ ~ In nl body.

(** ** [AdbPatcherThread.patch_init_rc] *)

(** [r"^\s*on\s+charger\s*$"], compiled with [re.MULTILINE]. *)
Definition on_charger_pattern : regex :=
  seqs [Bol; Star true ws; L "on"; Plus true ws; L "charger"; Star true ws; Eol true].

(** [r"^\s*on\s+"], compiled with [re.MULTILINE]. *)
Definition next_on_pattern : regex :=
  seqs [Bol; Star true ws; L "on"; Plus true ws].

Definition bootmode_cmd : text := str "setprop ro.bootmode " ++ q (str "normal").
Definition powerctl_cmd : text := str "setprop sys.powerctl " ++ q (str "reboot").
Definition indent : text := str "    ".

Definition comment_to_add : text :=
  str "# Patched by tool: Update 'on charger' block" ++ [nl].

Definition charger_block_to_add : text :=
  [nl; nl] ++ str "# Patched by tool: Add 'on charger' block for auto-boot" ++ [nl]
  ++ str "on charger" ++ [nl]
  ++ indent ++ bootmode_cmd ++ [nl]
  ++ indent ++ powerctl_cmd ++ [nl]
  ++ indent ++ str "class_start charger" ++ [nl].

(** [content[a:b]] for [a <= b]. *)
Definition slice (a b : nat) (t : text) : text := firstn (b - a) (skipn a t).

(** [pattern.search(t, pos)]: [^] sees the character before [pos]. *)
Definition search_pos (r : regex) (t : text) (pos : nat) : option (nat * nat) :=
  search_from r pos (prev_after None (firstn pos t)) (skipn pos t).

(** The commands the block after [block_start_pos] lacks. *)
Definition missing_lines (content : text) (block_start_pos : nat) : list text :=
  let block_end_pos :=
    match search_pos next_on_pattern content block_start_pos with
    | Some (next_start, _) => next_start
    | None => length content
    end in
  let charger_block_content := slice block_start_pos block_end_pos content in
  (if occurs bootmode_cmd charger_block_content then [] else [indent ++ bootmode_cmd])
  ++ (if occurs powerctl_cmd charger_block_content then [] else [indent ++ powerctl_cmd]).

(** [patch_init_rc()] on the text read from the file: the text stored under
    ['init.rc']. *)
Definition patch_init_rc (content : text) : text :=
  match search on_charger_pattern content with
  | Some (match_start, match_end) =>
      match missing_lines content match_end with
      | [] => content
      | (_ :: _) as missing =>
          firstn match_start content ++ comment_to_add
          ++ slice match_start match_end content
          ++ [nl] ++ join [nl] missing
          ++ skipn match_end content
      end
  | None => strip content ++ [nl] ++ charger_block_to_add
  end.

(** ** [DeviceModeCheckerThread] *)

Module ModeChecker.

Import BinNums BinInt.
Local Open Scope Z_scope.

(** The delays of a checker, in seconds (integers, as the callers pass them). *)
Record checker : Type := mkchecker {
  initial_delay : Z;
  check_interval : Z;
  timeout : Z
}.

(** [__init__(serial, initial_delay, check_interval, timeout, **kwargs)]:
    the old keyword [delay_seconds] sets the initial delay and the timeout,
    and the interval to 1. *)
Definition new_checker (initial_delay check_interval timeout : Z)
    (delay_seconds : option Z) : checker :=
  match delay_seconds with
  | Some d => mkchecker d 1 d
  | None => mkchecker initial_delay check_interval timeout
  end.

(** How [run] ends: with the signal [mode_detected], with a plain [return],
    with the [ValueError] of [time.sleep] on a negative delay; [Running]
    when the fuel of the model is used up before the loop ends. *)
Inductive outcome : Type :=
| Emitted (mode details : text)
| Returned
| Raised
| Running.

(** The surroundings of one run: [should_stop k] is the flag as the [k]-th
    read finds it, [detect i] the result of the [i]-th call of
    [detect_device_mode]. *)
Record run_env : Type := mkenv {
  should_stop : nat -> bool;
  detect : nat -> text * text
}.

Definition timeout_details : text := str "device is not in TWRP mode".

(** The [while] loop of [run]; the second component counts the calls of
    [detect_device_mode]. *)
Fixpoint check_loop (fuel : nat) (c : checker) (env : run_env) (elapsed : Z)
    (checks : nat) : outcome * nat :=
  match fuel with
  | O => (Running, checks)
  | S fuel' =>
      if elapsed <? timeout c then
        if should_stop env (S checks) then (Returned, checks)
        else
          let '(mode, details) := detect env checks in
          if path_eqb mode (str "twrp") then (Emitted mode details, S checks)
          else if check_interval c <? 0 then (Raised, S checks)
          else check_loop fuel' c env (elapsed + check_interval c) (S checks)
      else (Emitted (str "timeout") timeout_details, checks)
  end.

(** [run()] *)
Definition run (fuel : nat) (c : checker) (env : run_env) : outcome * nat :=
  if initial_delay c <? 0 then (Raised, O)
  else if should_stop env O then (Returned, O)
  else check_loop fuel c env (initial_delay c) O.

(** The branches of [MainWindow.handle_mode_detected]. *)
Inductive report : Type :=
| Waiting | InTwrp | InRecovery | InSystem | InFastboot | Unknown | NotDetected.

Definition handle_mode_detected (mode : text) : report :=
  if path_eqb mode (str "waiting") then Waiting
  else if path_eqb mode (str "twrp") then InTwrp
  else if path_eqb mode (str "recovery") then InRecovery
  else if path_eqb mode (str "system") then InSystem
  else if path_eqb mode (str "fastboot") then InFastboot
  else if path_eqb mode (str "unknown") then Unknown
  else NotDetected.

(** The number of checks a wait without result takes:
    the ceiling of [(timeout - initial_delay) / check_interval]. *)
Definition max_checks (c : checker) : nat :=
  Z.to_nat ((timeout c - initial_delay c + check_interval c - 1) / check_interval c).

End ModeChecker.

(** ** Positions in a patched init.rc *)

(** The first character of [t] after its leading whitespace. *)
Definition first_word_char (t : text) : option ascii :=
  match lstrip t with
  | c :: _ => Some c
  | [] => None
  end.

(** A position at which no line [on ...] can start: the first word there
    does not begin with [o], or the position is not at a line start. *)
Definition no_on_here (p : option ascii) (t : text) : bool :=
  match first_word_char t with
  | Some c => negb (Ascii.eqb c "o")
  | None => false
  end
  || negb (at_bol (mkst p [] [])).

(** [chk] at every position of [u], [p] being the character before [u]. *)
Fixpoint all_positions (chk : option ascii -> text -> bool) (p : option ascii) (u : text)
  : bool :=
  match u with
  | [] => true
  | c :: u' => chk p u && all_positions chk (Some c) u'
  end.

(** The offset of the first match of [r] in [t]; the length of [t] when there
    is none. *)
Definition first_at (r : regex) (p : option ascii) (t : text) : nat :=
  match search_from r 0 p t with
  | Some (s, _) => s
  | None => length t
  end.

(** The text appended to a file without an [on charger] line, in three
    parts: up to the line [on charger], that line, and what follows it. *)
Definition block_lead : text :=
  [nl; nl; nl] ++ str "# Patched by tool: Add 'on charger' block for auto-boot" ++ [nl].

Definition block_line : text := str "on charger".

Definition block_body : text :=
  [nl] ++ indent ++ bootmode_cmd ++ [nl]
  ++ indent ++ powerctl_cmd ++ [nl]
  ++ indent ++ str "class_start charger" ++ [nl].

(** * Properties *)

Unset Implicit Arguments.

(** ** The matcher finds only matches *)

Lemma star_loop_sound (g : bool) (a : regex) :
  (forall k s x, m a k s = Some x -> exists s', rmatch a s s' /\ k s' = Some x) ->
  forall n k s x,
    star_loop (m a) g k n s = Some x ->
    exists s', rmatch (Star g a) s s' /\ k s' = Some x.
Proof.
  intros IHa. induction n as [|n IHn]; intros k s x H; simpl in H.
  - exists s. split; [constructor | exact H].
  - assert (Hiter : forall y,
      m a (fun s' => if length (rest s') <? length (rest s)
                     then star_loop (m a) g k n s' else None) s = Some y ->
      exists s', rmatch (Star g a) s s' /\ k s' = Some y).
    { intros y Hy. apply IHa in Hy. destruct Hy as [s1 [Hm Hk]].
      destruct (length (rest s1) <? length (rest s)) eqn:Hlt; [|discriminate].
      apply Nat.ltb_lt in Hlt. apply IHn in Hk. destruct Hk as [s2 [Hs Hk]].
      exists s2. split; [eapply RM_StarS; eauto | exact Hk]. }
    destruct g; unfold orelse in H.
    + destruct (m a _ s) as [y|] eqn:Hy.
      * inversion H; subst. now apply Hiter.
      * exists s. split; [constructor | exact H].
    + destruct (k s) as [y|] eqn:Hy.
      * inversion H; subst. exists s. split; [constructor | exact Hy].
      * now apply Hiter.
Qed.

Theorem m_sound (r : regex) :
  forall k s x, m r k s = Some x -> exists s', rmatch r s s' /\ k s' = Some x.
Proof.
  induction r as [|w|f|a IHa b IHb|a IHa b IHb|g a IHa|i a IHa|i| |ml];
    intros k s x H; simpl in H.
  - exists s. split; [constructor | exact H].
  - destruct (adv w s) as [s'|] eqn:Ha; [|discriminate].
    exists s'. split; [now constructor | exact H].
  - destruct s as [p [|c t] cs]; simpl in H; [discriminate|].
    destruct (f c) eqn:Hf; [|discriminate].
    eexists. split; [now constructor | exact H].
  - apply IHa in H. destruct H as [s1 [H1 H]].
    apply IHb in H. destruct H as [s2 [H2 H]].
    exists s2. split; [econstructor; eauto | exact H].
  - unfold orelse in H. destruct (m a k s) as [y|] eqn:Hy.
    + inversion H; subst. apply IHa in Hy. destruct Hy as [s' [? ?]].
      exists s'. split; [now apply RM_AltL | assumption].
    + apply IHb in H. destruct H as [s' [? ?]].
      exists s'. split; [now apply RM_AltR | assumption].
  - eapply star_loop_sound; eauto.
  - apply IHa in H. destruct H as [s' [H1 H]].
    eexists. split; [apply RM_Group; exact H1 | exact H].
  - destruct (get_cap i (caps s)) as [w|] eqn:Hc; [|discriminate].
    destruct (adv w s) as [s'|] eqn:Ha; [|discriminate].
    exists s'. split; [econstructor; eauto | exact H].
  - destruct (at_bol s) eqn:Hb; [|discriminate].
    exists s. split; [now constructor | exact H].
  - destruct (at_eol ml s) eqn:Hb; [|discriminate].
    exists s. split; [now constructor | exact H].
Qed.

Lemma adv_rest (w : text) : forall s s', adv w s = Some s' -> rest s = w ++ rest s'.
Proof.
  induction w as [|a w IH]; intros s s' H; simpl in H.
  - inversion H. reflexivity.
  - destruct (rest s) as [|b t] eqn:Hr; [discriminate|].
    destruct (Ascii.eqb a b) eqn:Hab; [|discriminate].
    apply Ascii.eqb_eq in Hab. subst b.
    apply IH in H. simpl in H. now rewrite H.
Qed.

(** A match consumes a prefix of the text. *)
Lemma rmatch_rest (r : regex) (s s' : st) :
  rmatch r s s' -> exists w, rest s = w ++ rest s'.
Proof.
  induction 1.
  - now exists [].
  - exists w. now apply adv_rest.
  - now exists [c].
  - destruct IHrmatch1 as [w1 E1]. destruct IHrmatch2 as [w2 E2].
    exists (w1 ++ w2). now rewrite E1, E2, app_assoc.
  - assumption.
  - assumption.
  - now exists [].
  - destruct IHrmatch1 as [w1 E1]. destruct IHrmatch2 as [w2 E2].
    exists (w1 ++ w2). now rewrite E1, E2, app_assoc.
  - assumption.
  - exists w. now apply adv_rest.
  - now exists [].
  - now exists [].
Qed.

Lemma consumed_app (p p' : option ascii) (w t : text) (cs cs' : list (nat * text)) :
  consumed (mkst p (w ++ t) cs) (mkst p' t cs') = w.
Proof.
  unfold consumed. simpl. rewrite length_app, Nat.add_sub.
  rewrite firstn_app, Nat.sub_diag, firstn_all. simpl. apply app_nil_r.
Qed.

Lemma consumed_eq (s s' : st) (w : text) : rest s = w ++ rest s' -> consumed s s' = w.
Proof.
  intro H. unfold consumed. rewrite H, length_app, Nat.add_sub.
  rewrite firstn_app, Nat.sub_diag, firstn_all. simpl. apply app_nil_r.
Qed.

Lemma adv_caps (w : text) : forall s s', adv w s = Some s' -> caps s' = caps s.
Proof.
  induction w as [|a w IH]; intros s s' H; simpl in H.
  - now inversion H.
  - destruct (rest s) as [|b t]; [discriminate|].
    destruct (Ascii.eqb a b); [|discriminate].
    apply IH in H. exact H.
Qed.

Lemma adv_prev (w : text) : forall s s', adv w s = Some s' -> prev s' = prev_after (prev s) w.
Proof.
  induction w as [|a w IH]; intros s s' H; simpl in H.
  - now inversion H.
  - destruct (rest s) as [|b t]; [discriminate|].
    destruct (Ascii.eqb a b) eqn:E; [|discriminate].
    apply Ascii.eqb_eq in E. subst b.
    apply IH in H. exact H.
Qed.

Lemma prev_after_app (p : option ascii) (u v : text) :
  prev_after p (u ++ v) = prev_after (prev_after p u) v.
Proof. unfold prev_after. apply fold_left_app. Qed.

(** What a match consumes belongs to the language of the expression, and the
    character before the new position is the last one consumed. *)
Lemma rmatch_lang (r : regex) (s s' : st) :
  rmatch r s s' ->
  exists w, rest s = w ++ rest s' /\ lang r w /\ prev s' = prev_after (prev s) w.
Proof.
  induction 1; simpl.
  - exists []. auto.
  - exists w. repeat split; [now apply adv_rest | now apply adv_prev].
  - exists [c]. repeat split. exists c. auto.
  - destruct IHrmatch1 as [w1 [E1 [L1 P1]]]. destruct IHrmatch2 as [w2 [E2 [L2 P2]]].
    exists (w1 ++ w2). repeat split.
    + now rewrite E1, E2, app_assoc.
    + exists w1, w2. auto.
    + now rewrite prev_after_app, <- P1.
  - destruct IHrmatch as [w [E [Lw P]]]. exists w. auto.
  - destruct IHrmatch as [w [E [Lw P]]]. exists w. auto.
  - exists []. repeat split. exists []. split; [reflexivity | constructor].
  - destruct IHrmatch1 as [w1 [E1 [L1 P1]]]. destruct IHrmatch2 as [w2 [E2 [L2 P2]]].
    simpl in L2. destruct L2 as [ws [Ews Hws]].
    exists (w1 ++ w2). repeat split.
    + now rewrite E1, E2, app_assoc.
    + exists (w1 :: ws). split; [simpl; now rewrite Ews | now constructor].
    + now rewrite prev_after_app, <- P1.
  - destruct IHrmatch as [w [E [Lw P]]]. exists w. auto.
  - exists w. repeat split; [now apply adv_rest | now apply adv_prev].
  - exists []. auto.
  - exists []. auto.
Qed.

Lemma rmatch_caps (r : regex) (s s' : st) :
  rmatch r s s' -> has_group r = false -> caps s' = caps s.
Proof.
  induction 1; simpl; intro Hg; try reflexivity.
  - eapply adv_caps; eauto.
  - apply orb_false_iff in Hg. destruct Hg. rewrite IHrmatch2, IHrmatch1; auto.
  - apply orb_false_iff in Hg. destruct Hg. auto.
  - apply orb_false_iff in Hg. destruct Hg. auto.
  - rewrite IHrmatch2, IHrmatch1; auto.
  - discriminate.
  - eapply adv_caps; eauto.
Qed.

(** ** The managed block is appended *)

Lemma remove_existing_lines (items : list item) :
  forall cur a u acc,
    snd (remove_existing items cur a u acc) = acc ++ fresh_lines items.
Proof.
  unfold fresh_lines.
  induction items as [|[[p d] md] items IH]; intros cur a u acc; simpl.
  - now rewrite app_nil_r.
  - destruct (subn (directive_pattern p) (fun _ => []) cur) as [cur' count].
    destruct (0 <? count); rewrite IH, <- app_assoc; reflexivity.
Qed.

Lemma merge_text_eq (s : text) (items : list item) :
  merge_text s items = cleaned s items ++ managed_block (fresh_lines items).
Proof.
  unfold merge_text, ensure_edify_stat_lines, cleaned, current_text_of.
  pose proof (remove_existing_lines items s 0 0 []) as H.
  destruct (remove_existing items s 0 0 []) as [[[cur a] u] ls].
  simpl in *. now rewrite H.
Qed.

(** C3, as the code has it: whatever the script holds, and whether or not a
    mount directive is found in it, the output of the merge ends with the
    managed block of the requested items; the block stands at the end of the
    file, after the cleaned script text. *)
Theorem block_appended_at_end (s : text) (items : list item) :
  let out := merge_text s items in
  let block := managed_block (fresh_lines items) in
  out = cleaned s items ++ block
  /\ skipn (length out - length block) out = block
  /\ firstn (length out - length block) out = cleaned s items.
Proof.
  cbv zeta. rewrite merge_text_eq.
  rewrite length_app, Nat.add_sub.
  repeat split.
  - rewrite skipn_app, skipn_all, Nat.sub_diag. reflexivity.
  - rewrite firstn_app, Nat.sub_diag, firstn_all. simpl. now rewrite app_nil_r.
Qed.

(** C3, the claim as stated fails: the script holds a recognized mount
    directive, ending at offset 44, and the block does not follow it: it
    comes after the last line of the script. *)
Lemma block_not_after_mount :
  insertion_point mount_points (current_text_of script_with_mount [item_a]) = Some 44
  /\ starts_with block_open (skipn 44 (merge_text script_with_mount [item_a])) = false
  /\ merge_text script_with_mount [item_a]
     = script_with_mount ++ managed_block (fresh_lines [item_a]).
Proof. vm_compute. repeat split. Qed.

(** ** Backup before the script is written *)

Lemma path_eqb_refl (p : path) : path_eqb p p = true.
Proof. unfold path_eqb. destruct (list_eq_dec ascii_dec p p); congruence. Qed.

Lemma path_eqb_neq (p p' : path) : p <> p' -> path_eqb p p' = false.
Proof. unfold path_eqb. destruct (list_eq_dec ascii_dec p p'); congruence. Qed.

Lemma path_eqb_eq (p p' : path) : path_eqb p p' = true -> p = p'.
Proof. unfold path_eqb. destruct (list_eq_dec ascii_dec p p'); congruence. Qed.

Lemma backup_path_fresh (script ts : text) : script <> backup_path_of script ts.
Proof.
  unfold backup_path_of. intro H.
  apply (f_equal (@length ascii)) in H.
  rewrite !length_app in H. simpl in H. lia.
Qed.

(** C8: when the script exists and at least one entry is in scope, a failed
    backup copy leaves the script file as it was; a successful one stores the
    script's original content in the backup file, which the later write of
    the script does not touch; and the script's content changes only if the
    backup file holds the original content. *)
Theorem backup_or_abort
    (relpath : path -> path -> option path) (isdir : path -> bool)
    (basename : path -> text) (io : io_oracle) (entries : list entry)
    (rom_root script : path) (f : fs) :
  find_updater_script f rom_root = Some script ->
  fst (fst (collect_items relpath isdir basename entries rom_root [] 0 [])) <> [] ->
  let f' := snd (update_updater_script relpath isdir basename io entries rom_root f) in
  let backup := backup_path_of script (timestamp io) in
  (copy_fails io <> None -> f' script = f script)
  /\ (copy_fails io = None -> f' backup = f script)
  /\ (f' script <> f script -> f' backup = f script).
Proof.
  intros Hfind Hitems. cbv zeta.
  destruct (update_updater_script relpath isdir basename io entries rom_root f)
    as [r f'] eqn:HU.
  unfold update_updater_script in HU. rewrite Hfind in HU.
  destruct (collect_items relpath isdir basename entries rom_root [] 0 [])
    as [[its sk] nts] eqn:Hc.
  simpl in Hitems. destruct its as [|it its]; [congruence|].
  pose proof (@backup_path_fresh script (timestamp io)) as Hfresh.
  set (backup := backup_path_of script (timestamp io)) in *.
  assert (Hsb : path_eqb script backup = false) by now apply path_eqb_neq.
  assert (Hbs : path_eqb backup script = false)
    by (apply path_eqb_neq; congruence).
  assert (Hf1 : fs_write backup (f script) f script = f script)
    by (unfold fs_write; now rewrite Hsb).
  simpl snd.
  destruct (copy_fails io) as [remains|] eqn:Hcopy.
  - inversion HU; subst. unfold fs_write. rewrite Hsb. repeat split; congruence.
  - destruct (read_fails io).
    + inversion HU; subst. unfold fs_write. rewrite Hsb, path_eqb_refl.
      repeat split; congruence.
    + rewrite Hf1 in HU. destruct (f script) as [orig|] eqn:Hs.
      * cbv zeta in HU.
        destruct (ensure_edify_stat_lines (read_text orig) (it :: its)) as [[nt a] u].
        destruct (write_fails io); inversion HU; subst; unfold fs_write;
          rewrite ?Hbs, ?Hsb, ?path_eqb_refl, ?Hs; repeat split; congruence.
      * inversion HU; subst. unfold fs_write. rewrite ?Hsb, ?path_eqb_refl.
        repeat split; congruence.
Qed.

Lemma backup_or_abort_witness :
  let f' := snd (update_updater_script rom_relpath (fun _ => true) (fun p => p)
                   io_backup_fails [rom_entry] rom rom_fs) in
  let backup := backup_path_of (updater_script_path rom) (timestamp io_backup_fails) in
  (copy_fails io_backup_fails <> None -> f' (updater_script_path rom) = rom_fs (updater_script_path rom))
  /\ (copy_fails io_backup_fails = None -> f' backup = rom_fs (updater_script_path rom))
  /\ (f' (updater_script_path rom) <> rom_fs (updater_script_path rom)
      -> f' backup = rom_fs (updater_script_path rom)).
Proof.
  apply (@backup_or_abort rom_relpath (fun _ => true) (fun p => p)
           io_backup_fails [rom_entry] rom (updater_script_path rom) rom_fs).
  - vm_compute. reflexivity.
  - vm_compute. discriminate.
Defined.

(** ** Log-only mode *)

Lemma set_perms_windows os th p d w :
  is_windows th = true ->
  snd (fst (_set_perms os th p d w)) = w
  /\ forallb (fun e => negb (is_script_update e)) (fst (fst (_set_perms os th p d w))) = true.
Proof.
  intro Hw. unfold _set_perms. rewrite Hw.
  destruct (cwd_relpath os p); simpl; auto.
Qed.

Lemma sweep_windows os th dirs :
  is_windows th = true ->
  forall success w,
    snd (fst (sweep os th dirs success w)) = w
    /\ forallb (fun e => negb (is_script_update e)) (fst (fst (sweep os th dirs success w))) = true.
Proof.
  intro Hw. induction dirs as [|d dirs IH]; intros success w; simpl; auto.
  destruct (@set_perms_windows os th d true w Hw) as [H1 H2].
  destruct (_set_perms os th d true w) as [[ev w1] [ok|]]; simpl in *; subst w1.
  - specialize (IH (success && ok) w). destruct (sweep os th dirs (success && ok) w) as [[ev' w2] s].
    simpl in *. destruct IH as [-> IH2]. split; auto.
    rewrite forallb_app, H2, IH2. reflexivity.
  - split; auto. rewrite forallb_app, H2. reflexivity.
Qed.

Lemma finish_run_windows os th success md w :
  is_windows th = true ->
  snd (finish_run os th success md w) = w
  /\ forallb (fun e => negb (is_script_update e)) (fst (finish_run os th success md w)) = true.
Proof.
  intro Hw. unfold finish_run. rewrite Hw.
  rewrite andb_false_r. destruct (truthy (rom_root_opt th)); simpl; auto.
Qed.

Ltac fin_ev :=
  simpl; repeat (rewrite forallb_app; simpl);
  repeat match goal with H : forallb _ _ = true |- _ => rewrite H; clear H end;
  reflexivity.

(** C10: on a Windows host a run of [PermissionThread] leaves the world
    (file contents, modes and owners) exactly as it was, and never emits the
    result of an updater-script update: the merge hook is not called,
    whatever [update_script] and [rom_root] are. *)
Theorem windows_run_is_log_only (os : perm_os) (th : perm_thread) (w : world) :
  is_windows th = true ->
  snd (perm_run os th w) = w
  /\ forallb (fun e => negb (is_script_update e)) (fst (perm_run os th w)) = true.
Proof.
  intro Hw. unfold perm_run. rewrite Hw.
  destruct (path_eqb (action_type th) (str "apk")).
  - destruct (@set_perms_windows os th (target th) false w Hw) as [H1 H2].
    destruct (_set_perms os th (target th) false w) as [[ev w1] [ok|]];
      simpl in *; subst w1.
    + destruct (@finish_run_windows os th ok (str "644") w Hw) as [F1 F2].
      destruct (finish_run os th ok (str "644") w) as [ev' w2]. simpl in *.
      split; auto. fin_ev.
    + split; auto.
  - destruct (path_eqb (action_type th) (str "dir")).
    + destruct (@set_perms_windows os th (target th) true w Hw) as [H1 H2].
      destruct (_set_perms os th (target th) true w) as [[ev w1] [[|]|]];
        simpl in *; subst w1.
      * destruct (recursive th).
        -- destruct (@sweep_windows os th (walk_dirs os (target th)) Hw true w) as [S1 S2].
           destruct (sweep os th (walk_dirs os (target th)) true w) as [[ev1 w2] success].
           simpl in *. subst w2.
           destruct (@finish_run_windows os th success (str "755") w Hw) as [F1 F2].
           destruct (finish_run os th success (str "755") w) as [ev2 w3]. simpl in *.
           split; auto. fin_ev.
        -- destruct (@finish_run_windows os th true (str "755") w Hw) as [F1 F2].
           destruct (finish_run os th true (str "755") w) as [ev2 w3]. simpl in *.
           split; auto. fin_ev.
      * split; auto. fin_ev.
      * split; auto.
    + destruct (@finish_run_windows os th true [] w Hw) as [F1 F2].
      destruct (finish_run os th true [] w) as [ev2 w3]. simpl in *. auto.
Qed.

Lemma windows_run_is_log_only_witness :
  snd (perm_run win_os win_thread rom_world) = rom_world
  /\ forallb (fun e => negb (is_script_update e)) (fst (perm_run win_os win_thread rom_world)) = true.
Proof. apply windows_run_is_log_only. reflexivity. Defined.

(** ** Cancellation after the disassembly *)

Lemma open_archive_tmp (w : gworld) (dirs : list path) (p : path) :
  open_archive (mkgworld (gfiles w) dirs) p = open_archive w p.
Proof. reflexivity. Qed.

(** A dex file whose disassembler task succeeded was extracted. *)
Lemma disassembled_extracted (e : genv) (dex_files : list text) :
  forallb (decompile_ok e) dex_files = true -> forallb (extract_ok e) dex_files = true.
Proof.
  rewrite !forallb_forall. intros H d Hd. specialize (H d Hd).
  unfold decompile_ok in H. unfold extract_ok.
  destruct (dex_result_of e d); [discriminate | reflexivity | reflexivity].
Qed.

(** C9: a run that reaches the checkpoint after the disassembly stage (the
    tools exist, the archive opens and holds a dex file, every disassembly
    task succeeded, no cancellation was seen at the two earlier checkpoints)
    and reads the cancel flag set there ends with the cancellation signal and
    no [patch_finished]; no file of the host is written, so the destination is
    as it was; and the working directory is removed. *)
Theorem cancel_after_disassembly (e : genv) (th : gthread) (w : gworld)
    (ms : list member) :
  baksmali_exists e = true -> smali_exists e = true ->
  cancel_at e 0 = false -> cancel_at e 1 = false -> cancel_at e 2 = true ->
  open_archive w (input_file th) = Some ms ->
  sorted (filter is_dex_name (map fst ms)) <> [] ->
  forallb (decompile_ok e) (sorted (filter is_dex_name (map fst ms))) = true ->
  let s := run e th w in
  events s = [Progress 5;
              GLog (str "found: " ++ join (str ", ") (sorted (filter is_dex_name (map fst ms))));
              Progress 10; GLog (str "cancelled by user"); CancelledSig;
              GLog (str "cleaning up")]
  /\ forallb (fun ev => negb (is_patch_finished ev)) (events s) = true
  /\ gfiles (gw s) = gfiles w
  /\ ~ In (temp_dir e) (tmp_dirs (gw s)).
Proof.
  intros Hb Hs H0 H1 H2 Hopen Hdex Hdec. cbv zeta.
  assert (Hev : run e th w =
    mkgstate [Progress 5;
              GLog (str "found: " ++ join (str ", ") (sorted (filter is_dex_name (map fst ms))));
              Progress 10; GLog (str "cancelled by user"); CancelledSig;
              GLog (str "cleaning up")]
      (mkgworld (gfiles w)
         (filter (fun d => negb (path_eqb d (temp_dir e))) (temp_dir e :: tmp_dirs w)))).
  { unfold run. rewrite Hb, Hs. simpl.
    unfold check_cancel at 1. rewrite H0. unfold ret at 1.
    unfold run_body, read_archive, bind, get_world, check_cancel, fail_with, emit, ret.
    cbn -[open_archive sorted str join filter forallb].
    rewrite !open_archive_tmp, Hopen.
    destruct (sorted (filter is_dex_name (map fst ms))) as [|d ds] eqn:Hd; [congruence|].
    cbn -[open_archive sorted str join filter forallb].
    rewrite H1. cbn -[open_archive sorted str join filter forallb].
    rewrite ?open_archive_tmp, Hopen, (disassembled_extracted e (d :: ds) Hdec).
    cbn -[open_archive sorted str join filter forallb].
    rewrite Hdec, H2.
    cbn -[open_archive sorted str join filter forallb].
    reflexivity. }
  rewrite Hev. simpl. repeat split.
  rewrite path_eqb_refl. simpl.
  intro Hin. apply filter_In in Hin. destruct Hin as [_ Hin].
  rewrite path_eqb_refl in Hin. discriminate.
Qed.

Lemma cancel_after_disassembly_witness :
  let s := run env_cancel_after_decompile jar_thread jar_world in
  events s = [Progress 5; GLog (str "found: classes.dex");
              Progress 10; GLog (str "cancelled by user"); CancelledSig;
              GLog (str "cleaning up")]
  /\ forallb (fun ev => negb (is_patch_finished ev)) (events s) = true
  /\ gfiles (gw s) = gfiles jar_world
  /\ ~ In (temp_dir env_cancel_after_decompile) (tmp_dirs (gw s)).
Proof.
  apply (@cancel_after_disassembly env_cancel_after_decompile jar_thread jar_world jar_members);
    try reflexivity.
  vm_compute. discriminate.
Defined.

(** ** The rule-match criterion *)

Lemma patched1_applied (windows : bool) (t : tree) :
  fst (patch_system_app_ops_helper windows t) = negb (appops_applied t =? 0).
Proof.
  unfold patch_system_app_ops_helper, appops_applied.
  destruct (find_smali_file t (str "SystemAppOpsHelper.smali")) as [f|]; [|reflexivity].
  destruct (readable f); [|reflexivity].
  destruct (app_ops_rewrite (read_text (fcontent f))) as [[pc cb] ci]. simpl.
  destruct cb, ci, (writable f); reflexivity.
Qed.

Lemma patched2_applied (windows : bool) (t : tree) :
  fst (patch_mock_location_provider windows t) = negb (mock_applied t =? 0).
Proof.
  unfold patch_mock_location_provider, mock_applied.
  destruct (find_smali_file t (str "MockLocationProvider.smali")) as [f|]; [|reflexivity].
  destruct (readable f); [|reflexivity].
  destruct (mock_rewrite (read_text (fcontent f))) as [pc c]. simpl.
  destruct c, (writable f); reflexivity.
Qed.

Ltac norm_events :=
  cbn -[str join sorted filter forallb open_archive path_eqb recompile_all
        written_before_fault is_fault];
  rewrite <- ?app_assoc;
  cbn -[str join sorted filter forallb open_archive path_eqb recompile_all
        written_before_fault is_fault gwrite].

(** From the reassembly on, the run logs the start of the reassembly and
    never reports the rule-match failure. *)
Lemma reassemble_and_save_events (e : genv) (th : gthread) (t2 : tree) (s : gstate) :
  exists evs,
    events (fst (reassemble_and_save e th t2 s))
    = events s ++ GLog (str "preparing reassembly") :: evs
    /\ existsb is_rule_failure evs = false.
Proof.
  unfold reassemble_and_save, save_overwrite, save_side, overwrite_handler, side_handler,
    check_cancel, fail_with, return_, bind, emit, ret, get_world, put_world.
  norm_events.
  destruct (recompile_all e t2 (sorted (map dname (filter is_smali_dir t2))) []) as [dx|];
    norm_events; [|eexists; split; reflexivity].
  destruct (cancel_at e 5); norm_events; [eexists; split; reflexivity|].
  destruct (overwrite_original th); norm_events.
  - destruct (if is_fault e OpenInput then None else open_archive (gw s) (input_file th))
      as [ms|]; norm_events.
    + destruct (is_fault e OpenOutput); norm_events.
      * destruct (gfiles (gw s) (input_file th ++ str ".tmp")); norm_events;
          eexists; split; reflexivity.
      * destruct (written_before_fault e _ dx); norm_events.
        -- rewrite path_eqb_refl. norm_events. eexists; split; reflexivity.
        -- destruct (is_fault e MoveIntoPlace); norm_events;
             rewrite ?path_eqb_refl; norm_events; eexists; split; reflexivity.
    + destruct (gfiles (gw s) (input_file th ++ str ".tmp")); norm_events;
        eexists; split; reflexivity.
  - destruct (if is_fault e OpenInput then None else open_archive (gw s) (input_file th))
      as [ms|]; norm_events; [|eexists; split; reflexivity].
    destruct (is_fault e OpenOutput); norm_events; [eexists; split; reflexivity|].
    destruct (written_before_fault e _ dx); norm_events; eexists; split; reflexivity.
Qed.

Lemma run_body_to_gate (e : genv) (th : gthread) (s : gstate) (ms : list member) :
  cancel_at e 1 = false -> cancel_at e 2 = false ->
  cancel_at e 3 = false -> cancel_at e 4 = false ->
  open_archive (gw s) (input_file th) = Some ms ->
  sorted (filter is_dex_name (map fst ms)) <> [] ->
  forallb (decompile_ok e) (sorted (filter is_dex_name (map fst ms))) = true ->
  let t := remove_debug_lines (host_windows e) (decompiled e) in
  let r1 := patch_system_app_ops_helper (host_windows e) t in
  let r2 := patch_mock_location_provider (host_windows e) (snd r1) in
  let s' := mkgstate (events s ++ events_to_gate (sorted (filter is_dex_name (map fst ms))))
              (gw s) in
  fst (run_body e th s)
  = if negb (fst r1) && negb (fst r2)
    then mkgstate (events s' ++ [PatchFinished false rule_failure_msg]) (gw s)
    else fst (reassemble_and_save e th (snd r2) s').
Proof.
  intros H1 H2 H3 H4 Hopen Hdex Hdec. cbv zeta.
  unfold run_body, read_archive, check_cancel, fail_with, return_, bind, emit, ret, get_world,
    events_to_gate.
  norm_events. rewrite Hopen.
  destruct (sorted (filter is_dex_name (map fst ms))) as [|d ds] eqn:Hd; [congruence|].
  norm_events. rewrite H1. norm_events.
  rewrite Hopen, (disassembled_extracted e (d :: ds) Hdec). norm_events.
  rewrite Hdec, H2, H3. norm_events.
  destruct (patch_system_app_ops_helper (host_windows e)
              (remove_debug_lines (host_windows e) (decompiled e))) as [p1 t1].
  norm_events.
  destruct (patch_mock_location_provider (host_windows e) t1) as [p2 t2].
  norm_events. rewrite H4. norm_events.
  destruct p1, p2; norm_events; reflexivity.
Qed.

Lemma run_events (e : genv) (th : gthread) (w : gworld) :
  baksmali_exists e = true -> smali_exists e = true -> cancel_at e 0 = false ->
  events (run e th w)
  = events (fst (run_body e th
                   (mkgstate [Progress 5]
                      (mkgworld (gfiles w) (temp_dir e :: tmp_dirs w)))))
    ++ [GLog (str "cleaning up")].
Proof.
  intros Hb Hs H0. unfold run. rewrite Hb, Hs. simpl.
  unfold check_cancel at 1. rewrite H0. unfold ret at 1. simpl.
  destruct (run_body e th _) as [s3 r]. reflexivity.
Qed.

Lemma found_is_not_start (x : text) :
  path_eqb (str "found: " ++ x) (str "preparing reassembly") = false.
Proof. apply path_eqb_neq. unfold str. simpl. discriminate. Qed.

(** C5: in a run that reaches the rule-match criterion, the failure of that
    criterion is reported if and only if neither rule applied an occurrence;
    and the run goes on to the reassembly if and only if at least one of the
    two rules applied one. *)
Theorem rule_match_criterion (e : genv) (th : gthread) (w : gworld) (ms : list member) :
  baksmali_exists e = true -> smali_exists e = true ->
  cancel_at e 0 = false -> cancel_at e 1 = false -> cancel_at e 2 = false ->
  cancel_at e 3 = false -> cancel_at e 4 = false ->
  open_archive w (input_file th) = Some ms ->
  sorted (filter is_dex_name (map fst ms)) <> [] ->
  forallb (decompile_ok e) (sorted (filter is_dex_name (map fst ms))) = true ->
  let t := remove_debug_lines (host_windows e) (decompiled e) in
  let t1 := snd (patch_system_app_ops_helper (host_windows e) t) in
  let evs := events (run e th w) in
  (existsb is_rule_failure evs = true <-> appops_applied t = 0 /\ mock_applied t1 = 0)
  /\ (existsb is_reassembly_start evs = true <-> 0 < appops_applied t \/ 0 < mock_applied t1).
Proof.
  intros Hb Hs H0 H1 H2 H3 H4 Hopen Hdex Hdec. cbv zeta.
  rewrite (run_events e th w Hb Hs H0).
  rewrite (run_body_to_gate e th
             (mkgstate [Progress 5] (mkgworld (gfiles w) (temp_dir e :: tmp_dirs w)))
             ms H1 H2 H3 H4 Hopen Hdex Hdec).
  rewrite patched1_applied, patched2_applied.
  set (t := remove_debug_lines (host_windows e) (decompiled e)).
  set (t1 := snd (patch_system_app_ops_helper (host_windows e) t)).
  destruct (appops_applied t) as [|a]; destruct (mock_applied t1) as [|b];
    cbn [Nat.eqb negb andb fst snd gw events].
  - rewrite !existsb_app. cbn -[str join sorted filter path_eqb].
    rewrite found_is_not_start, path_eqb_refl.
    split; split; intro H; try (split; reflexivity); try reflexivity.
    + vm_compute in H. discriminate.
    + destruct H as [H|H]; inversion H.
  - destruct (reassemble_and_save_events e th (snd (patch_mock_location_provider (host_windows e) t1))
      (mkgstate ([Progress 5] ++ events_to_gate (sorted (filter is_dex_name (map fst ms))))
         (mkgworld (gfiles w) (temp_dir e :: tmp_dirs w)))) as [evs [-> Hno]].
    rewrite !existsb_app. cbn -[str join sorted filter path_eqb].
    rewrite Hno, path_eqb_refl, found_is_not_start.
    split; split; intro H; try lia; try reflexivity;
      try (destruct H; discriminate); try (vm_compute in H; discriminate).
  - destruct (reassemble_and_save_events e th (snd (patch_mock_location_provider (host_windows e) t1))
      (mkgstate ([Progress 5] ++ events_to_gate (sorted (filter is_dex_name (map fst ms))))
         (mkgworld (gfiles w) (temp_dir e :: tmp_dirs w)))) as [evs [-> Hno]].
    rewrite !existsb_app. cbn -[str join sorted filter path_eqb].
    rewrite Hno, path_eqb_refl, found_is_not_start.
    split; split; intro H; try lia; try reflexivity;
      try (destruct H; discriminate); try (vm_compute in H; discriminate).
  - destruct (reassemble_and_save_events e th (snd (patch_mock_location_provider (host_windows e) t1))
      (mkgstate ([Progress 5] ++ events_to_gate (sorted (filter is_dex_name (map fst ms))))
         (mkgworld (gfiles w) (temp_dir e :: tmp_dirs w)))) as [evs [-> Hno]].
    rewrite !existsb_app. cbn -[str join sorted filter path_eqb].
    rewrite Hno, path_eqb_refl, found_is_not_start.
    split; split; intro H; try lia; try reflexivity;
      try (destruct H; discriminate); try (vm_compute in H; discriminate).
Qed.

Lemma rule_match_criterion_witness :
  let t := remove_debug_lines (host_windows env_mock_only) (decompiled env_mock_only) in
  let t1 := snd (patch_system_app_ops_helper (host_windows env_mock_only) t) in
  let evs := events (run env_mock_only jar_thread jar_world) in
  (existsb is_rule_failure evs = true <-> appops_applied t = 0 /\ mock_applied t1 = 0)
  /\ (existsb is_reassembly_start evs = true <-> 0 < appops_applied t \/ 0 < mock_applied t1).
Proof.
  apply (rule_match_criterion env_mock_only jar_thread jar_world jar_members);
    try reflexivity.
  vm_compute. discriminate.
Defined.

(** ** Writing the archive *)

(** C6, side-output mode: the writer opens the destination itself, so a
    failure during the copy leaves a truncated archive where the older output
    was, and no temporary file is involved. *)
Theorem side_output_not_atomic :
  let s := run env_copy_fails side_thread world_with_old_output in
  gfiles world_with_old_output side_output = Some (Archive old_output)
  /\ gfiles (gw s) side_output = Some (Partial [])
  /\ existsb (fun ev => match ev with
                        | PatchFinished false _ => true
                        | _ => false
                        end) (events s) = true.
Proof. vm_compute. repeat split. Qed.

Lemma tmp_path_fresh (p : path) : p <> p ++ str ".tmp".
Proof.
  intro H. apply (f_equal (@length ascii)) in H.
  rewrite length_app in H. simpl in H. lia.
Qed.

(** Overwrite mode: the archive is written to [input_file + ".tmp"]; when the
    step fails the input file is as before and the temporary file is gone. *)
Lemma save_overwrite_atomic (e : genv) (th : gthread) (dexes : list member) (s : gstate) :
  let tmp := input_file th ++ str ".tmp" in
  match save_overwrite e th dexes s with
  | (s', Ok _) => gfiles (gw s') tmp = None
  | (s', _) =>
      gfiles (gw s') tmp = None
      /\ forall p, p <> tmp -> gfiles (gw s') p = gfiles (gw s) p
  end.
Proof.
  cbv zeta.
  pose proof (tmp_path_fresh (input_file th)) as Hfresh.
  unfold save_overwrite, overwrite_handler, fail_with, return_, bind, emit, ret,
    get_world, put_world.
  cbn -[str open_archive path_eqb written_before_fault is_fault filter].
  destruct (if is_fault e OpenInput then None else open_archive (gw s) (input_file th))
    as [ms|].
  - destruct (is_fault e OpenOutput).
    + cbn -[str path_eqb].
      destruct (gfiles (gw s) (input_file th ++ str ".tmp")) eqn:Ht;
        cbn -[str path_eqb]; rewrite ?path_eqb_refl; split; auto.
      intros p Hp. now rewrite (path_eqb_neq _ _ Hp).
    + destruct (written_before_fault e _ dexes).
      * cbn -[str path_eqb]. rewrite !path_eqb_refl. cbn -[str path_eqb].
        rewrite !path_eqb_refl. split; auto.
        intros p Hp. now rewrite (path_eqb_neq _ _ Hp).
      * cbn -[str path_eqb]. destruct (is_fault e MoveIntoPlace).
        -- cbn -[str path_eqb]. rewrite !path_eqb_refl. cbn -[str path_eqb].
           rewrite !path_eqb_refl. split; auto.
           intros p Hp. now rewrite (path_eqb_neq _ _ Hp).
        -- cbn -[str path_eqb]. rewrite path_eqb_refl.
           rewrite (path_eqb_neq _ _ (not_eq_sym Hfresh)). reflexivity.
  - cbn -[str path_eqb].
    destruct (gfiles (gw s) (input_file th ++ str ".tmp")) eqn:Ht;
      cbn -[str path_eqb]; rewrite ?path_eqb_refl; split; auto.
    intros p Hp. now rewrite (path_eqb_neq _ _ Hp).
Qed.

(** ** Shape of the matches *)

Lemma lang_star_cls g f w : lang (Star g (Cls f)) w -> forallb f w = true.
Proof.
  simpl. intros [ws [-> H]]. induction H as [|x l Hx Hl IH]; simpl; auto.
  destruct Hx as [c [-> Hc]]. simpl. now rewrite Hc.
Qed.

Lemma lang_plus_cls g f w : lang (Plus g (Cls f)) w -> forallb f w = true /\ w <> [].
Proof.
  intros [w1 [w2 [-> [[c [-> Hc]] H2]]]]. apply lang_star_cls in H2.
  simpl. rewrite Hc, H2. split; [reflexivity | discriminate].
Qed.

Lemma rm_seq a b s s2 : rmatch (Seq a b) s s2 -> exists s1, rmatch a s s1 /\ rmatch b s1 s2.
Proof. intro H. inversion H; subst. eauto. Qed.

Lemma rm_group i a s s2 :
  rmatch (Group i a) s s2 ->
  exists s1, rmatch a s s1 /\ s2 = mkst (prev s1) (rest s1) ((i, consumed s s1) :: caps s1).
Proof. intro H. inversion H; subst. eauto. Qed.

Lemma rm_backref i s s2 :
  rmatch (Backref i) s s2 ->
  exists w, get_cap i (caps s) = Some w /\ rest s = w ++ rest s2 /\ caps s2 = caps s.
Proof.
  intro H. inversion H; subst. exists w. repeat split; auto.
  - now apply adv_rest.
  - eapply adv_caps; eauto.
Qed.

Lemma match_at_sound r p t mo :
  match_at r p t = Some mo ->
  exists s', rmatch r (mkst p t []) s' /\ mo = mkmatch (consumed (mkst p t []) s') (caps s').
Proof.
  unfold match_at. intro H.
  destruct (m r Some (mkst p t [])) as [s'|] eqn:Hm; [|discriminate].
  inversion H; subst. apply m_sound in Hm. destruct Hm as [s'' [Hr Hs]].
  inversion Hs; subst. eauto.
Qed.


Lemma rm_plain r s s' :
  has_group r = false -> rmatch r s s' ->
  exists w, rest s = w ++ rest s' /\ lang r w /\ caps s' = caps s.
Proof.
  intros Hg H. destruct (rmatch_lang _ _ _ H) as [w [E [Lw _]]].
  exists w. repeat split; auto. eapply rmatch_caps; eauto.
Qed.

Ltac plain H w E Lw C :=
  apply rm_plain in H; [destruct H as [w [E [Lw C]]] | reflexivity];
  cbn [rest caps prev] in E, C.

Ltac fold_consumed s w E :=
  repeat match goal with
         | H : context [consumed ?a s] |- _ =>
             let Hc := fresh in
             assert (Hc : consumed a s = w) by (apply consumed_eq; cbn [rest]; exact E);
             rewrite Hc in *; clear Hc
         | |- context [consumed ?a s] =>
             let Hc := fresh in
             assert (Hc : consumed a s = w) by (apply consumed_eq; cbn [rest]; exact E);
             rewrite Hc in *; clear Hc
         end.

(** The groups of a match of the mock-location pattern. *)
Lemma mock_shape p t mo :
  match_at mock_pattern p t = Some mo ->
  exists w0 op w1 R w2 w3 g3 pre4,
    group 1 mo = w0 ++ op ++ w1 ++ R ++ str "," ++ w2 ++ str "0x1" ++ w3 ++ [nl]
    /\ group 2 mo = R /\ group 3 mo = g3 /\ group 4 mo = pre4 ++ R ++ set_mock_sig
    /\ whole mo = group 1 mo ++ g3 ++ group 4 mo
    /\ forallb is_space w0 = true /\ lang const_op op
    /\ forallb is_space w1 = true /\ lang register_re R
    /\ forallb is_space w2 = true /\ forallb is_space w3 = true
    /\ lang (Star true line_annotation) g3.
Proof.
  intro H. apply match_at_sound in H. destruct H as [s' [H ->]].
  unfold mock_pattern in H. cbn [seqs] in H.
  apply rm_seq in H. destruct H as [sa [H1 H]].
  apply rm_seq in H. destruct H as [sb [H3 H4]].
  apply rm_group in H1. destruct H1 as [s1 [H1 ->]].
  apply rm_seq in H1. destruct H1 as [x0 [A0 H1]].
  apply rm_seq in H1. destruct H1 as [x1 [A1 H1]].
  apply rm_seq in H1. destruct H1 as [x2 [A2 H1]].
  apply rm_seq in H1. destruct H1 as [x3 [A3 A4]].
  apply rm_group in A3. destruct A3 as [x3' [A3 ->]].
  plain A0 w0 E0 L0 C0. plain A1 op E1 L1 C1. plain A2 w1 E2 L2 C2.
  plain A3 R E3 L3 C3.
  apply rm_seq in A4. destruct A4 as [y0 [B0 A4]].
  apply rm_seq in A4. destruct A4 as [y1 [B1 A4]].
  apply rm_seq in A4. destruct A4 as [y2 [B2 A4]].
  apply rm_seq in A4. destruct A4 as [y3 [B3 B4]].
  plain B0 c0 F0 M0 D0. plain B1 w2 F1 M1 D1. plain B2 c2 F2 M2 D2.
  plain B3 w3 F3 M3 D3. plain B4 c4 F4 M4 D4.
  simpl in M0, M2, M4. subst c0 c2 c4.
  apply rm_group in H3. destruct H3 as [s3 [H3 ->]].
  plain H3 g3 E5 L5 C5.
  apply rm_group in H4. destruct H4 as [s4 [H4 ->]].
  apply rm_seq in H4. destruct H4 as [z0 [G0 H4]].
  apply rm_seq in H4. destruct H4 as [z1 [G1 H4]].
  apply rm_seq in H4. destruct H4 as [z2 [G2 H4]].
  apply rm_seq in H4. destruct H4 as [z3 [G3 H4]].
  apply rm_seq in H4. destruct H4 as [z4 [G4 H4]].
  apply rm_seq in H4. destruct H4 as [z5 [G5 H4]].
  apply rm_seq in H4. destruct H4 as [z6 [G6 H4]].
  apply rm_seq in H4. destruct H4 as [z7 [G7 G8]].
  plain G0 u0 I0 N0 K0. plain G1 u1 I1 N1 K1. plain G2 u2 I2 N2 K2.
  plain G3 u3 I3 N3 K3. plain G4 u4 I4 N4 K4. plain G5 u5 I5 N5 K5.
  plain G6 u6 I6 N6 K6.
  apply rm_backref in G7. destruct G7 as [R' [Hcap [I7 K7]]].
  plain G8 u8 I8 N8 K8. simpl in N8. subst u8.
  fold_consumed x3' R E3.
  assert (Et : t = (w0 ++ op ++ w1 ++ R ++ str "," ++ w2 ++ str "0x1" ++ w3 ++ [nl]) ++ rest s1).
  { rewrite E0, E1, E2, E3, F0, F1, F2, F3, F4. now rewrite <- !app_assoc. }
  fold_consumed s1 (w0 ++ op ++ w1 ++ R ++ str "," ++ w2 ++ str "0x1" ++ w3 ++ [nl]) Et.
  assert (Hcaps1 : caps s1 = [(2, R)]).
  { rewrite D4, D3, D2, D1, D0. now rewrite C3, C2, C1, C0. }
  fold_consumed s3 g3 E5.
  assert (HR' : R' = R).
  { rewrite K6, K5, K4, K3, K2, K1, K0, C5, Hcaps1 in Hcap. simpl in Hcap. congruence. }
  subst R'.
  set (pre4 := u0 ++ u1 ++ u2 ++ u3 ++ u4 ++ u5 ++ u6).
  assert (E4 : rest s3 = (pre4 ++ R ++ set_mock_sig) ++ rest s4).
  { unfold pre4. rewrite I0, I1, I2, I3, I4, I5, I6, I7, I8. now rewrite <- !app_assoc. }
  fold_consumed s4 (pre4 ++ R ++ set_mock_sig) E4.
  exists w0, op, w1, R, w2, w3, g3, pre4.
  assert (Hcaps4 : caps s4 = (3, g3) :: (1, w0 ++ op ++ w1 ++ R ++ str "," ++ w2 ++ str "0x1" ++ w3 ++ [nl]) :: [(2, R)]).
  { rewrite K8, K7, K6, K5, K4, K3, K2, K1, K0, C5, Hcaps1. reflexivity. }
  unfold group. cbn [groups whole caps get_cap Nat.eqb]. rewrite Hcaps4.
  cbn [get_cap Nat.eqb].
  repeat split; auto.
  - apply consumed_eq. cbn [rest].
    rewrite Et, E5, E4. now rewrite <- !app_assoc.
  - now apply lang_star_cls in L0.
  - now apply lang_plus_cls in L2.
  - now apply lang_plus_cls in M1.
  - now apply lang_star_cls in M3.
Qed.

(** ** Substitution over a prefix without match *)

Lemma lstrip_spaces w x : forallb is_space w = true -> lstrip (w ++ x) = lstrip x.
Proof.
  induction w as [|c w IH]; simpl; intro H; auto.
  apply andb_true_iff in H. destruct H as [Hc Hw]. rewrite Hc. auto.
Qed.

Lemma rstrip_spaces x w : forallb is_space w = true -> rstrip (x ++ w) = rstrip x.
Proof.
  intro H. unfold rstrip. rewrite rev_app_distr, lstrip_spaces; auto.
  rewrite forallb_forall in *. intros c Hc. apply H. now apply in_rev.
Qed.

Lemma rstrip_last x c : is_space c = false -> rstrip (x ++ [c]) = x ++ [c].
Proof.
  intro H. unfold rstrip. rewrite rev_app_distr. simpl. rewrite H.
  simpl. now rewrite rev_involutive.
Qed.

Lemma adv_none w : forall s, starts_with w (rest s) = false -> adv w s = None.
Proof.
  induction w as [|a w IH]; intros s H; simpl in *; [discriminate|].
  destruct (rest s) as [|b t]; auto.
  destruct (Ascii.eqb a b); simpl in H; auto.
Qed.

Lemma match_at_lit_fail w r p t :
  starts_with w t = false -> match_at (Seq (Lit w) r) p t = None.
Proof.
  intro H. unfold match_at. simpl. rewrite adv_none; auto.
Qed.

Lemma subn_from_no_match r repl pre :
  forall p rst,
    (forall u c v, pre = u ++ c :: v ->
                   match_at r (prev_after p u) (c :: v ++ rst) = None) ->
    subn_from r repl 0 p (pre ++ rst)
    = (pre ++ fst (subn_from r repl 0 (prev_after p pre) rst),
       snd (subn_from r repl 0 (prev_after p pre) rst)).
Proof.
  induction pre as [|c pre IH]; intros p rst H.
  - simpl. now destruct (subn_from r repl 0 p rst).
  - simpl app. cbn [subn_from].
    pose proof (H [] c pre eq_refl) as H0. cbn in H0. rewrite H0.
    rewrite IH.
    + reflexivity.
    + intros u c' v E. subst pre. apply (H (c :: u) c' v). reflexivity.
Qed.

Lemma flip_true_literal (body : text) :
  ~ In "x"%char body ->
  sub true_literal_at_end (fun _ => str "0x0") (body ++ str "0x1") = body ++ str "0x0".
Proof.
  intro Hx. unfold sub, subn.
  rewrite subn_from_no_match.
  - simpl fst. f_equal.
  - intros u c v E. apply match_at_lit_fail.
    unfold str. cbn [list_ascii_of_string starts_with app].
    destruct (Ascii.eqb "0" c); cbn [andb]; auto.
    destruct v as [|d v]; cbn [app starts_with].
    + reflexivity.
    + destruct (Ascii.eqb "x" d) eqn:Ed; auto.
      apply Ascii.eqb_eq in Ed. subst d. exfalso. apply Hx.
      rewrite E. apply in_or_app. right. simpl. auto.
Qed.

(** ** Substitution at a match *)

Lemma match_at_prefix r p t mo :
  match_at r p t = Some mo -> exists rst, t = whole mo ++ rst.
Proof.
  intro H. apply match_at_sound in H. destruct H as [s' [H ->]].
  apply rmatch_rest in H. destruct H as [w Hw]. cbn [rest] in Hw.
  exists (rest s'). cbn [whole]. now rewrite (consumed_eq (mkst p t []) s' w Hw).
Qed.

Lemma subn_from_skip r repl w :
  forall p t,
    subn_from r repl (length w) p (w ++ t) = subn_from r repl 0 (prev_after p w) t.
Proof.
  induction w as [|c w IH]; intros p t; [reflexivity|].
  cbn [length app subn_from]. apply IH.
Qed.

Lemma subn_from_hit r repl p c t mo w' rst :
  match_at r p (c :: t) = Some mo -> whole mo = c :: w' -> t = w' ++ rst ->
  subn_from r repl 0 p (c :: t)
  = (repl mo ++ fst (subn_from r repl 0 (prev_after (Some c) w') rst),
     S (snd (subn_from r repl 0 (prev_after (Some c) w') rst))).
Proof.
  intros Hm Hw ->. cbn [subn_from]. rewrite Hm, Hw.
  cbn [length Nat.sub Nat.eqb]. rewrite Nat.sub_0_r, subn_from_skip.
  destruct (subn_from r repl 0 (prev_after (Some c) w') rst). reflexivity.
Qed.

(** ** The mock-location replacement *)

Lemma spaces_no_x (w : text) : forallb is_space w = true -> ~ In "x"%char w.
Proof.
  intros H Hin. rewrite forallb_forall in H. apply H in Hin. discriminate.
Qed.

Lemma const_op_no_x (op : text) : lang const_op op -> ~ In "x"%char op.
Proof.
  intros [H|[H|H]]; simpl in H; subst op; intro Hin; vm_compute in Hin;
    repeat (destruct Hin as [Hin|Hin]; [discriminate|]); exact Hin.
Qed.

Lemma digits_no_x (w : text) : forallb is_digit w = true -> ~ In "x"%char w.
Proof.
  intros H Hin. rewrite forallb_forall in H. apply H in Hin. discriminate.
Qed.

Lemma register_shape (R : text) :
  lang register_re R ->
  (starts_with (str "p") R = true /\ starts_with (str "v") R = false
   \/ starts_with (str "p") R = false /\ starts_with (str "v") R = true)
  /\ ~ In "x"%char R.
Proof.
  intros [c [ds [-> [Hc Hds]]]].
  apply lang_plus_cls in Hds. destruct Hds as [Hds _].
  apply digits_no_x in Hds.
  destruct Hc as [Hc|Hc]; simpl in Hc; subst c; split.
  - left. split; reflexivity.
  - intro Hin. apply in_app_or in Hin. destruct Hin as [Hin|Hin]; [|auto].
    vm_compute in Hin. destruct Hin as [Hin|Hin]; [discriminate | exact Hin].
  - right. split; reflexivity.
  - intro Hin. apply in_app_or in Hin. destruct Hin as [Hin|Hin]; [|auto].
    vm_compute in Hin. destruct Hin as [Hin|Hin]; [discriminate | exact Hin].
Qed.

(** A match of the pattern is a site, and the replacer puts the patched site. *)
Lemma mock_site_of_match (p : option ascii) (t : text) (mo : rmatch_obj) :
  match_at mock_pattern p t = Some mo ->
  exists s, site_of mo s /\ site_wf s /\ _replacer_mock_location mo = site_patched s.
Proof.
  intro H. apply mock_shape in H.
  destruct H as [w0 [op [w1 [R [w2 [w3 [g3 [pre4 H]]]]]]]].
  destruct H as [G1 [G2 [G3 [G4 [Hw [S0 [Lop [S1 [LR [S2 [S3 Lg3]]]]]]]]]]].
  exists (mksite w0 op w1 R w2 w3 g3 pre4).
  unfold site_of, site_wf, site_text, site_patched, site_const_line, site_call, site_load.
  cbn [s_indent s_op s_gap s_reg s_sep s_trail s_lines s_invoke].
  destruct (register_shape R LR) as [Hpv HxR].
  assert (Hx : ~ In "x"%char (w0 ++ op ++ w1 ++ R ++ str "," ++ w2)).
  { intro Hin.
    repeat (apply in_app_or in Hin; destruct Hin as [Hin|Hin]);
      try (now apply spaces_no_x in Hin); try (now apply const_op_no_x in Hin);
      try (now apply HxR in Hin).
    vm_compute in Hin. destruct Hin as [Hin|Hin]; [discriminate | exact Hin]. }
  assert (Hstrip : rstrip (group 1 mo) = (w0 ++ op ++ w1 ++ R ++ str "," ++ w2) ++ str "0x1").
  { rewrite G1.
    replace (w0 ++ op ++ w1 ++ R ++ str "," ++ w2 ++ str "0x1" ++ w3 ++ [nl])
      with ((((w0 ++ op ++ w1 ++ R ++ str "," ++ w2) ++ str "0x") ++ ["1"%char])
            ++ (w3 ++ [nl])).
    - rewrite rstrip_spaces.
      + rewrite rstrip_last by reflexivity. rewrite <- !app_assoc. reflexivity.
      + rewrite forallb_app, S3. reflexivity.
    - rewrite <- !app_assoc. reflexivity. }
  assert (Hrepl :
    _replacer_mock_location mo
    = (w0 ++ op ++ w1 ++ R ++ str "," ++ w2) ++ str "0x0" ++ [nl] ++ g3 ++ (pre4 ++ R
      ++ set_mock_sig) ++ (if starts_with (str "p") R then restore_instr R else [])).
  { unfold _replacer_mock_location.
    rewrite Hstrip, flip_true_literal by exact Hx.
    rewrite G2, G3, G4. rewrite <- !app_assoc. reflexivity. }
  assert (E1 : group 1 mo = (w0 ++ op ++ w1 ++ R ++ str "," ++ w2) ++ str "0x1" ++ w3 ++ [nl]).
  { rewrite G1. rewrite <- !app_assoc. reflexivity. }
  repeat split; auto.
  rewrite Hw, E1, G4. reflexivity.
Qed.

Lemma site_text_not_nil (s : site) : site_text s <> [].
Proof.
  unfold site_text, site_const_line. intro H.
  apply (f_equal (@length ascii)) in H. rewrite !length_app in H. cbn in H. lia.
Qed.

Lemma mock_no_empty_match (p : option ascii) : match_at mock_pattern p [] = None.
Proof.
  destruct (match_at mock_pattern p []) as [mo|] eqn:H; [|reflexivity].
  destruct (mock_site_of_match _ _ _ H) as [s [[Hw _] _]].
  apply match_at_prefix in H. destruct H as [rst H]. rewrite Hw in H.
  symmetry in H. apply app_eq_nil in H. destruct H as [H _].
  now apply site_text_not_nil in H.
Qed.

(** The substitution of the rule performs the scan. *)
Lemma mock_subn_scan : forall n t p,
  length t <= n ->
  mock_scan p t (fst (subn_from mock_pattern _replacer_mock_location 0 p t))
              (snd (subn_from mock_pattern _replacer_mock_location 0 p t)).
Proof.
  induction n as [|n IH]; intros t p Hn.
  - destruct t; [|simpl in Hn; lia]. cbn [subn_from]. rewrite mock_no_empty_match.
    constructor.
  - destruct t as [|c t].
    + cbn [subn_from]. rewrite mock_no_empty_match. constructor.
    + destruct (match_at mock_pattern p (c :: t)) as [mo|] eqn:Hm.
      * destruct (mock_site_of_match _ _ _ Hm) as [s [Hof [Hwf Hrepl]]].
        pose proof Hof as [Hw _].
        destruct (match_at_prefix _ _ _ _ Hm) as [rst Hrst].
        destruct (site_text s) as [|c' w'] eqn:Es; [now apply site_text_not_nil in Es|].
        rewrite Hw in Hrst. cbn [app] in Hrst. injection Hrst as <- Ht.
        rewrite (subn_from_hit _ _ p c t mo w' rst Hm Hw Ht). cbn [fst snd].
        rewrite Hrepl. subst t.
        change (c :: w' ++ rst) with ((c :: w') ++ rst). rewrite <- Es.
        apply scan_site with (mo := mo); auto.
        -- rewrite Es. exact Hm.
        -- rewrite Es. cbn [prev_after fold_left]. apply IH.
           simpl in Hn. rewrite length_app in Hn. lia.
      * cbn [subn_from]. rewrite Hm.
        pose proof (IH t (Some c) ltac:(simpl in Hn; lia)) as H.
        destruct (subn_from mock_pattern _replacer_mock_location 0 (Some c) t) as [out k].
        cbn [fst snd] in *. now constructor.
Qed.

Lemma mock_rewrite_scan (content : text) :
  mock_scan None content (fst (mock_rewrite content)) (snd (mock_rewrite content)).
Proof. unfold mock_rewrite, subn. now apply (mock_subn_scan (length content)). Qed.

(** The scan determines its result. *)
Lemma site_patched_of_match (mo : rmatch_obj) (s s' : site) :
  site_of mo s -> site_wf s -> site_of mo s' -> site_wf s' ->
  site_patched s = site_patched s'.
Proof.
  intros [_ [H1 [H2 [H3 H4]]]] Hwf [_ [H1' [H2' [H3' H4']]]] Hwf'.
  assert (Hload : forall x, site_wf x -> ~ In "x"%char (site_load x)).
  { intros x [S0 [Lop [S1 [LR [S2 _]]]]] Hin. unfold site_load in Hin.
    destruct (register_shape _ LR) as [_ HxR].
    repeat (apply in_app_or in Hin; destruct Hin as [Hin|Hin]);
      try (now apply spaces_no_x in Hin); try (now apply const_op_no_x in Hin);
      try (now apply HxR in Hin).
    vm_compute in Hin. destruct Hin as [Hin|Hin]; [discriminate | exact Hin]. }
  assert (Hcut : forall a b u v : text,
            ~ In "x"%char a -> ~ In "x"%char b ->
            a ++ "0"%char :: "x"%char :: u = b ++ "0"%char :: "x"%char :: v -> a = b).
  { induction a as [|x a IHa]; intros [|y b] u v Ha Hb E.
    - reflexivity.
    - exfalso. cbn in E. injection E as E0 E. subst y.
      destruct b as [|z b]; cbn in E.
      + injection E as E1 _. discriminate E1.
      + injection E as E1 _. subst z. apply Hb. right. now left.
    - exfalso. cbn in E. injection E as E0 E. subst x.
      destruct a as [|z a]; cbn in E.
      + injection E as E1 _. discriminate E1.
      + injection E as E1 _. subst z. apply Ha. right. now left.
    - cbn in E. injection E as E0 E. subst y. f_equal.
      apply (IHa b u v); auto; intro Hin; [apply Ha | apply Hb]; now right. }
  assert (El : site_load s = site_load s').
  { apply (Hcut _ _ ("1"%char :: s_trail s ++ [nl]) ("1"%char :: s_trail s' ++ [nl]));
      auto.
    change (site_load s ++ str "0x1" ++ s_trail s ++ [nl]
            = site_load s' ++ str "0x1" ++ s_trail s' ++ [nl]).
    fold (site_const_line s). fold (site_const_line s'). congruence. }
  unfold site_patched. rewrite El. rewrite <- H2, <- H2', <- H3, <- H3', <- H4, <- H4'.
  reflexivity.
Qed.

Lemma site_app_not_nil (s : site) (rst : text) : site_text s ++ rst <> [].
Proof.
  intro H. apply app_eq_nil in H. destruct H as [H _]. now apply site_text_not_nil in H.
Qed.

Lemma mock_scan_functional p t out n :
  mock_scan p t out n -> forall out' n', mock_scan p t out' n' -> out = out' /\ n = n'.
Proof.
  induction 1 as [p|p c t out n Hm Hs IH|p s mo rst out n Hm Hof Hwf Hs IH];
    intros out' n' H'.
  - remember (@nil ascii) as t eqn:Et.
    destruct H' as [p|p c t out' n' Hm' Hs'|p s' mo' rst' out' n' Hm' Hof' Hwf' Hs'].
    + auto.
    + discriminate Et.
    + now apply site_app_not_nil in Et.
  - remember (c :: t) as t0 eqn:Et.
    destruct H' as [p|p c' t' out' n' Hm' Hs'|p s' mo' rst' out' n' Hm' Hof' Hwf' Hs'].
    + discriminate Et.
    + injection Et as -> ->. destruct (IH _ _ Hs') as [-> ->]. auto.
    + congruence.
  - remember (site_text s ++ rst) as t0 eqn:Et.
    destruct H' as [p|p c' t' out' n' Hm' Hs'|p s' mo' rst' out' n' Hm' Hof' Hwf' Hs'].
    + symmetry in Et. now apply site_app_not_nil in Et.
    + congruence.
    + assert (Emo : mo' = mo) by congruence. subst mo'.
      pose proof Hof as [Hw _]. pose proof Hof' as [Hw' _].
      assert (Es : site_text s' = site_text s) by congruence.
      rewrite Es in Et. apply app_inv_head in Et. subst rst'.
      rewrite Es in Hs'. destruct (IH _ _ Hs') as [-> ->].
      rewrite (site_patched_of_match mo s s'); auto.
Qed.

(** C4: the mock-location rule replaces every match of its pattern, from left
    to right.  A match is a site: a constant load of 0x1 into a register [R]
    named p<n> or v<n>, then [.line] annotations, then the invocation of
    [setIsFromMockProvider] that passes [R].  In its place the rule puts the
    load with 0x0 for 0x1, the annotations and the invocation as they were,
    and after the invocation the instruction that loads 0x1 into [R] again,
    exactly when [R] is a p-register.  The text between the sites stays.  The
    file is written with that text when there is at least one site, and left
    alone otherwise. *)
Theorem mock_sites_rewritten (windows : bool) (t : tree) (f : sfile) :
  find_smali_file t (str "MockLocationProvider.smali") = Some f ->
  readable f = true -> writable f = true ->
  exists out n,
    mock_scan None (read_text (fcontent f)) out n
    /\ mock_rewrite (read_text (fcontent f)) = (out, n)
    /\ patch_mock_location_provider windows t
       = if 0 <? n
         then (true, write_smali_file t (str "MockLocationProvider.smali")
                       (write_text windows out))
         else (false, t).
Proof.
  intros Hf Hr Hw.
  pose proof (mock_rewrite_scan (read_text (fcontent f))) as Hs.
  unfold patch_mock_location_provider. rewrite Hf, Hr, Hw.
  destruct (mock_rewrite (read_text (fcontent f))) as [out n]. cbn [fst snd] in Hs.
  exists out, n. repeat split; auto.
Qed.

Lemma mock_sites_rewritten_witness :
  exists out n,
    mock_scan None (read_text mock_fixture) out n
    /\ mock_rewrite (read_text mock_fixture) = (out, n)
    /\ patch_mock_location_provider false tree_mock_only
       = if 0 <? n
         then (true, write_smali_file tree_mock_only (str "MockLocationProvider.smali")
                       (write_text false out))
         else (false, tree_mock_only).
Proof.
  apply (mock_sites_rewritten false tree_mock_only
           (mksfile (str "MockLocationProvider.smali") mock_fixture true true));
    reflexivity.
Defined.

(** A site with a p-register: the load is flipped and the restore instruction
    stands between the invocation and the later use of the register. *)
Lemma mock_site_rewritten :
  mock_rewrite mock_site
  = (join [nl] [str "    const/4 p2, 0x0";
                str "    .line 33";
                str "    invoke-virtual {v0, p2}, Landroid/location/Location;->setIsFromMockProvider(Z)V";
                str "    const/4 p2, 0x1";
                str "    array-length v1, p2"], 1).
Proof. vm_compute. reflexivity. Qed.

(** A site with a v-register: the load is flipped and nothing is inserted. *)
Lemma mock_site_local_rewritten :
  mock_rewrite mock_site_local
  = (join [nl] [str "    const/4 v3, 0x0";
                str "    .line 33";
                str "    invoke-virtual {v0, v3}, Landroid/location/Location;->setIsFromMockProvider(Z)V";
                str "    array-length v1, v3"], 1).
Proof. vm_compute. reflexivity. Qed.

(** The fixture holds one site, with a p-register: the load is flipped and the
    restore instruction follows the invocation. *)
Lemma mock_fixture_rewritten :
  mock_rewrite mock_fixture
  = (join [nl] [str ".method public setLocation()V";
                str "    const/4 p2, 0x0";
                str "    invoke-virtual {v0, p2}, Landroid/location/Location;->setIsFromMockProvider(Z)V";
                str "    const/4 p2, 0x1";
                str "    array-length v1, p2";
                str ".end method"], 1).
Proof. vm_compute. reflexivity. Qed.

(** ** The AppOps rule *)

(** The boolean replacement is keyed on the method name at the start of a
    match.  Every match of its pattern starts at a header
    [.method public noteOp(] or [.method public noteOpNoThrow(] -- never at a
    header named [checkOpNoThrow] -- and the replacement keeps that header up
    to its [.registers] line, puts the body that returns true, and closes the
    method. *)
Theorem app_ops_bool_only_note (p : option ascii) (t : text) (mo : rmatch_obj) :
  match_at pattern_bool p t = Some mo ->
  exists name sig body rst,
    t = whole mo ++ rst
    /\ whole mo = group 1 mo ++ body ++ str ".end method"
    /\ group 1 mo = str ".method public " ++ name ++ str "(" ++ sig
    /\ (name = str "noteOp" \/ name = str "noteOpNoThrow")
    /\ replacement_bool mo = group 1 mo ++ bool_body ++ str ".end method".
Proof.
  intro H. apply match_at_sound in H. destruct H as [s' [H ->]].
  unfold pattern_bool in H. cbn [seqs] in H.
  apply rm_seq in H. destruct H as [sa [H1 H]].
  apply rm_seq in H. destruct H as [sb [H2 H3]].
  apply rm_group in H1. destruct H1 as [s1 [H1 ->]].
  apply rm_group in H2. destruct H2 as [s2 [H2 ->]].
  apply rm_group in H3. destruct H3 as [s3 [H3 ->]].
  plain H1 g1 E1 L1 C1. plain H2 g2 E2 L2 C2. plain H3 g3 E3 L3 C3.
  simpl in L3. subst g3.
  assert (Et : t = (g1 ++ g2 ++ str ".end method") ++ rest s3).
  { rewrite E1, E2, E3. now rewrite <- !app_assoc. }
  fold_consumed s1 g1 E1. fold_consumed s2 g2 E2. fold_consumed s3 (str ".end method") E3.
  assert (Hcaps : caps s3 = [(2, g2); (1, g1)]).
  { rewrite C3, C2, C1. reflexivity. }
  assert (Hw : consumed (mkst p t [])
                 (mkst (prev s3) (rest s3) ((3, str ".end method") :: caps s3))
               = g1 ++ g2 ++ str ".end method")
    by (apply consumed_eq; exact Et).
  unfold replacement_bool, group. cbn [whole groups]. rewrite Hw, Hcaps.
  cbn [get_cap Nat.eqb].
  destruct L1 as [h [r1 [-> [Hh L1]]]]. simpl in Hh. subst h.
  destruct L1 as [o [r2 [-> [Ho L1]]]].
  destruct L1 as [par [r3 [-> [Hpar L1]]]]. simpl in Hpar. subst par.
  destruct Ho as [Ho|Ho]; simpl in Ho; subst o.
  - exists (str "noteOpNoThrow"), r3, g2, (rest s3).
    repeat split; auto.
  - exists (str "noteOp"), r3, g2, (rest s3).
    repeat split; auto.
Qed.

Lemma app_ops_bool_only_note_witness :
  exists name sig body rst,
    appops_note_bool = whole appops_note_match ++ rst
    /\ whole appops_note_match = group 1 appops_note_match ++ body ++ str ".end method"
    /\ group 1 appops_note_match = str ".method public " ++ name ++ str "(" ++ sig
    /\ (name = str "noteOp" \/ name = str "noteOpNoThrow")
    /\ replacement_bool appops_note_match
       = group 1 appops_note_match ++ bool_body ++ str ".end method".
Proof.
  apply (app_ops_bool_only_note None appops_note_bool appops_note_match).
  vm_compute. reflexivity.
Defined.

(** The integer replacement of the rule names the check variants: a method
    [checkOpNoThrow] that returns an integer is rewritten, its body replaced
    by the return of 0. *)
Lemma check_variant_rewritten :
  app_ops_rewrite appops_check_int = (appops_check_int_rewritten, 0, 1)
  /\ appops_check_int_rewritten <> appops_check_int.
Proof. split; [vm_compute; reflexivity | vm_compute; discriminate]. Qed.

(** C1: the rule rewrites a check-only method.  In a helper class with an
    integer-returning [noteOp] in front of the boolean [checkOpNoThrow], the
    match of the boolean pattern starts at the header of [noteOp] and, its
    lazy [.*?] passing over line ends, closes at the [)Z .registers] of
    [checkOpNoThrow]: the body of [checkOpNoThrow] is replaced by the return
    of true.  The rule reports one boolean and one integer replacement and
    writes the file. *)
Theorem check_only_method_rewritten :
  app_ops_rewrite appops_note_then_check
  = (appops_note_int_rewritten ++ [nl; nl] ++ appops_check_forced ++ [nl], 1, 1)
  /\ appops_check_forced <> appops_check_only
  /\ (exists mo, match_at pattern_bool None appops_note_then_check = Some mo
                /\ group 1 mo = appops_note_int ++ [nl; nl]
                                ++ str ".method public checkOpNoThrow(II)Z" ++ [nl]
                                ++ str "    .registers 4")
  /\ patch_system_app_ops_helper false tree_note_then_check
     = (true,
        [mksdir (str "smali") true
           [mksfile (str "SystemAppOpsHelper.smali")
              (appops_note_int_rewritten ++ [nl; nl] ++ appops_check_forced ++ [nl])
              true true]]).
Proof.
  split; [vm_compute; reflexivity|].
  split; [vm_compute; discriminate|].
  split; [|vm_compute; reflexivity].
  destruct (match_at pattern_bool None appops_note_then_check) as [mo|] eqn:E;
    [|vm_compute in E; discriminate E].
  exists mo. split; [reflexivity|].
  vm_compute in E. injection E as <-. vm_compute. reflexivity.
Qed.

Lemma occurs_false_suffix (w u v : text) :
  occurs w (u ++ v) = false -> starts_with w v = false.
Proof.
  induction u as [|c u IH]; simpl; intro H.
  - destruct v; simpl in H; apply orb_false_iff in H; tauto.
  - apply orb_false_iff in H. destruct H as [_ H].
    destruct u; simpl in *; auto.
Qed.

Lemma match_at_group_lit_fail (w : text) (i : nat) (r r2 : regex) (p : option ascii) (t : text) :
  starts_with w t = false -> match_at (Seq (Group i (Seq (Lit w) r)) r2) p t = None.
Proof.
  intro H. unfold match_at. simpl. rewrite adv_none; auto.
Qed.

(** A text without a note header is left as it is by the boolean
    replacement, whatever check-only methods it holds. *)
Lemma app_ops_bool_without_note (content : text) :
  occurs (str ".method public noteOp") content = false ->
  subn pattern_bool replacement_bool content = (content, 0).
Proof.
  intro H. unfold subn.
  rewrite <- (app_nil_r content) at 1.
  rewrite subn_from_no_match.
  - simpl. now rewrite app_nil_r.
  - intros u c v E. apply match_at_group_lit_fail.
    rewrite app_nil_r. rewrite E in H. now apply occurs_false_suffix in H.
Qed.

(** ** Runs over a character class *)

Lemma star_loop_greedy body f k :
  (forall k' s, body k' s = cls_step f k' s) ->
  forall n p t cs,
    length t <= n ->
    star_loop body true k n (mkst p t cs) = greedy_cls f k p t cs.
Proof.
  intros Hb. induction n as [|n IH]; intros p t cs Hn.
  - destruct t; [reflexivity | simpl in Hn; lia].
  - cbn [star_loop]. rewrite Hb. unfold cls_step. cbn [rest caps].
    destruct t as [|c t']; [reflexivity|].
    cbn [greedy_cls]. destruct (f c); [|reflexivity].
    assert (Hlt : (length t' <? length (c :: t')) = true)
      by (apply Nat.ltb_lt; simpl; lia).
    rewrite Hlt. rewrite IH by (simpl in Hn; lia). reflexivity.
Qed.

Lemma star_loop_lazy body f k :
  (forall k' s, body k' s = cls_step f k' s) ->
  forall n p t cs,
    length t <= n ->
    star_loop body false k n (mkst p t cs) = lazy_cls f k p t cs.
Proof.
  intros Hb. induction n as [|n IH]; intros p t cs Hn.
  - destruct t; [simpl; now destruct (k _) | simpl in Hn; lia].
  - cbn [star_loop]. rewrite Hb. unfold cls_step. cbn [rest caps].
    destruct t as [|c t']; [reflexivity|].
    cbn [lazy_cls]. destruct (f c); [|reflexivity].
    assert (Hlt : (length t' <? length (c :: t')) = true)
      by (apply Nat.ltb_lt; simpl; lia).
    rewrite Hlt. rewrite IH by (simpl in Hn; lia). reflexivity.
Qed.

Lemma m_cls_step f k s : m (Cls f) k s = cls_step f k s.
Proof. reflexivity. Qed.

Lemma m_lit1_step c k s : m (Lit [c]) k s = cls_step (Ascii.eqb c) k s.
Proof.
  unfold cls_step. simpl. destruct (rest s) as [|b t]; [reflexivity|].
  destruct (Ascii.eqb c b); reflexivity.
Qed.

Lemma m_star_cls_greedy f k s :
  m (Star true (Cls f)) k s = greedy_cls f k (prev s) (rest s) (caps s).
Proof.
  destruct s as [p t cs]. simpl m.
  apply star_loop_greedy; [apply m_cls_step | reflexivity].
Qed.

Lemma m_star_cls_lazy f k s :
  m (Star false (Cls f)) k s = lazy_cls f k (prev s) (rest s) (caps s).
Proof.
  destruct s as [p t cs]. simpl m.
  apply star_loop_lazy; [apply m_cls_step | reflexivity].
Qed.

Lemma m_star_lit1_greedy c k s :
  m (Star true (Lit [c])) k s = greedy_cls (Ascii.eqb c) k (prev s) (rest s) (caps s).
Proof.
  destruct s as [p t cs]. simpl m.
  apply star_loop_greedy; [apply m_lit1_step | reflexivity].
Qed.

(** ** Substitution, region by region *)

Lemma firstn_prefix_le {A} (w a b : list A) rst :
  a ++ b = w ++ rst -> length w <= length a -> exists a2, a = w ++ a2.
Proof.
  revert a. induction w as [|x w IH]; intros a H Hl.
  - now exists a.
  - destruct a as [|y a]; [simpl in Hl; lia|].
    simpl in H. inversion H; subst.
    destruct (IH a H2) as [a2 Ha2]; [simpl in Hl; lia|].
    exists a2. now rewrite Ha2.
Qed.

(** Substitution with a constant replacement over a region [M] that no match
    leaves: the region is rewritten on its own, and the scan goes on after
    it. *)
Lemma subn_from_confined r x Z :
  forall n M p,
    length M <= n ->
    (forall u c v mo, M = u ++ c :: v ->
       match_at r (prev_after p u) (c :: v ++ Z) = Some mo ->
       length (whole mo) <= S (length v)) ->
    exists J,
      fst (subn_from r (fun _ => x) 0 p (M ++ Z))
      = J ++ fst (subn_from r (fun _ => x) 0 (prev_after p M) Z)
      /\ (forall ch, In ch J -> In ch M \/ In ch x).
Proof.
  induction n as [|n IH]; intros M p Hn Hconf.
  - destruct M; [|simpl in Hn; lia]. exists []. split; [reflexivity | intros ch []].
  - destruct M as [|c M'].
    + exists []. split; [reflexivity | intros ch []].
    + cbn [app subn_from].
      destruct (match_at r p (c :: M' ++ Z)) as [mo|] eqn:Hm.
      * pose proof (Hconf [] c M' mo eq_refl Hm) as Hlen.
        destruct (match_at_prefix _ _ _ _ Hm) as [rst Hpre].
        destruct (whole mo) as [|c0 w'] eqn:Hw.
        -- (* empty match *)
           cbn [length Nat.sub Nat.eqb].
           destruct (IH M' (Some c)) as [J [HJ HJin]].
           { simpl in Hn. lia. }
           { intros u c' v mo' E Hm'. apply (Hconf (c :: u) c' v mo'); [now rewrite E | exact Hm']. }
           destruct (subn_from r (fun _ => x) 0 (Some c) (M' ++ Z)) as [out k].
           cbn [fst] in *. exists (x ++ [c] ++ J). split.
           ++ rewrite HJ. now rewrite <- !app_assoc.
           ++ intros ch Hin. apply in_app_or in Hin. destruct Hin as [Hin|Hin]; [now right|].
              destruct Hin as [->|Hin]; [left; now left|].
              apply HJin in Hin. destruct Hin; [left; now right | now right].
        -- simpl in Hpre. inversion Hpre; subst c0.
           cbn [length] in Hlen.
           destruct (firstn_prefix_le w' M' Z rst H1) as [M'' HM'']; [lia|].
           subst M'. rewrite <- app_assoc.
           cbn [length Nat.sub]. rewrite Nat.sub_0_r.
           cbn [Nat.eqb]. rewrite subn_from_skip.
           destruct (IH M'' (prev_after (Some c) w')) as [J [HJ HJin]].
           { simpl in Hn. rewrite length_app in Hn. lia. }
           { intros u c' v mo' E Hm'. apply (Hconf (c :: w' ++ u) c' v mo').
             - rewrite E. cbn [app]. now rewrite <- app_assoc.
             - change (prev_after p (c :: w' ++ u)) with (prev_after (Some c) (w' ++ u)).
               rewrite prev_after_app. exact Hm'. }
           destruct (subn_from r (fun _ => x) 0 (prev_after (Some c) w') (M'' ++ Z)) as [out k].
           cbn [fst] in *. exists (x ++ J). split.
           ++ rewrite HJ. cbn [app]. rewrite <- !app_assoc.
              change (prev_after p (c :: w' ++ M'')) with (prev_after (Some c) (w' ++ M'')).
              now rewrite prev_after_app.
           ++ intros ch Hin. apply in_app_or in Hin. destruct Hin as [Hin|Hin]; [now right|].
              apply HJin in Hin. destruct Hin as [Hin|Hin]; [|now right].
              left. right. apply in_or_app. now right.
      * destruct (IH M' (Some c)) as [J [HJ HJin]].
        { simpl in Hn. lia. }
        { intros u c' v mo' E Hm'. apply (Hconf (c :: u) c' v mo'); [now rewrite E | exact Hm']. }
        destruct (subn_from r (fun _ => x) 0 (Some c) (M' ++ Z)) as [out k].
        cbn [fst] in *. exists (c :: J). split.
        -- now rewrite HJ.
        -- intros ch [->|Hin]; [left; now left|].
           apply HJin in Hin. destruct Hin; [left; now right | now right].
Qed.

(** ** Literals a match has to hold *)

Lemma starts_with_app w : forall x y, starts_with w x = true -> starts_with w (x ++ y) = true.
Proof.
  induction w as [|a w IH]; intros x y H; [reflexivity|].
  destruct x as [|b x]; [discriminate|]. simpl in *.
  apply andb_true_iff in H. destruct H as [H1 H2]. rewrite H1. simpl. auto.
Qed.

Lemma starts_with_refl w y : starts_with w (w ++ y) = true.
Proof.
  induction w as [|a w IH]; [reflexivity|]. simpl. rewrite IH.
  now rewrite (proj2 (Ascii.eqb_eq a a) eq_refl).
Qed.

Lemma occurs_app_l w x y : occurs w x = true -> occurs w (x ++ y) = true.
Proof.
  induction x as [|c x IH]; simpl; intro H.
  - rewrite orb_false_r in H. destruct w; [|discriminate]. destruct y; reflexivity.
  - apply orb_true_iff in H. destruct H as [H|H].
    + pose proof (starts_with_app w (c :: x) y H) as H'. simpl in H'. rewrite H'. reflexivity.
    + rewrite (IH H). apply orb_true_r.
Qed.

Lemma occurs_app_r w x y : occurs w y = true -> occurs w (x ++ y) = true.
Proof.
  induction x as [|c x IH]; simpl; intro H; auto.
  rewrite (IH H). apply orb_true_r.
Qed.

Lemma occurs_start w t : starts_with w t = true -> occurs w t = true.
Proof. intro H. destruct t; simpl; rewrite H; reflexivity. Qed.

Lemma occurs_mid w a b : occurs w (a ++ w ++ b) = true.
Proof. apply occurs_app_r, occurs_start, starts_with_refl. Qed.

Lemma occurs_in c w t : occurs (c :: w) t = true -> In c t.
Proof.
  induction t as [|b t IH]; simpl; intro H; [discriminate|].
  apply orb_true_iff in H. destruct H as [H|H].
  - apply andb_true_iff in H. destruct H as [H _].
    apply Ascii.eqb_eq in H. now left.
  - right. auto.
Qed.

Lemma no_match_at r w q t :
  (forall x, lang r x -> occurs w x = true) ->
  occurs w t = false -> match_at r q t = None.
Proof.
  intros Hl Ho. destruct (match_at r q t) as [mo|] eqn:Hm; [|reflexivity].
  apply match_at_sound in Hm. destruct Hm as [s' [Hr _]].
  apply rmatch_lang in Hr. destruct Hr as [x [E [Lx _]]]. cbn [rest] in E.
  apply Hl in Lx. rewrite E in Ho. rewrite (occurs_app_l _ _ _ Lx) in Ho. discriminate.
Qed.

Lemma occurs_false_app_r w u v : occurs w (u ++ v) = false -> occurs w v = false.
Proof.
  intro H. destruct (occurs w v) eqn:E; [|reflexivity].
  now rewrite (occurs_app_r w u v E) in H.
Qed.

(** A pattern whose matches all hold a literal leaves a text without that
    literal as it is. *)
Lemma subn_without_literal r repl w t :
  (forall x, lang r x -> occurs w x = true) ->
  occurs w t = false -> subn r repl t = (t, 0).
Proof.
  intros Hl Ho. unfold subn.
  rewrite <- (app_nil_r t) at 1. rewrite subn_from_no_match.
  - cbn [subn_from]. rewrite (no_match_at r w _ [] Hl).
    + simpl. now rewrite app_nil_r.
    + rewrite <- (app_nil_r t) in Ho. now apply occurs_false_app_r in Ho.
  - intros u c v E. apply (no_match_at r w); [exact Hl|].
    rewrite app_nil_r. rewrite E in Ho. now apply occurs_false_app_r in Ho.
Qed.

Lemma directive_has_keyword p x :
  lang (directive_pattern p) x -> occurs (str "set_metadata") x = true.
Proof.
  unfold directive_pattern. cbn [seqs lang].
  intros [w1 [w2 [-> [_ [w3 [w4 [-> [_ [w5 [w6 [-> [-> _]]]]]]]]]]]].
  apply occurs_app_r. apply occurs_mid.
Qed.

Lemma block_has_marker x :
  lang block_pattern x -> occurs start_marker x = true.
Proof.
  unfold block_pattern. cbn [seqs lang].
  intros [w1 [w2 [-> [_ [w3 [w4 [-> [-> _]]]]]]]].
  apply occurs_mid.
Qed.

Lemma blank_has_nl x : lang blank_lines_pattern x -> occurs [nl] x = true.
Proof.
  unfold blank_lines_pattern. cbn [seqs lang].
  intros [w1 [w2 [-> [-> _]]]]. apply (occurs_mid [nl] []).
Qed.

Lemma subn_from_chars r x :
  forall t skip p ch,
    In ch (fst (subn_from r (fun _ => x) skip p t)) -> In ch t \/ In ch x.
Proof.
  induction t as [|c t IH]; intros skip p ch H.
  - destruct skip; simpl in H; [|tauto].
    destruct (match_at r p []); simpl in H; tauto.
  - destruct skip as [|k].
    + cbn [subn_from] in H. destruct (match_at r p (c :: t)) as [mo|].
      * destruct (subn_from r (fun _ => x) (length (whole mo) - 1) (Some c) t) as [out n] eqn:E.
        cbn [fst] in H. apply in_app_or in H. destruct H as [H|H]; [now right|].
        apply in_app_or in H. destruct H as [H|H].
        -- destruct (length (whole mo) =? 0); simpl in H; [|tauto].
           destruct H as [->|[]]. left. now left.
        -- specialize (IH (length (whole mo) - 1) (Some c) ch). rewrite E in IH.
           destruct (IH H); [left; now right | now right].
      * destruct (subn_from r (fun _ => x) 0 (Some c) t) as [out n] eqn:E.
        cbn [fst] in H. destruct H as [->|H]; [left; now left|].
        specialize (IH 0 (Some c) ch). rewrite E in IH.
        destruct (IH H); [left; now right | now right].
    + cbn [subn_from] in H. destruct (IH k (Some c) ch H); [left; now right | now right].
Qed.

Lemma lstrip_in ch t : In ch (lstrip t) -> In ch t.
Proof.
  induction t as [|c t IH]; simpl; auto.
  destruct (is_space c); simpl; auto.
Qed.

Lemma strip_in ch t : In ch (strip t) -> In ch t.
Proof.
  unfold strip, rstrip. intro H. apply in_rev in H. apply lstrip_in in H.
  apply in_rev in H. now apply lstrip_in in H.
Qed.

(** ** The first merge of a plain script *)

Lemma remove_existing_clean s :
  occurs keyword s = false ->
  forall items a u acc,
    fst (fst (fst (remove_existing items s a u acc))) = s.
Proof.
  intros Hs. induction items as [|[[p d] md] items IH]; intros a u acc; [reflexivity|].
  cbn [remove_existing].
  rewrite (subn_without_literal (directive_pattern p) (fun _ => []) keyword s
             (directive_has_keyword p) Hs).
  cbn [Nat.ltb Nat.leb]. apply IH.
Qed.

Lemma collapse_chars ch t : In ch (collapse t) -> In ch t \/ ch = nl.
Proof.
  unfold collapse, sub, subn. intro H. apply subn_from_chars in H.
  destruct H as [H|[H|[]]]; auto.
Qed.

Lemma no_hash_no_marker t : ~ In hash t -> occurs start_marker t = false.
Proof.
  intro H. destruct (occurs start_marker t) eqn:E; [|reflexivity].
  exfalso. apply H. exact (occurs_in hash _ t E).
Qed.

Lemma strip_collapse_no_hash s : ~ In hash s -> ~ In hash (strip (collapse s)).
Proof.
  intros H Hin. apply strip_in in Hin. apply collapse_chars in Hin.
  destruct Hin as [Hin|Hin]; [auto | discriminate].
Qed.

(** The first merge of a script that holds neither the directive keyword nor
    a [#]: the script, cleaned of blank lines and stripped, then the block. *)
Lemma first_merge s items :
  occurs keyword s = false -> ~ In hash s ->
  merge_text s items = strip (collapse s) ++ managed_block (fresh_lines items).
Proof.
  intros Hk Hh. rewrite merge_text_eq. f_equal.
  unfold cleaned, current_text_of. rewrite remove_existing_clean by exact Hk.
  fold (collapse s). unfold sub.
  rewrite (subn_without_literal block_pattern (fun _ => []) start_marker _ block_has_marker).
  - reflexivity.
  - apply no_hash_no_marker. now apply strip_collapse_no_hash.
Qed.

(** ** The blank-line clean-up *)

Lemma is_nl_space c : is_nl c = true -> is_space c = true.
Proof. unfold is_nl. intro H. apply Ascii.eqb_eq in H. subst c. reflexivity. Qed.

Lemma nl_eqb c : Ascii.eqb nl c = is_nl c.
Proof. unfold is_nl. apply Ascii.eqb_sym. Qed.

Lemma m_lit_nl k s :
  m (Lit [nl]) k s
  = match rest s with
    | c :: t => if is_nl c then k (mkst (Some nl) t (caps s)) else None
    | [] => None
    end.
Proof.
  cbn [m adv]. destruct (rest s) as [|c t]; [reflexivity|].
  unfold is_nl. rewrite (Ascii.eqb_sym c nl).
  destruct (Ascii.eqb nl c) eqn:E; [|reflexivity].
  apply Ascii.eqb_eq in E. now subst c.
Qed.

Lemma greedy_blank p t cs :
  greedy_cls is_space (fun s2 => m (Lit [nl]) Some s2) p t cs
  = option_map (fun r => mkst (Some nl) r cs) (after_last_nl t).
Proof.
  revert p. induction t as [|c t IH]; intro p; cbn [greedy_cls after_last_nl].
  - now rewrite m_lit_nl.
  - rewrite m_lit_nl. cbn [rest caps]. rewrite IH.
    destruct (is_space c) eqn:Hs.
    + destruct (after_last_nl t) as [r|]; [reflexivity|].
      cbn [option_map orelse]. destruct (is_nl c); reflexivity.
    + destruct (is_nl c) eqn:Hn; [|reflexivity].
      apply is_nl_space in Hn. congruence.
Qed.

Lemma m_seq a b k s : m (Seq a b) k s = m a (fun s' => m b k s') s.
Proof. reflexivity. Qed.

Lemma blank_run p t :
  m blank_lines_pattern Some (mkst p t [])
  = match t with
    | c :: t1 =>
        if is_nl c then option_map (fun r => mkst (Some nl) r []) (after_last_nl t1)
        else None
    | [] => None
    end.
Proof.
  unfold blank_lines_pattern. cbn [seqs]. rewrite m_seq, m_lit_nl. cbn [rest caps].
  destruct t as [|c t1]; [reflexivity|].
  destruct (is_nl c); [|reflexivity].
  rewrite m_seq. unfold ws. rewrite m_star_cls_greedy. cbn [prev rest caps].
  apply greedy_blank.
Qed.

Lemma after_last_nl_split t : forall r,
  after_last_nl t = Some r ->
  exists w, t = w ++ r /\ forallb is_space w = true /\ after_last_nl r = None
            /\ exists w0, w = w0 ++ [nl].
Proof.
  induction t as [|c t IH]; intros r H; cbn [after_last_nl] in H; [discriminate|].
  destruct (is_space c) eqn:Hs; [|discriminate].
  destruct (after_last_nl t) as [r'|] eqn:Ha.
  - inversion H; subst r'. destruct (IH r eq_refl) as [w [E [Hw [Hr [w0 Hw0]]]]].
    exists (c :: w). repeat split.
    + now rewrite E.
    + simpl. now rewrite Hs, Hw.
    + exact Hr.
    + exists (c :: w0). now rewrite Hw0.
  - destruct (is_nl c) eqn:Hn; [|discriminate]. inversion H; subst r.
    exists [c]. repeat split.
    + simpl. now rewrite Hs.
    + exact Ha.
    + exists []. unfold is_nl in Hn. apply Ascii.eqb_eq in Hn. now subst c.
Qed.

(** The clean-up leaves no two newlines with only white space between. *)
Lemma collapse_gap_free_from :
  forall n t p armed,
    length t <= n ->
    (armed = true -> after_last_nl t = None) ->
    gap_from armed (fst (subn_from blank_lines_pattern (fun _ => [nl]) 0 p t)) = false.
Proof.
  induction n as [|n IH]; intros t p armed Hn Harm.
  - destruct t; [|simpl in Hn; lia]. reflexivity.
  - destruct t as [|c t']; [reflexivity|].
    cbn [subn_from]. unfold match_at. rewrite blank_run.
    destruct (is_nl c) eqn:Hc.
    + assert (Ha : armed = false).
      { destruct armed; [|reflexivity]. specialize (Harm eq_refl).
        cbn [after_last_nl] in Harm. rewrite (is_nl_space c Hc), Hc in Harm.
        destruct (after_last_nl t'); discriminate. }
      subst armed.
      destruct (after_last_nl t') as [r|] eqn:Hr; cbn [option_map].
      * destruct (after_last_nl_split t' r Hr) as [w [E [Hw [Hrn _]]]]. subst t'.
        change (c :: w ++ r) with ((c :: w) ++ r).
        rewrite consumed_app. cbn [whole length Nat.sub Nat.eqb]. rewrite Nat.sub_0_r.
        rewrite subn_from_skip.
        specialize (IH r (prev_after (Some c) w) true).
        destruct (subn_from blank_lines_pattern (fun _ => [nl]) 0 (prev_after (Some c) w) r)
          as [out k].
        cbn [fst app gap_from is_nl] in *.
        change (is_nl nl) with true. cbn [orb].
        apply IH; [|auto]. simpl in Hn. rewrite length_app in Hn. lia.
      * specialize (IH t' (Some c) true).
        destruct (subn_from blank_lines_pattern (fun _ => [nl]) 0 (Some c) t') as [out k].
        cbn [fst gap_from]. rewrite Hc. cbn [orb].
        apply IH; [simpl in Hn; lia | auto].
    + destruct (is_space c) eqn:Hs.
      * specialize (IH t' (Some c) armed).
        destruct (subn_from blank_lines_pattern (fun _ => [nl]) 0 (Some c) t') as [out k].
        cbn [fst gap_from]. rewrite Hc, Hs.
        apply IH; [simpl in Hn; lia|].
        intro Ht. specialize (Harm Ht). cbn [after_last_nl] in Harm.
        rewrite Hs, Hc in Harm. destruct (after_last_nl t'); [discriminate | reflexivity].
      * specialize (IH t' (Some c) false).
        destruct (subn_from blank_lines_pattern (fun _ => [nl]) 0 (Some c) t') as [out k].
        cbn [fst gap_from]. rewrite Hc, Hs.
        apply IH; [simpl in Hn; lia | discriminate].
Qed.

Lemma collapse_gap_free s : gap_from false (collapse s) = false.
Proof.
  unfold collapse, sub, subn.
  apply (collapse_gap_free_from (length s)); [lia | discriminate].
Qed.

(** ** Matches of the directive pattern *)

Lemma rm_bol s s' : rmatch Bol s s' -> s' = s /\ at_bol s = true.
Proof. intro H. inversion H; subst. auto. Qed.

Lemma rm_eol ml s s' : rmatch (Eol ml) s s' -> s' = s /\ at_eol ml s = true.
Proof. intro H. inversion H; subst. auto. Qed.

Lemma seqs_cons r r2 l : seqs (r :: r2 :: l) = Seq r (seqs (r2 :: l)).
Proof. reflexivity. Qed.

(** A sequence that ends with [$] ends at the end of a line. *)
Lemma seqs_ends_at_eol ml rs :
  forall s s', rmatch (seqs (rs ++ [Eol ml])) s s' -> at_eol ml s' = true.
Proof.
  induction rs as [|r rs IH]; intros s s' H.
  - simpl in H. apply rm_eol in H. destruct H as [-> H]. exact H.
  - destruct rs as [|r2 rs].
    + simpl in H. apply rm_seq in H. destruct H as [s1 [_ H]].
      apply rm_eol in H. destruct H as [-> H]. exact H.
    + cbn [app] in H. rewrite seqs_cons in H. apply rm_seq in H.
      destruct H as [s1 [_ H]]. apply (IH s1 s'). exact H.
Qed.

Lemma lstrip_nonspace c t : is_space c = false -> lstrip (c :: t) = c :: t.
Proof. intro H. simpl. now rewrite H. Qed.

(** What a match of the directive pattern needs: the start at the beginning
    of a line, the keyword after white space, the end at the end of a line. *)
Lemma directive_match p q X mo :
  match_at (directive_pattern p) q X = Some mo ->
  exists rst,
    X = whole mo ++ rst
    /\ at_bol (mkst q X []) = true
    /\ lang (directive_pattern p) (whole mo)
    /\ at_eol true (mkst None rst []) = true.
Proof.
  intro H. apply match_at_sound in H. destruct H as [s' [H ->]].
  pose proof H as H0.
  apply rmatch_lang in H0. destruct H0 as [x [E [Lx _]]]. cbn [rest] in E.
  exists (rest s'). cbn [whole]. rewrite (consumed_eq (mkst q X []) s' x E).
  repeat split; auto.
  - unfold directive_pattern in H. rewrite seqs_cons in H.
    apply rm_seq in H. destruct H as [s1 [Hb _]]. apply rm_bol in Hb. tauto.
  - pose proof (seqs_ends_at_eol true
      [Bol; Star true ws; L "set_metadata"; Opt (L "_recursive"); L "(";
       Star true ws; Lit [dq]; Lit p; Lit [dq]; Star true ws; L ",";
       Star false dot; L ");"; Star true ws] (mkst q X []) s' H) as He.
    unfold at_eol in *. exact He.
Qed.

Lemma directive_starts p x :
  lang (directive_pattern p) x ->
  exists ws0 tail, x = ws0 ++ keyword ++ tail /\ forallb is_space ws0 = true.
Proof.
  unfold directive_pattern. cbn [seqs lang].
  intros [w1 [w2 [-> [-> [w3 [w4 [-> [H3 [w5 [w6 [-> [-> _]]]]]]]]]]]].
  exists w3, w6. split; [reflexivity|].
  apply (lang_star_cls true is_space). exact H3.
Qed.

Lemma directive_needs_keyword p q X mo :
  match_at (directive_pattern p) q X = Some mo ->
  at_bol (mkst q X []) = true /\ starts_with keyword (lstrip X) = true.
Proof.
  intro H. apply directive_match in H. destruct H as [rst [E [Hb [Lx _]]]].
  split; [exact Hb|].
  apply directive_starts in Lx. destruct Lx as [ws0 [tail [Ew Hws]]].
  rewrite E, Ew, <- !app_assoc. rewrite lstrip_spaces by exact Hws.
  change (lstrip (keyword ++ tail ++ rst)) with (keyword ++ tail ++ rst).
  apply starts_with_refl.
Qed.

(** ** Stripped texts *)

Lemma lstrip_split t : exists a, t = a ++ lstrip t /\ forallb is_space a = true.
Proof.
  induction t as [|c t [a [E Ha]]]; [now exists []|].
  simpl. destruct (is_space c) eqn:Hc.
  - exists (c :: a). simpl. rewrite Hc, Ha. split; [now rewrite <- E | reflexivity].
  - now exists [].
Qed.

Lemma lstrip_head t c l : lstrip t = c :: l -> is_space c = false.
Proof.
  induction t as [|d t IH]; simpl; [discriminate|].
  destruct (is_space d) eqn:Hd; [exact IH|].
  intro H. inversion H; subst. exact Hd.
Qed.

Lemma rstrip_split t : exists b, t = rstrip t ++ b /\ forallb is_space b = true.
Proof.
  unfold rstrip. destruct (lstrip_split (rev t)) as [a [E Ha]].
  exists (rev a). split.
  - rewrite <- rev_app_distr, <- E. now rewrite rev_involutive.
  - rewrite forallb_forall in *. intros x Hx. apply Ha. now apply in_rev.
Qed.

Lemma rstrip_last_char t a c : rstrip t = a ++ [c] -> is_space c = false.
Proof.
  unfold rstrip. intro H. apply (f_equal (@rev ascii)) in H.
  rewrite rev_involutive, rev_app_distr in H. simpl in H.
  exact (lstrip_head _ _ _ H).
Qed.

Lemma strip_last t a c : strip t = a ++ [c] -> is_space c = false.
Proof. unfold strip. apply rstrip_last_char. Qed.

Lemma lstrip_keeps_last a c : is_space c = false -> exists a', lstrip (a ++ [c]) = a' ++ [c].
Proof.
  intro Hc. induction a as [|d a [a' IH]]; simpl.
  - rewrite Hc. now exists [].
  - destruct (is_space d); [now exists a' | now exists (d :: a)].
Qed.

Lemma rstrip_keeps_first c l : is_space c = false -> exists l', rstrip (c :: l) = c :: l'.
Proof.
  intro Hc. unfold rstrip. simpl.
  destruct (lstrip_keeps_last (rev l) c Hc) as [a' E]. rewrite E.
  rewrite rev_app_distr. simpl. now exists (rev a').
Qed.

Lemma strip_first t c b : strip t = c :: b -> is_space c = false.
Proof.
  unfold strip. destruct (lstrip t) as [|d l] eqn:E.
  - unfold rstrip. simpl. discriminate.
  - pose proof (lstrip_head _ _ _ E) as Hd.
    destruct (rstrip_keeps_first d l Hd) as [l' El]. rewrite El.
    intro H. inversion H; subst. exact Hd.
Qed.

Lemma strip_split t : exists a b, t = a ++ strip t ++ b.
Proof.
  unfold strip. destruct (lstrip_split t) as [a [E _]].
  destruct (rstrip_split (lstrip t)) as [b [E2 _]].
  exists a, b. now rewrite <- E2.
Qed.

Lemma occurs_strip w t : occurs w (strip t) = true -> occurs w t = true.
Proof.
  intro H. destruct (strip_split t) as [a [b E]]. rewrite E.
  apply occurs_app_r, occurs_app_l, H.
Qed.

Lemma gap_from_mono t : forall armed, gap_from armed t = false -> gap_from false t = false.
Proof.
  induction t as [|c t IH]; intros armed H; [reflexivity|].
  simpl in *. destruct (is_nl c).
  - apply orb_false_iff in H. tauto.
  - destruct (is_space c); eauto.
Qed.

Lemma gap_from_app_r a : forall armed b,
  gap_from armed (a ++ b) = false -> gap_from false b = false.
Proof.
  induction a as [|c a IH]; intros armed b H.
  - now apply gap_from_mono in H.
  - simpl in H. destruct (is_nl c).
    + apply orb_false_iff in H. destruct H as [_ H]. eauto.
    + destruct (is_space c); eauto.
Qed.

Lemma gap_from_app_l a : forall armed b,
  gap_from armed (a ++ b) = false -> gap_from armed a = false.
Proof.
  induction a as [|c a IH]; intros armed b H; [reflexivity|].
  simpl in *. destruct (is_nl c).
  - apply orb_false_iff in H. destruct H as [H1 H2]. rewrite H1. simpl. eauto.
  - destruct (is_space c); eauto.
Qed.

Lemma gap_from_strip t : gap_from false t = false -> gap_from false (strip t) = false.
Proof.
  intro H. destruct (strip_split t) as [a [b E]]. rewrite E in H.
  apply gap_from_app_r in H. now apply gap_from_app_l in H.
Qed.

Lemma gap_after_nl a : forall armed v,
  gap_from armed (a ++ nl :: v) = false -> gap_from true v = false.
Proof.
  induction a as [|c a IH]; intros armed v H.
  - simpl in H. change (is_nl nl) with true in H. cbn [orb] in H.
    apply orb_false_iff in H. tauto.
  - simpl in H. destruct (is_nl c).
    + apply orb_false_iff in H. destruct H as [_ H]. eauto.
    + destruct (is_space c); eauto.
Qed.

Lemma armed_no_nl v : gap_from true v = false -> after_last_nl v = None.
Proof.
  induction v as [|c v IH]; intro H; [reflexivity|].
  simpl in *. destruct (is_nl c) eqn:Hn; [discriminate|].
  destruct (is_space c); [|reflexivity].
  now rewrite (IH H).
Qed.

Lemma after_last_nl_app v rst :
  (exists c, In c v /\ is_space c = false) ->
  after_last_nl (v ++ rst) = option_map (fun r => r ++ rst) (after_last_nl v).
Proof.
  induction v as [|c v IH]; intros [d [Hin Hd]]; [destruct Hin|].
  simpl. destruct (is_space c) eqn:Hc; [|reflexivity].
  destruct Hin as [->|Hin]; [congruence|].
  rewrite IH by (exists d; auto).
  destruct (after_last_nl v); [reflexivity|].
  simpl. destruct (is_nl c); reflexivity.
Qed.

(** ** Occurrences and the clean-up *)

Lemma starts_with_nil_r w : starts_with w [] = true -> w = [].
Proof. destruct w; [reflexivity | discriminate]. Qed.

Lemma starts_with_head a w t : starts_with w (a :: t) = true -> ~ In a w -> w = [].
Proof.
  destruct w as [|b w]; [reflexivity|]. simpl. intros H Hin.
  apply andb_true_iff in H. destruct H as [H _]. apply Ascii.eqb_eq in H.
  subst b. exfalso. apply Hin. now left.
Qed.

Lemma subn_from_starts r a :
  forall t p w,
    ~ In a w ->
    starts_with w (fst (subn_from r (fun _ => [a]) 0 p t)) = true ->
    starts_with w t = true.
Proof.
  induction t as [|c t IH]; intros p w Ha H.
  - cbn [subn_from] in H. destruct (match_at r p []); cbn [fst] in H.
    + now rewrite (starts_with_head a w [] H Ha).
    + now rewrite (starts_with_nil_r w H).
  - cbn [subn_from] in H. destruct (match_at r p (c :: t)) as [mo|].
    + destruct (subn_from r (fun _ => [a]) (length (whole mo) - 1) (Some c) t) as [out n].
      cbn [fst app] in H. now rewrite (starts_with_head a w _ H Ha).
    + specialize (IH (Some c)).
      destruct (subn_from r (fun _ => [a]) 0 (Some c) t) as [out n].
      cbn [fst] in *. destruct w as [|b w]; [reflexivity|].
      simpl in H. apply andb_true_iff in H. destruct H as [H1 H2].
      simpl. rewrite H1. simpl. apply IH; [|exact H2].
      intro Hin. apply Ha. now right.
Qed.

Lemma occurs_cons w c t : occurs w t = true -> occurs w (c :: t) = true.
Proof. intro H. simpl. rewrite H. apply orb_true_r. Qed.

Lemma occurs_cons_inv w c t :
  occurs w (c :: t) = true -> starts_with w (c :: t) = true \/ occurs w t = true.
Proof. simpl. intro H. apply orb_true_iff in H. exact H. Qed.

(** A replacement by one character that the word does not hold creates no
    occurrence of the word. *)
Lemma subn_from_occurs r a w :
  ~ In a w -> w <> [] ->
  forall t skip p,
    occurs w (fst (subn_from r (fun _ => [a]) skip p t)) = true ->
    occurs w t = true.
Proof.
  intros Ha Hw.
  assert (Hnil : occurs w [] = false) by (destruct w; [congruence | reflexivity]).
  assert (Hhd : forall x, starts_with w (a :: x) = false).
  { intro x. destruct (starts_with w (a :: x)) eqn:E; [|reflexivity].
    apply starts_with_head in E; [contradiction | exact Ha]. }
  induction t as [|c t IH]; intros skip p H.
  - destruct skip; cbn [subn_from] in H.
    + destruct (match_at r p []); cbn [fst] in H; [|congruence].
      apply occurs_cons_inv in H. rewrite Hhd in H.
      destruct H as [H|H]; [discriminate | congruence].
    + cbn [fst] in H. congruence.
  - destruct skip as [|k]; cbn [subn_from] in H.
    + destruct (match_at r p (c :: t)) as [mo|].
      * pose proof (IH (length (whole mo) - 1) (Some c)) as IH1.
        pose proof (subn_from_starts r a t (Some c)) as St.
        destruct (length (whole mo)) as [|n] eqn:El.
        -- cbn [Nat.sub Nat.eqb] in *.
           destruct (subn_from r (fun _ => [a]) 0 (Some c) t) as [out n].
           cbn [fst app] in *.
           apply occurs_cons_inv in H. rewrite Hhd in H. destruct H as [H|H]; [discriminate|].
           apply occurs_cons_inv in H. destruct H as [H|H].
           ++ destruct w as [|b w]; [congruence|].
              simpl in H. apply andb_true_iff in H. destruct H as [H1 H2].
              simpl. rewrite H1. simpl. rewrite St; auto.
              intro Hin. apply Ha. now right.
           ++ apply occurs_cons. auto.
        -- cbn [Nat.eqb] in *.
           destruct (subn_from r (fun _ => [a]) (S n - 1) (Some c) t) as [out n'].
           cbn [fst app] in *.
           apply occurs_cons_inv in H. rewrite Hhd in H. destruct H as [H|H]; [discriminate|].
           apply occurs_cons. auto.
      * pose proof (IH 0 (Some c)) as IH1.
        pose proof (subn_from_starts r a t (Some c)) as St.
        destruct (subn_from r (fun _ => [a]) 0 (Some c) t) as [out n].
        cbn [fst] in *.
        apply occurs_cons_inv in H. destruct H as [H|H].
        -- destruct w as [|b w]; [congruence|].
           simpl in H. apply andb_true_iff in H. destruct H as [H1 H2].
           simpl. rewrite H1. simpl. rewrite St; auto.
           intro Hin. apply Ha. now right.
        -- apply occurs_cons. auto.
    + apply occurs_cons. eauto.
Qed.

Lemma collapse_occurs_keyword s :
  occurs keyword (collapse s) = true -> occurs keyword s = true.
Proof.
  unfold collapse, sub, subn.
  apply subn_from_occurs.
  - vm_compute. intuition discriminate.
  - discriminate.
Qed.

(** ** A newline followed by a [#] *)

Lemma occurs_in2 a b t : occurs [a; b] t = true -> In b t.
Proof.
  induction t as [|c t IH]; intro H; [discriminate|].
  apply occurs_cons_inv in H. destruct H as [H|H]; [|right; auto].
  cbn [starts_with] in H. apply andb_true_iff in H. destruct H as [_ H].
  destruct t as [|d t]; [discriminate|].
  apply andb_true_iff in H. destruct H as [H _]. apply Ascii.eqb_eq in H.
  subst d. right. now left.
Qed.

Lemma starts_hash_cons d t : d <> hash -> starts_with [hash] (d :: t) = false.
Proof.
  intro H. cbn [starts_with].
  destruct (Ascii.eqb hash d) eqn:E; [|reflexivity].
  apply Ascii.eqb_eq in E. congruence.
Qed.

Lemma starts_hash_false t : ~ In hash t -> starts_with [hash] t = false.
Proof.
  intro H. destruct t as [|d t]; [reflexivity|].
  apply starts_hash_cons. intro E. apply H. now left.
Qed.

Lemma starts_pair c t :
  starts_with [nl; hash] (c :: t) = Ascii.eqb nl c && starts_with [hash] t.
Proof. reflexivity. Qed.

Lemma no_pair_app x : forall y,
  occurs [nl; hash] x = false -> ~ In hash y -> occurs [nl; hash] (x ++ y) = false.
Proof.
  induction x as [|c x IH]; intros y Hx Hy.
  - cbn [app]. destruct (occurs [nl; hash] y) eqn:E; [|reflexivity].
    apply (occurs_in2 nl hash y) in E. contradiction.
  - cbn [app]. cbn [occurs] in *. apply orb_false_iff in Hx. destruct Hx as [H1 H2].
    apply orb_false_iff. split; [|now apply IH].
    rewrite starts_pair in *. destruct (Ascii.eqb nl c); [|reflexivity]. cbn [andb] in *.
    destruct x as [|d x].
    + cbn [app]. now apply starts_hash_false.
    + exact H1.
Qed.

Lemma no_pair_app2 x : forall y,
  ~ In hash x -> ~ In nl y -> starts_with [hash] y = false ->
  occurs [nl; hash] (x ++ y) = false.
Proof.
  induction x as [|c x IH]; intros y Hx Hy Hs.
  - cbn [app]. destruct (occurs [nl; hash] y) eqn:E; [|reflexivity].
    apply (occurs_in nl [hash] y) in E. contradiction.
  - cbn [app occurs]. apply orb_false_iff. split.
    + rewrite starts_pair. destruct (Ascii.eqb nl c); [|reflexivity]. cbn [andb].
      destruct x as [|d x]; [exact Hs|].
      cbn [app]. apply starts_hash_cons. intro E. apply Hx. right. left. exact E.
    + apply IH; auto. intro Hin. apply Hx. now right.
Qed.

Lemma spaces_no_hash w : forallb is_space w = true -> ~ In hash w.
Proof.
  intros H Hin. rewrite forallb_forall in H. apply H in Hin. discriminate.
Qed.

Lemma dots_no_nl w : lang (Star false dot) w -> ~ In nl w.
Proof.
  intros H Hin. apply (lang_star_cls false) in H.
  rewrite forallb_forall in H. apply H in Hin. discriminate.
Qed.

Lemma not_in_app {A} (a : A) x y : ~ In a x -> ~ In a y -> ~ In a (x ++ y).
Proof. intros Hx Hy Hin. apply in_app_or in Hin. tauto. Qed.

Lemma not_in_str a s : existsb (Ascii.eqb a) (str s) = false -> ~ In a (str s).
Proof.
  intros H Hin. assert (existsb (Ascii.eqb a) (str s) = true).
  { apply existsb_exists. exists a. split; [exact Hin | apply Ascii.eqb_refl]. }
  congruence.
Qed.

Lemma not_in_cons_ne {A} (a c : A) t : a <> c -> ~ In a t -> ~ In a (c :: t).
Proof. intros H1 H2 [E|E]; [congruence | contradiction]. Qed.

Lemma lang_seq_inv a b x :
  lang (Seq a b) x -> exists w1 w2, x = w1 ++ w2 /\ lang a w1 /\ lang b w2.
Proof. intro H. exact H. Qed.

Ltac lang_seq H w L :=
  apply lang_seq_inv in H;
  let r := fresh "r" in
  destruct H as [w [r [-> [L H]]]].

(** No match of the directive pattern for a path without [#] holds a
    newline directly followed by [#]. *)
Lemma directive_no_nl_hash p x :
  ~ In hash p -> lang (directive_pattern p) x -> occurs [nl; hash] x = false.
Proof.
  intros Hp H. unfold directive_pattern in H. cbn [seqs] in H.
  lang_seq H w1 L1. lang_seq H w2 L2. lang_seq H w3 L3. lang_seq H w4 L4.
  lang_seq H w5 L5. lang_seq H w6 L6. lang_seq H w7 L7. lang_seq H w8 L8.
  lang_seq H w9 L9. lang_seq H w10 L10. lang_seq H w11 L11. lang_seq H w12 L12.
  lang_seq H w13 L13. lang_seq H w14 L14.
  simpl in L1, L3, L5, L7, L8, L9, L11, L13, H. subst.
  cbn [app]. rewrite app_nil_r.
  apply (lang_star_cls true) in L2, L6, L10, L14.
  apply dots_no_nl in L12.
  assert (Ho : ~ In hash w4).
  { destruct L4 as [H4|H4]; simpl in H4; subst w4; [|intros []].
    apply not_in_str. reflexivity. }
  replace (w2 ++ str "set_metadata" ++ w4 ++ str "(" ++ w6 ++ dq :: p ++ dq :: w10
           ++ str "," ++ w12 ++ str ");" ++ w14)
    with (((w2 ++ str "set_metadata" ++ w4 ++ str "(" ++ w6 ++ dq :: p ++ dq :: w10)
           ++ (str "," ++ w12)) ++ (str ");" ++ w14))
    by (repeat (rewrite <- app_assoc; cbn [app]); reflexivity).
  apply no_pair_app.
  - apply no_pair_app2.
    + repeat first [apply not_in_app | apply not_in_cons_ne; [discriminate|]];
        auto using spaces_no_hash; try (apply not_in_str; reflexivity).
    + apply not_in_app; [apply not_in_str; reflexivity | exact L12].
    + reflexivity.
  - apply not_in_app; [apply not_in_str; reflexivity | now apply spaces_no_hash].
Qed.

(** ** The second merge *)

Lemma lstrip_app_keep y z :
  (exists d, In d y /\ is_space d = false) -> lstrip (y ++ z) = lstrip y ++ z.
Proof.
  induction y as [|c y IH]; intros [d [Hin Hd]]; [destruct Hin|].
  cbn [app lstrip]. destruct (is_space c) eqn:Hc; [|reflexivity].
  destruct Hin as [->|Hin]; [congruence|]. apply IH. eauto.
Qed.

Lemma starts_with_cut w : forall a b,
  starts_with w (a ++ nl :: b) = true -> ~ In nl w -> starts_with w a = true.
Proof.
  induction w as [|x w IH]; intros a b H Hn; [reflexivity|].
  destruct a as [|y a].
  - cbn [app starts_with] in H. apply andb_true_iff in H. destruct H as [H _].
    apply Ascii.eqb_eq in H. subst x. exfalso. apply Hn. now left.
  - cbn [app starts_with] in *. apply andb_true_iff in H. destruct H as [H1 H2].
    rewrite H1. cbn [andb]. apply (IH a b H2). intro Hin. apply Hn. now right.
Qed.

Lemma keyword_no_nl : ~ In nl keyword.
Proof. apply not_in_str. reflexivity. Qed.

Lemma last_in {A} (a : list A) (c : A) : In c (a ++ [c]).
Proof. apply in_or_app. right. now left. Qed.

Lemma subn_from_without_literal r repl w p t :
  (forall x, lang r x -> occurs w x = true) ->
  occurs w t = false -> subn_from r repl 0 p t = (t, 0).
Proof.
  intros Hl Ho.
  rewrite <- (app_nil_r t) at 1. rewrite subn_from_no_match.
  - cbn [subn_from]. rewrite (no_match_at r w _ [] Hl).
    + simpl. now rewrite app_nil_r.
    + rewrite <- (app_nil_r t) in Ho. now apply occurs_false_app_r in Ho.
  - intros u c v E. apply (no_match_at r w); [exact Hl|].
    rewrite app_nil_r. rewrite E in Ho. now apply occurs_false_app_r in Ho.
Qed.

Ltac enum_split E tac :=
  cbn [app] in E;
  lazymatch type of E with
  | [] = _ ++ _ :: _ => exfalso; exact (app_cons_not_nil _ _ _ E)
  | _ :: _ = ?u ++ _ :: _ =>
      destruct u as [|? u]; cbn [app] in E;
      [ injection E as ? ?; subst; tac
      | let E' := fresh "E" in injection E as ? E'; subst; enum_split E' tac ]
  end.

(** No match of the directive pattern starts inside the opening of the
    managed block. *)
Lemma block_open_no_directive p q u2 c v Y :
  block_open = u2 ++ c :: v ->
  match_at (directive_pattern p) (prev_after q u2) ((c :: v) ++ Y) = None.
Proof.
  intro E. destruct (match_at _ _ _) as [mo|] eqn:Hm; [|reflexivity].
  apply directive_needs_keyword in Hm. destruct Hm as [Hb Hk].
  exfalso. unfold keyword, str in Hk. unfold at_bol in Hb. cbn [prev] in Hb.
  unfold block_open, start_marker, str in E. cbn [list_ascii_of_string app] in E.
  enum_split E ltac:(first [ cbn in Hk; discriminate | cbn in Hb; discriminate ]).
Qed.

Section SecondMerge.

Variable P : text.
Hypothesis P_no_hash : ~ In hash P.
Hypothesis P_no_keyword : occurs keyword P = false.
Hypothesis P_gap_free : gap_from false P = false.
Hypothesis P_last : forall a c, P = a ++ [c] -> is_space c = false.
Hypothesis P_first : forall c b, P = c :: b -> is_space c = false.

(** A non-empty tail of [P] holds a character that is not white space. *)
Lemma P_tail_solid u c v : P = u ++ c :: v -> exists d, In d (c :: v) /\ is_space d = false.
Proof.
  intro E. destruct (exists_last (l := c :: v)) as [a [d Ea]]; [discriminate|].
  exists d. split; [rewrite Ea; apply last_in|].
  apply (P_last (u ++ a) d). rewrite E, Ea. now rewrite app_assoc.
Qed.

Lemma directive_not_in_P p u c v Y :
  P = u ++ c :: v ->
  match_at (directive_pattern p) (prev_after None u) ((c :: v) ++ block_open ++ Y) = None.
Proof.
  intro E. destruct (match_at _ _ _) as [mo|] eqn:Hm; [|reflexivity].
  apply directive_needs_keyword in Hm. destruct Hm as [_ Hk].
  rewrite lstrip_app_keep in Hk by (eapply P_tail_solid; eauto).
  apply (starts_with_cut keyword (lstrip (c :: v))) in Hk; [|exact keyword_no_nl].
  apply occurs_start in Hk.
  destruct (lstrip_split (c :: v)) as [a [Ea _]].
  assert (Ho : occurs keyword P = true).
  { rewrite E, Ea. apply occurs_app_r, occurs_app_r. exact Hk. }
  congruence.
Qed.

Lemma directive_not_in_prefix p J u c v :
  P ++ block_open = u ++ c :: v ->
  match_at (directive_pattern p) (prev_after None u) (c :: v ++ J ++ block_close) = None.
Proof.
  intro E. apply app_eq_app in E. destruct E as [l [[E1 E2]|[E1 E2]]].
  - destruct l as [|d l].
    + cbn [app] in E2.
      apply (block_open_no_directive p (prev_after None u) [] c v (J ++ block_close)).
      now rewrite <- E2.
    + cbn [app] in E2. injection E2 as <- ->.
      pose proof (directive_not_in_P p u c l (J ++ block_close) E1) as H.
      cbn [app] in H. rewrite <- app_assoc. exact H.
  - rewrite E1, prev_after_app.
    apply (block_open_no_directive p (prev_after None P) l c v (J ++ block_close)).
    exact E2.
Qed.

Lemma directive_confined p q J u c v mo :
  ~ In hash p -> J = u ++ c :: v ->
  match_at (directive_pattern p) q (c :: v ++ block_close) = Some mo ->
  length (whole mo) <= S (length v).
Proof.
  intros Hp EJ Hm. apply directive_match in Hm.
  destruct Hm as [rst [E [_ [Lx He]]]].
  pose proof (directive_no_nl_hash p (whole mo) Hp Lx) as Hpair.
  change (c :: v ++ block_close) with ((c :: v) ++ block_close) in E.
  apply app_eq_app in E. destruct E as [l [[E1 E2]|[E1 E2]]].
  - apply (f_equal (@length ascii)) in E1. rewrite length_app in E1.
    cbn [length] in E1. lia.
  - destruct l as [|x l].
    + rewrite app_nil_r in E1. rewrite E1. cbn [length]. lia.
    + exfalso. unfold block_close, end_marker, str in E2.
      cbn [list_ascii_of_string app] in E2. injection E2 as Ex E2. subst x.
      destruct l as [|y l].
      * cbn [app] in E2. subst rst. discriminate He.
      * cbn [app] in E2. injection E2 as Ey E2. subst y.
        rewrite E1 in Hpair.
        rewrite (occurs_app_r [nl; hash] (c :: v) (nl :: "#"%char :: l)) in Hpair;
          [discriminate | reflexivity].
Qed.

(** One removal of the first loop, on a script followed by a managed block:
    only the lines of the block change. *)
Lemma directive_step p J :
  ~ In hash p -> ~ In hash J ->
  exists J',
    fst (subn (directive_pattern p) (fun _ => []) (frame P J)) = frame P J'
    /\ ~ In hash J'.
Proof.
  intros Hp HJ. unfold subn, frame.
  replace (P ++ block_open ++ J ++ block_close)
    with ((P ++ block_open) ++ J ++ block_close) by now rewrite <- app_assoc.
  rewrite subn_from_no_match by (intros u c v E; now apply directive_not_in_prefix).
  cbn [fst].
  assert (Hc : forall u c v mo, J = u ++ c :: v ->
            match_at (directive_pattern p)
              (prev_after (prev_after None (P ++ block_open)) u)
              (c :: v ++ block_close) = Some mo ->
            length (whole mo) <= S (length v)).
  { intros u c v mo E Hm. exact (directive_confined p _ J u c v mo Hp E Hm). }
  destruct (subn_from_confined (directive_pattern p) [] block_close (length J) J
              (prev_after None (P ++ block_open)) (le_n _) Hc) as [J' [EJ HJ']].
  exists J'. split.
  - rewrite EJ.
    rewrite (subn_from_without_literal (directive_pattern p) (fun _ => []) keyword _
               block_close (directive_has_keyword p) eq_refl).
    cbn [fst]. now rewrite <- !app_assoc.
  - intro Hin. apply HJ' in Hin. destruct Hin as [Hin|[]]. contradiction.
Qed.

Lemma remove_existing_frame items :
  Forall plain_item items ->
  forall J a u acc,
    ~ In hash J ->
    exists J',
      fst (fst (fst (remove_existing items (frame P J) a u acc))) = frame P J'
      /\ ~ In hash J'.
Proof.
  induction 1 as [|[[p d] md] items [Hp _] _ IH]; intros J a u acc HJ.
  - exists J. auto.
  - cbn [remove_existing]. cbn [fst] in Hp.
    destruct (directive_step p J Hp HJ) as [J1 [E1 HJ1]].
    destruct (subn (directive_pattern p) (fun _ => []) (frame P J)) as [cur count].
    cbn [fst] in E1. subst cur.
    destruct (0 <? count); apply IH; exact HJ1.
Qed.


Lemma blank_needs_nl q c t :
  is_nl c = false -> match_at blank_lines_pattern q (c :: t) = None.
Proof. intro H. unfold match_at. rewrite blank_run, H. reflexivity. Qed.

Lemma blank_not_in_P q u c v Y :
  P = u ++ c :: v -> match_at blank_lines_pattern q ((c :: v) ++ Y) = None.
Proof.
  intro E. unfold match_at. cbn [app]. rewrite blank_run.
  destruct (is_nl c) eqn:Hc; [|reflexivity].
  assert (Hcn : c = nl) by (unfold is_nl in Hc; now apply Ascii.eqb_eq in Hc).
  subst c.
  destruct v as [|d v].
  - exfalso. pose proof (P_last u nl E). discriminate.
  - assert (Hsolid : exists x, In x (d :: v) /\ is_space x = false).
    { apply (P_tail_solid (u ++ [nl]) d v). rewrite E. now rewrite <- app_assoc. }
    rewrite after_last_nl_app by exact Hsolid.
    rewrite E in P_gap_free. apply gap_after_nl in P_gap_free.
    now rewrite (armed_no_nl _ P_gap_free).
Qed.

Lemma blank_all_space x : lang blank_lines_pattern x -> forallb is_space x = true.
Proof.
  unfold blank_lines_pattern. cbn [seqs]. intro H.
  lang_seq H w1 L1. lang_seq H w2 L2. simpl in L1, H. subst.
  apply (lang_star_cls true) in L2.
  rewrite !forallb_app, L2. reflexivity.
Qed.

Lemma blank_at_block_open q S :
  match_at blank_lines_pattern q (nl :: nl :: start_marker ++ S)
  = Some (mkmatch [nl; nl] []).
Proof.
  unfold match_at. rewrite blank_run.
  change (is_nl nl) with true. cbn iota.
  change (after_last_nl (nl :: start_marker ++ S)) with (Some (start_marker ++ S)).
  cbn [option_map caps].
  rewrite (consumed_eq _ _ [nl; nl]) by reflexivity. reflexivity.
Qed.

Lemma blank_confined q J u c v mo :
  ([nl] ++ J ++ [nl]) = u ++ c :: v ->
  match_at blank_lines_pattern q (c :: v ++ end_marker) = Some mo ->
  length (whole mo) <= S (length v).
Proof.
  intros _ Hm. pose proof Hm as Hm'.
  apply match_at_prefix in Hm'. destruct Hm' as [rst E].
  apply match_at_sound in Hm. destruct Hm as [s' [Hr ->]].
  apply rmatch_lang in Hr. destruct Hr as [x [Ex [Lx _]]]. cbn [rest] in Ex.
  cbn [whole] in *. rewrite (consumed_eq (mkst q (c :: v ++ end_marker) []) s' x Ex) in *.
  apply blank_all_space in Lx.
  change (c :: v ++ end_marker) with ((c :: v) ++ end_marker) in E.
  apply app_eq_app in E. destruct E as [l [[E1 E2]|[E1 E2]]].
  - apply (f_equal (@length ascii)) in E1. rewrite length_app in E1.
    cbn [length] in E1. lia.
  - destruct l as [|y l].
    + rewrite app_nil_r in E1. rewrite E1. cbn [length]. lia.
    + exfalso. unfold end_marker, str in E2. cbn [list_ascii_of_string app] in E2.
      injection E2 as Ey _. subst y.
      rewrite E1, forallb_app in Lx. apply andb_true_iff in Lx.
      destruct Lx as [_ Lx]. discriminate Lx.
Qed.

Lemma marker_no_nl c : In c start_marker -> is_nl c = false.
Proof.
  intro H.
  assert (Hall : forallb (fun c => negb (is_nl c)) start_marker = true) by reflexivity.
  rewrite forallb_forall in Hall. apply Hall in H. now destruct (is_nl c).
Qed.

(** The blank-line clean-up on a script followed by a managed block. *)
Lemma collapse_frame J :
  ~ In hash J ->
  exists J2,
    collapse (frame P J) = P ++ nl :: start_marker ++ J2 ++ end_marker
    /\ ~ In hash J2.
Proof.
  intro HJ. unfold collapse, sub, subn, frame.
  replace (block_open ++ J ++ block_close)
    with (nl :: [nl] ++ (start_marker ++ ([nl] ++ J ++ [nl]) ++ end_marker))
    by (unfold block_open, block_close; rewrite <- !app_assoc; reflexivity).
  rewrite subn_from_no_match.
  2:{ intros u c v E. exact (blank_not_in_P (prev_after None u) u c v _ E). }
  rewrite (subn_from_hit blank_lines_pattern (fun _ => [nl]) (prev_after None P) nl
             ([nl] ++ start_marker ++ ([nl] ++ J ++ [nl]) ++ end_marker)
             (mkmatch [nl; nl] []) [nl]
             (start_marker ++ ([nl] ++ J ++ [nl]) ++ end_marker)
             (blank_at_block_open _ _) eq_refl eq_refl).
  rewrite subn_from_no_match.
  2:{ intros u c v E. apply blank_needs_nl. apply marker_no_nl.
      rewrite E. apply in_or_app. right. now left. }
  assert (Hc : forall u c v mo, [nl] ++ J ++ [nl] = u ++ c :: v ->
            match_at blank_lines_pattern
              (prev_after (prev_after (prev_after (Some nl) [nl]) start_marker) u)
              (c :: v ++ end_marker) = Some mo ->
            length (whole mo) <= S (length v)).
  { intros u c v mo E Hm. exact (blank_confined _ J u c v mo E Hm). }
  destruct (subn_from_confined blank_lines_pattern [nl] end_marker
              (length ([nl] ++ J ++ [nl])) ([nl] ++ J ++ [nl])
              (prev_after (prev_after (Some nl) [nl]) start_marker) (le_n _) Hc)
    as [J2 [EJ HJ2]].
  exists J2. split.
  - rewrite EJ.
    assert (Ho : occurs [nl] end_marker = false) by (vm_compute; reflexivity).
    rewrite (subn_from_without_literal blank_lines_pattern (fun _ => [nl]) [nl]
               (prev_after (prev_after (prev_after (Some nl) [nl]) start_marker)
                  ([nl] ++ J ++ [nl]))
               end_marker blank_has_nl Ho).
    unfold fst. f_equal.
  - intro Hin. apply HJ2 in Hin. destruct Hin as [Hin|[Hin|[]]]; [|discriminate].
    apply in_app_or in Hin. destruct Hin as [[Hin|[]]|Hin]; [discriminate|].
    apply in_app_or in Hin. destruct Hin as [Hin|[Hin|[]]]; [contradiction | discriminate].
Qed.

Lemma end_marker_last : exists em, end_marker = em ++ ["="%char].
Proof. exists (removelast end_marker). vm_compute. reflexivity. Qed.

Lemma start_marker_head : exists sm, start_marker = hash :: sm.
Proof. exists (tl start_marker). vm_compute. reflexivity. Qed.

Lemma end_marker_head : exists em, end_marker = hash :: em.
Proof. exists (tl end_marker). vm_compute. reflexivity. Qed.

Lemma rstrip_ends_marker X : rstrip (X ++ end_marker) = X ++ end_marker.
Proof.
  destruct end_marker_last as [em ->]. rewrite app_assoc.
  apply rstrip_last. reflexivity.
Qed.

(** [str.strip] on the cleaned script followed by the block. *)
Lemma strip_framed J2 :
  exists N,
    strip (P ++ nl :: start_marker ++ J2 ++ end_marker)
    = P ++ N ++ start_marker ++ J2 ++ end_marker
    /\ (N = [] \/ N = [nl]).
Proof.
  unfold strip. destruct P as [|c P'] eqn:EP.
  - exists []. split; [|now left].
    destruct start_marker_head as [sm Esm]. rewrite Esm.
    cbn [app lstrip]. change (is_space nl) with true. change (is_space hash) with false.
    cbn iota.
    change (hash :: sm ++ J2 ++ end_marker) with ((hash :: sm) ++ J2 ++ end_marker).
    rewrite app_assoc. apply rstrip_ends_marker.
  - exists [nl]. split; [|now right].
    cbn [app]. rewrite lstrip_nonspace by (apply (P_first c P'); reflexivity).
    replace (c :: P' ++ nl :: start_marker ++ J2 ++ end_marker)
      with ((c :: P' ++ nl :: start_marker ++ J2) ++ end_marker).
    + rewrite rstrip_ends_marker. cbn [app]. rewrite <- !app_assoc. reflexivity.
    + cbn [app]. rewrite <- !app_assoc. cbn [app]. rewrite <- !app_assoc. reflexivity.
Qed.

Lemma adv_app w : forall p t cs,
  adv w (mkst p (w ++ t) cs) = Some (mkst (prev_after p w) t cs).
Proof.
  induction w as [|a w IH]; intros p t cs; [reflexivity|].
  cbn [app adv rest caps]. rewrite Ascii.eqb_refl. apply IH.
Qed.

Lemma m_lit_app w k p t cs :
  m (Lit w) k (mkst p (w ++ t) cs) = k (mkst (prev_after p w) t cs).
Proof. cbn [m]. now rewrite adv_app. Qed.

Lemma m_lit_fail w k s : starts_with w (rest s) = false -> m (Lit w) k s = None.
Proof. intro H. cbn [m]. now rewrite adv_none. Qed.

Lemma greedy_cls_stop f k p c t cs :
  f c = false -> greedy_cls f k p (c :: t) cs = k (mkst p (c :: t) cs).
Proof. intro H. cbn [greedy_cls]. now rewrite H. Qed.

Lemma greedy_cls_go f k p c t cs :
  f c = true ->
  greedy_cls f k p (c :: t) cs
  = orelse (greedy_cls f k (Some c) t cs) (k (mkst p (c :: t) cs)).
Proof. intro H. cbn [greedy_cls]. now rewrite H. Qed.

Lemma lazy_cls_unfold f k p t cs :
  lazy_cls f k p t cs
  = orelse (k (mkst p t cs))
      match t with
      | c :: t' => if f c then lazy_cls f k (Some c) t' cs else None
      | [] => None
      end.
Proof. destruct t; reflexivity. Qed.

Lemma block_tail_at_end p cs :
  m block_tail Some (mkst p (end_marker ++ []) cs)
  = Some (mkst (prev_after p end_marker) [] cs).
Proof.
  unfold block_tail. rewrite m_seq, m_lit_app, m_star_lit1_greedy. reflexivity.
Qed.

Lemma block_tail_fails p c t cs :
  c <> hash -> m block_tail Some (mkst p (c :: t) cs) = None.
Proof.
  intro H. unfold block_tail. rewrite m_seq. apply m_lit_fail.
  cbn [rest]. destruct end_marker_head as [em ->]. cbn [starts_with].
  destruct (Ascii.eqb hash c) eqn:E; [|reflexivity].
  apply Ascii.eqb_eq in E. congruence.
Qed.

(** The lazy [.*?] of the block pattern runs to the end marker when no [#]
    comes before it. *)
Lemma lazy_scan_to_end J2 : forall p cs,
  ~ In hash J2 ->
  lazy_cls (fun _ => true) (fun s' => m block_tail Some s') p (J2 ++ end_marker ++ []) cs
  = Some (mkst (prev_after p (J2 ++ end_marker)) [] cs).
Proof.
  induction J2 as [|c J2 IH]; intros p cs HJ.
  - cbn [app]. rewrite lazy_cls_unfold, block_tail_at_end. reflexivity.
  - cbn [app]. rewrite lazy_cls_unfold.
    rewrite block_tail_fails by (intro E; apply HJ; now left).
    cbn [orelse]. rewrite IH by (intro Hin; apply HJ; now right).
    reflexivity.
Qed.

Lemma block_run_from_marker p J2 :
  ~ In hash J2 ->
  m (Seq (Lit start_marker) (Seq (Star false dot_all) block_tail)) Some
    (mkst p (start_marker ++ J2 ++ end_marker ++ []) [])
  = Some (mkst (prev_after (prev_after p start_marker) (J2 ++ end_marker)) [] []).
Proof.
  intro HJ. rewrite m_seq, m_lit_app, m_seq. unfold dot_all.
  rewrite m_star_cls_lazy. cbn [prev rest caps].
  now apply lazy_scan_to_end.
Qed.

Lemma greedy_cls_run f k N : forall p c t cs x,
  forallb f N = true -> f c = false ->
  k (mkst (prev_after p N) (c :: t) cs) = Some x ->
  greedy_cls f k p (N ++ c :: t) cs = Some x.
Proof.
  induction N as [|a N IH]; intros p c t cs x HN Hc Hk.
  - cbn [app]. rewrite greedy_cls_stop by exact Hc. exact Hk.
  - cbn [app]. cbn [forallb] in HN. apply andb_true_iff in HN. destruct HN as [Ha HN].
    rewrite greedy_cls_go by exact Ha.
    rewrite (IH (Some a) c t cs x HN Hc Hk). reflexivity.
Qed.

Lemma all_nl_eqb N : forallb is_nl N = true -> forallb (Ascii.eqb nl) N = true.
Proof.
  intro H. rewrite forallb_forall in *. intros c Hc. rewrite nl_eqb. auto.
Qed.

Lemma all_nl_no_hash N : forallb is_nl N = true -> ~ In hash N.
Proof.
  intros H Hin. rewrite forallb_forall in H. apply H in Hin. discriminate.
Qed.

Lemma all_nl_space N : forallb is_nl N = true -> forallb is_space N = true.
Proof.
  intro H. rewrite forallb_forall in *. intros c Hc. apply is_nl_space. auto.
Qed.

Lemma block_pattern_eq :
  block_pattern
  = Seq (Star true (Lit [nl])) (Seq (Lit start_marker) (Seq (Star false dot_all) block_tail)).
Proof. reflexivity. Qed.

Lemma nl_not_hash : Ascii.eqb nl hash = false.
Proof. reflexivity. Qed.

(** At the block, the block pattern matches up to the end of the text. *)
Lemma block_at_frame q N J2 :
  ~ In hash J2 -> forallb is_nl N = true ->
  match_at block_pattern q (N ++ start_marker ++ J2 ++ end_marker)
  = Some (mkmatch (N ++ start_marker ++ J2 ++ end_marker) []).
Proof.
  intros HJ HN. unfold match_at. rewrite block_pattern_eq, m_seq, m_star_lit1_greedy.
  cbn [prev rest caps].
  rewrite <- (app_nil_r end_marker) at 1.
  destruct start_marker_head as [sm Esm].
  rewrite Esm at 1. cbn [app].
  rewrite (greedy_cls_run (Ascii.eqb nl) _ N q hash (sm ++ J2 ++ end_marker ++ []) []
             (mkst (prev_after (prev_after (prev_after q N) start_marker)
                      (J2 ++ end_marker)) [] [])).
  - rewrite (consumed_eq _ _ (N ++ start_marker ++ J2 ++ end_marker)).
    + reflexivity.
    + cbn [rest]. now rewrite !app_nil_r.
  - now apply all_nl_eqb.
  - exact nl_not_hash.
  - change (hash :: sm ++ J2 ++ end_marker ++ []) with ((hash :: sm) ++ J2 ++ end_marker ++ []).
    rewrite <- Esm. now apply block_run_from_marker.
Qed.

Lemma lang_star_lit1 g c w : lang (Star g (Lit [c])) w -> forall x, In x w -> x = c.
Proof.
  intros [ws [-> H]]. induction H as [|y l Hy Hl IH]; intros x Hin; [destruct Hin|].
  simpl in Hy. subst y. cbn [concat app] in Hin. destruct Hin as [<-|Hin]; auto.
Qed.

Lemma first_hash a : forall a' b b',
  a ++ hash :: b = a' ++ hash :: b' -> ~ In hash a -> ~ In hash a' -> a = a'.
Proof.
  induction a as [|x a IH]; intros a' b b' E Ha Ha'.
  - destruct a' as [|y a']; [reflexivity|].
    cbn [app] in E. injection E as Ey _. exfalso. apply Ha'. left. now symmetry.
  - destruct a' as [|y a'].
    + cbn [app] in E. injection E as Ex _. exfalso. apply Ha. now left.
    + cbn [app] in E. injection E as -> E. f_equal.
      apply (IH a' b b' E); intro Hin; [apply Ha | apply Ha']; now right.
Qed.

Lemma block_starts x :
  lang block_pattern x ->
  exists nls tail, x = nls ++ start_marker ++ tail /\ forall c, In c nls -> c = nl.
Proof.
  rewrite block_pattern_eq. intro H.
  lang_seq H w1 L1. lang_seq H w2 L2. simpl in L2. subst w2.
  exists w1. eexists. split; [reflexivity|].
  exact (lang_star_lit1 true nl w1 L1).
Qed.

Lemma block_not_in_P q u c v N Y :
  P = u ++ c :: v -> forallb is_nl N = true ->
  match_at block_pattern q ((c :: v) ++ N ++ start_marker ++ Y) = None.
Proof.
  intros E HN. destruct (match_at _ _ _) as [mo|] eqn:Hm; [|reflexivity].
  exfalso. apply match_at_sound in Hm. destruct Hm as [s' [Hr _]].
  apply rmatch_lang in Hr. destruct Hr as [x [Ex [Lx _]]]. cbn [rest] in Ex.
  apply block_starts in Lx. destruct Lx as [nls [tail [-> Hnls]]].
  destruct start_marker_head as [sm Esm]. rewrite Esm in Ex.
  rewrite <- !app_assoc in Ex.
  replace ((c :: v) ++ N ++ (hash :: sm) ++ Y)
    with (((c :: v) ++ N) ++ hash :: (sm ++ Y)) in Ex
    by (rewrite <- !app_assoc; reflexivity).
  cbn [app] in Ex.
  change (c :: (v ++ N) ++ hash :: sm ++ Y) with ((c :: v ++ N) ++ hash :: sm ++ Y) in Ex.
  apply first_hash in Ex.
  - destruct (P_tail_solid u c v E) as [d [Hd Hs]].
    assert (Hin : In d nls).
    { rewrite <- Ex. change (c :: v ++ N) with ((c :: v) ++ N).
      apply in_or_app. now left. }
    apply Hnls in Hin. subst d. discriminate Hs.
  - change (c :: v ++ N) with ((c :: v) ++ N). apply not_in_app.
    + intro Hin. apply P_no_hash. rewrite E. apply in_or_app. now right.
    + now apply all_nl_no_hash.
  - intro Hin. apply Hnls in Hin. discriminate.
Qed.

Lemma subn_from_hit_all r repl p c t mo :
  match_at r p (c :: t) = Some mo -> whole mo = c :: t ->
  match_at r (prev_after (Some c) t) [] = None ->
  subn_from r repl 0 p (c :: t) = (repl mo, 1).
Proof.
  intros Hm Hw Hn.
  rewrite (subn_from_hit r repl p c t mo t [] Hm Hw (eq_sym (app_nil_r t))).
  cbn [subn_from]. rewrite Hn. cbn [fst snd]. now rewrite app_nil_r.
Qed.

(** Removing the block that follows the script gives the script back; the
    block is the one match. *)
Lemma block_removed J2 N :
  ~ In hash J2 -> forallb is_nl N = true ->
  subn block_pattern (fun _ => []) (P ++ N ++ start_marker ++ J2 ++ end_marker) = (P, 1).
Proof.
  intros HJ HN. unfold subn.
  rewrite subn_from_no_match
    by (intros u c v E; exact (block_not_in_P _ u c v N _ E HN)).
  pose proof (block_at_frame (prev_after None P) N J2 HJ HN) as Hm.
  destruct (N ++ start_marker ++ J2 ++ end_marker) as [|c t] eqn:Et.
  - exfalso. destruct start_marker_head as [sm Esm]. rewrite Esm in Et.
    destruct N; discriminate Et.
  - rewrite (subn_from_hit_all block_pattern (fun _ => []) _ c t _ Hm eq_refl).
    + cbn [fst snd]. now rewrite app_nil_r.
    + apply (no_match_at block_pattern start_marker _ [] block_has_marker). reflexivity.
Qed.

(** The second merge cleans a script followed by a managed block back to the
    script. *)
Lemma second_clean items J :
  Forall plain_item items -> ~ In hash J -> cleaned (frame P J) items = P.
Proof.
  intros Hit HJ. unfold cleaned, current_text_of.
  destruct (remove_existing_frame items Hit J 0 0 [] HJ) as [J1 [E1 HJ1]].
  rewrite E1. fold (collapse (frame P J1)).
  destruct (collapse_frame J1 HJ1) as [J2 [E2 HJ2]]. rewrite E2.
  destruct (strip_framed J2) as [N [E3 HN]]. rewrite E3.
  unfold sub. rewrite block_removed; [reflexivity | exact HJ2 |].
  destruct HN as [-> | ->]; reflexivity.
Qed.

(** A script followed by a managed block holds one match of the block
    pattern: the block, with the newlines before it. *)
Lemma frame_one_block J :
  ~ In hash J -> subn block_pattern (fun _ => []) (frame P J) = (P, 1).
Proof.
  intro HJ. unfold frame, block_open, block_close.
  replace (P ++ ([nl; nl] ++ start_marker ++ [nl]) ++ J ++ [nl] ++ end_marker)
    with (P ++ [nl; nl] ++ start_marker ++ ([nl] ++ J ++ [nl]) ++ end_marker)
    by (rewrite <- !app_assoc; reflexivity).
  apply block_removed; [|reflexivity].
  apply not_in_app; [intros [E|[]]; discriminate|].
  apply not_in_app; [exact HJ | intros [E|[]]; discriminate].
Qed.

End SecondMerge.

Lemma build_line_no_hash p d md :
  ~ In hash p -> ~ In hash md -> ~ In hash (build_edify_line p d md).
Proof.
  intros Hp Hm. unfold build_edify_line, q.
  assert (Hmode : ~ In hash (if length md =? 3 then str "0" ++ md else md)).
  { destruct (length md =? 3); [|exact Hm].
    apply not_in_app; [apply not_in_str; reflexivity | exact Hm]. }
  destruct d;
    repeat first [ apply not_in_app
                 | apply not_in_cons_ne; [discriminate|]
                 | apply not_in_str; reflexivity
                 | assumption
                 | intros [] ].
Qed.

Lemma join_no_hash ls :
  Forall (fun l => ~ In hash l) ls -> ~ In hash (join [nl] ls).
Proof.
  induction 1 as [|l ls Hl _ IH]; [intros []|].
  destruct ls as [|l2 ls]; [exact Hl|].
  change (join [nl] (l :: l2 :: ls)) with (l ++ [nl] ++ join [nl] (l2 :: ls)).
  apply not_in_app; [exact Hl|].
  apply not_in_app; [intros [E|[]]; discriminate | exact IH].
Qed.

Lemma fresh_lines_no_hash items :
  Forall plain_item items -> ~ In hash (join [nl] (fresh_lines items)).
Proof.
  intro H. apply join_no_hash. unfold fresh_lines.
  induction H as [|[[p d] md] items [Hp Hm] _ IH]; constructor; auto.
  now apply build_line_no_hash.
Qed.

(** A merge on the output of a merge: the block of the first merge is
    replaced by the block of the second. *)
Lemma merge_merge s items1 items2 :
  occurs keyword s = false -> ~ In hash s ->
  Forall plain_item items1 -> Forall plain_item items2 ->
  merge_text (merge_text s items1) items2 = merge_text s items2.
Proof.
  intros Hk Hh H1 H2.
  rewrite (first_merge s items1 Hk Hh), (first_merge s items2 Hk Hh).
  rewrite merge_text_eq. f_equal.
  change (strip (collapse s) ++ managed_block (fresh_lines items1))
    with (frame (strip (collapse s)) (join [nl] (fresh_lines items1))).
  apply second_clean.
  - now apply strip_collapse_no_hash.
  - destruct (occurs keyword (strip (collapse s))) eqn:E; [|reflexivity].
    apply occurs_strip, collapse_occurs_keyword in E. congruence.
  - apply gap_from_strip, collapse_gap_free.
  - intros a c E. exact (strip_last _ a c E).
  - intros c b E. exact (strip_first _ c b E).
  - exact H2.
  - now apply fresh_lines_no_hash.
Qed.

(** The output of a merge holds one match of the block pattern, and the text
    before it is the cleaned script. *)
Lemma merged_block_count s items :
  occurs keyword s = false -> ~ In hash s -> Forall plain_item items ->
  subn block_pattern (fun _ => []) (merge_text s items) = (strip (collapse s), 1).
Proof.
  intros Hk Hh Hit. rewrite (first_merge s items Hk Hh).
  change (strip (collapse s) ++ managed_block (fresh_lines items))
    with (frame (strip (collapse s)) (join [nl] (fresh_lines items))).
  apply frame_one_block.
  - now apply strip_collapse_no_hash.
  - intros a c E. exact (strip_last _ a c E).
  - now apply fresh_lines_no_hash.
Qed.

(** ** A start marker is not made by a substitution *)

Lemma occurs_nil_l (t : text) : occurs [] t = true.
Proof. destruct t; reflexivity. Qed.





(** ** The second merge, whatever the script holds *)




















(** ** Merging again *)

Lemma has_hash_false (t : text) : has_hash t = false -> ~ In hash t.
Proof.
  unfold has_hash. intros H Hin.
  assert (existsb (Ascii.eqb hash) t = true).
  { apply existsb_exists. exists hash. split; [exact Hin | apply Ascii.eqb_refl]. }
  congruence.
Qed.

Lemma no_hash_has_hash (t : text) : ~ In hash t -> has_hash t = false.
Proof.
  intro H. unfold has_hash. destruct (existsb (Ascii.eqb hash) t) eqn:E; [|reflexivity].
  apply existsb_exists in E. destruct E as [c [Hin Hc]].
  apply Ascii.eqb_eq in Hc. subst c. contradiction.
Qed.

Lemma plain_items (items : list item) :
  forallb plain_itemb items = true -> Forall plain_item items.
Proof.
  intro H. apply Forall_forall. intros it Hin.
  rewrite forallb_forall in H. apply H in Hin.
  unfold plain_itemb in Hin. apply andb_true_iff in Hin. destruct Hin as [H1 H2].
  apply negb_true_iff in H1, H2. split; now apply has_hash_false.
Qed.

(** On a script that holds neither the directive keyword nor a [#], with
    entries whose paths and modes hold no [#], a second merge with the same
    entries returns the text of the first merge, character for character; so
    the two outputs agree up to white space and hold the same live directive
    lines. *)
Lemma merge_idempotent (s : text) (items : list item) :
  occurs keyword s = false -> has_hash s = false ->
  forallb plain_itemb items = true ->
  merge_text (merge_text s items) items = merge_text s items
  /\ non_space (merge_text (merge_text s items) items) = non_space (merge_text s items)
  /\ live_directives (merge_text (merge_text s items) items)
     = live_directives (merge_text s items).
Proof.
  intros Hk Hh Hit.
  assert (E : merge_text (merge_text s items) items = merge_text s items).
  { apply merge_merge; auto using has_hash_false, plain_items. }
  rewrite E. auto.
Qed.

Lemma merge_idempotent_witness :
  merge_text (merge_text script_plain [item_a; item_b]) [item_a; item_b]
  = merge_text script_plain [item_a; item_b]
  /\ non_space (merge_text (merge_text script_plain [item_a; item_b]) [item_a; item_b])
     = non_space (merge_text script_plain [item_a; item_b])
  /\ live_directives (merge_text (merge_text script_plain [item_a; item_b]) [item_a; item_b])
     = live_directives (merge_text script_plain [item_a; item_b]).
Proof. apply merge_idempotent; vm_compute; reflexivity. Defined.

(** C2: the merge is not idempotent.  On a script with a start marker that no
    end marker follows, the first merge keeps the marker and the directive of
    the script after it, and appends its block; the second merge takes the
    text from that marker to the end of the appended block for an old block
    and removes it, the directive of the script with it.  On a script with an
    old, empty block glued in front of a directive for the entry's path, the
    first merge leaves that directive as a live line and the second removes
    it.  In both cases the two outputs differ in more than white space and in
    their live directive lines. *)
Theorem merge_not_idempotent :
  (let t1 := merge_text script_open_block [item_a] in
   let t2 := merge_text t1 [item_a] in
   t1 = str "ui_print(1);" ++ [nl] ++ start_marker ++ [nl] ++ own_directive
        ++ managed_block (fresh_lines [item_a])
   /\ t2 = str "ui_print(1);" ++ managed_block (fresh_lines [item_a])
   /\ non_space t1 <> non_space t2
   /\ existsb (path_eqb own_directive) (live_directives t1) = true
   /\ existsb (path_eqb own_directive) (live_directives t2) = false)
  /\ (let t1 := merge_text script_glued [item_a] in
      let t2 := merge_text t1 [item_a] in
      non_space t1 <> non_space t2
      /\ existsb (path_eqb stale_directive) (live_directives t1) = true
      /\ existsb (path_eqb stale_directive) (live_directives t2) = false).
Proof.
  split.
  - vm_compute. repeat split. discriminate.
  - vm_compute. repeat split. discriminate.
Qed.

(** On a script that holds neither the directive keyword nor a [#], the
    second merge also gives what the merge of the second list alone gives:
    the cleaned script, in which no directive and no [#] is left, followed by
    the block of the second list. *)
Lemma last_write_wins_plain (s : text) (items1 items2 : list item) :
  occurs keyword s = false -> has_hash s = false ->
  forallb plain_itemb items1 = true -> forallb plain_itemb items2 = true ->
  let t2 := merge_text (merge_text s items1) items2 in
  t2 = strip (collapse s) ++ managed_block (fresh_lines items2)
  /\ t2 = merge_text s items2
  /\ subn block_pattern (fun _ => []) t2 = (strip (collapse s), 1)
  /\ has_hash (strip (collapse s)) = false
  /\ occurs keyword (strip (collapse s)) = false.
Proof.
  intros Hk Hh H1 H2. cbv zeta.
  pose proof (has_hash_false s Hh) as Hh'.
  rewrite (merge_merge s items1 items2 Hk Hh' (plain_items _ H1) (plain_items _ H2)).
  repeat split.
  - now apply first_merge.
  - apply merged_block_count; auto using plain_items.
  - apply no_hash_has_hash. now apply strip_collapse_no_hash.
  - destruct (occurs keyword (strip (collapse s))) eqn:E; [|reflexivity].
    apply occurs_strip, collapse_occurs_keyword in E. congruence.
Qed.



(** What the two merges leave of that script: the comment and the directive
    for another path stay, the directive for the path of the first list and
    the old block are gone. *)
Lemma commented_script_merged :
  merge_text (merge_text script_commented [item_a]) [item_b]
  = join [nl] [str "# my rom"; str "ui_print(1);"; own_directive]
    ++ managed_block (fresh_lines [item_b]).
Proof. vm_compute. reflexivity. Qed.


(** * Further properties *)

(** ** The counters of the merge *)

Lemma remove_existing_counts items : forall s a u ls,
  snd (fst (fst (remove_existing items s a u ls))) + snd (fst (remove_existing items s a u ls))
  = a + u + length items.
Proof.
  induction items as [|[[p d] md] items IH]; intros s a u ls.
  - simpl. lia.
  - cbn [remove_existing].
    destruct (subn (directive_pattern p) (fun _ => []) s) as [s' n].
    destruct (0 <? n); rewrite IH; cbn [length]; lia.
Qed.

Lemma counters_sum (s : text) (items : list item) :
  snd (fst (ensure_edify_stat_lines s items)) + snd (ensure_edify_stat_lines s items)
  = length items.
Proof.
  pose proof (remove_existing_counts items s 0 0 []) as H.
  unfold ensure_edify_stat_lines.
  destruct (remove_existing items s 0 0 []) as [[[cur a] u] ls].
  cbn [fst snd] in *. lia.
Qed.

Lemma remove_existing_all_added items : forall s a u ls,
  occurs keyword s = false ->
  snd (fst (fst (remove_existing items s a u ls))) = a + length items
  /\ snd (fst (remove_existing items s a u ls)) = u.
Proof.
  induction items as [|[[p d] md] items IH]; intros s a u ls Hk.
  - simpl. split; lia.
  - cbn [remove_existing].
    rewrite (subn_without_literal (directive_pattern p) (fun _ => []) keyword s
               (directive_has_keyword p) Hk).
    cbn [Nat.ltb Nat.leb]. destruct (IH s (S a) u (ls ++ [build_edify_line p d md]) Hk) as [H1 H2].
    rewrite H1, H2. cbn [length]. split; lia.
Qed.

(** X2: On a script without the directive keyword every item is counted as added. *)
Theorem fresh_script_all_added (s : text) (items : list item) :
  occurs keyword s = false ->
  snd (fst (ensure_edify_stat_lines s items)) = length items
  /\ snd (ensure_edify_stat_lines s items) = 0.
Proof.
  intro Hk. pose proof (remove_existing_all_added items s 0 0 [] Hk) as H.
  unfold ensure_edify_stat_lines.
  destruct (remove_existing items s 0 0 []) as [[[cur a] u] ls].
  cbn [fst snd] in *. exact H.
Qed.

Lemma fresh_script_all_added_witness :
  snd (fst (ensure_edify_stat_lines script_plain [item_a; item_b])) = 2
  /\ snd (ensure_edify_stat_lines script_plain [item_a; item_b]) = 0.
Proof. apply (fresh_script_all_added script_plain [item_a; item_b]). vm_compute. reflexivity. Defined.

(** X1: Every item is counted once, as added or as updated. *)
Theorem counters_partition (s : text) (items : list item) :
  let '(_, added, updated) := ensure_edify_stat_lines s items in
  added + updated = length items.
Proof.
  pose proof (counters_sum s items) as H.
  destruct (ensure_edify_stat_lines s items) as [[t a] u]. exact H.
Qed.
(** ** The orchestrator of the script update *)

Section UpdateAccounting.

Variable relpath : path -> path -> option path.
Variable isdir : path -> bool.
Variable basename : path -> text.

Lemma collect_items_counts entries rom_root : forall items sk nts,
  length (fst (fst (collect_items relpath isdir basename entries rom_root items sk nts)))
  + snd (fst (collect_items relpath isdir basename entries rom_root items sk nts))
  = length items + sk + length entries.
Proof.
  induction entries as [|e entries IH]; intros items sk nts.
  - simpl. lia.
  - cbn [collect_items].
    destruct (to_edify_path relpath isdir (path_abs e) rom_root) as [[ep d]|].
    + rewrite IH, length_app. cbn [length]. lia.
    + rewrite IH. cbn [length]. lia.
Qed.

Lemma collect_items_none entries rom_root : forall items sk nts,
  (forall e, In e entries -> to_edify_path relpath isdir (path_abs e) rom_root = None) ->
  fst (fst (collect_items relpath isdir basename entries rom_root items sk nts)) = items
  /\ snd (fst (collect_items relpath isdir basename entries rom_root items sk nts))
     = sk + length entries.
Proof.
  induction entries as [|e entries IH]; intros items sk nts H.
  - simpl. split; [reflexivity | lia].
  - cbn [collect_items]. rewrite (H e (or_introl eq_refl)).
    destruct (IH items (S sk) (nts ++ [str "Skipped (out of scope): " ++ basename (path_abs e)]))
      as [H1 H2]; [intros e' He'; apply H; now right|].
    rewrite H1, H2. cbn [length]. split; [reflexivity | lia].
Qed.

(** X4: A run that goes through accounts for every entry once: as added, as
    updated or as skipped. *)
Theorem update_accounts_for_every_entry (io : io_oracle) (entries : list entry)
    (rom_root : path) (f : fs) :
  f (updater_script_path rom_root) <> None ->
  copy_fails io = None -> read_fails io = false -> write_fails io = None ->
  let r := fst (update_updater_script relpath isdir basename io entries rom_root f) in
  added r + updated r + skipped r = length entries.
Proof.
  intros Hs Hc Hr Hw. cbv zeta.
  unfold update_updater_script, find_updater_script. cbv zeta.
  destruct (f (updater_script_path rom_root)) as [orig|] eqn:Hf; [|congruence].
  cbv beta iota zeta.
  pose proof (collect_items_counts entries rom_root [] 0 []) as Hn.
  destruct (collect_items relpath isdir basename entries rom_root [] 0 [])
    as [[its sk] nts].
  cbn [fst snd length] in Hn.
  destruct its as [|it its].
  - cbn [fst added updated skipped]. cbn [length] in Hn. lia.
  - rewrite Hc, Hr.
    assert (Hb : fs_write (backup_path_of (updater_script_path rom_root) (timestamp io))
                   (f (updater_script_path rom_root)) f (updater_script_path rom_root)
                 = Some orig).
    { unfold fs_write.
      rewrite (path_eqb_neq _ _ (backup_path_fresh (updater_script_path rom_root) (timestamp io))).
      exact Hf. }
    rewrite Hb. cbv zeta.
    pose proof (counters_sum (read_text orig) (it :: its)) as Hsum.
    destruct (ensure_edify_stat_lines (read_text orig) (it :: its)) as [[nt a] u].
    rewrite Hw. cbn [fst snd added updated skipped] in *. lia.
Qed.

(** X5: When no entry lies below a standard partition the file system is left as
    it is -- no backup is made -- and every entry is counted as skipped. *)
Theorem out_of_scope_entries_change_nothing (io : io_oracle) (entries : list entry)
    (rom_root : path) (f : fs) :
  (forall e, In e entries -> to_edify_path relpath isdir (path_abs e) rom_root = None) ->
  let r := update_updater_script relpath isdir basename io entries rom_root f in
  snd r = f
  /\ added (fst r) = 0 /\ updated (fst r) = 0
  /\ (script_path (fst r) <> None -> skipped (fst r) = length entries).
Proof.
  intro H. cbv zeta. unfold update_updater_script.
  destruct (find_updater_script f rom_root) as [script|].
  - destruct (collect_items_none entries rom_root [] 0 [] H) as [H1 H2].
    destruct (collect_items relpath isdir basename entries rom_root [] 0 [])
      as [[its sk] nts].
    cbn [fst snd] in H1, H2. subst its. cbn [fst snd added updated skipped script_path].
    repeat split; auto.
  - cbn [fst snd added updated skipped script_path]. repeat split; auto. congruence.
Qed.

(** X6: The update writes to the script and to its backup file, and to no other
    path, whatever fails. *)
Theorem update_touches_two_paths (io : io_oracle) (entries : list entry)
    (rom_root : path) (f : fs) (p : path) :
  p <> updater_script_path rom_root ->
  p <> backup_path_of (updater_script_path rom_root) (timestamp io) ->
  snd (update_updater_script relpath isdir basename io entries rom_root f) p = f p.
Proof.
  intros Hp Hb. unfold update_updater_script, find_updater_script. cbv zeta.
  destruct (f (updater_script_path rom_root)) as [orig|]; [|reflexivity].
  cbv beta iota zeta.
  destruct (collect_items relpath isdir basename entries rom_root [] 0 [])
    as [[its sk] nts].
  destruct its as [|it its]; [reflexivity|].
  destruct (copy_fails io).
  - cbn [snd]. unfold fs_write. now rewrite (path_eqb_neq _ _ Hb).
  - destruct (if read_fails io then None else _).
    + destruct (ensure_edify_stat_lines _ _) as [[nt a] u].
      destruct (write_fails io); cbn [snd]; unfold fs_write;
        now rewrite (path_eqb_neq _ _ Hp), (path_eqb_neq _ _ Hb).
    + cbn [snd]. unfold fs_write. now rewrite (path_eqb_neq _ _ Hb).
Qed.

End UpdateAccounting.
Lemma update_accounts_for_every_entry_witness :
  let r := fst (update_updater_script rom_relpath (fun _ => true) (fun p => p)
                  io_fine [rom_entry] rom rom_fs) in
  added r + updated r + skipped r = 1.
Proof.
  apply (update_accounts_for_every_entry rom_relpath (fun _ => true) (fun p => p)
           io_fine [rom_entry] rom rom_fs).
  - vm_compute. discriminate.
  - reflexivity.
  - reflexivity.
  - reflexivity.
Defined.

Lemma out_of_scope_entries_change_nothing_witness :
  let r := update_updater_script rom_relpath (fun _ => true) (fun p => p) io_fine
             [mkentry (str "/rom/data/app") (str "dir") (str "755")] rom rom_fs in
  snd r = rom_fs
  /\ added (fst r) = 0 /\ updated (fst r) = 0
  /\ (script_path (fst r) <> None -> skipped (fst r) = 1).
Proof.
  apply (out_of_scope_entries_change_nothing rom_relpath (fun _ => true) (fun p => p) io_fine
           [mkentry (str "/rom/data/app") (str "dir") (str "755")] rom rom_fs).
  intros e [<-|[]]. vm_compute. reflexivity.
Defined.

Lemma update_touches_two_paths_witness :
  snd (update_updater_script rom_relpath (fun _ => true) (fun p => p) io_fine
         [rom_entry] rom rom_fs) (str "/rom/system/build.prop")
  = rom_fs (str "/rom/system/build.prop").
Proof.
  apply (update_touches_two_paths rom_relpath (fun _ => true) (fun p => p) io_fine
           [rom_entry] rom rom_fs (str "/rom/system/build.prop")).
  - vm_compute. discriminate.
  - vm_compute. discriminate.
Defined.
(** ** A fresh line and the pattern that removes it *)

Lemma build_edify_line_eq p d md :
  build_edify_line p d md
  = str "set_metadata" ++ (if d then str "_recursive" else []) ++ str "(" ++ [dq] ++ p
    ++ [dq] ++ str "," ++ directive_args d md ++ str ");".
Proof.
  unfold build_edify_line, directive_args, q.
  destruct d; destruct (length md =? 3); rewrite <- ?app_assoc; reflexivity.
Qed.

Lemma m_bol k s : at_bol s = true -> m Bol k s = k s.
Proof. intro H. cbn [m]. now rewrite H. Qed.

Lemma m_eol_end ml k p cs : m (Eol ml) k (mkst p [] cs) = k (mkst p [] cs).
Proof. reflexivity. Qed.

Lemma m_alt a b k s : m (Alt a b) k s = orelse (m a k s) (m b k s).
Proof. reflexivity. Qed.

Lemma m_lit1 c k p t cs : m (Lit [c]) k (mkst p (c :: t) cs) = k (mkst (Some c) t cs).
Proof. cbn [m adv rest caps]. now rewrite Ascii.eqb_refl. Qed.

Lemma greedy_cls_nil f k p cs : greedy_cls f k p [] cs = k (mkst p [] cs).
Proof. reflexivity. Qed.

(** The lazy [.*?] passes over characters at which the continuation fails. *)
Lemma lazy_cls_skip f k w : forall p t cs,
  forallb f w = true ->
  (forall u c v, w = u ++ c :: v -> k (mkst (prev_after p u) ((c :: v) ++ t) cs) = None) ->
  lazy_cls f k p (w ++ t) cs = lazy_cls f k (prev_after p w) t cs.
Proof.
  induction w as [|a w IH]; intros p t cs Hf Hk; [reflexivity|].
  cbn [forallb] in Hf. apply andb_true_iff in Hf. destruct Hf as [Ha Hf].
  cbn [app]. rewrite lazy_cls_unfold.
  pose proof (Hk [] a w eq_refl) as H0.
  change (k (mkst p (a :: w ++ t) cs) = None) in H0.
  rewrite H0. cbn [orelse]. rewrite Ha.
  rewrite IH; [reflexivity | exact Hf |].
  intros u c v E. subst w. exact (Hk (a :: u) c v eq_refl).
Qed.

Lemma digit_inner c : is_digit c = true -> inner_char c = true.
Proof.
  unfold is_digit, inner_char, is_nl. intro H.
  apply andb_true_iff in H. destruct H as [H1 H2].
  apply Nat.leb_le in H1. apply Nat.leb_le in H2.
  apply andb_true_iff. split; apply negb_true_iff; apply Ascii.eqb_neq; intro E; subst c;
    vm_compute in H1; lia.
Qed.

Lemma directive_args_inner d md :
  forallb is_digit md = true -> forallb inner_char (directive_args d md) = true.
Proof.
  intro H. assert (Hm : forallb inner_char md = true).
  { rewrite forallb_forall in *. intros c Hc. apply digit_inner. auto. }
  unfold directive_args, q. rewrite !forallb_app.
  destruct (length md =? 3); destruct d; rewrite ?forallb_app, ?Hm; reflexivity.
Qed.

Lemma inner_not_close c t : inner_char c = true -> starts_with (str ");") (c :: t) = false.
Proof.
  unfold inner_char. intro H. apply andb_true_iff in H. destruct H as [_ H].
  apply negb_true_iff in H. unfold str. cbn [list_ascii_of_string starts_with].
  rewrite Ascii.eqb_sym, H. reflexivity.
Qed.

Lemma inner_dot c : inner_char c = true -> negb (is_nl c) = true.
Proof. unfold inner_char. intro H. apply andb_true_iff in H. tauto. Qed.

(** The end of the directive pattern, from the comma on. *)
Lemma directive_tail_run w p cs :
  forallb inner_char w = true ->
  m (seqs [L ","; Star false dot; L ");"; Star true ws; Eol true]) Some
    (mkst p (str "," ++ w ++ str ");") cs)
  = Some (mkst (Some ";"%char) [] cs).
Proof.
  intro Hw. cbn [seqs]. unfold L. rewrite m_seq, m_lit_app, m_seq. unfold dot.
  rewrite m_star_cls_lazy. cbn [prev rest caps].
  rewrite lazy_cls_skip.
  - rewrite lazy_cls_unfold. rewrite m_seq.
    rewrite <- (app_nil_r (str ");")) at 2. rewrite m_lit_app, m_seq.
    unfold ws. rewrite m_star_cls_greedy. cbn [prev rest caps].
    rewrite greedy_cls_nil, m_eol_end. reflexivity.
  - rewrite forallb_forall in *. intros c Hc. apply inner_dot. auto.
  - intros u c v E. rewrite m_seq. apply m_lit_fail. cbn [rest app].
    apply inner_not_close. rewrite forallb_forall in Hw. apply Hw.
    rewrite E. apply in_or_app. right. now left.
Qed.

Lemma greedy_cls_stop_lit f k p w t cs :
  match w with c :: _ => f c = false | [] => False end ->
  greedy_cls f k p (w ++ t) cs = k (mkst p (w ++ t) cs).
Proof. destruct w as [|c w]; [contradiction|]. cbn [app]. apply greedy_cls_stop. Qed.

(** The directive pattern from the opening parenthesis on. *)
Lemma directive_body_run pth w p cs :
  forallb inner_char w = true ->
  m (seqs [L "("; Star true ws; Lit [dq]; Lit pth; Lit [dq]; Star true ws; L ",";
           Star false dot; L ");"; Star true ws; Eol true]) Some
    (mkst p (str "(" ++ [dq] ++ pth ++ [dq] ++ str "," ++ w ++ str ");") cs)
  = Some (mkst (Some ";"%char) [] cs).
Proof.
  intro Hw.
  change (seqs [L "("; Star true ws; Lit [dq]; Lit pth; Lit [dq]; Star true ws; L ",";
                Star false dot; L ");"; Star true ws; Eol true])
    with (Seq (L "(") (Seq (Star true ws) (Seq (Lit [dq]) (Seq (Lit pth) (Seq (Lit [dq])
            (Seq (Star true ws)
               (seqs [L ","; Star false dot; L ");"; Star true ws; Eol true]))))))).
  unfold L at 1. rewrite m_seq, m_lit_app, m_seq. unfold ws at 1.
  rewrite m_star_cls_greedy. cbn [prev rest caps]. cbn [app].
  rewrite greedy_cls_stop by reflexivity.
  rewrite m_seq, m_lit1, m_seq, m_lit_app, m_seq. cbn [app]. rewrite m_lit1, m_seq.
  unfold ws at 1. rewrite m_star_cls_greedy. cbn [prev rest caps].
  rewrite greedy_cls_stop_lit by reflexivity.
  now apply directive_tail_run.
Qed.

Lemma fresh_line_match (pth : text) (is_dir : bool) (md : text) (p : option ascii) :
  forallb is_digit md = true -> p = None \/ p = Some nl ->
  match_at (directive_pattern pth) p (build_edify_line pth is_dir md)
  = Some (mkmatch (build_edify_line pth is_dir md) []).
Proof.
  intros Hd Hp. pose proof (directive_args_inner is_dir md Hd) as Hw.
  assert (Hb : at_bol (mkst p (build_edify_line pth is_dir md) []) = true)
    by (destruct Hp; subst p; reflexivity).
  unfold match_at.
  assert (Hrun : m (directive_pattern pth) Some (mkst p (build_edify_line pth is_dir md) [])
                 = Some (mkst (Some ";"%char) [] [])).
  { unfold directive_pattern.
    change (seqs [Bol; Star true ws; L "set_metadata"; Opt (L "_recursive"); L "(";
                  Star true ws; Lit [dq]; Lit pth; Lit [dq]; Star true ws; L ",";
                  Star false dot; L ");"; Star true ws; Eol true])
      with (Seq Bol (Seq (Star true ws) (Seq (L "set_metadata") (Seq (Opt (L "_recursive"))
              (seqs [L "("; Star true ws; Lit [dq]; Lit pth; Lit [dq]; Star true ws; L ",";
                     Star false dot; L ");"; Star true ws; Eol true]))))).
    rewrite m_seq, (m_bol _ _ Hb), m_seq. unfold ws at 1.
    rewrite m_star_cls_greedy. cbn [prev rest caps].
    rewrite build_edify_line_eq.
    rewrite greedy_cls_stop_lit by reflexivity.
    unfold L at 1. rewrite m_seq, m_lit_app, m_seq.
    unfold Opt, L at 1. rewrite m_alt.
    destruct is_dir.
    - rewrite m_lit_app. rewrite (directive_body_run pth _ _ _ Hw). reflexivity.
    - cbn [app]. rewrite m_lit_fail by reflexivity. cbn [orelse].
      change (m Eps ?k ?s) with (k s). cbv beta.
      now apply directive_body_run. }
  rewrite Hrun.
  rewrite (consumed_eq _ _ (build_edify_line pth is_dir md)).
  - reflexivity.
  - cbn [rest]. now rewrite app_nil_r.
Qed.

(** X3: The pattern that removes the lines of a path matches the line the tool
    writes for that path, from its first to its last character; run on that
    line alone, the removal leaves nothing and counts one match. *)
Theorem fresh_line_is_recognised (pth : text) (is_dir : bool) (md : text) :
  forallb is_digit md = true ->
  match_at (directive_pattern pth) None (build_edify_line pth is_dir md)
  = Some (mkmatch (build_edify_line pth is_dir md) [])
  /\ match_at (directive_pattern pth) (Some nl) (build_edify_line pth is_dir md)
     = Some (mkmatch (build_edify_line pth is_dir md) [])
  /\ subn (directive_pattern pth) (fun _ => []) (build_edify_line pth is_dir md) = ([], 1).
Proof.
  intro Hd.
  pose proof (fresh_line_match pth is_dir md None Hd (or_introl eq_refl)) as H1.
  pose proof (fresh_line_match pth is_dir md (Some nl) Hd (or_intror eq_refl)) as H2.
  repeat split; auto.
  unfold subn.
  destruct (build_edify_line pth is_dir md) as [|c t] eqn:E.
  - rewrite build_edify_line_eq in E. discriminate E.
  - rewrite (subn_from_hit_all (directive_pattern pth) (fun _ => []) None c t _ H1 eq_refl).
    + reflexivity.
    + apply (no_match_at (directive_pattern pth) keyword _ [] (directive_has_keyword pth)).
      reflexivity.
Qed.

Lemma fresh_line_is_recognised_witness :
  match_at (directive_pattern (str "/system/app")) None
    (build_edify_line (str "/system/app") true (str "755"))
  = Some (mkmatch (build_edify_line (str "/system/app") true (str "755")) [])
  /\ match_at (directive_pattern (str "/system/app")) (Some nl)
       (build_edify_line (str "/system/app") true (str "755"))
     = Some (mkmatch (build_edify_line (str "/system/app") true (str "755")) [])
  /\ subn (directive_pattern (str "/system/app")) (fun _ => [])
       (build_edify_line (str "/system/app") true (str "755")) = ([], 1).
Proof.
  apply (fresh_line_is_recognised (str "/system/app") true (str "755")).
  reflexivity.
Defined.

(** ** Lines and the removal of debug lines *)

Lemma is_nl_iff c : is_nl c = true <-> c = nl.
Proof. unfold is_nl. apply Ascii.eqb_eq. Qed.

Lemma is_nl_false c : c <> nl -> is_nl c = false.
Proof. intro H. unfold is_nl. now apply Ascii.eqb_neq. Qed.

Lemma readlines_acc_line body : forall cur t,
  ~ In nl body ->
  readlines_acc cur (body ++ nl :: t) = (rev cur ++ body ++ [nl]) :: readlines_acc [] t.
Proof.
  induction body as [|c body IH]; intros cur t H.
  - cbn [app readlines_acc]. change (is_nl nl) with true. cbn iota.
    cbn [rev]. reflexivity.
  - cbn [app readlines_acc]. rewrite is_nl_false by (intro E; apply H; now left).
    rewrite IH by (intro Hin; apply H; now right).
    cbn [rev]. now rewrite <- !app_assoc.
Qed.

Lemma readlines_acc_last body : forall cur,
  ~ In nl body ->
  readlines_acc cur body = match rev cur ++ body with [] => [] | l => [l] end.
Proof.
  induction body as [|c body IH]; intros cur H.
  - cbn [readlines_acc]. rewrite app_nil_r. destruct cur as [|a cur]; [reflexivity|].
    destruct (rev (a :: cur)) eqn:E; [|reflexivity].
    apply (f_equal (@length ascii)) in E. rewrite length_rev in E. discriminate E.
  - cbn [readlines_acc]. rewrite is_nl_false by (intro E; apply H; now left).
    rewrite IH by (intro Hin; apply H; now right).
    cbn [rev]. now rewrite <- !app_assoc.
Qed.

Lemma split_at_nl (t : text) :
  ~ In nl t \/ exists body t', t = body ++ nl :: t' /\ ~ In nl body.
Proof.
  induction t as [|c t IH]; [left; intros []|].
  destruct (ascii_dec c nl) as [->|Hc].
  - right. exists [], t. split; [reflexivity | intros []].
  - destruct IH as [H | [body [t' [-> H]]]].
    + left. intros [E|Hin]; [congruence | contradiction].
    + right. exists (c :: body), t'. split; [reflexivity|].
      intros [E|Hin]; [congruence | contradiction].
Qed.

Lemma readlines_wf_len n : forall t, length t <= n -> lines_wf (readlines t).
Proof.
  induction n as [|n IH]; intros t Hn.
  - destruct t; [exact I | simpl in Hn; lia].
  - destruct (split_at_nl t) as [H | [body [t' [-> H]]]].
    + unfold readlines. rewrite readlines_acc_last by exact H. cbn [rev app].
      destruct t as [|c t]; [exact I|]. right. repeat split; [discriminate | exact H].
    + unfold readlines. rewrite readlines_acc_line by exact H. cbn [rev app].
      left. exists body. repeat split; auto. apply IH.
      rewrite length_app in Hn. cbn [length] in Hn. lia.
Qed.

Lemma readlines_wf (t : text) : lines_wf (readlines t).
Proof. exact (readlines_wf_len (length t) t (le_n _)). Qed.

Lemma lines_wf_filter (f : text -> bool) ls : lines_wf ls -> lines_wf (filter f ls).
Proof.
  induction ls as [|l ls IH]; intro H; [exact I|].
  cbn [filter]. destruct H as [[body [-> [Hb Hw]]] | [-> [Hl Hn]]].
  - destruct (f (body ++ [nl])); [|auto].
    left. exists body. auto.
  - cbn [filter]. destruct (f l); [|exact I]. right. auto.
Qed.

Lemma readlines_concat ls : lines_wf ls -> readlines (concat ls) = ls.
Proof.
  induction ls as [|l ls IH]; intro H; [reflexivity|].
  destruct H as [[body [-> [Hb Hw]]] | [-> [Hl Hn]]].
  - cbn [concat]. rewrite <- app_assoc. cbn [app]. unfold readlines.
    rewrite readlines_acc_line by exact Hb. cbn [rev app].
    f_equal. now apply IH.
  - cbn [concat]. rewrite app_nil_r. unfold readlines.
    rewrite readlines_acc_last by exact Hn. cbn [rev app].
    destruct l; [congruence | reflexivity].
Qed.

Lemma concat_readlines_acc t : forall cur, concat (readlines_acc cur t) = rev cur ++ t.
Proof.
  induction t as [|c t IH]; intro cur.
  - cbn [readlines_acc]. rewrite app_nil_r. destruct cur; [reflexivity|].
    cbn [concat]. now rewrite app_nil_r.
  - cbn [readlines_acc]. destruct (is_nl c).
    + cbn [concat]. rewrite IH. cbn [rev app]. now rewrite <- app_assoc.
    + rewrite IH. cbn [rev]. now rewrite <- app_assoc.
Qed.

Lemma concat_readlines t : concat (readlines t) = t.
Proof. exact (concat_readlines_acc t []). Qed.

(** *** Text mode *)

Lemma read_text_no_cr (stored : text) : ~ In cr (read_text stored).
Proof.
  assert (H : forall n t, length t <= n -> ~ In cr (read_text t)).
  { induction n as [|n IH]; intros t Hn.
    - destruct t; [intros [] | simpl in Hn; lia].
    - destruct t as [|c t]; [intros []|]. cbn [read_text length] in *.
      destruct (Ascii.eqb c cr) eqn:Ec.
      + destruct t as [|d t].
        * intros [E|[]]. discriminate E.
        * cbn [length] in Hn. destruct (is_nl d).
          -- intros [E|Hin]; [discriminate E|]. apply (IH t); [lia | exact Hin].
          -- intros [E|Hin]; [discriminate E|]. apply (IH (d :: t)); [cbn [length]; lia | exact Hin].
      + apply Ascii.eqb_neq in Ec. intros [E|Hin]; [congruence|].
        apply (IH t); [lia | exact Hin]. }
  exact (H (length stored) stored (le_n _)).
Qed.

(** What text mode writes, text mode reads back. *)
Lemma read_write (windows : bool) (t : text) :
  ~ In cr t -> read_text (write_text windows t) = t.
Proof.
  induction t as [|c t IH]; intro H; [reflexivity|].
  assert (Hc : Ascii.eqb c cr = false) by (apply Ascii.eqb_neq; intro E; apply H; now left).
  assert (Ht : ~ In cr t) by (intro Hin; apply H; now right).
  unfold write_text. cbn [flat_map]. fold (write_text windows t).
  destruct (is_nl c) eqn:En.
  - apply is_nl_iff in En. subst c. destruct windows; cbn [linesep app read_text].
    + change (Ascii.eqb cr cr) with true. change (is_nl nl) with true. cbn iota.
      now rewrite IH.
    + change (Ascii.eqb nl cr) with false. cbn iota. now rewrite IH.
  - cbn [app read_text]. rewrite Hc. now rewrite IH.
Qed.

(** On a host that is not Windows text mode writes a text as it is. *)
Lemma write_text_posix (t : text) : write_text false t = t.
Proof.
  induction t as [|c t IH]; [reflexivity|].
  unfold write_text. cbn [flat_map]. fold (write_text false t). rewrite IH.
  destruct (is_nl c) eqn:En; [|reflexivity].
  apply is_nl_iff in En. now subst c.
Qed.

Lemma read_text_plain (t : text) : ~ In cr t -> read_text t = t.
Proof. intro H. rewrite <- (write_text_posix t) at 1. now apply read_write. Qed.

Lemma concat_no_cr (ls : list text) : (forall l, In l ls -> ~ In cr l) -> ~ In cr (concat ls).
Proof.
  intros H Hin. apply in_concat in Hin. destruct Hin as [l [Hl Hc]]. exact (H l Hl Hc).
Qed.

Lemma lines_no_cr (t : text) (l : text) : ~ In cr t -> In l (readlines t) -> ~ In cr l.
Proof.
  intros Ht Hl Hc. apply Ht. rewrite <- (concat_readlines t).
  apply in_concat. now exists l.
Qed.

(** *** The per-file rewrite *)

Lemma strip_debug_lines_eq windows stored :
  strip_debug_lines windows stored = write_text windows (concat (kept_lines stored)).
Proof.
  unfold strip_debug_lines, kept_lines, lines_of. f_equal. f_equal. apply filter_ext. intro l.
  unfold is_debug_line. destruct (match_at line_num_pattern None l); reflexivity.
Qed.

Lemma filter_twice {A} (f : A -> bool) (l : list A) : filter f (filter f l) = filter f l.
Proof.
  induction l as [|a l IH]; [reflexivity|].
  cbn [filter]. destruct (f a) eqn:E; [|exact IH].
  cbn [filter]. rewrite E. now f_equal.
Qed.

Lemma kept_no_cr stored : ~ In cr (concat (kept_lines stored)).
Proof.
  apply concat_no_cr. intros l Hl. unfold kept_lines in Hl. apply filter_In in Hl.
  destruct Hl as [Hl _]. exact (lines_no_cr (read_text stored) l (read_text_no_cr stored) Hl).
Qed.

(** The lines a later reading finds in the rewritten file. *)
Lemma strip_debug_lines_lines windows stored :
  lines_of (strip_debug_lines windows stored) = kept_lines stored.
Proof.
  unfold lines_of. rewrite strip_debug_lines_eq, read_write by apply kept_no_cr.
  unfold kept_lines, lines_of. apply readlines_concat, lines_wf_filter, readlines_wf.
Qed.

Lemma strip_debug_lines_twice windows stored :
  strip_debug_lines windows (strip_debug_lines windows stored)
  = strip_debug_lines windows stored.
Proof.
  rewrite (strip_debug_lines_eq windows (strip_debug_lines windows stored)).
  unfold kept_lines at 1. rewrite strip_debug_lines_lines.
  unfold kept_lines at 1. rewrite filter_twice. symmetry. apply strip_debug_lines_eq.
Qed.

Lemma all_files_map (g : sfile -> sfile) (t : tree) :
  all_files (map (fun d => mksdir (dname d) (d_is_dir d) (map g (dfiles d))) t)
  = map g (all_files t).
Proof.
  induction t as [|d t IH]; [reflexivity|].
  unfold all_files in *. cbn [map flat_map dfiles]. now rewrite IH, map_app.
Qed.

Lemma Forall2_map_r {A B} (P : A -> B -> Prop) (g : A -> B) (l : list A) :
  (forall a, In a l -> P a (g a)) -> Forall2 P l (map g l).
Proof.
  induction l as [|a l IH]; intro H; [constructor|].
  cbn [map]. constructor; [apply H; now left|]. apply IH. intros x Hx. apply H. now right.
Qed.

(** X7: Whatever the host, [remove_debug_lines] keeps the directories and the
    file names.  A [.smali] file that it can read and write holds afterwards,
    read in text mode, exactly the lines it held before that the [.line]
    pattern does not match, in their order, and so no line that the pattern
    matches; its stored characters are these lines with the line end of the
    host.  Every other file is as it was. *)
Theorem debug_lines_removed (windows : bool) (t : tree) :
  map dname (remove_debug_lines windows t) = map dname t
  /\ Forall2
       (fun f f' =>
          fname f' = fname f
          /\ (is_rewritten f = true ->
              lines_of (fcontent f')
              = filter (fun l => negb (is_debug_line l)) (lines_of (fcontent f))
              /\ fcontent f' = write_text windows (concat (lines_of (fcontent f')))
              /\ forall l, In l (lines_of (fcontent f')) ->
                           match_at line_num_pattern None l = None)
          /\ (is_rewritten f = false -> f' = f))
       (all_files t) (all_files (remove_debug_lines windows t)).
Proof.
  split.
  - unfold remove_debug_lines. rewrite map_map. apply map_ext. reflexivity.
  - unfold remove_debug_lines. rewrite all_files_map. apply Forall2_map_r.
    intros f _. fold (is_rewritten f). destruct (is_rewritten f) eqn:E.
    + cbn [fname fcontent]. split; [reflexivity|]. split; [|discriminate].
      intros _. rewrite strip_debug_lines_lines. split; [reflexivity|]. split.
      * apply strip_debug_lines_eq.
      * intros l Hl. unfold kept_lines in Hl. apply filter_In in Hl.
        destruct Hl as [_ Hl]. unfold is_debug_line in Hl.
        destruct (match_at line_num_pattern None l); [discriminate | reflexivity].
    + split; [reflexivity|]. split; [discriminate | reflexivity].
Qed.

(** X8: Removing the debug lines a second time changes nothing: not in the
    stored characters of a file, and not in the working directory. *)
Theorem remove_debug_lines_idempotent (windows : bool) (content : text) (t : tree) :
  strip_debug_lines windows (strip_debug_lines windows content)
  = strip_debug_lines windows content
  /\ remove_debug_lines windows (remove_debug_lines windows t)
     = remove_debug_lines windows t.
Proof.
  split; [apply strip_debug_lines_twice|].
  unfold remove_debug_lines. rewrite map_map. apply map_ext. intro d.
  cbn [dname d_is_dir dfiles]. f_equal. rewrite map_map. apply map_ext. intro f.
  destruct (ends_with (str ".smali") (fname f) && readable f && writable f) eqn:E.
  - cbn [fname readable writable fcontent].
    apply andb_true_iff in E. destruct E as [E _]. apply andb_true_iff in E.
    destruct E as [E _]. rewrite E. cbn [andb].
    now rewrite strip_debug_lines_twice.
  - now rewrite E.
Qed.

Lemma line_num_has_literal x :
  lang line_num_pattern x -> occurs (str ".line") x = true.
Proof.
  unfold line_num_pattern. cbn [seqs lang].
  intros [w1 [w2 [-> [_ [w3 [w4 [-> [_ [w5 [w6 [-> [-> _]]]]]]]]]]]].
  apply occurs_app_r. apply occurs_mid.
Qed.

Lemma filter_all {A} (f : A -> bool) (l : list A) :
  (forall x, In x l -> f x = true) -> filter f l = l.
Proof.
  induction l as [|a l IH]; intro H; [reflexivity|].
  cbn [filter]. rewrite (H a (or_introl eq_refl)). f_equal.
  apply IH. intros x Hx. apply H. now right.
Qed.

Lemma line_is_part (content l : text) :
  In l (readlines content) -> exists u v, content = u ++ l ++ v.
Proof.
  intro H. apply in_split in H. destruct H as [l1 [l2 E]].
  exists (concat l1), (concat l2).
  rewrite <- (concat_readlines content) at 1. rewrite E, concat_app. reflexivity.
Qed.

(** A file whose text holds no [.line] keeps its text; only its line ends
    become those of the host. *)
Lemma strip_without_debug_line (windows : bool) (stored : text) :
  occurs (str ".line") (read_text stored) = false ->
  strip_debug_lines windows stored = write_text windows (read_text stored).
Proof.
  intro H. rewrite strip_debug_lines_eq. f_equal. unfold kept_lines, lines_of.
  rewrite filter_all; [apply concat_readlines|].
  intros l Hl. destruct (line_is_part (read_text stored) l Hl) as [u [v E]].
  unfold is_debug_line.
  rewrite (no_match_at line_num_pattern (str ".line") None l line_num_has_literal);
    [reflexivity|].
  destruct (occurs (str ".line") l) eqn:Ho; [|reflexivity].
  rewrite E in H. rewrite (occurs_app_r _ u _ (occurs_app_l _ l v Ho)) in H. discriminate H.
Qed.

Lemma map_id_on {A} (g : A -> A) (l : list A) : (forall a, In a l -> g a = a) -> map g l = l.
Proof.
  induction l as [|a l IH]; intro H; [reflexivity|].
  cbn [map]. rewrite (H a (or_introl eq_refl)). f_equal. apply IH.
  intros x Hx. apply H. now right.
Qed.

(** X9: When no file that [remove_debug_lines] rewrites holds the text
    [.line], every file keeps its name and its text, and only the line ends
    of the rewritten files change: they become those of the host.  So the
    working directory is left exactly as it was when these files have the
    line ends of the host already. *)
Theorem no_debug_line_no_change (windows : bool) (t : tree) :
  (forall f, In f (all_files t) -> is_rewritten f = true ->
             occurs (str ".line") (read_text (fcontent f)) = false) ->
  Forall2
    (fun f f' =>
       f' = if is_rewritten f
            then mksfile (fname f) (write_text windows (read_text (fcontent f))) true true
            else f)
    (all_files t) (all_files (remove_debug_lines windows t))
  /\ ((forall f, In f (all_files t) -> is_rewritten f = true ->
                 write_text windows (read_text (fcontent f)) = fcontent f) ->
      remove_debug_lines windows t = t).
Proof.
  intro H. split.
  - unfold remove_debug_lines. rewrite all_files_map. apply Forall2_map_r.
    intros f Hf. fold (is_rewritten f). destruct (is_rewritten f) eqn:E; [|reflexivity].
    now rewrite (strip_without_debug_line windows (fcontent f) (H f Hf E)).
  - intro Hw. unfold remove_debug_lines. apply map_id_on. intros d Hd.
    destruct d as [dn dd fl]. cbn [dname d_is_dir dfiles]. f_equal.
    apply map_id_on. intros f Hf. fold (is_rewritten f).
    assert (Hin : In f (all_files t)).
    { unfold all_files. apply in_flat_map. exists (mksdir dn dd fl). auto. }
    destruct (is_rewritten f) eqn:E; [|reflexivity].
    rewrite (strip_without_debug_line windows (fcontent f) (H f Hin E)), (Hw f Hin E).
    unfold is_rewritten in E. apply andb_true_iff in E. destruct E as [E Ew].
    apply andb_true_iff in E. destruct E as [_ Er].
    destruct f as [fn fc fr fw]. cbn [fname fcontent readable writable] in *.
    now subst fr fw.
Qed.

(** A file with Windows line ends on a host that is not Windows. *)
Lemma no_debug_line_no_change_witness :
  Forall2
    (fun f f' =>
       f' = if is_rewritten f
            then mksfile (fname f) (write_text false (read_text (fcontent f))) true true
            else f)
    (all_files crlf_tree) (all_files (remove_debug_lines false crlf_tree))
  /\ ((forall f, In f (all_files crlf_tree) -> is_rewritten f = true ->
                 write_text false (read_text (fcontent f)) = fcontent f) ->
      remove_debug_lines false crlf_tree = crlf_tree).
Proof.
  apply (no_debug_line_no_change false crlf_tree).
  intros f [<-|[]] _. vm_compute. reflexivity.
Defined.

(** ** What a run of the patcher leaves behind *)

Lemma outcomes_app a b : outcomes (a ++ b) = outcomes a + outcomes b.
Proof. unfold outcomes. now rewrite filter_app, length_app. Qed.

Ltac count_outcomes :=
  rewrite ?outcomes_app; cbn [outcomes filter is_outcome length]; lia.

Lemma reassemble_and_save_outcome (e : genv) (th : gthread) (t2 : tree) (s : gstate) :
  outcomes (events (fst (reassemble_and_save e th t2 s))) = S (outcomes (events s))
  /\ tmp_dirs (gw (fst (reassemble_and_save e th t2 s))) = tmp_dirs (gw s).
Proof.
  unfold reassemble_and_save, save_overwrite, save_side, overwrite_handler, side_handler,
    check_cancel, fail_with, return_, bind, emit, ret, get_world, put_world.
  norm_events.
  destruct (recompile_all e t2 (sorted (map dname (filter is_smali_dir t2))) []) as [dx|];
    norm_events; [|split; [count_outcomes | reflexivity]].
  destruct (cancel_at e 5); norm_events; [split; [count_outcomes | reflexivity]|].
  destruct (overwrite_original th); norm_events.
  - destruct (if is_fault e OpenInput then None else open_archive (gw s) (input_file th))
      as [ms|]; norm_events.
    + destruct (is_fault e OpenOutput); norm_events.
      * destruct (gfiles (gw s) (input_file th ++ str ".tmp")); norm_events;
          (split; [count_outcomes | reflexivity]).
      * destruct (written_before_fault e _ dx); norm_events.
        -- rewrite path_eqb_refl. norm_events. split; [count_outcomes | reflexivity].
        -- destruct (is_fault e MoveIntoPlace); norm_events;
             rewrite ?path_eqb_refl; norm_events; (split; [count_outcomes | reflexivity]).
    + destruct (gfiles (gw s) (input_file th ++ str ".tmp")); norm_events;
        (split; [count_outcomes | reflexivity]).
  - destruct (if is_fault e OpenInput then None else open_archive (gw s) (input_file th))
      as [ms|]; norm_events; [|split; [count_outcomes | reflexivity]].
    destruct (is_fault e OpenOutput); norm_events; [split; [count_outcomes | reflexivity]|].
    destruct (written_before_fault e _ dx); norm_events; (split; [count_outcomes | reflexivity]).
Qed.

Ltac norm_body :=
  cbn -[str join sorted filter forallb open_archive path_eqb reassemble_and_save
        patch_system_app_ops_helper patch_mock_location_provider remove_debug_lines];
  rewrite <- ?app_assoc;
  cbn -[str join sorted filter forallb open_archive path_eqb reassemble_and_save
        patch_system_app_ops_helper patch_mock_location_provider remove_debug_lines].

(** The [try] block on an archive that opens: the working directories are
    as before, and one outcome signal is emitted, unless the extraction of a
    member raises. *)
Lemma run_body_outcome (e : genv) (th : gthread) (s : gstate) (ms : list member) :
  open_archive (gw s) (input_file th) = Some ms ->
  tmp_dirs (gw (fst (run_body e th s))) = tmp_dirs (gw s)
  /\ outcomes (events (fst (run_body e th s))) <= S (outcomes (events s))
  /\ (forallb (extract_ok e) (sorted (filter is_dex_name (map fst ms))) = true ->
      outcomes (events (fst (run_body e th s))) = S (outcomes (events s))).
Proof.
  intro Ho.
  unfold run_body, read_archive, check_cancel, fail_with, return_, raise, bind, emit, ret,
    get_world.
  norm_body. rewrite Ho.
  destruct (sorted (filter is_dex_name (map fst ms))) as [|d ds].
  { norm_body. repeat split; try intros _; count_outcomes. }
  norm_body.
  destruct (cancel_at e 1); norm_body; [repeat split; try intros _; count_outcomes|].
  rewrite Ho. norm_body.
  destruct (forallb (extract_ok e) (d :: ds)); norm_body;
    [|repeat split; [count_outcomes | discriminate]].
  destruct (forallb (decompile_ok e) (d :: ds)); norm_body;
    [|repeat split; try intros _; count_outcomes].
  destruct (cancel_at e 2); norm_body; [repeat split; try intros _; count_outcomes|].
  destruct (cancel_at e 3); norm_body; [repeat split; try intros _; count_outcomes|].
  destruct (patch_system_app_ops_helper (host_windows e)
              (remove_debug_lines (host_windows e) (decompiled e))) as [p1 t1].
  norm_body.
  destruct (patch_mock_location_provider (host_windows e) t1) as [p2 t2].
  norm_body.
  destruct (cancel_at e 4); norm_body; [repeat split; try intros _; count_outcomes|].
  destruct (negb p1 && negb p2); norm_body; [repeat split; try intros _; count_outcomes|].
  match goal with
  | |- context [reassemble_and_save e th t2 ?s0] =>
      destruct (reassemble_and_save_outcome e th t2 s0) as [H1 H2];
      destruct (reassemble_and_save e th t2 s0) as [s3 r] eqn:Hr
  end.
  cbn [fst] in *. rewrite H1, H2. cbn [events gw].
  destruct r; cbn [fst]; (repeat split; try intros _; count_outcomes).
Qed.

Lemma run_body_unreadable (e : genv) (th : gthread) (s : gstate) :
  open_archive (gw s) (input_file th) = None -> run_body e th s = (s, Raise).
Proof.
  intro Ho. unfold run_body, read_archive, bind, get_world. cbn -[open_archive].
  rewrite Ho. reflexivity.
Qed.

(** X10: A run whose input archive opens, and from which every dex member
    can be extracted, ends with one signal for its listeners: one
    [patch_finished] or one [cancelled], never both and never two. *)
Theorem run_reports_once (e : genv) (th : gthread) (w : gworld) (ms : list member) :
  open_archive w (input_file th) = Some ms ->
  forallb (extract_ok e) (sorted (filter is_dex_name (map fst ms))) = true ->
  outcomes (events (run e th w)) = 1.
Proof.
  intros Hopen Hext. unfold run.
  destruct (negb (baksmali_exists e) || negb (smali_exists e)); [reflexivity|].
  unfold check_cancel. destruct (cancel_at e 0); [reflexivity|].
  cbn -[run_body str path_eqb filter].
  match goal with
  | |- context [run_body e th ?s0] =>
      destruct (run_body_outcome e th s0 ms Hopen) as [_ [_ H1]];
      destruct (run_body e th s0) as [s3 r]
  end.
  cbn [fst events] in *. rewrite outcomes_app, (H1 Hext). reflexivity.
Qed.

(** X28: When the tools exist, no cancellation is seen before the extraction and
    [zin.extract] raises for a dex member of an archive that opens, the
    exception leaves [run]: after the list of the dex files and the progress
    value 10 only the clean-up is logged; neither [patch_finished] nor
    [cancelled] is emitted, and no file is changed. *)
Theorem corrupt_member_is_silent (e : genv) (th : gthread) (w : gworld) (ms : list member) :
  baksmali_exists e = true -> smali_exists e = true ->
  cancel_at e 0 = false -> cancel_at e 1 = false ->
  open_archive w (input_file th) = Some ms ->
  sorted (filter is_dex_name (map fst ms)) <> [] ->
  forallb (extract_ok e) (sorted (filter is_dex_name (map fst ms))) = false ->
  events (run e th w)
  = [Progress 5;
     GLog (str "found: " ++ join (str ", ") (sorted (filter is_dex_name (map fst ms))));
     Progress 10; GLog (str "cleaning up")]
  /\ outcomes (events (run e th w)) = 0
  /\ gfiles (gw (run e th w)) = gfiles w.
Proof.
  intros Hb Hs H0 H1 Hopen Hdex Hext.
  assert (E : run e th w
              = mkgstate [Progress 5;
                          GLog (str "found: "
                                ++ join (str ", ") (sorted (filter is_dex_name (map fst ms))));
                          Progress 10; GLog (str "cleaning up")]
                  (mkgworld (gfiles w)
                     (filter (fun d => negb (path_eqb d (temp_dir e)))
                        (temp_dir e :: tmp_dirs w)))).
  { unfold run. rewrite Hb, Hs. cbn [negb orb].
    unfold check_cancel at 1. rewrite H0. unfold ret at 1.
    unfold run_body, read_archive, check_cancel, fail_with, return_, raise, bind, emit, ret,
      get_world.
    norm_body. rewrite open_archive_tmp, Hopen.
    destruct (sorted (filter is_dex_name (map fst ms))) as [|d ds]; [congruence|].
    norm_body. rewrite H1. norm_body. rewrite open_archive_tmp, Hopen. norm_body.
    rewrite Hext. norm_body. reflexivity. }
  rewrite E. repeat split.
Qed.

(** X11: When the tools exist, no cancellation is pending and the input cannot be
    read as an archive, the exception leaves [run]: the working directory is
    removed, no file is written, and neither [patch_finished] nor [cancelled]
    is emitted. *)
Theorem unreadable_input_is_silent (e : genv) (th : gthread) (w : gworld) :
  baksmali_exists e = true -> smali_exists e = true -> cancel_at e 0 = false ->
  open_archive w (input_file th) = None ->
  events (run e th w) = [Progress 5; GLog (str "cleaning up")]
  /\ outcomes (events (run e th w)) = 0
  /\ gfiles (gw (run e th w)) = gfiles w.
Proof.
  intros Hb Hs H0 Ho. unfold run. rewrite Hb, Hs. cbn [negb orb].
  unfold check_cancel. rewrite H0. unfold ret.
  cbn -[run_body str path_eqb filter].
  rewrite run_body_unreadable by (cbn [gw]; rewrite open_archive_tmp; exact Ho).
  cbn -[str path_eqb filter]. repeat split.
Qed.

(** X12: The working directory of a run is gone when the run ends, however it
    ends; the other working directories are as they were. *)
Theorem working_dir_removed (e : genv) (th : gthread) (w : gworld) :
  ~ In (temp_dir e) (tmp_dirs w) ->
  tmp_dirs (gw (run e th w)) = tmp_dirs w.
Proof.
  intro Hfresh.
  assert (Hf : filter (fun d => negb (path_eqb d (temp_dir e))) (temp_dir e :: tmp_dirs w)
               = tmp_dirs w).
  { cbn [filter]. rewrite path_eqb_refl. cbn [negb].
    apply filter_all. intros d Hd. apply negb_true_iff, path_eqb_neq. congruence. }
  unfold run.
  destruct (negb (baksmali_exists e) || negb (smali_exists e)); [reflexivity|].
  unfold check_cancel. destruct (cancel_at e 0); [reflexivity|].
  cbn -[run_body str path_eqb filter].
  destruct (open_archive w (input_file th)) as [ms|] eqn:Ho.
  - match goal with
    | |- context [run_body e th ?s0] =>
        destruct (run_body_outcome e th s0 ms) as [H2 _];
        [cbn [gw]; rewrite open_archive_tmp; exact Ho|];
        destruct (run_body e th s0) as [s3 r]
    end.
    cbn [fst gw tmp_dirs] in *. rewrite H2. exact Hf.
  - rewrite run_body_unreadable by (cbn [gw]; rewrite open_archive_tmp; exact Ho).
    cbn [gw tmp_dirs]. exact Hf.
Qed.

Ltac saved_nothing :=
  eexists; split; [reflexivity|]; right; split; [reflexivity|];
  let Hov := fresh "Hov" in let p := fresh "p" in let Hp := fresh "Hp" in
  intros Hov p Hp; try discriminate Hov;
  cbn -[str path_eqb]; rewrite ?(path_eqb_neq _ _ Hp); reflexivity.

Lemma reassemble_and_save_saved (e : genv) (th : gthread) (t2 : tree) (s : gstate) :
  save_post e th t2 s (fst (reassemble_and_save e th t2 s)).
Proof.
  unfold save_post, output_path_of, non_dex.
  unfold reassemble_and_save, save_overwrite, save_side, overwrite_handler, side_handler,
    check_cancel, fail_with, return_, bind, emit, ret, get_world, put_world.
  norm_events.
  destruct (recompile_all e t2 (sorted (map dname (filter is_smali_dir t2))) []) as [dx|];
    norm_events; [|saved_nothing].
  destruct (cancel_at e 5); norm_events; [saved_nothing|].
  destruct (overwrite_original th) eqn:Hmode; norm_events.
  - destruct (is_fault e OpenInput); norm_events.
    { destruct (gfiles (gw s) (input_file th ++ str ".tmp")); norm_events; saved_nothing. }
    destruct (open_archive (gw s) (input_file th)) as [ms|] eqn:Ho; norm_events.
    + destruct (is_fault e OpenOutput); norm_events.
      * destruct (gfiles (gw s) (input_file th ++ str ".tmp")); norm_events; saved_nothing.
      * destruct (written_before_fault e _ dx); norm_events.
        -- rewrite path_eqb_refl. norm_events. saved_nothing.
        -- destruct (is_fault e MoveIntoPlace); norm_events;
             rewrite ?path_eqb_refl; norm_events; [saved_nothing|].
           eexists; split; [reflexivity|]. left. split; [reflexivity|].
           exists ms, dx.
           repeat split; try (cbn -[str path_eqb filter]; now rewrite path_eqb_refl).
    + destruct (gfiles (gw s) (input_file th ++ str ".tmp")); norm_events; saved_nothing.
  - destruct (is_fault e OpenInput); norm_events; [saved_nothing|].
    destruct (open_archive (gw s) (input_file th)) as [ms|] eqn:Ho; norm_events;
      [|saved_nothing].
    destruct (is_fault e OpenOutput); norm_events; [saved_nothing|].
    destruct (written_before_fault e _ dx); norm_events; [saved_nothing|].
    eexists; split; [reflexivity|]. left. split; [reflexivity|].
    exists ms, dx.
    repeat split; try (cbn -[str path_eqb filter path_join]; now rewrite path_eqb_refl).
Qed.

Lemma save_post_extend (e : genv) (th : gthread) (t2 : tree) (s s0 s' : gstate)
    (pre : list gevent) :
  events s0 = events s ++ pre -> existsb is_success pre = false -> gw s0 = gw s ->
  save_post e th t2 s0 s' -> save_post e th t2 s s'.
Proof.
  intros He Hp Hw [evs [E H]]. exists (pre ++ evs). split.
  - rewrite E, He. now rewrite app_assoc.
  - rewrite existsb_app, Hp, Hw in *. exact H.
Qed.

Ltac early_exit :=
  eexists; split; [reflexivity|]; right; split; [reflexivity|]; intros _ ? _; reflexivity.

Lemma run_body_saved (e : genv) (th : gthread) (s : gstate) :
  save_post e th (patched_tree e) s (fst (run_body e th s)).
Proof.
  unfold patched_tree.
  destruct (open_archive (gw s) (input_file th)) as [ms|] eqn:Ho.
  2:{ rewrite run_body_unreadable by exact Ho. exists []. split; [now rewrite app_nil_r|].
      right. split; [reflexivity|]. intros _ p _. reflexivity. }
  unfold run_body, read_archive, check_cancel, fail_with, return_, raise, bind, emit, ret,
    get_world.
  norm_body. rewrite Ho.
  destruct (sorted (filter is_dex_name (map fst ms))) as [|d ds].
  { norm_body. early_exit. }
  norm_body.
  destruct (cancel_at e 1); norm_body; [early_exit|].
  rewrite Ho. norm_body.
  destruct (forallb (extract_ok e) (d :: ds)); norm_body; [|early_exit].
  destruct (forallb (decompile_ok e) (d :: ds)); norm_body; [|early_exit].
  destruct (cancel_at e 2); norm_body; [early_exit|].
  destruct (cancel_at e 3); norm_body; [early_exit|].
  destruct (patch_system_app_ops_helper (host_windows e)
              (remove_debug_lines (host_windows e) (decompiled e))) as [p1 t1].
  norm_body.
  destruct (patch_mock_location_provider (host_windows e) t1) as [p2 t2].
  norm_body.
  destruct (cancel_at e 4); norm_body; [early_exit|].
  destruct (negb p1 && negb p2); norm_body; [early_exit|].
  match goal with
  | |- context [reassemble_and_save e th t2 ?s0] =>
      pose proof (reassemble_and_save_saved e th t2 s0) as H;
      destruct (reassemble_and_save e th t2 s0) as [s3 r]
  end.
  cbn [fst] in H.
  assert (Hs3 : save_post e th t2 s s3).
  { eapply save_post_extend; [| | | exact H]; cbn [events gw]; reflexivity. }
  destruct r; cbn [fst]; exact Hs3.
Qed.

(** X13: A run that reports success has saved the archive: the output file holds
    the members of the input that are no dex files, as they were and in their
    order, followed by the dex files reassembled from the patched working
    directory. *)
Theorem success_means_saved (e : genv) (th : gthread) (w : gworld) :
  existsb is_success (events (run e th w)) = true ->
  exists ms dexes,
    open_archive w (input_file th) = Some ms
    /\ recompile_all e (patched_tree e)
         (sorted (map dname (filter is_smali_dir (patched_tree e)))) [] = Some dexes
    /\ gfiles (gw (run e th w)) (output_path_of e th) = Some (Archive (non_dex ms ++ dexes)).
Proof.
  unfold run.
  destruct (negb (baksmali_exists e) || negb (smali_exists e)); [discriminate|].
  unfold check_cancel. destruct (cancel_at e 0); [discriminate|].
  cbn -[run_body str path_eqb filter existsb].
  match goal with
  | |- context [run_body e th ?s0] =>
      pose proof (run_body_saved e th s0) as H;
      destruct (run_body e th s0) as [s3 r]
  end.
  unfold save_post in H. cbn [fst events gw gfiles] in *.
  destruct H as [evs [E H]]. rewrite E.
  rewrite !existsb_app. cbn [existsb is_success orb]. rewrite orb_false_r.
  intro Hs. destruct H as [[_ [ms [dexes [H1 [H2 H3]]]]] | [Hn _]]; [|congruence].
  exists ms, dexes. rewrite open_archive_tmp in H1. auto.
Qed.

Lemma run_reports_once_witness :
  outcomes (events (run env_mock_only jar_thread jar_world)) = 1.
Proof.
  apply (run_reports_once env_mock_only jar_thread jar_world jar_members); reflexivity.
Defined.

Lemma corrupt_member_is_silent_witness :
  events (run env_corrupt_member jar_thread jar_world)
  = [Progress 5;
     GLog (str "found: "
           ++ join (str ", ") (sorted (filter is_dex_name (map fst jar_members))));
     Progress 10; GLog (str "cleaning up")]
  /\ outcomes (events (run env_corrupt_member jar_thread jar_world)) = 0
  /\ gfiles (gw (run env_corrupt_member jar_thread jar_world)) = gfiles jar_world.
Proof.
  apply (corrupt_member_is_silent env_corrupt_member jar_thread jar_world jar_members);
    try reflexivity.
  vm_compute. discriminate.
Defined.

Lemma unreadable_input_is_silent_witness :
  events (run env_mock_only (mkgthread (str "/work/missing.jar") (str "/work/Patched") true)
            jar_world)
  = [Progress 5; GLog (str "cleaning up")]
  /\ outcomes (events (run env_mock_only
                         (mkgthread (str "/work/missing.jar") (str "/work/Patched") true)
                         jar_world)) = 0
  /\ gfiles (gw (run env_mock_only
                   (mkgthread (str "/work/missing.jar") (str "/work/Patched") true)
                   jar_world)) = gfiles jar_world.
Proof.
  apply (unreadable_input_is_silent env_mock_only
           (mkgthread (str "/work/missing.jar") (str "/work/Patched") true) jar_world);
    reflexivity.
Defined.

Lemma working_dir_removed_witness :
  tmp_dirs (gw (run env_mock_only jar_thread jar_world)) = tmp_dirs jar_world.
Proof. apply (working_dir_removed env_mock_only jar_thread jar_world). intros []. Defined.

Lemma success_means_saved_witness :
  exists ms dexes,
    open_archive jar_world (input_file jar_thread) = Some ms
    /\ recompile_all env_mock_only (patched_tree env_mock_only)
         (sorted (map dname (filter is_smali_dir (patched_tree env_mock_only)))) []
       = Some dexes
    /\ gfiles (gw (run env_mock_only jar_thread jar_world))
         (output_path_of env_mock_only jar_thread)
       = Some (Archive (non_dex ms ++ dexes)).
Proof. apply (success_means_saved env_mock_only jar_thread jar_world). vm_compute. reflexivity. Defined.

(** ** Names of the dex files *)

Lemma match_at_lit w p t : match_at (Lit w) p (w ++ t) = Some (mkmatch w []).
Proof.
  unfold match_at. rewrite m_lit_app.
  rewrite (consumed_eq _ _ w); reflexivity.
Qed.

Lemma match_at_lit_none w p t : starts_with w t = false -> match_at (Lit w) p t = None.
Proof. intro H. unfold match_at. now rewrite m_lit_fail. Qed.

Lemma lit_lang w x : lang (Lit w) x -> occurs w x = true.
Proof.
  simpl. intros ->. rewrite <- (app_nil_r w) at 2.
  apply occurs_start, starts_with_refl.
Qed.

Lemma starts_with_incl w : forall t, starts_with w t = true -> incl w t.
Proof.
  induction w as [|a w IH]; intros t H; [intros c []|].
  destruct t as [|b t]; [discriminate|]. cbn [starts_with] in H.
  apply andb_true_iff in H. destruct H as [E H]. apply Ascii.eqb_eq in E. subst b.
  intros c [<-|Hc]; [now left | right; now apply (IH t H)].
Qed.

Lemma occurs_incl w t : occurs w t = true -> incl w t.
Proof.
  induction t as [|b t IH]; intro H.
  - destruct w; [intros c []|]. discriminate H.
  - apply occurs_cons_inv in H. destruct H as [H|H].
    + now apply starts_with_incl.
    + intros c Hc. right. now apply (IH H).
Qed.

Lemma occurs_without c w t : In c w -> ~ In c t -> occurs w t = false.
Proof.
  intros Hw Ht. destruct (occurs w t) eqn:E; [|reflexivity].
  exfalso. apply Ht. exact (occurs_incl w t E c Hw).
Qed.

(** [t.replace(old, new)] when [old] is at the end and nowhere before. *)
Lemma replace_suffix c0 old' new t :
  ~ In c0 t -> replace (c0 :: old') new (t ++ c0 :: old') = t ++ new.
Proof.
  intro H. unfold replace, sub, subn.
  rewrite subn_from_no_match.
  - rewrite (subn_from_hit_all (Lit (c0 :: old')) (fun _ => new) _ c0 old'
               (mkmatch (c0 :: old') [])).
    + reflexivity.
    + rewrite <- (app_nil_r (c0 :: old')) at 2. apply match_at_lit.
    + reflexivity.
    + apply match_at_lit_none. reflexivity.
  - intros u c v E. apply match_at_lit_none. cbn [starts_with].
    destruct (Ascii.eqb c0 c) eqn:Ec; [|reflexivity].
    apply Ascii.eqb_eq in Ec. subst c. exfalso. apply H. rewrite E.
    apply in_or_app. right. now left.
Qed.

(** [t.replace(old, new)] when [old] is at the start and nowhere after. *)
Lemma replace_prefix c0 old' new t :
  occurs (c0 :: old') t = false -> replace (c0 :: old') new ((c0 :: old') ++ t) = new ++ t.
Proof.
  intro H. unfold replace, sub, subn. cbn [app].
  rewrite (subn_from_hit (Lit (c0 :: old')) (fun _ => new) None c0 (old' ++ t)
             (mkmatch (c0 :: old') []) old' t).
  - rewrite (subn_from_without_literal (Lit (c0 :: old')) (fun _ => new) (c0 :: old') _ t
               (lit_lang (c0 :: old')) H).
    reflexivity.
  - exact (match_at_lit (c0 :: old') None t).
  - reflexivity.
  - reflexivity.
Qed.

Lemma longer_neq (a b : text) : length a <> length b -> path_eqb a b = false.
Proof. intro H. apply path_eqb_neq. intro E. apply H. now rewrite E. Qed.

(** X15: The reassembly gives each dex file the name it had in the archive: the
    directory name the disassembly derives from [classes<x>.dex] leads back
    to that name. *)
Theorem dex_name_round_trip (x : text) :
  ~ In "."%char x -> ~ In "_"%char x ->
  dex_name_of (smali_dir_name_of (str "classes" ++ x ++ str ".dex"))
  = str "classes" ++ x ++ str ".dex".
Proof.
  intros Hdot Hus. unfold smali_dir_name_of.
  destruct x as [|c x]; [reflexivity|].
  rewrite longer_neq by (unfold str; cbn [list_ascii_of_string app length]; rewrite ?length_app; cbn [length]; lia).
  assert (Hcx : ~ In "."%char (str "classes" ++ c :: x)).
  { apply not_in_app; [apply not_in_str; reflexivity | exact Hdot]. }
  rewrite app_assoc.
  change (str ".dex") with ("."%char :: str "dex") at 1 2.
  rewrite (replace_suffix "."%char (str "dex") [] _ Hcx). rewrite app_nil_r.
  unfold dex_name_of.
  rewrite longer_neq by (unfold str; cbn [list_ascii_of_string app length]; rewrite ?length_app; cbn [length]; lia).
  change (str "smali_") with ("s"%char :: str "mali_").
  rewrite replace_prefix.
  - cbn [app]. now rewrite <- app_assoc.
  - apply (occurs_without "_"%char); [do 5 right; left; reflexivity|].
    apply not_in_app; [apply not_in_str; reflexivity | exact Hus].
Qed.

Lemma dex_name_round_trip_witness :
  dex_name_of (smali_dir_name_of (str "classes" ++ str "2" ++ str ".dex"))
  = str "classes" ++ str "2" ++ str ".dex".
Proof.
  apply (dex_name_round_trip (str "2")); intros [H|[]]; discriminate H.
Defined.

(** ** The permission pass *)

Lemma set_perms_effect os th p d w :
  forallb is_plog (fst (fst (_set_perms os th p d w))) = true
  /\ files (snd (fst (_set_perms os th p d w))) = files w.
Proof.
  unfold _set_perms. destruct (cwd_relpath os p); [|split; reflexivity].
  destruct (is_windows th); [split; reflexivity|].
  destruct (chmod_ok os p); [|split; reflexivity].
  destruct (chown_ok os p); split; reflexivity.
Qed.

Lemma sweep_effect os th dirs : forall success w,
  forallb is_plog (fst (fst (sweep os th dirs success w))) = true
  /\ files (snd (fst (sweep os th dirs success w))) = files w.
Proof.
  induction dirs as [|d dirs IH]; intros success w; [split; reflexivity|].
  cbn [sweep]. destruct (set_perms_effect os th d true w) as [H1 H2].
  destruct (_set_perms os th d true w) as [[ev w1] [ok|]]; cbn [fst snd] in *.
  - destruct (IH (success && ok) w1) as [H3 H4].
    destruct (sweep os th dirs (success && ok) w1) as [[ev' w2] s]. cbn [fst snd] in *.
    rewrite forallb_app, H1, H3, H4, H2. split; reflexivity.
  - rewrite forallb_app, H1, H2. split; reflexivity.
Qed.

Lemma plog_no_task l : forallb is_plog l = true -> filter is_task_finished l = [].
Proof.
  induction l as [|e l IH]; [reflexivity|]. cbn [forallb filter]. intro H.
  apply andb_true_iff in H. destruct H as [He Hl]. destruct e; try discriminate He.
  cbn [is_task_finished]. now apply IH.
Qed.

Lemma plog_no_failure l : forallb is_plog l = true -> existsb is_failed_task l = false.
Proof.
  induction l as [|e l IH]; [reflexivity|]. cbn [forallb existsb]. intro H.
  apply andb_true_iff in H. destruct H as [He Hl]. destruct e; try discriminate He.
  cbn [is_failed_task orb]. now apply IH.
Qed.

Lemma plog_no_update l : forallb is_plog l = true -> existsb is_script_update l = false.
Proof.
  induction l as [|e l IH]; [reflexivity|]. cbn [forallb existsb]. intro H.
  apply andb_true_iff in H. destruct H as [He Hl]. destruct e; try discriminate He.
  cbn [is_script_update orb]. now apply IH.
Qed.

Lemma finish_run_effect os th success md w :
  length (filter is_task_finished (fst (finish_run os th success md w))) = 1
  /\ existsb is_failed_task (fst (finish_run os th success md w)) = negb success
  /\ (success = false ->
      snd (finish_run os th success md w) = w
      /\ existsb is_script_update (fst (finish_run os th success md w)) = false).
Proof.
  unfold finish_run. destruct (truthy (rom_root_opt th)) as [rr|].
  - destruct (success && update_script th && negb (is_windows th)) eqn:E.
    + destruct (update_updater_script _ _ _ _ _ _ _) as [r f']. cbn [fst snd].
      destruct success; [|discriminate E]. repeat split; discriminate.
    + destruct success; repeat split; discriminate.
  - destruct success; repeat split; discriminate.
Qed.

Lemma hello_logs os th :
  forallb is_plog
    (PLog (str "--- set permissions: " ++ os_basename os (target th))
     :: (if is_windows th then [PLog (str "Windows mode: log only")] else [])) = true.
Proof. destruct (is_windows th); reflexivity. Qed.

(** X16: A run whose target path has a path relative to the working directory
    emits [task_finished] exactly once. *)
Theorem task_finished_once (os : perm_os) (th : perm_thread) (w : world) :
  cwd_relpath os (target th) <> None ->
  length (filter is_task_finished (fst (perm_run os th w))) = 1.
Proof.
  intro Hrel. unfold perm_run. pose proof (hello_logs os th) as Hh.
  set (hello := PLog _ :: _) in *.
  assert (Hset : forall d, snd (_set_perms os th (target th) d w) <> None).
  { intro d. unfold _set_perms. destruct (cwd_relpath os (target th)); [|congruence].
    destruct (is_windows th); [discriminate|].
    destruct (chmod_ok os (target th)); [|discriminate].
    destruct (chown_ok os (target th)); discriminate. }
  destruct (path_eqb (action_type th) (str "apk")).
  - pose proof (Hset false) as Hs.
    destruct (set_perms_effect os th (target th) false w) as [H1 _].
    destruct (_set_perms os th (target th) false w) as [[ev w1] [success|]];
      [|cbn [snd] in Hs; congruence].
    destruct (finish_run_effect os th success (str "644") w1) as [F _].
    destruct (finish_run os th success (str "644") w1) as [ev' w2]. cbn [fst snd] in *.
    rewrite !filter_app, (plog_no_task _ Hh), (plog_no_task _ H1). exact F.
  - destruct (path_eqb (action_type th) (str "dir")).
    + pose proof (Hset true) as Hs.
      destruct (set_perms_effect os th (target th) true w) as [H1 _].
      destruct (_set_perms os th (target th) true w) as [[ev w1] [[|]|]];
        [| |cbn [snd] in Hs; congruence]; cbn [fst snd] in *.
      * destruct (recursive th).
        -- destruct (sweep_effect os th (walk_dirs os (target th)) true w1) as [S1 _].
           destruct (sweep os th (walk_dirs os (target th)) true w1) as [[ev1 w2] success].
           destruct (finish_run_effect os th success (str "755") w2) as [F _].
           destruct (finish_run os th success (str "755") w2) as [ev2 w3]. cbn [fst snd] in *.
           rewrite !filter_app, (plog_no_task _ Hh), (plog_no_task _ H1), (plog_no_task _ S1).
           exact F.
        -- destruct (finish_run_effect os th true (str "755") w1) as [F _].
           destruct (finish_run os th true (str "755") w1) as [ev2 w3]. cbn [fst snd] in *.
           rewrite !filter_app, (plog_no_task _ Hh), (plog_no_task _ H1). exact F.
      * rewrite !filter_app, (plog_no_task _ Hh), (plog_no_task _ H1). reflexivity.
    + destruct (finish_run_effect os th true [] w) as [F _].
      destruct (finish_run os th true [] w) as [ev2 w3]. cbn [fst snd] in *.
      rewrite !filter_app, (plog_no_task _ Hh). exact F.
Qed.

Lemma failed_task_in l : In (TaskFinished false) l -> existsb is_failed_task l = true.
Proof.
  intro H. apply existsb_exists. exists (TaskFinished false). split; [exact H | reflexivity].
Qed.

(** X17: The updater-script hook runs only after a pass without failure: a run
    that reports [task_finished(False)] leaves every file content as it was
    and emits no result of a script update. *)
Theorem failed_pass_skips_script (os : perm_os) (th : perm_thread) (w : world) :
  In (TaskFinished false) (fst (perm_run os th w)) ->
  files (snd (perm_run os th w)) = files w
  /\ existsb is_script_update (fst (perm_run os th w)) = false.
Proof.
  intro Hin. apply failed_task_in in Hin. revert Hin.
  unfold perm_run. pose proof (hello_logs os th) as Hh.
  set (hello := PLog _ :: _) in *.
  destruct (path_eqb (action_type th) (str "apk")).
  - destruct (set_perms_effect os th (target th) false w) as [H1 H2].
    destruct (_set_perms os th (target th) false w) as [[ev w1] [success|]]; cbn [fst snd] in *.
    + destruct (finish_run_effect os th success (str "644") w1) as [_ [F1 F2]].
      destruct (finish_run os th success (str "644") w1) as [ev' w2]. cbn [fst snd] in *.
      rewrite !existsb_app, (plog_no_failure _ Hh), (plog_no_failure _ H1), F1.
      rewrite (plog_no_update _ Hh), (plog_no_update _ H1).
      destruct success; [discriminate|]. intros _.
      destruct (F2 eq_refl) as [-> ->]. auto.
    + rewrite !existsb_app, (plog_no_failure _ Hh), (plog_no_failure _ H1). discriminate.
  - destruct (path_eqb (action_type th) (str "dir")).
    + destruct (set_perms_effect os th (target th) true w) as [H1 H2].
      destruct (_set_perms os th (target th) true w) as [[ev w1] [[|]|]]; cbn [fst snd] in *.
      * destruct (recursive th).
        -- destruct (sweep_effect os th (walk_dirs os (target th)) true w1) as [S1 S2].
           destruct (sweep os th (walk_dirs os (target th)) true w1) as [[ev1 w2] success].
           destruct (finish_run_effect os th success (str "755") w2) as [_ [F1 F2]].
           destruct (finish_run os th success (str "755") w2) as [ev2 w3]. cbn [fst snd] in *.
           rewrite !existsb_app, (plog_no_failure _ Hh), (plog_no_failure _ H1),
             (plog_no_failure _ S1), F1.
           rewrite (plog_no_update _ Hh), (plog_no_update _ H1), (plog_no_update _ S1).
           destruct success; [discriminate|]. intros _.
           destruct (F2 eq_refl) as [-> ->]. rewrite S2, H2. auto.
        -- destruct (finish_run_effect os th true (str "755") w1) as [_ [F1 _]].
           destruct (finish_run os th true (str "755") w1) as [ev2 w3]. cbn [fst snd] in *.
           rewrite !existsb_app, (plog_no_failure _ Hh), (plog_no_failure _ H1), F1.
           discriminate.
      * intros _. rewrite !existsb_app, (plog_no_update _ Hh), (plog_no_update _ H1).
        auto.
      * rewrite !existsb_app, (plog_no_failure _ Hh), (plog_no_failure _ H1). discriminate.
    + destruct (finish_run_effect os th true [] w) as [_ [F1 _]].
      destruct (finish_run os th true [] w) as [ev2 w3]. cbn [fst snd] in *.
      rewrite !existsb_app, (plog_no_failure _ Hh), F1. discriminate.
Qed.

Lemma set_perms_metas os th p d w :
  is_windows th = false -> cwd_relpath os p <> None ->
  metas (snd (fst (_set_perms os th p d w))) = apply_perm os d p (metas w)
  /\ snd (_set_perms os th p d w) = Some (chmod_ok os p && chown_ok os p).
Proof.
  intros Hw Hrel. unfold _set_perms, apply_perm.
  destruct (cwd_relpath os p); [|congruence]. rewrite Hw.
  destruct (chmod_ok os p); [|split; reflexivity].
  destruct (chown_ok os p); split; reflexivity.
Qed.

Lemma sweep_metas os th dirs :
  is_windows th = false -> (forall d, In d dirs -> cwd_relpath os d <> None) ->
  forall success w,
    metas (snd (fst (sweep os th dirs success w)))
    = fold_left (fun mt d => apply_perm os true d mt) dirs (metas w)
    /\ snd (sweep os th dirs success w)
       = success && forallb (fun d => chmod_ok os d && chown_ok os d) dirs.
Proof.
  intros Hw. induction dirs as [|d dirs IH]; intros Hrel success w.
  - cbn [sweep fold_left forallb fst snd]. now rewrite andb_true_r.
  - cbn [sweep fold_left forallb].
    destruct (set_perms_metas os th d true w Hw (Hrel d (or_introl eq_refl))) as [H1 H2].
    destruct (_set_perms os th d true w) as [[ev w1] ok]. cbn [fst snd] in *. subst ok.
    destruct (IH (fun d' Hd' => Hrel d' (or_intror Hd'))
                (success && (chmod_ok os d && chown_ok os d)) w1) as [H3 H4].
    destruct (sweep os th dirs _ w1) as [[ev' w2] s]. cbn [fst snd] in *.
    rewrite H3, H4, H1. split; [reflexivity | symmetry; apply andb_assoc].
Qed.

Lemma apply_perm_other os d p mt :
  p <> os_realpath os d -> apply_perm os true d mt p = mt p.
Proof.
  intro H. unfold apply_perm, set_owner, set_mode.
  destruct (chmod_ok os d); [|reflexivity].
  destruct (chown_ok os d); now rewrite (path_eqb_neq _ _ H).
Qed.

Lemma apply_perm_same os d mt :
  chmod_ok os d = true -> chown_ok os d = true -> mt (os_realpath os d) <> None ->
  apply_perm os true d mt (os_realpath os d) = Some (493, 0, 0).
Proof.
  intros H1 H2 H3. unfold apply_perm, set_owner, set_mode. rewrite H1, H2, path_eqb_refl.
  destruct (mt (os_realpath os d)) as [[[md u] g]|]; [reflexivity | congruence].
Qed.

Lemma apply_perm_keeps os d mt p :
  mt p = Some (493, 0, 0) -> apply_perm os true d mt p = Some (493, 0, 0).
Proof.
  intro H. unfold apply_perm, set_owner, set_mode, perm_octal.
  destruct (chmod_ok os d); [|exact H].
  destruct (chown_ok os d); destruct (path_eqb p (os_realpath os d));
    rewrite ?H; try reflexivity; exact H.
Qed.

Lemma apply_perm_exists os d mt p : mt p <> None -> apply_perm os true d mt p <> None.
Proof.
  intro H. unfold apply_perm, set_owner, set_mode.
  destruct (chmod_ok os d); [|exact H].
  destruct (chown_ok os d); destruct (path_eqb p (os_realpath os d));
    destruct (mt p) as [[[md u] g]|]; congruence.
Qed.

Lemma fold_perm_other os dirs : forall mt p,
  (forall d, In d dirs -> os_realpath os d <> p) ->
  fold_left (fun mt d => apply_perm os true d mt) dirs mt p = mt p.
Proof.
  induction dirs as [|d dirs IH]; intros mt p H; [reflexivity|].
  cbn [fold_left]. rewrite IH by (intros d' Hd'; apply H; now right).
  apply apply_perm_other. intro E. apply (H d (or_introl eq_refl)). now symmetry.
Qed.

Lemma fold_perm_keeps os dirs : forall mt p,
  mt p = Some (493, 0, 0) ->
  fold_left (fun mt d => apply_perm os true d mt) dirs mt p = Some (493, 0, 0).
Proof.
  induction dirs as [|d dirs IH]; intros mt p H; [exact H|].
  cbn [fold_left]. apply IH. now apply apply_perm_keeps.
Qed.

Lemma fold_perm_set os dirs : forall mt p d,
  In d dirs -> os_realpath os d = p ->
  chmod_ok os d = true -> chown_ok os d = true -> mt p <> None ->
  fold_left (fun mt d => apply_perm os true d mt) dirs mt p = Some (493, 0, 0).
Proof.
  induction dirs as [|d0 dirs IH]; intros mt p d Hin Hp H1 H2 H3; [destruct Hin|].
  cbn [fold_left]. destruct Hin as [->|Hin].
  - apply fold_perm_keeps. subst p. now apply apply_perm_same.
  - apply (IH _ p d); auto. now apply apply_perm_exists.
Qed.

Lemma finish_run_metas os th success md w :
  metas (snd (finish_run os th success md w)) = metas w
  /\ In (TaskFinished success) (fst (finish_run os th success md w)).
Proof.
  unfold finish_run. destruct (truthy (rom_root_opt th)) as [rr|].
  - destruct (success && update_script th && negb (is_windows th)).
    + destruct (update_updater_script _ _ _ _ _ _ _) as [r f']. cbn [fst snd metas].
      split; [reflexivity | right; now left].
    + split; [reflexivity | right; now left].
  - split; [reflexivity | right; now left].
Qed.

(** X18: The recursive pass on a directory, off Windows.  [os.chmod] and
    [os.chown] act on the node that a walked name resolves to, links followed.
    A node that some walked name resolves to, with both calls taken under that
    name, ends with mode 0755 and owner root:root, also when another directory
    failed before it; a node that no walked name resolves to keeps its mode
    and owner; and the reported result is success exactly when every walked
    directory took both calls. *)
Theorem dir_pass_sets_modes (os : perm_os) (th : perm_thread) (w : world) :
  is_windows th = false -> action_type th = str "dir" -> recursive th = true ->
  (forall d, In d (target th :: walk_dirs os (target th)) -> cwd_relpath os d <> None) ->
  chmod_ok os (target th) = true -> chown_ok os (target th) = true ->
  In (TaskFinished (forallb (fun d => chmod_ok os d && chown_ok os d)
                      (walk_dirs os (target th))))
     (fst (perm_run os th w))
  /\ forall p,
       (forall d, In d (target th :: walk_dirs os (target th)) ->
        os_realpath os d = p ->
        chmod_ok os d = true -> chown_ok os d = true -> metas w p <> None ->
        metas (snd (perm_run os th w)) p = Some (493, 0, 0))
       /\ ((forall d, In d (target th :: walk_dirs os (target th)) -> os_realpath os d <> p) ->
           metas (snd (perm_run os th w)) p = metas w p).
Proof.
  intros Hw Ha Hr Hrel Hc1 Hc2. unfold perm_run. rewrite Ha, Hr.
  change (path_eqb (str "dir") (str "apk")) with false.
  change (path_eqb (str "dir") (str "dir")) with true. cbv iota.
  destruct (set_perms_metas os th (target th) true w Hw (Hrel _ (or_introl eq_refl)))
    as [H1 H2].
  destruct (_set_perms os th (target th) true w) as [[ev w1] ok]. cbn [fst snd] in *.
  subst ok. rewrite Hc1, Hc2. cbn [andb].
  destruct (sweep_metas os th (walk_dirs os (target th)) Hw
              (fun d Hd => Hrel d (or_intror Hd)) true w1) as [S1 S2].
  destruct (sweep os th (walk_dirs os (target th)) true w1) as [[ev1 w2] success].
  cbn [fst snd andb] in *. subst success.
  destruct (finish_run_metas os th
              (forallb (fun d => chmod_ok os d && chown_ok os d) (walk_dirs os (target th)))
              (str "755") w2) as [F1 F2].
  destruct (finish_run os th _ (str "755") w2) as [ev2 w3]. cbn [fst snd] in *.
  split.
  - repeat (apply in_or_app; right). exact F2.
  - intro p. rewrite F1, S1, H1. split.
    + intros d Hin Hp Hp1 Hp2 Hm. destruct Hin as [<-|Hin].
      * apply fold_perm_keeps. subst p. now apply apply_perm_same.
      * apply (fold_perm_set os _ _ p d); auto. now apply apply_perm_exists.
    + intro Hout. rewrite fold_perm_other by (intros d Hd; apply Hout; now right).
      apply apply_perm_other. intro E. apply (Hout (target th) (or_introl eq_refl)).
      now symmetry.
Qed.

Lemma update_success_script relpath isdir basename (io : io_oracle) (entries : list entry)
    (rom_root : path) (f : fs) (orig : text) :
  f (updater_script_path rom_root) = Some orig ->
  fst (fst (collect_items relpath isdir basename entries rom_root [] 0 [])) <> [] ->
  copy_fails io = None -> read_fails io = false -> write_fails io = None ->
  snd (update_updater_script relpath isdir basename io entries rom_root f)
    (updater_script_path rom_root)
  = Some (merge_text (read_text orig)
            (fst (fst (collect_items relpath isdir basename entries rom_root [] 0 [])))).
Proof.
  intros Hf Hit Hc Hr Hw.
  unfold update_updater_script, find_updater_script. rewrite Hf. cbv beta iota zeta.
  destruct (collect_items relpath isdir basename entries rom_root [] 0 [])
    as [[its sk] nts].
  cbn [fst] in *. destruct its as [|it its]; [congruence|].
  rewrite Hc, Hr.
  assert (Hb : fs_write (backup_path_of (updater_script_path rom_root) (timestamp io))
                 (f (updater_script_path rom_root)) f (updater_script_path rom_root)
               = Some orig).
  { unfold fs_write.
    rewrite (path_eqb_neq _ _ (backup_path_fresh (updater_script_path rom_root) (timestamp io))).
    exact Hf. }
  rewrite Hb. unfold merge_text. cbv zeta.
  destruct (ensure_edify_stat_lines (read_text orig) (it :: its)) as [[nt a] u].
  rewrite Hw. cbn [fst snd]. unfold fs_write. now rewrite path_eqb_refl.
Qed.

(** X19: A pass on one path that goes through, with the script update asked for:
    the updater-script then holds the merge of its former content, as text
    mode reads it (every CRLF and every lone CR of the stored file read as
    LF), with one directive for the target; the mode of the directive follows
    the action type (644 for [apk], 755 for [dir]) and its kind follows
    [os.path.isdir]. *)
Theorem pass_writes_directive (os : perm_os) (th : perm_thread) (w : world)
    (rom_root rel : path) (orig : text) :
  is_windows th = false -> update_script th = true ->
  rom_root_opt th = Some rom_root -> rom_root <> [] ->
  action_type th = str "apk" \/ (action_type th = str "dir" /\ recursive th = false) ->
  cwd_relpath os (target th) <> None ->
  chmod_ok os (target th) = true -> chown_ok os (target th) = true ->
  files w (updater_script_path rom_root) = Some orig ->
  os_relpath os (target th) rom_root = Some rel ->
  existsb (path_eqb (first_part rel)) standard_partitions = true ->
  copy_fails (script_io os) = None -> read_fails (script_io os) = false ->
  write_fails (script_io os) = None ->
  files (snd (perm_run os th w)) (updater_script_path rom_root)
  = Some (merge_text (read_text orig)
            [(sep ++ rel, os_isdir os (target th),
              if path_eqb (action_type th) (str "apk") then str "644" else str "755")]).
Proof.
  intros Hw Hu Hrr Hne Hact Hrel Hc1 Hc2 Hf Hrp Hpart Hcp Hrd Hwr.
  assert (Htruthy : truthy (rom_root_opt th) = Some rom_root).
  { rewrite Hrr. destruct rom_root; [congruence | reflexivity]. }
  assert (Hfin : forall md w1, files w1 = files w ->
            replace (str "0o") [] md = md ->
            files (snd (finish_run os th true md w1)) (updater_script_path rom_root)
            = Some (merge_text (read_text orig) [(sep ++ rel, os_isdir os (target th), md)])).
  { intros md w1 Hw1 Hmd. unfold finish_run. rewrite Htruthy, Hu, Hw. cbn [andb negb].
    pose proof (update_success_script (os_relpath os) (os_isdir os) (os_basename os)
                  (script_io os)
                  [mkentry (target th)
                     (if path_eqb (action_type th) (str "dir") then str "dir" else str "file")
                     md]
                  rom_root (files w1) orig) as HU.
    cbn [collect_items path_abs mode_expect] in HU. unfold to_edify_path in HU.
    rewrite Hrp, Hpart, Hmd in HU. cbn [fst app] in HU.
    rewrite <- Hw1 in Hf. specialize (HU Hf).
    destruct (update_updater_script _ _ _ _ _ _ _) as [r f']. cbn [snd files] in *.
    apply HU; auto. discriminate. }
  assert (Hset : forall d, exists ev w1,
            _set_perms os th (target th) d w = (ev, w1, Some true) /\ files w1 = files w).
  { intro d. unfold _set_perms. destruct (cwd_relpath os (target th)); [|congruence].
    rewrite Hw, Hc1, Hc2. eexists _, _. split; reflexivity. }
  unfold perm_run. destruct Hact as [Ha | [Ha Hr]]; rewrite Ha.
  - change (path_eqb (str "apk") (str "apk")) with true. cbv iota.
    destruct (Hset false) as [ev [w1 [-> Hw1]]].
    specialize (Hfin (str "644") w1 Hw1 eq_refl).
    destruct (finish_run os th true (str "644") w1) as [ev' w2]. exact Hfin.
  - change (path_eqb (str "dir") (str "apk")) with false.
    change (path_eqb (str "dir") (str "dir")) with true. cbv iota.
    destruct (Hset true) as [ev [w1 [-> Hw1]]]. rewrite Hr.
    specialize (Hfin (str "755") w1 Hw1 eq_refl).
    destruct (finish_run os th true (str "755") w1) as [ev' w2]. exact Hfin.
Qed.
Lemma task_finished_once_witness :
  length (filter is_task_finished (fst (perm_run posix_os dir_thread rom_world))) = 1.
Proof. apply (task_finished_once posix_os dir_thread rom_world). discriminate. Defined.

Lemma failed_pass_skips_script_witness :
  files (snd (perm_run denied_os apk_thread rom_world)) = files rom_world
  /\ existsb is_script_update (fst (perm_run denied_os apk_thread rom_world)) = false.
Proof.
  apply (failed_pass_skips_script denied_os apk_thread rom_world).
  vm_compute. right. right. right. left. reflexivity.
Defined.

Lemma dir_pass_sets_modes_witness :
  In (TaskFinished (forallb (fun d => chmod_ok linked_os d && chown_ok linked_os d)
                      (walk_dirs linked_os (target dir_thread))))
     (fst (perm_run linked_os dir_thread rom_world))
  /\ forall p,
       (forall d, In d (target dir_thread :: walk_dirs linked_os (target dir_thread)) ->
        os_realpath linked_os d = p ->
        chmod_ok linked_os d = true -> chown_ok linked_os d = true ->
        metas rom_world p <> None ->
        metas (snd (perm_run linked_os dir_thread rom_world)) p = Some (493, 0, 0))
       /\ ((forall d, In d (target dir_thread :: walk_dirs linked_os (target dir_thread)) ->
            os_realpath linked_os d <> p) ->
           metas (snd (perm_run linked_os dir_thread rom_world)) p = metas rom_world p).
Proof.
  apply (dir_pass_sets_modes linked_os dir_thread rom_world); try reflexivity.
  intros d _. discriminate.
Defined.

(** The link of [linked_os] in the walk: the directory it points to, outside
    the target and not among the walked names, is set to 0755 root:root. *)
Lemma link_target_is_changed :
  metas (snd (perm_run linked_os dir_thread rom_world)) (str "/rom/vendor/lib")
  = Some (493, 0, 0)
  /\ metas rom_world (str "/rom/vendor/lib") = Some (448, 1000, 1000)
  /\ ~ In (str "/rom/vendor/lib")
         (target dir_thread :: walk_dirs linked_os (target dir_thread)).
Proof.
  split; [vm_compute; reflexivity|]. split; [reflexivity|].
  intros [H|[H|[H|[]]]]; discriminate H.
Qed.

Lemma pass_writes_directive_witness :
  files (snd (perm_run posix_os apk_thread crlf_world)) (updater_script_path rom)
  = Some (merge_text (read_text crlf_script)
            [(sep ++ str "system/app/x.apk", os_isdir posix_os (target apk_thread),
              if path_eqb (action_type apk_thread) (str "apk") then str "644" else str "755")]).
Proof.
  apply (pass_writes_directive posix_os apk_thread crlf_world rom (str "system/app/x.apk")
           crlf_script); try reflexivity.
  - discriminate.
  - left. reflexivity.
  - discriminate.
Defined.

(** The script of [crlf_world] has carriage returns before the pass and none
    after it. *)
Lemma crlf_script_rewritten :
  existsb (Ascii.eqb cr) crlf_script = true
  /\ match files (snd (perm_run posix_os apk_thread crlf_world)) (updater_script_path rom) with
     | Some t => existsb (Ascii.eqb cr) t = false
     | None => False
     end.
Proof. split; vm_compute; reflexivity. Qed.

(** ** The property file patch *)

Lemma path_eqb_sym a b : path_eqb a b = path_eqb b a.
Proof.
  destruct (path_eqb a b) eqn:E.
  - apply path_eqb_eq in E. subst. symmetry. apply path_eqb_refl.
  - destruct (path_eqb b a) eqn:E2; [|reflexivity].
    apply path_eqb_eq in E2. subst. now rewrite path_eqb_refl in E.
Qed.

Lemma patch_prop_line_eq line f :
  snd (fst (patch_prop_line line f)) = patched_chunk line
  /\ snd (patch_prop_line line f)
     = match hit line with Some k => dict_put k true f | None => f end.
Proof.
  unfold patch_prop_line, patched_chunk, hit, prop_of.
  destruct (is_prop_line (strip line)); [|split; reflexivity].
  destruct (split_eq (strip line)) as [k v].
  destruct (dict_get (strip k) props_to_patch) as [e|]; [|split; reflexivity].
  destruct (path_eqb (strip v) e); split; reflexivity.
Qed.

Lemma patch_prop_lines_eq lines : forall f,
  map snd (fst (patch_prop_lines lines f)) = map patched_chunk lines
  /\ snd (patch_prop_lines lines f)
     = fold_left (fun f l => match hit l with Some k => dict_put k true f | None => f end)
         lines f.
Proof.
  induction lines as [|l lines IH]; intro f; [split; reflexivity|].
  cbn [patch_prop_lines]. destruct (patch_prop_line_eq l f) as [H1 H2].
  destruct (patch_prop_line l f) as [rl f1]. cbn [fst snd] in *.
  destruct (IH f1) as [H3 H4].
  destruct (patch_prop_lines lines f1) as [rls f2]. cbn [fst snd map fold_left] in *.
  rewrite H1, H3, H4, H2. split; reflexivity.
Qed.

Lemma dict_put_map (P : list (text * text)) (g : text -> bool) (k : text) :
  NoDup (map fst P) ->
  dict_put k true (map (fun kv : text * text => (fst kv, g (fst kv))) P)
  = map (fun kv : text * text => (fst kv, g (fst kv) || path_eqb k (fst kv))) P.
Proof.
  induction P as [|[k0 v0] P IH]; intro Hnd; [reflexivity|].
  cbn [map fst dict_put]. inversion Hnd as [|x l Hnotin Hnd']; subst.
  destruct (path_eqb k k0) eqn:E.
  - apply path_eqb_eq in E. subst k0. rewrite orb_true_r. f_equal.
    apply map_ext_in. intros [k1 v1] Hin. cbn [fst].
    rewrite path_eqb_neq; [now rewrite orb_false_r|].
    intro E. subst k1. apply Hnotin. apply in_map_iff. exists (k, v1). auto.
  - rewrite orb_false_r. f_equal. now apply IH.
Qed.

Lemma props_keys_nodup : NoDup (map fst props_to_patch).
Proof.
  unfold props_to_patch. cbn [map fst].
  repeat (constructor; [cbn [In]; intro H;
            repeat (destruct H as [H|H]; [vm_compute in H; discriminate H|]); exact H|]).
  constructor.
Qed.

Lemma found_fold lines : forall g,
  fold_left (fun f l => match hit l with Some k => dict_put k true f | None => f end)
    lines (map (fun kv : text * text => (fst kv, g (fst kv))) props_to_patch)
  = map (fun kv : text * text => (fst kv, g (fst kv) || was_hit (fst kv) lines))
      props_to_patch.
Proof.
  induction lines as [|l lines IH]; intro g.
  - cbn [fold_left]. apply map_ext. intros [k v]. cbn [fst was_hit existsb].
    now rewrite orb_false_r.
  - cbn [fold_left]. destruct (hit l) as [k|] eqn:Hh.
    + rewrite (dict_put_map props_to_patch g k props_keys_nodup).
      rewrite (IH (fun x => g x || path_eqb k x)).
      apply map_ext. intros [k1 v1]. cbn [fst was_hit existsb]. unfold sets_key.
      rewrite Hh. now rewrite orb_assoc.
    + rewrite IH. apply map_ext. intros [k1 v1]. cbn [fst was_hit existsb].
      unfold sets_key. now rewrite Hh.
Qed.

Lemma found_after_eq lines :
  snd (patch_prop_lines lines (map (fun kv : text * text => (fst kv, false)) props_to_patch))
  = found_after lines.
Proof.
  destruct (patch_prop_lines_eq lines
              (map (fun kv : text * text => (fst kv, false)) props_to_patch)) as [_ H].
  rewrite H. exact (found_fold lines (fun _ => false)).
Qed.

Lemma entries_ok : forallb entry_ok props_to_patch = true.
Proof. vm_compute. reflexivity. Qed.

Lemma entry_facts k e :
  In (k, e) props_to_patch ->
  dict_get k props_to_patch = Some e
  /\ prop_of (prop_text k e) = Some (k, e)
  /\ ~ In nl (k ++ [eq_sign] ++ e).
Proof.
  intro Hin. pose proof entries_ok as H. rewrite forallb_forall in H.
  specialize (H (k, e) Hin). unfold entry_ok in H. cbn [fst snd] in H.
  apply andb_true_iff in H. destruct H as [H H3].
  apply andb_true_iff in H. destruct H as [H1 H2].
  repeat split.
  - destruct (dict_get k props_to_patch) as [v|]; [|discriminate].
    apply path_eqb_eq in H1. now subst.
  - destruct (prop_of (prop_text k e)) as [[k' v']|]; [|discriminate].
    apply andb_true_iff in H2. destruct H2 as [Hk Hv].
    apply path_eqb_eq in Hk. apply path_eqb_eq in Hv. now subst.
  - apply negb_true_iff in H3. intro Hn.
    assert (existsb is_nl (k ++ [eq_sign] ++ e) = true).
    { apply existsb_exists. exists nl. split; [exact Hn | reflexivity]. }
    congruence.
Qed.

Lemma dict_get_in {V} k (d : list (text * V)) v : dict_get k d = Some v -> In (k, v) d.
Proof.
  induction d as [|[k' v'] d IH]; [discriminate|]. cbn [dict_get].
  destruct (path_eqb k k') eqn:E.
  - apply path_eqb_eq in E. intro H. injection H as ->. subst. now left.
  - intro H. right. now apply IH.
Qed.

Lemma to_add_gen lines (P : list (text * text)) :
  (forall kv, In kv P -> dict_get (fst kv) props_to_patch = Some (snd kv)) ->
  props_to_add_content (map (fun kv : text * text => (fst kv, was_hit (fst kv) lines)) P)
  = flat_map (fun kv : text * text =>
                if was_hit (fst kv) lines then [] else [prop_text (fst kv) (snd kv)]) P.
Proof.
  induction P as [|[k e] P IH]; intro H; [reflexivity|].
  cbn [map props_to_add_content flat_map fst snd].
  pose proof (H (k, e) (or_introl eq_refl)) as Hk. cbn [fst snd] in Hk. rewrite Hk.
  rewrite IH by (intros kv Hkv; apply H; now right).
  destruct (was_hit k lines); reflexivity.
Qed.

Lemma to_add_eq lines : props_to_add_content (found_after lines) = lines_to_add lines.
Proof.
  apply to_add_gen. intros [k e] Hin. now apply entry_facts.
Qed.

Lemma patch_build_prop_out content :
  fst (patch_build_prop content)
  = concat (map patched_chunk (readlines content)) ++ added_tail (readlines content).
Proof.
  unfold patch_build_prop, added_tail. cbv zeta.
  pose proof (found_after_eq (readlines content)) as Hf.
  destruct (patch_prop_lines_eq (readlines content)
              (map (fun kv : text * text => (fst kv, false)) props_to_patch)) as [Hc _].
  destruct (patch_prop_lines (readlines content) _) as [rls f]. cbn [fst snd] in *.
  subst f. rewrite to_add_eq.
  destruct (lines_to_add (readlines content)) as [|a l] eqn:Ha.
  - cbn [fst]. rewrite app_nil_r. f_equal. exact Hc.
  - cbn [fst]. rewrite !map_app, concat_app. f_equal; [f_equal; exact Hc|].
    rewrite map_map. cbn [snd]. rewrite map_id.
    destruct (is_empty (readlines content) || negb (is_empty (strip (last (readlines content) []))));
      cbn [map snd concat app]; rewrite ?app_nil_r; reflexivity.
Qed.

Lemma readlines_acc_app_closed a : forall cur b,
  readlines_acc cur ((a ++ [nl]) ++ b) = readlines_acc cur (a ++ [nl]) ++ readlines_acc [] b.
Proof.
  induction a as [|c a IH]; intros cur b.
  - cbn [app readlines_acc]. change (is_nl nl) with true. cbn iota. reflexivity.
  - cbn [app readlines_acc]. destruct (is_nl c).
    + cbn [app]. f_equal. apply IH.
    + apply IH.
Qed.

Lemma readlines_app_closed a b : closed a -> readlines (a ++ b) = readlines a ++ readlines b.
Proof.
  intros [->|[a' ->]]; [reflexivity|]. apply readlines_acc_app_closed.
Qed.

Lemma closed_app a b : closed a -> closed b -> closed (a ++ b).
Proof.
  intros Ha [->|[b' ->]]; [now rewrite app_nil_r|].
  right. exists (a ++ b'). now rewrite app_assoc.
Qed.

Lemma closed_concat cs : Forall closed cs -> closed (concat cs).
Proof.
  induction 1 as [|c cs Hc _ IH]; [now left|]. cbn [concat]. now apply closed_app.
Qed.

Lemma terminated_closed l : terminated l -> closed l.
Proof. intros [body [-> _]]. right. now exists body. Qed.

Lemma readlines_terminated l : terminated l -> readlines l = [l].
Proof.
  intros [body [-> H]]. unfold readlines.
  change (body ++ [nl]) with (body ++ nl :: []).
  rewrite readlines_acc_line by exact H. reflexivity.
Qed.

Lemma readlines_unterminated L : L <> [] -> ~ In nl L -> readlines L = [L].
Proof.
  intros Hne H. unfold readlines. rewrite readlines_acc_last by exact H.
  cbn [rev app]. destruct L; [congruence | reflexivity].
Qed.

Lemma readlines_joined L body rest :
  ~ In nl L -> ~ In nl body ->
  readlines (L ++ (body ++ [nl]) ++ rest) = (L ++ body ++ [nl]) :: readlines rest.
Proof.
  intros HL Hb. unfold readlines.
  replace (L ++ (body ++ [nl]) ++ rest) with ((L ++ body) ++ nl :: rest)
    by (rewrite <- !app_assoc; reflexivity).
  rewrite readlines_acc_line by (now apply not_in_app).
  cbn [rev app]. now rewrite <- app_assoc.
Qed.

Lemma in_readlines_concat cs x :
  Forall closed cs ->
  (In x (readlines (concat cs)) <-> exists c, In c cs /\ In x (readlines c)).
Proof.
  induction 1 as [|c cs Hc Hcs IH].
  - split; [intros [] | intros [c [[] _]]].
  - cbn [concat]. rewrite readlines_app_closed by exact Hc. rewrite in_app_iff, IH. split.
    + intros [H|[c' [H1 H2]]]; [exists c; split; [now left | exact H]|].
      exists c'. split; [now right | exact H2].
    + intros [c' [[<-|H1] H2]]; [now left|]. right. now exists c'.
Qed.

Lemma lines_wf_split ls :
  lines_wf ls ->
  exists init lastpart,
    ls = init ++ lastpart /\ Forall terminated init
    /\ (lastpart = [] \/ exists L, lastpart = [L] /\ L <> [] /\ ~ In nl L).
Proof.
  induction ls as [|l ls IH]; intro H.
  - exists [], []. repeat split; auto.
  - destruct H as [[body [-> [Hb Hw]]] | [-> [Hl Hn]]].
    + destruct (IH Hw) as [init [lastpart [-> [Hi Hl]]]].
      exists ((body ++ [nl]) :: init), lastpart. repeat split; auto.
      constructor; [now exists body | exact Hi].
    + exists [], [l]. repeat split; auto. right. now exists l.
Qed.

Lemma header_lines :
  readlines patched_header = [patched_header] /\ settled patched_header = true
  /\ prop_of patched_header = None /\ terminated patched_header.
Proof.
  repeat split; try (vm_compute; reflexivity).
  exists (str "# Patched by tool"). split; [reflexivity|]. apply not_in_str. reflexivity.
Qed.

Lemma prop_text_terminated k e : In (k, e) props_to_patch -> terminated (prop_text k e).
Proof.
  intro Hin. destruct (entry_facts k e Hin) as [_ [_ Hn]].
  exists (k ++ [eq_sign] ++ e). split; [|exact Hn].
  unfold prop_text. now rewrite <- !app_assoc.
Qed.

Lemma prop_text_settled k e : In (k, e) props_to_patch -> settled (prop_text k e) = true.
Proof.
  intro Hin. destruct (entry_facts k e Hin) as [H1 [H2 _]].
  unfold settled. rewrite H2, H1. apply path_eqb_refl.
Qed.

Lemma forallb_false_exists {A} (f : A -> bool) l :
  forallb f l = false -> exists d, In d l /\ f d = false.
Proof.
  induction l as [|a l IH]; [discriminate|]. cbn [forallb]. intro H.
  destruct (f a) eqn:E; [|exists a; split; [now left | exact E]].
  destruct (IH H) as [d [Hd Hf]]. exists d. split; [now right | exact Hf].
Qed.

Lemma lstrip_all_spaces w : forallb is_space w = true -> lstrip w = [].
Proof. intro H. rewrite <- (app_nil_r w). now rewrite lstrip_spaces. Qed.

Lemma strip_app_spaces t w : forallb is_space w = true -> strip (t ++ w) = strip t.
Proof.
  intro Hw. unfold strip. destruct (forallb is_space t) eqn:Ht.
  - rewrite lstrip_spaces by exact Ht. rewrite (lstrip_all_spaces w Hw).
    now rewrite (lstrip_all_spaces t Ht).
  - apply forallb_false_exists in Ht.
    rewrite lstrip_app_keep by exact Ht. now apply rstrip_spaces.
Qed.

Lemma strip_spaces_app w t : forallb is_space w = true -> strip (w ++ t) = strip t.
Proof. intro Hw. unfold strip. now rewrite lstrip_spaces. Qed.

Lemma strip_nil_spaces t : strip t = [] -> forallb is_space t = true.
Proof.
  unfold strip. intro H.
  destruct (lstrip_split t) as [a [Ea Ha]].
  destruct (rstrip_split (lstrip t)) as [b [Eb Hb]].
  rewrite H in Eb. cbn [app] in Eb. rewrite Ea, Eb, forallb_app, Ha, Hb. reflexivity.
Qed.

Lemma chunk_cases l :
  (patched_chunk l = l /\ settled l = true)
  \/ (exists k v e, prop_of l = Some (k, v) /\ In (k, e) props_to_patch
                    /\ patched_chunk l = patched_header ++ prop_text k e).
Proof.
  unfold patched_chunk, settled. destruct (prop_of l) as [[k v]|]; [|now left].
  destruct (dict_get k props_to_patch) as [e|] eqn:Hd; [|now left].
  destruct (path_eqb v e); [now left|].
  right. exists k, v, e. apply dict_get_in in Hd. auto.
Qed.

Lemma hit_settled l k e :
  hit l = Some k -> settled l = true -> In (k, e) props_to_patch -> prop_of l = Some (k, e).
Proof.
  unfold hit, settled. intros Hh Hs Hin. destruct (prop_of l) as [[k' v]|]; [|discriminate].
  destruct (dict_get k' props_to_patch) as [e'|] eqn:Hd; [|discriminate].
  injection Hh as ->. apply path_eqb_eq in Hs. subst v.
  destruct (entry_facts k e Hin) as [Hk _]. congruence.
Qed.

Lemma modified_lines k e :
  In (k, e) props_to_patch ->
  readlines (patched_header ++ prop_text k e) = [patched_header; prop_text k e]
  /\ closed (patched_header ++ prop_text k e).
Proof.
  intro Hin. destruct header_lines as [Hh [_ [_ Ht]]].
  pose proof (prop_text_terminated k e Hin) as Hp. split.
  - rewrite readlines_app_closed by (now apply terminated_closed).
    now rewrite Hh, (readlines_terminated _ Hp).
  - apply closed_app; now apply terminated_closed.
Qed.

(** What a line with its line end becomes. *)
Lemma chunk_terminated l :
  terminated l ->
  closed (patched_chunk l)
  /\ (forall x, In x (readlines (patched_chunk l)) -> settled x = true)
  /\ (forall k e, hit l = Some k -> In (k, e) props_to_patch ->
                  exists x, In x (readlines (patched_chunk l)) /\ prop_of x = Some (k, e)).
Proof.
  intro Ht. destruct (chunk_cases l) as [[-> Hs] | [k' [v [e' [Hp [Hin ->]]]]]].
  - rewrite (readlines_terminated l Ht). repeat split.
    + now apply terminated_closed.
    + intros x [<-|[]]. exact Hs.
    + intros k e Hh Hk. exists l. split; [now left | now apply (hit_settled l k e)].
  - destruct (modified_lines k' e' Hin) as [-> Hc]. repeat split; [exact Hc | |].
    + intros x [<-|[<-|[]]]; [apply header_lines | now apply prop_text_settled].
    + intros k e Hh Hk. exists (prop_text k e). split.
      * right. left. assert (k' = k).
        { unfold hit in Hh. rewrite Hp in Hh.
          destruct (dict_get k' props_to_patch); [now injection Hh | discriminate]. }
        subst k'. destruct (entry_facts k e Hk) as [H1 _].
        destruct (entry_facts k e' Hin) as [H2 _]. congruence.
      * now apply entry_facts.
Qed.

Lemma lines_to_add_in lines t :
  In t (lines_to_add lines) -> exists k e, In (k, e) props_to_patch /\ t = prop_text k e.
Proof.
  unfold lines_to_add. rewrite in_flat_map. intros [[k e] [Hin H]]. cbn [fst snd] in H.
  destruct (was_hit k lines); [destruct H|]. destruct H as [<-|[]]. now exists k, e.
Qed.

Lemma lines_to_add_has lines k e :
  In (k, e) props_to_patch -> was_hit k lines = false ->
  In (prop_text k e) (lines_to_add lines).
Proof.
  intros Hin Hh. unfold lines_to_add. rewrite in_flat_map. exists (k, e).
  split; [exact Hin|]. cbn [fst snd]. rewrite Hh. now left.
Qed.

Lemma terminated_wf ls : Forall terminated ls -> lines_wf ls.
Proof.
  induction 1 as [|l ls [body [-> Hb]] _ IH]; [exact I|]. left. now exists body.
Qed.

Lemma readlines_adds lines :
  readlines (concat (lines_to_add lines)) = lines_to_add lines.
Proof.
  apply readlines_concat, terminated_wf, Forall_forall. intros t Ht.
  destruct (lines_to_add_in lines t Ht) as [k [e [Hin ->]]]. now apply prop_text_terminated.
Qed.

Lemma adds_closed lines : closed (concat (lines_to_add lines)).
Proof.
  apply closed_concat, Forall_forall. intros t Ht.
  destruct (lines_to_add_in lines t Ht) as [k [e [Hin ->]]].
  now apply terminated_closed, prop_text_terminated.
Qed.

(** The lines of the header followed by the added lines. *)
Lemma header_adds_lines lines :
  readlines (patched_header ++ concat (lines_to_add lines))
  = patched_header :: lines_to_add lines.
Proof.
  destruct header_lines as [Hh [_ [_ Ht]]].
  rewrite readlines_app_closed by (now apply terminated_closed).
  now rewrite Hh, readlines_adds.
Qed.

Lemma adds_settled lines x : In x (lines_to_add lines) -> settled x = true.
Proof.
  intro H. destruct (lines_to_add_in lines x H) as [k [e [Hin ->]]].
  now apply prop_text_settled.
Qed.

Lemma nl_line : readlines [nl] = [[nl]] /\ settled [nl] = true /\ closed [nl].
Proof. repeat split; try (vm_compute; reflexivity). right. now exists []. Qed.

(** The appended text on its own. *)
Lemma tail_spec lines :
  closed (added_tail lines)
  /\ (forall x, In x (readlines (added_tail lines)) -> settled x = true)
  /\ (forall k e, In (k, e) props_to_patch -> was_hit k lines = false ->
                  exists x, In x (readlines (added_tail lines)) /\ prop_of x = Some (k, e)).
Proof.
  unfold added_tail. destruct (lines_to_add lines) as [|a l] eqn:Ha.
  - repeat split; [now left | intros x [] |].
    intros k e Hin Hh. pose proof (lines_to_add_has lines k e Hin Hh) as H.
    rewrite Ha in H. destruct H.
  - rewrite <- Ha. destruct header_lines as [Hh [Hs [_ Ht]]].
    destruct nl_line as [Hn [Hns Hnc]].
    assert (Hc : closed (patched_header ++ concat (lines_to_add lines))).
    { apply closed_app; [now apply terminated_closed | apply adds_closed]. }
    destruct (is_empty lines || negb (is_empty (strip (last lines [])))).
    + rewrite readlines_app_closed by exact Hnc. rewrite Hn, header_adds_lines.
      repeat split.
      * now apply closed_app.
      * intros x [<-|[<-|H]]; auto. now apply (adds_settled lines).
      * intros k e Hin Hhit. exists (prop_text k e). split; [|now apply entry_facts].
        right. right. now apply lines_to_add_has.
    + cbn [app]. rewrite header_adds_lines. repeat split.
      * exact Hc.
      * intros x [<-|H]; auto. now apply (adds_settled lines).
      * intros k e Hin Hhit. exists (prop_text k e). split; [|now apply entry_facts].
        right. now apply lines_to_add_has.
Qed.

Lemma prop_of_app_nl L : prop_of (L ++ [nl]) = prop_of L.
Proof. unfold prop_of. now rewrite (strip_app_spaces L [nl] eq_refl). Qed.

Lemma prop_of_blank_header L :
  strip L = [] -> ~ In nl L -> prop_of (L ++ patched_header) = None.
Proof.
  intros Hs _. unfold prop_of.
  rewrite (strip_spaces_app L patched_header (strip_nil_spaces L Hs)).
  reflexivity.
Qed.

Lemma prop_of_blank L : strip L = [] -> prop_of L = None.
Proof. intro H. unfold prop_of. rewrite H. reflexivity. Qed.

(** A last line without line end that the loop keeps, followed by the
    appended text. *)
Lemma joined_spec (lines : list text) (L : text) :
  L <> [] -> ~ In nl L -> settled L = true -> lines <> [] -> @last text lines [] = L ->
  (forall x, In x (readlines (L ++ added_tail lines)) -> settled x = true)
  /\ (forall k e, In (k, e) props_to_patch -> hit L = Some k \/ was_hit k lines = false ->
                  exists x, In x (readlines (L ++ added_tail lines))
                            /\ prop_of x = Some (k, e)).
Proof.
  intros Hne Hnl Hs Hlines Hlast. unfold added_tail.
  destruct (lines_to_add lines) as [|a l] eqn:Ha.
  - rewrite app_nil_r, (readlines_unterminated L Hne Hnl). split.
    + intros x [<-|[]]. exact Hs.
    + intros k e Hin [Hh|Hh].
      * exists L. split; [now left | now apply (hit_settled L k e)].
      * pose proof (lines_to_add_has lines k e Hin Hh) as H. rewrite Ha in H. destruct H.
  - rewrite <- Ha. rewrite Hlast.
    destruct lines as [|l0 lines0]; [congruence|]. cbn [is_empty orb].
    destruct header_lines as [_ [Hhs [_ [hb [Ehb Hhb]]]]].
    destruct (strip L) as [|c s] eqn:Hstrip; cbn [is_empty negb].
    + cbn [app]. rewrite Ehb.
      rewrite (readlines_joined L hb _ Hnl Hhb), readlines_adds. rewrite <- Ehb. split.
      * intros x [<-|H]; [|now apply (adds_settled (l0 :: lines0))].
        unfold settled. now rewrite (prop_of_blank_header L Hstrip Hnl).
      * intros k e Hin [Hh|Hh].
        -- unfold hit in Hh. rewrite (prop_of_blank L Hstrip) in Hh. discriminate.
        -- exists (prop_text k e). split; [|now apply entry_facts].
           right. now apply lines_to_add_has.
    + change ([nl] ++ patched_header ++ concat (lines_to_add (l0 :: lines0)))
        with (([] ++ [nl]) ++ patched_header ++ concat (lines_to_add (l0 :: lines0))).
      rewrite (readlines_joined L [] _ Hnl (fun H => H)), header_adds_lines. cbn [app]. split.
      * intros x [<-|[<-|H]]; [| exact Hhs | now apply (adds_settled (l0 :: lines0))].
        unfold settled. rewrite prop_of_app_nl. exact Hs.
      * intros k e Hin [Hh|Hh].
        -- exists (L ++ [nl]). split; [now left|]. rewrite prop_of_app_nl.
           now apply (hit_settled L k e).
        -- exists (prop_text k e). split; [|now apply entry_facts].
           right. right. now apply lines_to_add_has.
Qed.

Lemma sets_key_hit k l : sets_key k l = true -> hit l = Some k.
Proof.
  unfold sets_key. destruct (hit l) as [k'|]; [|discriminate].
  intro H. apply path_eqb_eq in H. now subst.
Qed.

Lemma was_hit_in k lines : was_hit k lines = true -> exists l, In l lines /\ hit l = Some k.
Proof.
  unfold was_hit. intro H. apply existsb_exists in H. destruct H as [l [Hl Hs]].
  exists l. split; [exact Hl | now apply sets_key_hit].
Qed.

Lemma hit_was_hit k l lines : In l lines -> hit l = Some k -> was_hit k lines = true.
Proof.
  intros Hl Hh. unfold was_hit. apply existsb_exists. exists l. split; [exact Hl|].
  unfold sets_key. rewrite Hh. apply path_eqb_refl.
Qed.

(** The lines of the patched text: none sets a target key to another value
    than the expected one, and each target key is set by one of them. *)
Lemma patched_lines_spec content :
  (forall x, In x (readlines (fst (patch_build_prop content))) -> settled x = true)
  /\ (forall k e, In (k, e) props_to_patch ->
                  exists x, In x (readlines (fst (patch_build_prop content)))
                            /\ prop_of x = Some (k, e)).
Proof.
  rewrite patch_build_prop_out.
  destruct (lines_wf_split (readlines content) (readlines_wf content))
    as [init [lastpart [El [Hinit Hlast]]]].
  set (lines := readlines content) in *. clearbody lines. subst lines.
  rewrite map_app, concat_app, <- app_assoc.
  assert (Hchunks : Forall closed (map patched_chunk init)).
  { apply Forall_forall. intros c Hc. apply in_map_iff in Hc. destruct Hc as [l [<- Hl]].
    rewrite Forall_forall in Hinit. now apply chunk_terminated, Hinit. }
  rewrite readlines_app_closed by (now apply closed_concat).
  set (E := concat (map patched_chunk lastpart) ++ added_tail (init ++ lastpart)).
  assert (HE : (forall x, In x (readlines E) -> settled x = true)
               /\ (forall k e, In (k, e) props_to_patch ->
                     was_hit k lastpart = true \/ was_hit k (init ++ lastpart) = false ->
                     exists x, In x (readlines E) /\ prop_of x = Some (k, e))).
  { subst E. destruct (tail_spec (init ++ lastpart)) as [Tc [T1 T2]].
    destruct Hlast as [-> | [L [-> [HL1 HL2]]]].
    - cbn [map concat app]. split; [exact T1|].
      intros k e Hin [H|H]; [discriminate H | now apply T2].
    - cbn [map concat]. rewrite app_nil_r.
      destruct (chunk_cases L) as [[-> Hs] | [k' [v [e' [Hp [Hin' ->]]]]]].
      + destruct (joined_spec (init ++ [L]) L HL1 HL2 Hs) as [J1 J2].
        * destruct init; discriminate.
        * apply last_last.
        * split; [exact J1|]. intros k e Hin [H|H]; apply (J2 k e Hin); [left | now right].
          cbn [was_hit existsb] in H. rewrite orb_false_r in H. now apply sets_key_hit.
      + destruct (modified_lines k' e' Hin') as [Hm Hc].
        rewrite readlines_app_closed by exact Hc. rewrite Hm. split.
        * intros x [<-|[<-|H]]; [apply header_lines | now apply prop_text_settled | now apply T1].
        * intros k e Hin [H|H].
          -- exists (prop_text k e). split; [|now apply entry_facts].
             right. left. cbn [was_hit existsb] in H. rewrite orb_false_r in H.
             apply sets_key_hit in H. unfold hit in H. rewrite Hp in H.
             destruct (dict_get k' props_to_patch) as [e0|] eqn:Hd; [|discriminate].
             injection H as ->. destruct (entry_facts k e Hin) as [H1 _].
             destruct (entry_facts k e' Hin') as [H2 _]. congruence.
          -- destruct (T2 k e Hin H) as [x [Hx Hp']]. exists x. split; [|exact Hp'].
             right. right. exact Hx. }
  destruct HE as [E1 E2]. split.
  - intros x Hx. apply in_app_or in Hx. destruct Hx as [Hx|Hx]; [|now apply E1].
    apply (in_readlines_concat _ x Hchunks) in Hx. destruct Hx as [c [Hc Hx]].
    apply in_map_iff in Hc. destruct Hc as [l [<- Hl]].
    rewrite Forall_forall in Hinit. now apply (chunk_terminated l (Hinit l Hl)).
  - intros k e Hin. destruct (was_hit k init) eqn:Hi.
    + destruct (was_hit_in k init Hi) as [l [Hl Hh]].
      rewrite Forall_forall in Hinit.
      destruct (chunk_terminated l (Hinit l Hl)) as [_ [_ H3]].
      destruct (H3 k e Hh Hin) as [x [Hx Hp]]. exists x. split; [|exact Hp].
      apply in_or_app. left. apply (in_readlines_concat _ x Hchunks).
      exists (patched_chunk l). split; [now apply in_map | exact Hx].
    + destruct (was_hit k lastpart) eqn:Hl.
      * destruct (E2 k e Hin (or_introl Hl)) as [x [Hx Hp]].
        exists x. split; [apply in_or_app; now right | exact Hp].
      * destruct (E2 k e Hin) as [x [Hx Hp]].
        { right. unfold was_hit in *. now rewrite existsb_app, Hi, Hl. }
        exists x. split; [apply in_or_app; now right | exact Hp].
Qed.

(** X20: After the patch every target property is set: for each entry of
    [props_to_patch] a line of the output sets that key to its expected
    value, and no line of the output sets a target key to another value. *)
Theorem build_prop_all_set (content : text) :
  (forall k e, In (k, e) props_to_patch ->
               exists line, In line (readlines (fst (patch_build_prop content)))
                            /\ prop_of line = Some (k, e))
  /\ (forall line k v e, In line (readlines (fst (patch_build_prop content))) ->
                         prop_of line = Some (k, v) ->
                         dict_get k props_to_patch = Some e -> v = e).
Proof.
  destruct (patched_lines_spec content) as [H1 H2]. split; [exact H2|].
  intros line k v e Hin Hp Hd. specialize (H1 line Hin). unfold settled in H1.
  rewrite Hp, Hd in H1. now apply path_eqb_eq.
Qed.

Lemma settled_chunk l : settled l = true -> patched_chunk l = l.
Proof.
  unfold settled, patched_chunk. destruct (prop_of l) as [[k v]|]; [|reflexivity].
  destruct (dict_get k props_to_patch); [|reflexivity]. now intros ->.
Qed.

(** X21: Patching a patched file changes nothing. *)
Theorem build_prop_idempotent (content : text) :
  fst (patch_build_prop (fst (patch_build_prop content))) = fst (patch_build_prop content).
Proof.
  destruct (patched_lines_spec content) as [H1 H2].
  set (out := fst (patch_build_prop content)) in *.
  rewrite (patch_build_prop_out out).
  assert (Hc : map patched_chunk (readlines out) = readlines out).
  { rewrite <- (map_id (readlines out)) at 2. apply map_ext_in.
    intros l Hl. now apply settled_chunk, H1. }
  assert (Ha : lines_to_add (readlines out) = []).
  { destruct (lines_to_add (readlines out)) as [|t ts] eqn:Et; [reflexivity|].
    assert (Ht : In t (lines_to_add (readlines out))) by (rewrite Et; now left).
    unfold lines_to_add in Ht. apply in_flat_map in Ht. destruct Ht as [[k e] [Hin Ht]].
    cbn [fst snd] in Ht. destruct (H2 k e Hin) as [x [Hx Hp]].
    rewrite (hit_was_hit k x (readlines out) Hx) in Ht; [destruct Ht|].
    unfold hit. rewrite Hp. destruct (entry_facts k e Hin) as [-> _]. reflexivity. }
  unfold added_tail. rewrite Hc, Ha, app_nil_r. apply concat_readlines.
Qed.

(** ** The [on charger] block of init.rc *)

Lemma occurs_skipn w n t : occurs w (skipn n t) = true -> occurs w t = true.
Proof.
  intro H. rewrite <- (firstn_skipn n t). now apply occurs_app_r.
Qed.

Lemma occurs_slice w a b t : occurs w (slice a b t) = true -> occurs w (skipn a t) = true.
Proof.
  unfold slice. intro H. rewrite <- (firstn_skipn (b - a) (skipn a t)).
  now apply occurs_app_l.
Qed.

Lemma occurs_indented w : occurs w (indent ++ w) = true.
Proof. rewrite <- (app_nil_r w) at 2. apply occurs_mid. Qed.

Lemma block_has_commands :
  occurs bootmode_cmd charger_block_to_add = true
  /\ occurs powerctl_cmd charger_block_to_add = true.
Proof. split; vm_compute; reflexivity. Qed.

Lemma occurs_in_patch w A C M J R :
  occurs w (J ++ R) = true -> occurs w (A ++ C ++ M ++ [nl] ++ J ++ R) = true.
Proof. intro H. now do 4 apply occurs_app_r. Qed.

(** X22: The patched init.rc holds both commands of the charger block. *)
Theorem init_rc_has_commands (content : text) :
  occurs bootmode_cmd (patch_init_rc content) = true
  /\ occurs powerctl_cmd (patch_init_rc content) = true.
Proof.
  unfold patch_init_rc.
  destruct (search on_charger_pattern content) as [[s e]|].
  2:{ destruct block_has_commands as [H1 H2].
      split; apply occurs_app_r, occurs_app_r; assumption. }
  unfold missing_lines.
  set (block := slice e _ content).
  assert (Hb : forall w J, occurs w block = true -> occurs w (J ++ skipn e content) = true).
  { intros w J Hw. apply occurs_app_r. exact (occurs_slice w e _ content Hw). }
  destruct (occurs bootmode_cmd block) eqn:E1; destruct (occurs powerctl_cmd block) eqn:E2;
    cbn [app].
  - split; eapply occurs_skipn, occurs_slice; eassumption.
  - split; apply occurs_in_patch; [now apply Hb|].
    apply occurs_app_l. apply occurs_indented.
  - split; apply occurs_in_patch; [|now apply Hb].
    apply occurs_app_l. apply occurs_indented.
  - change (join [nl] [indent ++ bootmode_cmd; indent ++ powerctl_cmd])
      with ((indent ++ bootmode_cmd) ++ [nl] ++ (indent ++ powerctl_cmd)).
    split; apply occurs_in_patch; apply occurs_app_l.
    + apply occurs_app_l, occurs_indented.
    + do 2 apply occurs_app_r. apply occurs_indented.
Qed.

Lemma search_from_some r t : forall off p s e,
  search_from r off p t = Some (s, e) ->
  exists u v mo,
    t = u ++ v /\ s = off + length u
    /\ match_at r (prev_after p u) v = Some mo /\ e = s + length (whole mo).
Proof.
  induction t as [|c t IH]; intros off p s e H.
  - cbn [search_from] in H. destruct (match_at r p []) as [mo|] eqn:Hm; [|discriminate].
    injection H as <- <-. exists [], [], mo. cbn [length app]. rewrite Nat.add_0_r. auto.
  - cbn [search_from] in H. destruct (match_at r p (c :: t)) as [mo|] eqn:Hm.
    + injection H as <- <-. exists [], (c :: t), mo. cbn [length app].
      rewrite Nat.add_0_r. auto.
    + apply IH in H. destruct H as [u [v [mo [-> [-> [Hmo ->]]]]]].
      exists (c :: u), v, mo. cbn [length app]. repeat split; auto; lia.
Qed.

Lemma prev_after_last p u c : prev_after p (u ++ [c]) = Some c.
Proof. rewrite prev_after_app. reflexivity. Qed.

Lemma bol_closed u v cs : at_bol (mkst (prev_after None u) v cs) = true -> closed u.
Proof.
  destruct (rev u) as [|c ru] eqn:E.
  - intros _. left. apply (f_equal (@rev ascii)) in E. now rewrite rev_involutive in E.
  - apply (f_equal (@rev ascii)) in E. rewrite rev_involutive in E. cbn [rev] in E.
    subst u. rewrite prev_after_last. unfold at_bol. cbn [prev]. intro H.
    apply is_nl_iff in H. subst c. right. now exists (rev ru).
Qed.

Lemma eol_line_end p R cs :
  at_eol true (mkst p R cs) = true -> R = [] \/ exists R', R = nl :: R'.
Proof.
  unfold at_eol. cbn [rest]. destruct R as [|c R]; [now left|].
  intro H. apply andb_true_iff in H. destruct H as [H _]. apply is_nl_iff in H.
  subst c. right. now exists R.
Qed.

Lemma on_charger_shape x :
  lang on_charger_pattern x ->
  exists w1 w2 w3,
    x = w1 ++ str "on" ++ w2 ++ str "charger" ++ w3
    /\ forallb is_space w1 = true /\ forallb is_space w2 = true /\ w2 <> []
    /\ forallb is_space w3 = true.
Proof.
  unfold on_charger_pattern. cbn [seqs]. intro H.
  destruct H as [b [r1 [-> [Hb H]]]]. simpl in Hb. subst b.
  destruct H as [w1 [r2 [-> [H1 H]]]]. apply lang_star_cls in H1.
  destruct H as [o [r3 [-> [Ho H]]]]. simpl in Ho. subst o.
  destruct H as [w2 [r4 [-> [H2 H]]]]. apply lang_plus_cls in H2. destruct H2 as [H2 H2'].
  destruct H as [c [r5 [-> [Hc H]]]]. simpl in Hc. subst c.
  destruct H as [w3 [r6 [-> [H3 H]]]]. apply lang_star_cls in H3.
  simpl in H. subst r6.
  exists w1, w2, w3. cbn [app]. rewrite app_nil_r. auto.
Qed.

(** X23: When init.rc holds an [on charger] line, the patch works in place: the
    comment goes in at the start of that line, the missing commands go in on
    new lines right after it, and the rest of the file is as it was. *)
Theorem charger_block_updated_in_place (content : text) (s e : nat) :
  search on_charger_pattern content = Some (s, e) ->
  exists A M R,
    content = A ++ M ++ R
    /\ closed A
    /\ (R = [] \/ exists R', R = nl :: R')
    /\ (exists w1 w2 w3,
          M = w1 ++ str "on" ++ w2 ++ str "charger" ++ w3
          /\ forallb is_space w1 = true /\ forallb is_space w2 = true /\ w2 <> []
          /\ forallb is_space w3 = true)
    /\ (patch_init_rc content = content
        \/ exists missing,
             missing <> []
             /\ incl missing [indent ++ bootmode_cmd; indent ++ powerctl_cmd]
             /\ patch_init_rc content
                = A ++ comment_to_add ++ M ++ [nl] ++ join [nl] missing ++ R).
Proof.
  intro Hs. unfold patch_init_rc. rewrite Hs.
  unfold search in Hs. apply search_from_some in Hs.
  destruct Hs as [u [v [mo [-> [-> [Hm ->]]]]]]. cbn [Nat.add].
  pose proof Hm as Hm0. apply match_at_sound in Hm0. destruct Hm0 as [s' [Hr ->]].
  pose proof Hr as Hl. apply rmatch_lang in Hl. destruct Hl as [x [Ex [Lx _]]].
  cbn [rest] in Ex. cbn [whole]. rewrite (consumed_eq (mkst (prev_after None u) v []) s' x Ex).
  exists u, x, (rest s'). rewrite <- Ex.
  assert (Hbol : at_bol (mkst (prev_after None u) v []) = true).
  { unfold on_charger_pattern in Hr. rewrite seqs_cons in Hr.
    apply rm_seq in Hr. destruct Hr as [s1 [Hb _]]. apply rm_bol in Hb. tauto. }
  assert (Heol : at_eol true s' = true).
  { exact (seqs_ends_at_eol true
             [Bol; Star true ws; L "on"; Plus true ws; L "charger"; Star true ws]
             (mkst (prev_after None u) v []) s' Hr). }
  assert (HA : firstn (length u) (u ++ v) = u).
  { rewrite firstn_app, Nat.sub_diag, firstn_all. cbn [firstn]. apply app_nil_r. }
  assert (HM : slice (length u) (length u + length x) (u ++ v) = x).
  { unfold slice. rewrite skipn_app, Nat.sub_diag, skipn_all. cbn [skipn app].
    replace (length u + length x - length u) with (length x) by lia.
    rewrite Ex, firstn_app, Nat.sub_diag, firstn_all. cbn [firstn]. apply app_nil_r. }
  assert (HR : skipn (length u + length x) (u ++ v) = rest s').
  { rewrite Ex, app_assoc, skipn_app, length_app, Nat.sub_diag.
    rewrite <- length_app, skipn_all. reflexivity. }
  repeat split.
  - exact (bol_closed u v [] Hbol).
  - destruct s' as [p' R cs']. exact (eol_line_end p' R cs' Heol).
  - now apply on_charger_shape.
  - rewrite HA, HM, HR. unfold missing_lines.
    destruct (occurs bootmode_cmd _); destruct (occurs powerctl_cmd _); cbn [app].
    + now left.
    + right. exists [indent ++ powerctl_cmd].
      split; [discriminate|]. split; [|reflexivity].
      intros a [<-|[]]. right. now left.
    + right. exists [indent ++ bootmode_cmd].
      split; [discriminate|]. split; [|reflexivity].
      intros a [<-|[]]. now left.
    + right. exists [indent ++ bootmode_cmd; indent ++ powerctl_cmd].
      split; [discriminate|]. split; [apply incl_refl | reflexivity].
Qed.

Lemma charger_block_updated_in_place_witness :
  exists A M R,
    str "on boot" ++ [nl] ++ str "on charger" ++ [nl] ++ str "on fs" = A ++ M ++ R
    /\ closed A
    /\ (R = [] \/ exists R', R = nl :: R')
    /\ (exists w1 w2 w3,
          M = w1 ++ str "on" ++ w2 ++ str "charger" ++ w3
          /\ forallb is_space w1 = true /\ forallb is_space w2 = true /\ w2 <> []
          /\ forallb is_space w3 = true)
    /\ (patch_init_rc (str "on boot" ++ [nl] ++ str "on charger" ++ [nl] ++ str "on fs")
        = str "on boot" ++ [nl] ++ str "on charger" ++ [nl] ++ str "on fs"
        \/ exists missing,
             missing <> []
             /\ incl missing [indent ++ bootmode_cmd; indent ++ powerctl_cmd]
             /\ patch_init_rc (str "on boot" ++ [nl] ++ str "on charger" ++ [nl] ++ str "on fs")
                = A ++ comment_to_add ++ M ++ [nl] ++ join [nl] missing ++ R).
Proof.
  apply (charger_block_updated_in_place
           (str "on boot" ++ [nl] ++ str "on charger" ++ [nl] ++ str "on fs") 8 18).
  vm_compute. reflexivity.
Defined.

(** ** Waiting for the recovery *)

Module ModeCheckerFacts.

Import BinNums BinInt ModeChecker.
Local Open Scope Z_scope.

(** X25: The checker [start_device_mode_checker] builds with the old keyword
    [delay_seconds] never looks at the device: after the delay it reports
    [timeout] without one call of [detect_device_mode], and the handler of
    that caller takes the result for a device that was not detected. *)
Theorem legacy_delay_never_checks (i c t d : Z) (env : run_env) (fuel : nat) :
  0 <= d -> should_stop env O = false ->
  run (S fuel) (new_checker i c t (Some d)) env
  = (Emitted (str "timeout") timeout_details, O)
  /\ handle_mode_detected (str "timeout") = NotDetected.
Proof.
  intros Hd Hs. split; [|reflexivity].
  unfold run, new_checker. cbn [initial_delay check_interval timeout check_loop].
  destruct (d <? 0) eqn:E; [apply Z.ltb_lt in E; lia|].
  rewrite Hs, Z.ltb_irrefl. reflexivity.
Qed.

Lemma legacy_delay_never_checks_witness :
  run 1 (new_checker 5 2 30 (Some 10)) (mkenv (fun _ => false) (fun _ => (str "twrp", str "TWRP 3.7")))
  = (Emitted (str "timeout") timeout_details, O)
  /\ handle_mode_detected (str "timeout") = NotDetected.
Proof.
  apply (legacy_delay_never_checks 5 2 30 10
           (mkenv (fun _ => false) (fun _ => (str "twrp", str "TWRP 3.7"))) 0).
  - lia.
  - reflexivity.
Defined.

Lemma remaining_step (t e c : Z) :
  0 < c -> e < t ->
  Z.to_nat ((t - e + c - 1) / c) = S (Z.to_nat ((t - (e + c) + c - 1) / c)).
Proof.
  intros Hc He.
  replace (t - e + c - 1) with ((t - (e + c) + c - 1) + 1 * c) by lia.
  rewrite Z.div_add by lia.
  assert (0 <= (t - (e + c) + c - 1) / c) by (apply Z.div_pos; lia).
  lia.
Qed.

Lemma remaining_zero (t e c : Z) : 0 < c -> t <= e -> Z.to_nat ((t - e + c - 1) / c) = O.
Proof.
  intros Hc He. assert ((t - e + c - 1) / c <= 0).
  { assert ((t - e + c - 1) / c < 1); [|lia]. apply Z.div_lt_upper_bound; lia. }
  lia.
Qed.

(** The loop from [elapsed] on, when no check sees the recovery and nobody
    stops the thread. *)
Lemma check_loop_timeout (c : checker) (env : run_env) :
  0 < check_interval c ->
  (forall k, should_stop env k = false) ->
  (forall k, path_eqb (fst (detect env k)) (str "twrp") = false) ->
  forall fuel elapsed checks,
    (Z.to_nat ((timeout c - elapsed + check_interval c - 1) / check_interval c) < fuel)%nat ->
    check_loop fuel c env elapsed checks
    = (Emitted (str "timeout") timeout_details,
       (checks + Z.to_nat ((timeout c - elapsed + check_interval c - 1) / check_interval c))%nat).
Proof.
  intros Hc Hs Hd. induction fuel as [|fuel IH]; intros elapsed checks Hf; [lia|].
  cbn [check_loop]. destruct (elapsed <? timeout c) eqn:E.
  - apply Z.ltb_lt in E. rewrite Hs.
    pose proof (Hd checks) as Hk. destruct (detect env checks) as [mode details].
    cbn [fst] in Hk. rewrite Hk.
    destruct (check_interval c <? 0) eqn:E2; [apply Z.ltb_lt in E2; lia|].
    rewrite (remaining_step _ _ _ Hc E) in Hf |- *.
    rewrite IH by lia. f_equal. lia.
  - apply Z.ltb_ge in E. rewrite (remaining_zero _ _ _ Hc E). now rewrite Nat.add_0_r.
Qed.

(** X26: With a positive interval the wait ends: when no check sees the recovery
    and nobody stops the thread, [run] reports [timeout] after exactly
    [max_checks] calls of [detect_device_mode]. *)
Theorem checks_until_timeout (c : checker) (env : run_env) (fuel : nat) :
  0 <= initial_delay c -> 0 < check_interval c ->
  (forall k, should_stop env k = false) ->
  (forall k, path_eqb (fst (detect env k)) (str "twrp") = false) ->
  (max_checks c < fuel)%nat ->
  run fuel c env = (Emitted (str "timeout") timeout_details, max_checks c).
Proof.
  intros Hi Hc Hs Hd Hf. unfold run.
  destruct (initial_delay c <? 0) eqn:E; [apply Z.ltb_lt in E; lia|].
  rewrite Hs. now rewrite (check_loop_timeout c env Hc Hs Hd fuel (initial_delay c) O Hf).
Qed.

Lemma checks_until_timeout_witness :
  run 14 (new_checker 5 2 30 None) (mkenv (fun _ => false) (fun _ => (str "offline", [])))
  = (Emitted (str "timeout") timeout_details,
     max_checks (new_checker 5 2 30 None)).
Proof.
  apply (checks_until_timeout (new_checker 5 2 30 None)
           (mkenv (fun _ => false) (fun _ => (str "offline", []))) 14).
  - cbn. lia.
  - cbn. lia.
  - reflexivity.
  - reflexivity.
  - vm_compute. lia.
Defined.

(** The loop from [elapsed] on, when the check number [k] from here is the
    first to see the recovery. *)
Lemma check_loop_twrp (c : checker) (env : run_env) (details : text) :
  0 <= check_interval c ->
  forall k fuel elapsed checks,
    elapsed + Z.of_nat k * check_interval c < timeout c ->
    (forall j, (j <= k)%nat -> should_stop env (S (checks + j)) = false) ->
    (forall j, (j < k)%nat -> path_eqb (fst (detect env (checks + j)%nat)) (str "twrp") = false) ->
    detect env (checks + k)%nat = (str "twrp", details) ->
    (k < fuel)%nat ->
    check_loop fuel c env elapsed checks = (Emitted (str "twrp") details, S (checks + k)).
Proof.
  intros Hc. induction k as [|k IH]; intros fuel elapsed checks Ht Hs Hd Hk Hf;
    (destruct fuel as [|fuel]; [lia|]); cbn [check_loop].
  - destruct (elapsed <? timeout c) eqn:E; [|apply Z.ltb_ge in E; lia].
    pose proof (Hs O (Nat.le_refl _)) as H0. rewrite Nat.add_0_r in H0, Hk |- *.
    rewrite H0, Hk, path_eqb_refl. reflexivity.
  - destruct (elapsed <? timeout c) eqn:E; [|apply Z.ltb_ge in E; nia].
    pose proof (Hs O ltac:(lia)) as H0. rewrite Nat.add_0_r in H0. rewrite H0.
    pose proof (Hd O ltac:(lia)) as H1. rewrite Nat.add_0_r in H1.
    destruct (detect env checks) as [mode det]. cbn [fst] in H1. rewrite H1.
    destruct (check_interval c <? 0) eqn:E2; [apply Z.ltb_lt in E2; lia|].
    rewrite (IH fuel (elapsed + check_interval c) (S checks)).
    + f_equal. lia.
    + lia.
    + intros j Hj. replace (S checks + j)%nat with (checks + S j)%nat by lia. apply Hs. lia.
    + intros j Hj. replace (S checks + j)%nat with (checks + S j)%nat by lia. apply Hd. lia.
    + replace (S checks + k)%nat with (checks + S k)%nat by lia. exact Hk.
    + lia.
Qed.

(** X27: The first check that sees the recovery ends the wait: when the check
    number [k] (counted from 0) starts before the timeout and is the first
    to return [twrp], [run] reports [twrp] with the details of that check,
    after [k + 1] calls of [detect_device_mode] and no more. *)
Theorem twrp_ends_the_wait (c : checker) (env : run_env) (k fuel : nat) (details : text) :
  0 <= initial_delay c -> 0 <= check_interval c ->
  initial_delay c + Z.of_nat k * check_interval c < timeout c ->
  (forall j, (j <= S k)%nat -> should_stop env j = false) ->
  (forall j, (j < k)%nat -> path_eqb (fst (detect env j)) (str "twrp") = false) ->
  detect env k = (str "twrp", details) ->
  (k < fuel)%nat ->
  run fuel c env = (Emitted (str "twrp") details, S k).
Proof.
  intros Hi Hc Ht Hs Hd Hk Hf. unfold run.
  destruct (initial_delay c <? 0) eqn:E; [apply Z.ltb_lt in E; lia|].
  rewrite (Hs O) by lia.
  apply (check_loop_twrp c env details Hc k fuel (initial_delay c) O); auto.
  intros j Hj. apply Hs. cbn. lia.
Qed.

Lemma twrp_ends_the_wait_witness :
  run 4 (new_checker 5 2 30 None)
    (mkenv (fun _ => false)
       (fun i => if Nat.eqb i 2 then (str "twrp", str "TWRP 3.7") else (str "offline", [])))
  = (Emitted (str "twrp") (str "TWRP 3.7"), 3%nat).
Proof.
  apply (twrp_ends_the_wait (new_checker 5 2 30 None)
    (mkenv (fun _ => false)
       (fun i => if Nat.eqb i 2 then (str "twrp", str "TWRP 3.7") else (str "offline", [])))
    2 4 (str "TWRP 3.7")).
  - cbn. lia.
  - cbn. lia.
  - cbn. lia.
  - reflexivity.
  - intros j Hj. destruct j as [|[|j]]; [reflexivity | reflexivity | lia].
  - reflexivity.
  - lia.
Defined.

End ModeCheckerFacts.

(** ** Patching init.rc a second time *)

Lemma search_from_here r v off p mo :
  match_at r p v = Some mo -> search_from r off p v = Some (off, off + length (whole mo)).
Proof. intro H. destruct v; cbn [search_from]; now rewrite H. Qed.

Lemma search_from_skip r v u : forall off p,
  (forall u1 u2, u = u1 ++ u2 -> u2 <> [] ->
     match_at r (prev_after p u1) (u2 ++ v) = None) ->
  search_from r off p (u ++ v) = search_from r (off + length u) (prev_after p u) v.
Proof.
  induction u as [|c u IH]; intros off p H.
  - cbn [app length]. now rewrite Nat.add_0_r.
  - cbn [app length search_from].
    pose proof (H [] (c :: u) eq_refl ltac:(discriminate)) as H0.
    cbn [app prev_after fold_left] in H0. rewrite H0.
    rewrite (IH (S off) (Some c)).
    + f_equal. lia.
    + intros u1 u2 E Hn. exact (H (c :: u1) u2 ltac:(now rewrite E) Hn).
Qed.

Lemma search_from_none_all r t : forall off p,
  search_from r off p t = None ->
  forall u1 u2, t = u1 ++ u2 -> match_at r (prev_after p u1) u2 = None.
Proof.
  induction t as [|c t IH]; intros off p H u1 u2 E.
  - destruct u1; [|discriminate]. cbn [app] in E. subst u2.
    cbn [search_from] in H. destruct (match_at r p []) eqn:Hm; [discriminate | exact Hm].
  - cbn [search_from] in H. destruct (match_at r p (c :: t)) eqn:Hm; [discriminate|].
    destruct u1 as [|a u1].
    + cbn [app] in E. subst u2. exact Hm.
    + injection E as <- ->. exact (IH (S off) (Some c) H u1 u2 eq_refl).
Qed.

Lemma search_from_first r t : forall off p s e,
  search_from r off p t = Some (s, e) ->
  exists u v mo,
    t = u ++ v /\ s = off + length u
    /\ match_at r (prev_after p u) v = Some mo /\ e = s + length (whole mo)
    /\ forall u1 u2, u = u1 ++ u2 -> u2 <> [] ->
         match_at r (prev_after p u1) (u2 ++ v) = None.
Proof.
  induction t as [|c t IH]; intros off p s e H.
  - cbn [search_from] in H. destruct (match_at r p []) as [mo|] eqn:Hm; [|discriminate].
    injection H as <- <-. exists [], [], mo. cbn [length app]. rewrite Nat.add_0_r.
    repeat split; auto. intros u1 u2 E Hn. destruct u1; [|discriminate].
    cbn [app] in E. now subst u2.
  - cbn [search_from] in H. destruct (match_at r p (c :: t)) as [mo|] eqn:Hm.
    + injection H as <- <-. exists [], (c :: t), mo. cbn [length app].
      rewrite Nat.add_0_r. repeat split; auto. intros u1 u2 E Hn.
      destruct u1; [|discriminate]. cbn [app] in E. now subst u2.
    + apply IH in H. destruct H as [u [v [mo [-> [-> [Hmo [-> Hb]]]]]]].
      exists (c :: u), v, mo. cbn [length app]. repeat split; auto; try lia.
      intros u1 u2 E Hn. destruct u1 as [|a u1].
      * cbn [app] in E. subst u2. exact Hm.
      * injection E as <- ->. exact (Hb u1 u2 eq_refl Hn).
Qed.

(** A greedy run over [N] that the continuation cannot stop early. *)
Lemma greedy_cls_exact f k N : forall p c t cs,
  forallb f N = true -> f c = false ->
  (forall a u p', f a = true -> k (mkst p' (a :: u) cs) = None) ->
  greedy_cls f k p (N ++ c :: t) cs = k (mkst (prev_after p N) (c :: t) cs).
Proof.
  induction N as [|a N IH]; intros p c t cs HN Hc Hk.
  - cbn [app]. now apply greedy_cls_stop.
  - cbn [app]. cbn [forallb] in HN. apply andb_true_iff in HN. destruct HN as [Ha HN].
    rewrite greedy_cls_go by exact Ha. rewrite (IH (Some a) c t cs HN Hc Hk).
    rewrite (Hk a (N ++ c :: t) p Ha).
    change (prev_after p (a :: N)) with (prev_after (Some a) N).
    now destruct (k _).
Qed.

Lemma greedy_cls_some f k W : forall p R cs x,
  forallb f W = true -> k (mkst (prev_after p W) R cs) = Some x ->
  exists y, greedy_cls f k p (W ++ R) cs = Some y.
Proof.
  induction W as [|a W IH]; intros p R cs x HW Hk.
  - cbn [app]. cbn in Hk. destruct R as [|c R]; [now exists x|].
    cbn [greedy_cls]. destruct (f c); [|now exists x].
    rewrite Hk. destruct (greedy_cls f k (Some c) R cs) as [y|]; [now exists y | now exists x].
  - cbn [app]. cbn [forallb] in HW. apply andb_true_iff in HW. destruct HW as [Ha HW].
    rewrite greedy_cls_go by exact Ha.
    destruct (IH (Some a) R cs x HW Hk) as [y ->]. now exists y.
Qed.

Lemma greedy_cls_app_some f k W : forall p X cs y,
  forallb f W = true -> greedy_cls f k (prev_after p W) X cs = Some y ->
  greedy_cls f k p (W ++ X) cs = Some y.
Proof.
  induction W as [|a W IH]; intros p X cs y HW H; [exact H|].
  cbn [app]. cbn [forallb] in HW. apply andb_true_iff in HW. destruct HW as [Ha HW].
  rewrite greedy_cls_go by exact Ha. now rewrite (IH (Some a) X cs y HW H).
Qed.

Lemma m_cls_go f k p a t cs :
  f a = true -> m (Cls f) k (mkst p (a :: t) cs) = k (mkst (Some a) t cs).
Proof. intro H. cbn [m rest caps]. now rewrite H. Qed.

Lemma space_not_o a : is_space a = true -> Ascii.eqb "o" a = false.
Proof.
  intro H. destruct (Ascii.eqb "o" a) eqn:E; [|reflexivity].
  apply Ascii.eqb_eq in E. subst a. discriminate.
Qed.

Lemma space_not_c a : is_space a = true -> Ascii.eqb "c" a = false.
Proof.
  intro H. destruct (Ascii.eqb "c" a) eqn:E; [|reflexivity].
  apply Ascii.eqb_eq in E. subst a. discriminate.
Qed.

(** The forced part of a match of the [on charger] pattern: from a line
    start over [w1 on w2 charger], to the greedy run before [$]. *)
Lemma on_charger_run w1 w2 Y p cs k :
  at_bol (mkst p [] cs) = true ->
  forallb is_space w1 = true -> forallb is_space w2 = true -> w2 <> [] ->
  m on_charger_pattern k (mkst p (w1 ++ str "on" ++ w2 ++ str "charger" ++ Y) cs)
  = greedy_cls is_space (fun s' => m (Eol true) k s') (Some "r"%char) Y cs.
Proof.
  intros Hb H1 H2 Hn. unfold on_charger_pattern.
  rewrite seqs_cons, m_seq, m_bol by exact Hb.
  rewrite seqs_cons, m_seq. unfold ws at 1. rewrite m_star_cls_greedy. cbn [prev rest caps].
  change (str "on" ++ w2 ++ str "charger" ++ Y)
    with ("o"%char :: ("n"%char :: w2 ++ str "charger" ++ Y)).
  rewrite greedy_cls_exact; [|exact H1|reflexivity|].
  2:{ intros a u p' Ha. rewrite seqs_cons, m_seq. apply m_lit_fail.
      cbn [rest]. unfold L, str. cbn [list_ascii_of_string starts_with].
      now rewrite (space_not_o a Ha). }
  rewrite seqs_cons, m_seq. unfold L at 1.
  change ("o"%char :: "n"%char :: w2 ++ str "charger" ++ Y)
    with (str "on" ++ (w2 ++ str "charger" ++ Y)).
  rewrite m_lit_app.
  destruct w2 as [|a w2]; [contradiction|].
  cbn [forallb] in H2. apply andb_true_iff in H2. destruct H2 as [Ha H2].
  rewrite seqs_cons, m_seq. unfold Plus. rewrite m_seq. unfold ws.
  cbn [app]. rewrite m_cls_go by exact Ha. rewrite m_star_cls_greedy.
  cbn [prev rest caps].
  change (str "charger" ++ Y) with ("c"%char :: (str "harger" ++ Y)).
  rewrite greedy_cls_exact; [|exact H2|reflexivity|].
  2:{ intros b u p' Hb'. rewrite seqs_cons, m_seq. apply m_lit_fail.
      cbn [rest]. unfold L, str. cbn [list_ascii_of_string starts_with].
      now rewrite (space_not_c b Hb'). }
  rewrite seqs_cons, m_seq. unfold L at 1.
  change ("c"%char :: (str "harger" ++ Y)) with (str "charger" ++ Y).
  rewrite m_lit_app. cbn [seqs]. rewrite m_seq. rewrite m_star_cls_greedy.
  cbn [prev rest caps]. reflexivity.
Qed.

Lemma eol_any ml p p' R cs cs' :
  at_eol ml (mkst p R cs) = at_eol ml (mkst p' R cs').
Proof. reflexivity. Qed.

Lemma bol_any p t t' cs cs' : at_bol (mkst p t cs) = at_bol (mkst p t' cs').
Proof. reflexivity. Qed.

(** What a match of the [on charger] pattern looks like. *)
Lemma on_charger_match p t mo :
  match_at on_charger_pattern p t = Some mo ->
  at_bol (mkst p [] []) = true
  /\ exists w1 w2 w3 R,
       whole mo = w1 ++ str "on" ++ w2 ++ str "charger" ++ w3
       /\ t = whole mo ++ R
       /\ forallb is_space w1 = true /\ forallb is_space w2 = true /\ w2 <> []
       /\ forallb is_space w3 = true
       /\ at_eol true (mkst None R []) = true.
Proof.
  intro Hm. apply match_at_sound in Hm. destruct Hm as [s' [Hr ->]].
  pose proof Hr as Hl. apply rmatch_lang in Hl. destruct Hl as [x [Ex [Lx _]]].
  cbn [rest] in Ex. cbn [whole]. rewrite (consumed_eq (mkst p t []) s' x Ex).
  split.
  - unfold on_charger_pattern in Hr. rewrite seqs_cons in Hr.
    apply rm_seq in Hr. destruct Hr as [s1 [Hb _]]. apply rm_bol in Hb. tauto.
  - destruct (on_charger_shape x Lx) as [w1 [w2 [w3 [E [H1 [H2 [Hn H3]]]]]]].
    exists w1, w2, w3, (rest s'). repeat split; auto.
    rewrite (eol_any true None (prev s') (rest s') [] (caps s')).
    destruct s' as [p' R cs']. cbn [prev rest caps].
    exact (seqs_ends_at_eol true
             [Bol; Star true ws; L "on"; Plus true ws; L "charger"; Star true ws]
             (mkst p t []) (mkst p' R cs') Hr).
Qed.

(** Where the text has that shape, the matcher finds a match. *)
Lemma on_charger_found p w1 w2 w3 R :
  at_bol (mkst p [] []) = true ->
  forallb is_space w1 = true -> forallb is_space w2 = true -> w2 <> [] ->
  forallb is_space w3 = true -> at_eol true (mkst None R []) = true ->
  exists mo,
    match_at on_charger_pattern p (w1 ++ str "on" ++ w2 ++ str "charger" ++ w3 ++ R) = Some mo.
Proof.
  intros Hb H1 H2 Hn H3 He. unfold match_at.
  rewrite on_charger_run by assumption.
  destruct (greedy_cls_some is_space (fun s' => m (Eol true) Some s') w3
              (Some "r"%char) R [] (mkst (prev_after (Some "r"%char) w3) R []) H3) as [y Hy].
  - cbn [m]. rewrite (eol_any true _ None R [] []), He. reflexivity.
  - rewrite Hy. eauto.
Qed.

Lemma space_not_nl c : is_space c = false -> is_nl c = false.
Proof.
  intro H. destruct (is_nl c) eqn:E; [|reflexivity].
  apply is_nl_space in E. congruence.
Qed.

(** The match ends before a new line that starts with the indentation of an
    added command. *)
Lemma on_charger_exact p w1 w2 w3 c Y :
  at_bol (mkst p [] []) = true ->
  forallb is_space w1 = true -> forallb is_space w2 = true -> w2 <> [] ->
  forallb is_space w3 = true -> is_space c = false ->
  match_at on_charger_pattern p
    ((w1 ++ str "on" ++ w2 ++ str "charger" ++ w3) ++ nl :: indent ++ c :: Y)
  = Some (mkmatch (w1 ++ str "on" ++ w2 ++ str "charger" ++ w3) []).
Proof.
  intros Hb H1 H2 Hn H3 Hc. unfold match_at.
  set (X := nl :: indent ++ c :: Y).
  replace ((w1 ++ str "on" ++ w2 ++ str "charger" ++ w3) ++ X)
    with (w1 ++ str "on" ++ w2 ++ str "charger" ++ (w3 ++ X))
    by now rewrite <- !app_assoc.
  rewrite on_charger_run by assumption.
  rewrite (greedy_cls_app_some is_space (fun s' => m (Eol true) Some s') w3
             (Some "r"%char) X [] (mkst (prev_after (Some "r"%char) w3) X []) H3).
  - cbn [caps]. f_equal. f_equal. apply consumed_eq. cbn [rest].
    now rewrite <- !app_assoc.
  - unfold X, indent, str. cbn [list_ascii_of_string app].
    rewrite greedy_cls_go by reflexivity.
    do 4 (rewrite greedy_cls_go by reflexivity).
    rewrite greedy_cls_stop by exact Hc.
    cbn [m at_eol rest]. rewrite (space_not_nl c Hc). cbn [andb orelse].
    reflexivity.
Qed.

(** What a match of the pattern of the next [on] line starts with. *)
Lemma next_on_match p t mo :
  match_at next_on_pattern p t = Some mo ->
  at_bol (mkst p [] []) = true
  /\ exists w1 Y, t = w1 ++ str "on" ++ Y /\ forallb is_space w1 = true.
Proof.
  intro Hm. apply match_at_sound in Hm. destruct Hm as [s' [Hr _]].
  unfold next_on_pattern in Hr. rewrite seqs_cons in Hr.
  apply rm_seq in Hr. destruct Hr as [s1 [Hb Hr]]. apply rm_bol in Hb.
  destruct Hb as [-> Hb]. split; [exact Hb|].
  apply rmatch_lang in Hr. destruct Hr as [x [Ex [Lx _]]]. cbn [rest] in Ex.
  cbn [seqs] in Lx.
  destruct Lx as [w1 [r2 [-> [L1 Lx]]]]. apply lang_star_cls in L1.
  destruct Lx as [o [r3 [-> [Lo _]]]]. simpl in Lo. subst o.
  exists w1, (r3 ++ rest s'). split; [|exact L1].
  rewrite Ex. now rewrite <- !app_assoc.
Qed.

Lemma space_run_unique a : forall w c d x y,
  forallb is_space a = true -> forallb is_space w = true ->
  is_space c = false -> is_space d = false ->
  a ++ c :: x = w ++ d :: y -> c = d.
Proof.
  induction a as [|b a IH]; intros w c d x y Ha Hw Hc Hd E.
  - destruct w as [|e w]; cbn [app] in E.
    + congruence.
    + injection E as -> _. cbn [forallb] in Hw. rewrite Hc in Hw. discriminate.
  - destruct w as [|e w]; cbn [app] in E.
    + injection E as -> _. cbn [forallb] in Ha. rewrite Hd in Ha. discriminate.
    + injection E as _ E. cbn [forallb] in Ha, Hw.
      apply andb_true_iff in Ha, Hw. exact (IH w c d x y (proj2 Ha) (proj2 Hw) Hc Hd E).
Qed.

Lemma no_on_here_shape p u v w1 Y :
  no_on_here p u = true -> at_bol (mkst p [] []) = true ->
  forallb is_space w1 = true -> u ++ v <> w1 ++ str "on" ++ Y.
Proof.
  intros Hn Hb H1 E. unfold no_on_here in Hn. rewrite Hb in Hn. cbn [negb] in Hn.
  rewrite orb_false_r in Hn. unfold first_word_char in Hn.
  destruct (lstrip u) as [|c l] eqn:El; [discriminate|].
  destruct (lstrip_split u) as [a [Eu Ha]]. rewrite El in Eu.
  pose proof (lstrip_head u c l El) as Hc.
  rewrite Eu in E. rewrite <- app_assoc in E. cbn [app] in E.
  change (str "on" ++ Y) with ("o"%char :: "n"%char :: Y) in E.
  pose proof (space_run_unique a w1 c "o"%char _ _ Ha H1 Hc eq_refl E) as Eo.
  subst c. discriminate.
Qed.

Lemma no_on_here_charger p u v :
  no_on_here p u = true -> match_at on_charger_pattern p (u ++ v) = None.
Proof.
  intro Hn. destruct (match_at on_charger_pattern p (u ++ v)) as [mo|] eqn:Hm; [|reflexivity].
  exfalso. apply on_charger_match in Hm.
  destruct Hm as [Hb [w1 [w2 [w3 [R [Ew [Et [H1 _]]]]]]]].
  apply (no_on_here_shape p u v w1 (w2 ++ str "charger" ++ w3 ++ R) Hn Hb H1).
  rewrite Et, Ew. now rewrite <- !app_assoc.
Qed.

Lemma no_on_here_next p u v :
  no_on_here p u = true -> match_at next_on_pattern p (u ++ v) = None.
Proof.
  intro Hn. destruct (match_at next_on_pattern p (u ++ v)) as [mo|] eqn:Hm; [|reflexivity].
  exfalso. apply next_on_match in Hm. destruct Hm as [Hb [w1 [Y [Et H1]]]].
  exact (no_on_here_shape p u v w1 Y Hn Hb H1 Et).
Qed.

Lemma all_positions_spec chk u : forall p,
  all_positions chk p u = true ->
  forall u1 u2, u = u1 ++ u2 -> u2 <> [] -> chk (prev_after p u1) u2 = true.
Proof.
  induction u as [|c u IH]; intros p H u1 u2 E Hn.
  - destruct u1; [|discriminate]. cbn [app] in E. now subst u2.
  - cbn [all_positions] in H. apply andb_true_iff in H. destruct H as [H0 H].
    destruct u1 as [|a u1].
    + cbn [app] in E. subst u2. exact H0.
    + injection E as <- ->. exact (IH (Some c) H u1 u2 eq_refl Hn).
Qed.

Lemma cut_before (h : ascii) (M' : text) : forall l X R' : text,
  ~ In h M' -> l ++ h :: X = M' ++ R' ->
  exists l2, l = M' ++ l2 /\ R' = l2 ++ h :: X.
Proof.
  induction M' as [|a M' IH]; intros l X R' Hh E.
  - exists l. cbn [app] in *. auto.
  - destruct l as [|b l]; cbn [app] in E.
    + injection E as -> _. exfalso. apply Hh. now left.
    + injection E as -> E. destruct (IH l X R' (fun H => Hh (or_intror H)) E) as [l2 [-> ->]].
      now exists l2.
Qed.

Lemma no_hash_in_match w1 w2 w3 :
  forallb is_space w1 = true -> forallb is_space w2 = true -> forallb is_space w3 = true ->
  ~ In "#"%char (w1 ++ str "on" ++ w2 ++ str "charger" ++ w3).
Proof.
  intros H1 H2 H3 Hin.
  assert (Hs : forall w, forallb is_space w = true -> ~ In "#"%char w).
  { intros w Hw Hi. rewrite forallb_forall in Hw. apply Hw in Hi. discriminate. }
  repeat (apply in_app_or in Hin; destruct Hin as [Hin|Hin]);
    try (now apply (Hs _ H1)); try (now apply (Hs _ H2)); try (now apply (Hs _ H3)).
  - unfold str in Hin. cbn in Hin. intuition discriminate.
  - unfold str in Hin. cbn in Hin. intuition discriminate.
Qed.

Lemma comment_positions p : all_positions no_on_here p comment_to_add = true.
Proof. vm_compute. reflexivity. Qed.

Lemma comment_head : exists X : text, comment_to_add = "#"%char :: X.
Proof. eexists. reflexivity. Qed.

Lemma comment_last u : prev_after None (u ++ comment_to_add) = Some nl.
Proof. rewrite prev_after_app. reflexivity. Qed.

(** The search for the [on charger] line in the text with the comment and
    the commands put in. *)
Lemma search_patched u w1 w2 w3 R c Y :
  at_bol (mkst (prev_after None u) [] []) = true ->
  forallb is_space w1 = true -> forallb is_space w2 = true -> w2 <> [] ->
  forallb is_space w3 = true ->
  (forall u1 u2, u = u1 ++ u2 -> u2 <> [] ->
     match_at on_charger_pattern (prev_after None u1)
       (u2 ++ (w1 ++ str "on" ++ w2 ++ str "charger" ++ w3) ++ R) = None) ->
  is_space c = false ->
  search on_charger_pattern
    ((u ++ comment_to_add) ++ (w1 ++ str "on" ++ w2 ++ str "charger" ++ w3)
     ++ nl :: indent ++ c :: Y)
  = Some (length (u ++ comment_to_add),
          length (u ++ comment_to_add)
          + length (w1 ++ str "on" ++ w2 ++ str "charger" ++ w3)).
Proof.
  intros Hb H1 H2 Hn H3 Hbefore Hc.
  set (M := w1 ++ str "on" ++ w2 ++ str "charger" ++ w3) in *.
  set (X := nl :: indent ++ c :: Y).
  unfold search. rewrite search_from_skip.
  - cbn [Nat.add]. rewrite comment_last.
    rewrite (search_from_here on_charger_pattern (M ++ X) (length (u ++ comment_to_add))
               (Some nl) (mkmatch M [])); [reflexivity|].
    apply on_charger_exact; auto.
  - intros u1 u2 E Hne.
    apply app_eq_app in E. destruct E as [l [[Eu E2]|[Eu1 Ec]]].
    + (* the position lies in [u] *)
      destruct l as [|b l].
      * rewrite app_nil_r in Eu. subst u1. cbn [app] in E2. subst u2.
        apply no_on_here_charger. apply (all_positions_spec no_on_here comment_to_add
          (prev_after None u) (comment_positions _) [] comment_to_add eq_refl).
        discriminate.
      * subst u2.
        destruct (match_at on_charger_pattern (prev_after None u1)
                    (((b :: l) ++ comment_to_add) ++ M ++ X)) as [mo|] eqn:Hm; [|reflexivity].
        exfalso. apply on_charger_match in Hm.
        destruct Hm as [Hb' [v1 [v2 [v3 [R' [Ew [Et [G1 [G2 [Gn [G3 Ge]]]]]]]]]]].
        destruct comment_head as [Cx Ecm]. rewrite Ecm in Et.
        rewrite <- app_assoc in Et. cbn [app] in Et.
        change (b :: l ++ "#"%char :: Cx ++ M ++ X)
          with ((b :: l) ++ "#"%char :: (Cx ++ M ++ X)) in Et.
        apply cut_before in Et; [|rewrite Ew; now apply no_hash_in_match].
        destruct Et as [l2 [El ER]].
        assert (Hl2 : at_eol true (mkst None (l2 ++ M ++ R) []) = true).
        { destruct l2 as [|d l2]; [subst R'; discriminate Ge|].
          subst R'. exact Ge. }
        pose proof (Hbefore u1 (b :: l) Eu ltac:(discriminate)) as Hnone.
        rewrite El, Ew in Hnone. rewrite <- !app_assoc in Hnone.
        destruct (on_charger_found (prev_after None u1) v1 v2 v3 (l2 ++ M ++ R)
                    Hb' G1 G2 Gn G3 Hl2) as [mo' Hmo'].
        rewrite <- ?app_assoc in Hmo'. congruence.
    + (* the position lies in the comment *)
      subst u1. rewrite prev_after_app. apply no_on_here_charger.
      exact (all_positions_spec no_on_here comment_to_add (prev_after None u)
               (comment_positions _) l u2 Ec Hne).
Qed.

Lemma search_from_shift r t : forall off p,
  search_from r off p t
  = match search_from r 0 p t with
    | Some (s, e) => Some (off + s, off + e)
    | None => None
    end.
Proof.
  induction t as [|c t IH]; intros off p; cbn [search_from].
  - destruct (match_at r p []); [|reflexivity]. cbn [Nat.add]. now rewrite Nat.add_0_r.
  - destruct (match_at r p (c :: t)).
    + cbn [Nat.add]. now rewrite Nat.add_0_r.
    + rewrite (IH (S off)), (IH 1). destruct (search_from r 0 (Some c) t) as [[s e]|].
      * f_equal. f_equal; lia.
      * reflexivity.
Qed.

Lemma first_at_skip r u v p :
  (forall u1 u2, u = u1 ++ u2 -> u2 <> [] ->
     match_at r (prev_after p u1) (u2 ++ v) = None) ->
  first_at r p (u ++ v) = length u + first_at r (prev_after p u) v.
Proof.
  intro H. unfold first_at. rewrite (search_from_skip r v u 0 p H), search_from_shift.
  cbn [Nat.add]. destruct (search_from r 0 (prev_after p u) v) as [[s e]|].
  - reflexivity.
  - apply length_app.
Qed.

Lemma firstn_exact (a b : text) : firstn (length a) (a ++ b) = a.
Proof. rewrite firstn_app, Nat.sub_diag, firstn_all. cbn [firstn]. apply app_nil_r. Qed.

Lemma skipn_exact (a b : text) : skipn (length a) (a ++ b) = b.
Proof. rewrite skipn_app, Nat.sub_diag, skipn_all. reflexivity. Qed.

(** The commands missing after the position [length A] of [A ++ R]. *)
Lemma missing_lines_at A R :
  missing_lines (A ++ R) (length A)
  = (if occurs bootmode_cmd (firstn (first_at next_on_pattern (prev_after None A) R) R)
     then [] else [indent ++ bootmode_cmd])
    ++ (if occurs powerctl_cmd (firstn (first_at next_on_pattern (prev_after None A) R) R)
        then [] else [indent ++ powerctl_cmd]).
Proof.
  unfold missing_lines, search_pos, slice, first_at.
  rewrite firstn_exact, skipn_exact, search_from_shift.
  destruct (search_from next_on_pattern 0 (prev_after None A) R) as [[s e]|].
  - now rewrite Nat.add_comm, Nat.add_sub.
  - now rewrite length_app, Nat.add_comm, Nat.add_sub.
Qed.

Lemma next_on_nil p : match_at next_on_pattern p [] = None.
Proof.
  destruct (match_at next_on_pattern p []) as [mo|] eqn:Hm; [|reflexivity].
  exfalso. apply next_on_match in Hm. destruct Hm as [_ [w1 [Y [E _]]]].
  symmetry in E. apply app_eq_nil in E. destruct E as [_ E]. discriminate E.
Qed.

(** After a character that does not end a line the next [on] line is found
    no earlier than after any other. *)
Lemma first_at_le p c R :
  at_bol (mkst (Some c) [] []) = false ->
  first_at next_on_pattern p R <= first_at next_on_pattern (Some c) R.
Proof.
  intro Hb. unfold first_at. destruct R as [|d R]; cbn [search_from].
  - now rewrite !next_on_nil.
  - assert (Hn : match_at next_on_pattern (Some c) (d :: R) = None).
    { rewrite <- (app_nil_r (d :: R)). apply no_on_here_next.
      unfold no_on_here. rewrite Hb. apply orb_true_r. }
    rewrite Hn. destruct (match_at next_on_pattern p (d :: R)); [lia|]. apply Nat.le_refl.
Qed.

Lemma firstn_le_app (a b : nat) (t : text) :
  a <= b -> exists x, firstn b t = firstn a t ++ x.
Proof.
  intro H. exists (skipn a (firstn b t)).
  rewrite <- (firstn_skipn a (firstn b t)) at 1.
  now rewrite firstn_firstn, Nat.min_l.
Qed.

(** The patch leaves alone a text in which the comment and the commands
    [J] are already in. *)
Lemma repatch_same u w1 w2 w3 R J :
  at_bol (mkst (prev_after None u) [] []) = true ->
  forallb is_space w1 = true -> forallb is_space w2 = true -> w2 <> [] ->
  forallb is_space w3 = true ->
  (forall u1 u2, u = u1 ++ u2 -> u2 <> [] ->
     match_at on_charger_pattern (prev_after None u1)
       (u2 ++ (w1 ++ str "on" ++ w2 ++ str "charger" ++ w3) ++ R) = None) ->
  (exists Y0 : text, J = indent ++ "s"%char :: Y0) ->
  (forall p, all_positions no_on_here p (nl :: J) = true) ->
  (exists c, (forall p, prev_after p (nl :: J) = Some c) /\ is_nl c = false) ->
  (forall cmd, cmd = bootmode_cmd \/ cmd = powerctl_cmd ->
     occurs cmd (nl :: J) = true
     \/ occurs cmd
          (firstn (first_at next_on_pattern
                     (prev_after None (u ++ w1 ++ str "on" ++ w2 ++ str "charger" ++ w3)) R) R)
        = true) ->
  patch_init_rc (u ++ comment_to_add ++ (w1 ++ str "on" ++ w2 ++ str "charger" ++ w3)
                 ++ [nl] ++ J ++ R)
  = u ++ comment_to_add ++ (w1 ++ str "on" ++ w2 ++ str "charger" ++ w3)
    ++ [nl] ++ J ++ R.
Proof.
  intros Hb H1 H2 Hn H3 Hbefore [Y0 EJ] Hpos [c [Hlast Hc]] Hocc.
  set (M := w1 ++ str "on" ++ w2 ++ str "charger" ++ w3) in *.
  assert (Et : u ++ comment_to_add ++ M ++ [nl] ++ J ++ R
               = ((u ++ comment_to_add) ++ M) ++ (nl :: J) ++ R).
  { cbn [app]. now rewrite <- !app_assoc. }
  assert (Es : search on_charger_pattern (u ++ comment_to_add ++ M ++ [nl] ++ J ++ R)
               = Some (length (u ++ comment_to_add), length ((u ++ comment_to_add) ++ M))).
  { rewrite (length_app (u ++ comment_to_add) M).
    transitivity (search on_charger_pattern
                    ((u ++ comment_to_add) ++ M ++ nl :: indent ++ "s"%char :: (Y0 ++ R))).
    - f_equal. rewrite EJ. cbn [app]. now rewrite <- !app_assoc.
    - exact (search_patched u w1 w2 w3 R "s"%char (Y0 ++ R) Hb H1 H2 Hn H3 Hbefore eq_refl). }
  unfold patch_init_rc. rewrite Es. rewrite Et at 1. rewrite missing_lines_at.
  assert (Hk : first_at next_on_pattern (prev_after None ((u ++ comment_to_add) ++ M))
                 ((nl :: J) ++ R)
               = length (nl :: J) + first_at next_on_pattern (Some c) R).
  { rewrite first_at_skip.
    - now rewrite Hlast.
    - intros u1 u2 E Hne. apply no_on_here_next.
      exact (all_positions_spec no_on_here (nl :: J) _ (Hpos _) u1 u2 E Hne). }
  rewrite Hk, firstn_app_2.
  assert (Hin : forall cmd, cmd = bootmode_cmd \/ cmd = powerctl_cmd ->
                  occurs cmd ((nl :: J) ++ firstn (first_at next_on_pattern (Some c) R) R)
                  = true).
  { intros cmd Hcmd. destruct (Hocc cmd Hcmd) as [H|H].
    - now apply occurs_app_l.
    - apply occurs_app_r.
      destruct (firstn_le_app _ _ R
                  (first_at_le (prev_after None (u ++ M)) c R Hc)) as [x ->].
      now apply occurs_app_l. }
  rewrite (Hin bootmode_cmd (or_introl eq_refl)), (Hin powerctl_cmd (or_intror eq_refl)).
  reflexivity.
Qed.

(** The patch at a match [M] that starts after [u]. *)
Lemma patch_at_match (u M R : text) :
  search on_charger_pattern (u ++ M ++ R) = Some (length u, length u + length M) ->
  patch_init_rc (u ++ M ++ R)
  = match missing_lines ((u ++ M) ++ R) (length (u ++ M)) with
    | [] => u ++ M ++ R
    | (_ :: _) as missing =>
        u ++ comment_to_add ++ M ++ [nl] ++ join [nl] missing ++ R
    end.
Proof.
  intro Hs. unfold patch_init_rc. rewrite Hs.
  rewrite <- (length_app u M). rewrite (app_assoc u M R).
  destruct (missing_lines ((u ++ M) ++ R) (length (u ++ M))) as [|x l]; [reflexivity|].
  rewrite <- (app_assoc u M R) at 1. rewrite firstn_exact.
  rewrite skipn_exact. unfold slice.
  rewrite <- (app_assoc u M R). rewrite skipn_exact.
  replace (length (u ++ M) - length u) with (length M) by (rewrite length_app; lia).
  now rewrite firstn_exact.
Qed.

(** Patching a text with an [on charger] line a second time changes nothing. *)
Lemma repatch_found (content : text) (s e : nat) :
  search on_charger_pattern content = Some (s, e) ->
  patch_init_rc (patch_init_rc content) = patch_init_rc content.
Proof.
  intro Hs. pose proof Hs as Hs0. unfold search in Hs0. apply search_from_first in Hs0.
  destruct Hs0 as [u [v [mo [-> [-> [Hm [-> Hbefore]]]]]]]. cbn [Nat.add] in Hs.
  pose proof Hm as Hm0. apply on_charger_match in Hm0.
  destruct Hm0 as [Hb [w1 [w2 [w3 [R [Ew [-> [H1 [H2 [Hn [H3 He]]]]]]]]]]].
  rewrite Ew in *. clear Ew mo Hm.
  set (M := w1 ++ str "on" ++ w2 ++ str "charger" ++ w3) in *.
  rewrite (patch_at_match u M R Hs). rewrite missing_lines_at.
  set (k := first_at next_on_pattern (prev_after None (u ++ M)) R).
  destruct (occurs bootmode_cmd (firstn k R)) eqn:EA;
    destruct (occurs powerctl_cmd (firstn k R)) eqn:EB; cbn [app].
  - rewrite (patch_at_match u M R Hs). rewrite missing_lines_at. fold k.
    now rewrite EA, EB.
  - apply (repatch_same u w1 w2 w3 R (join [nl] [indent ++ powerctl_cmd]) Hb H1 H2 Hn H3 Hbefore).
    + exists (skipn 5 (join [nl] [indent ++ powerctl_cmd])). vm_compute. reflexivity.
    + intro p. vm_compute. reflexivity.
    + exists dq. split; [intro p; vm_compute; reflexivity | reflexivity].
    + intros cmd [->| ->]; [right; exact EA | left; vm_compute; reflexivity].
  - apply (repatch_same u w1 w2 w3 R (join [nl] [indent ++ bootmode_cmd]) Hb H1 H2 Hn H3 Hbefore).
    + exists (skipn 5 (join [nl] [indent ++ bootmode_cmd])). vm_compute. reflexivity.
    + intro p. vm_compute. reflexivity.
    + exists dq. split; [intro p; vm_compute; reflexivity | reflexivity].
    + intros cmd [->| ->]; [left; vm_compute; reflexivity | right; exact EB].
  - apply (repatch_same u w1 w2 w3 R
             (join [nl] [indent ++ bootmode_cmd; indent ++ powerctl_cmd])
             Hb H1 H2 Hn H3 Hbefore).
    + exists (skipn 5 (join [nl] [indent ++ bootmode_cmd; indent ++ powerctl_cmd])).
      vm_compute. reflexivity.
    + intro p. vm_compute. reflexivity.
    + exists dq. split; [intro p; vm_compute; reflexivity | reflexivity].
    + intros cmd [->| ->]; left; vm_compute; reflexivity.
Qed.

Lemma block_parts : [nl] ++ charger_block_to_add = block_lead ++ block_line ++ block_body.
Proof. vm_compute. reflexivity. Qed.

Lemma space_run_split a : forall w c d (x y : text),
  forallb is_space a = true -> forallb is_space w = true ->
  is_space c = false -> is_space d = false ->
  a ++ c :: x = w ++ d :: y -> a = w /\ c = d /\ x = y.
Proof.
  induction a as [|b a IH]; intros w c d x y Ha Hw Hc Hd E.
  - destruct w as [|e w]; cbn [app] in E.
    + injection E as -> ->. auto.
    + injection E as -> _. cbn [forallb] in Hw. rewrite Hc in Hw. discriminate.
  - destruct w as [|e w]; cbn [app] in E.
    + injection E as -> _. cbn [forallb] in Ha. rewrite Hd in Ha. discriminate.
    + injection E as -> E. cbn [forallb] in Ha, Hw.
      apply andb_true_iff in Ha, Hw.
      destruct (IH w c d x y (proj2 Ha) (proj2 Hw) Hc Hd E) as [-> [-> ->]]. auto.
Qed.

Lemma forallb_rev (f : ascii -> bool) (w : text) :
  forallb f w = true -> forallb f (rev w) = true.
Proof.
  rewrite !forallb_forall. intros H x Hx. apply H. now apply in_rev.
Qed.

(** A text ends in one way with a character that is no whitespace and a run
    of whitespace. *)
Lemma space_tail_split (x y a w : text) (c d : ascii) :
  forallb is_space a = true -> forallb is_space w = true ->
  is_space c = false -> is_space d = false ->
  x ++ c :: a = y ++ d :: w -> x = y /\ c = d /\ a = w.
Proof.
  intros Ha Hw Hc Hd E. apply (f_equal (@rev ascii)) in E.
  rewrite !rev_app_distr in E. cbn [rev] in E. rewrite <- !app_assoc in E. cbn [app] in E.
  destruct (space_run_split (rev a) (rev w) c d (rev x) (rev y)
              (forallb_rev _ _ Ha) (forallb_rev _ _ Hw) Hc Hd E) as [E1 [E2 E3]].
  apply (f_equal (@rev ascii)) in E1, E3. rewrite !rev_involutive in E1, E3. auto.
Qed.

Lemma prev_after_nonempty p p' (u : text) : u <> [] -> prev_after p u = prev_after p' u.
Proof. destruct u as [|c u]; [contradiction|]. reflexivity. Qed.

Lemma lead_positions p : all_positions no_on_here p block_lead = true.
Proof. vm_compute. reflexivity. Qed.

Lemma block_line_match :
  match_at on_charger_pattern (Some nl) (block_line ++ block_body)
  = Some (mkmatch block_line []).
Proof. vm_compute. reflexivity. Qed.

Lemma block_body_complete p :
  missing_lines ((p ++ block_line) ++ block_body) (length (p ++ block_line)) = [].
Proof.
  rewrite missing_lines_at, prev_after_app.
  change (prev_after (prev_after None p) block_line) with (Some "r"%char).
  vm_compute. reflexivity.
Qed.

Lemma lead_head : exists Z : text, block_lead = [nl; nl; nl] ++ "#"%char :: Z.
Proof. eexists. reflexivity. Qed.

(** In a file without an [on charger] line no match starts in the stripped
    text, whatever follows the lead of the appended block. *)
Lemma stripped_no_match (content u1 l X : text) :
  search on_charger_pattern content = None ->
  strip content = u1 ++ l -> l <> [] ->
  match_at on_charger_pattern (prev_after None u1) (l ++ block_lead ++ X) = None.
Proof.
  intros Hs Esc Hl.
  destruct (match_at on_charger_pattern (prev_after None u1) (l ++ block_lead ++ X))
    as [mo|] eqn:Hm; [|reflexivity].
  exfalso. apply on_charger_match in Hm.
  destruct Hm as [Hb [v1 [v2 [v3 [R' [Ew [Et [G1 [G2 [Gn [G3 Ge]]]]]]]]]]].
  destruct lead_head as [Z EZ]. rewrite EZ in Et. rewrite <- app_assoc in Et.
  rewrite (app_assoc l [nl; nl; nl]) in Et. cbn [app] in Et.
  change (((l ++ [nl; nl; nl]) ++ "#"%char :: Z ++ X))
    with ((l ++ [nl; nl; nl]) ++ "#"%char :: (Z ++ X)) in Et.
  apply cut_before in Et; [|rewrite Ew; now apply no_hash_in_match].
  destruct Et as [l2 [El ER]].
  (* the file around its stripped text *)
  destruct (lstrip_split content) as [a [Ea Ha]].
  destruct (rstrip_split (lstrip content)) as [b [Eb Hb0]].
  fold (strip content) in Eb. rewrite Esc in Eb. rewrite Eb in Ea.
  pose proof (search_from_none_all on_charger_pattern content 0 None Hs) as Hnone.
  (* the last character of [l] *)
  destruct (exists_last Hl) as [l' [c Elc]].
  assert (Hc : is_space c = false).
  { apply (strip_last content (u1 ++ l') c). rewrite Esc, Elc. now rewrite app_assoc. }
  (* the match, read in the file *)
  assert (Hold : exists v3' R'',
             l ++ b = v1 ++ str "on" ++ v2 ++ str "charger" ++ v3' ++ R''
             /\ forallb is_space v3' = true /\ at_eol true (mkst None R'' []) = true).
  { assert (Hcommon : forall l0, whole mo = l ++ l0 -> forallb is_space l0 = true ->
                        l = v1 ++ str "on" ++ v2 ++ str "charger").
    { intros l0 E0 H0. rewrite Ew, Elc in E0. rewrite <- app_assoc in E0. cbn [app] in E0.
      change (str "charger" ++ v3) with (str "charge" ++ "r"%char :: v3) in E0.
      rewrite !app_assoc in E0.
      apply space_tail_split in E0; auto.
      destruct E0 as [E1 [E2 _]]. rewrite Elc, <- E1, <- E2.
      rewrite <- !app_assoc. reflexivity. }
    apply app_eq_app in El. destruct El as [l0 [[E1 E2]|[E1 E2]]].
    - destruct l0 as [|d l0].
      + rewrite app_nil_r in E1. exists b, [].
        rewrite (Hcommon [] ltac:(now rewrite app_nil_r) eq_refl) at 1.
        rewrite <- !app_assoc, app_nil_r. auto.
      + exists v3, (d :: l0 ++ b). rewrite E1, Ew. rewrite <- !app_assoc.
        repeat split; auto. subst l2 R'. exact Ge.
    - assert (H0 : forallb is_space l0 = true).
      { assert (H3 : forallb is_space (l0 ++ l2) = true) by now rewrite <- E2.
        rewrite forallb_app in H3. now apply andb_true_iff in H3. }
      exists b, []. rewrite (Hcommon l0 E1 H0) at 1.
      rewrite <- !app_assoc, app_nil_r. auto. }
  destruct Hold as [v3' [R'' [Eold [G3' Ge']]]].
  destruct u1 as [|x u1].
  - cbn [app] in Ea.
    destruct (on_charger_found None (a ++ v1) v2 v3' R'' eq_refl) as [mo' Hmo']; auto.
    { rewrite forallb_app, Ha, G1. reflexivity. }
    rewrite <- app_assoc, <- Eold, <- Ea in Hmo'.
    pose proof (Hnone [] content eq_refl) as H0.
    change (match_at on_charger_pattern None content = None) in H0. congruence.
  - destruct (on_charger_found (prev_after None (x :: u1)) v1 v2 v3' R'' Hb)
      as [mo' Hmo']; auto.
    rewrite <- Eold in Hmo'.
    rewrite (prev_after_nonempty None (prev_after None a) (x :: u1)) in Hmo'
      by discriminate.
    rewrite <- prev_after_app in Hmo'.
    rewrite (Hnone (a ++ x :: u1) (l ++ b)) in Hmo'; [discriminate|].
    rewrite Ea. now rewrite <- !app_assoc.
Qed.

(** Patching a text without an [on charger] line a second time changes
    nothing. *)
Lemma repatch_added (content : text) :
  search on_charger_pattern content = None ->
  patch_init_rc (patch_init_rc content) = patch_init_rc content.
Proof.
  intro Hs.
  assert (E : patch_init_rc content
              = (strip content ++ block_lead) ++ block_line ++ block_body).
  { unfold patch_init_rc. rewrite Hs, block_parts. now rewrite <- app_assoc. }
  rewrite E. set (sc := strip content).
  assert (Hsearch : search on_charger_pattern ((sc ++ block_lead) ++ block_line ++ block_body)
                    = Some (length (sc ++ block_lead),
                            length (sc ++ block_lead) + length block_line)).
  { unfold search. rewrite search_from_skip.
    - rewrite prev_after_app.
      change (prev_after (prev_after None sc) block_lead) with (Some nl).
      now rewrite (search_from_here _ _ _ _ _ block_line_match).
    - intros u1 u2 E2 Hne. apply app_eq_app in E2.
      destruct E2 as [l [[Eu E2]|[Eu1 Ec]]].
      + destruct l as [|d l].
        * rewrite app_nil_r in Eu. cbn [app] in E2. subst u2. rewrite <- Eu.
          apply no_on_here_charger.
          apply (all_positions_spec no_on_here block_lead (prev_after None sc)
                   (lead_positions _) [] block_lead eq_refl). discriminate.
        * subst u2. rewrite <- app_assoc.
          apply (stripped_no_match content u1 (d :: l)); auto. discriminate.
      + subst u1. rewrite prev_after_app. apply no_on_here_charger.
        exact (all_positions_spec no_on_here block_lead (prev_after None sc)
                 (lead_positions _) l u2 Ec Hne). }
  rewrite (patch_at_match (sc ++ block_lead) block_line block_body Hsearch).
  now rewrite block_body_complete.
Qed.

(** X24: Patching init.rc twice gives what patching it once gives: neither the
    comment nor a command is put in a second time. *)
Theorem init_rc_idempotent (content : text) :
  patch_init_rc (patch_init_rc content) = patch_init_rc content.
Proof.
  destruct (search on_charger_pattern content) as [[s e]|] eqn:Hs.
  - exact (repatch_found content s e Hs).
  - exact (repatch_added content Hs).
Qed.
